(** * libcifpp: the CIF tokenizer, the cell store, the data block and the
      item validator, embedded from the C++ sources.

    Conventions of the embedding.
    - [std::string] and [std::string_view] are [string]; a [char] is an
      [ascii]; an [int] holding a character (the tokenizer's [ch]) is a [Z],
      with [kEOF = -1].  [char] is a signed 8-bit type (x86-64 ABI).
    - [uint16_t] and [size_t] values are [Z] with the wrap-around written out.
    - A C++ exception is the [Err] case of [result]. *)

From Stdlib Require Import ZArith List String Ascii Bool Lia Permutation.
Import ListNotations.
Open Scope string_scope.
Open Scope Z_scope.

(** ** Exceptions *)

Inductive exception : Type :=
| runtime_error (msg : string)
| validation_error (msg : string)
| duplicate_key_error (msg : string)
| parse_error (line_nr : Z) (msg : string).

Inductive result (A : Type) : Type :=
| Ok (a : A)
| Err (e : exception).
Arguments Ok {A} a.
Arguments Err {A} e.

Definition bind {A B : Type} (r : result A) (k : A -> result B) : result B :=
  match r with
  | Ok a => k a
  | Err e => Err e
  end.

Notation "'do' x <- r ; k" := (bind r (fun x => k))
  (at level 10, x name, r at level 100, k at level 200).

Definition is_ok {A : Type} (r : result A) : bool :=
  match r with Ok _ => true | Err _ => false end.

(** ** Text utilities *)

Module Text.

(** [char] to [int] conversion: sign extension of a signed 8-bit [char]. *)
Definition int_of_char (c : ascii) : Z :=
  let n := Z.of_N (N_of_ascii c) in
  if n <? 128 then n else n - 256.

(** [static_cast<char>(int)]: reduction modulo 2^8. *)
Definition char_of_int (z : Z) : ascii :=
  ascii_of_N (Z.to_N (z mod 256)).

(** [std::char_traits<char>::to_int_type]: the value as [unsigned char]. *)
Definition to_int_type (c : ascii) : Z := Z.of_N (N_of_ascii c).

Definition kEOF : Z := -1.

(** [tolower] of <cctype> in the "C" locale, on an [int]. *)
Definition tolower (ch : Z) : Z :=
  if (65 <=? ch) && (ch <=? 90) then ch + 32 else ch.

Definition tolower_char (c : ascii) : ascii :=
  char_of_int (tolower (int_of_char c)).

(** [std::isspace] in the "C" locale: space, \t, \n, \v, \f, \r. *)
Definition isspace (ch : Z) : bool :=
  (ch =? 32) || ((9 <=? ch) && (ch <=? 13)).

(** [std::isdigit]. *)
Definition isdigit (ch : Z) : bool :=
  (48 <=? ch) && (ch <=? 57).

Fixpoint to_lower_copy (s : string) : string :=
  match s with
  | EmptyString => EmptyString
  | String c s' => String (tolower_char c) (to_lower_copy s')
  end.

(** Modelled from the spec: [iequals] of text.cpp, which is not among the
    sources; "ASCII-only, bytewise, lower-casing A-Z only". *)
Fixpoint iequals (a b : string) : bool :=
  match a, b with
  | EmptyString, EmptyString => true
  | String x a', String y b' =>
      Ascii.eqb (tolower_char x) (tolower_char y) && iequals a' b'
  | _, _ => false
  end.

End Text.

(** ** Item values: include/cif++/v2/item.hpp and category.hpp *)

Module ItemValue.

Definition uint16_max : Z := 65535.                (* numeric_limits<uint16_t>::max() *)
Definition size_t_modulus : Z := 2 ^ 64.

Definition to_uint16 (z : Z) : Z := z mod 65536.    (* static_cast<uint16_t> *)
Definition size_t_add (a b : Z) : Z := (a + b) mod size_t_modulus.

(** [item_value::kBufferSize = sizeof(m_local_data)]. *)
Definition kBufferSize : Z := 8.

(** The anonymous union of [item_value]: the inline buffer [m_local_data] or
    the heap buffer [m_data].  The bytes are those written by [create_item]:
    the text followed by the terminating zero. *)
Inductive storage : Type :=
| m_local_data (bytes : string)
| m_data (bytes : string).

Record item_value : Type := mk_item_value {
  m_column_ix : Z;
  m_length : Z;
  m_storage : storage
}.

Definition NUL : ascii := Ascii.zero.

Definition strlen (s : string) : Z := Z.of_nat (String.length s).

Definition storage_bytes (s : storage) : string :=
  match s with m_local_data b => b | m_data b => b end.

Definition is_heap (s : storage) : bool :=
  match s with m_local_data _ => false | m_data _ => true end.

(** [item_value::text()]: [m_length] bytes of the buffer in use. *)
Definition text (iv : item_value) : string :=
  String.substring 0 (Z.to_nat (m_length iv)) (storage_bytes (m_storage iv)).

(** [category::create_item(uint16_t column_ix, std::string_view text)]. *)
Definition create_item (column_ix : Z) (txt : string) : result item_value :=
  let text_length := strlen txt in
  if size_t_add text_length 1 >? uint16_max then
    Err (runtime_error "libcifpp does not support string lengths longer than 65535 bytes")
  else
    let data := txt ++ String NUL "" in
    Ok {| m_column_ix := column_ix;
          m_length := to_uint16 text_length;
          m_storage := if text_length >=? kBufferSize
                       then m_data data
                       else m_local_data data |}.

End ItemValue.

(** ** Regular expressions: the part of [std::regex] (ECMAScript grammar)
       that the scanner's reserved-word pattern uses.  [regex_match] decides
       whether the whole subject matches, by Brzozowski derivatives. *)

Module Regex.
Import Text.

Inductive regex : Type :=
| Empty                      (* matches nothing *)
| Eps                        (* the empty pattern *)
| Bol                        (* ^ *)
| Chr (c : ascii)            (* a literal character *)
| Any                        (* . : any character but a line terminator *)
| Seq (r1 r2 : regex)
| Alt (r1 r2 : regex)        (* r1|r2 *)
| Star (r : regex).          (* r* *)

Definition Plus (r : regex) : regex := Seq r (Star r).      (* r+ *)

Fixpoint Lit (s : string) : regex :=
  match s with
  | EmptyString => Eps
  | String c s' => Seq (Chr c) (Lit s')
  end.

(** [bol]: the position is the beginning of the subject. *)
Fixpoint nullable (bol : bool) (r : regex) : bool :=
  match r with
  | Empty => false
  | Eps => true
  | Bol => bol
  | Chr _ => false
  | Any => false
  | Seq r1 r2 => nullable bol r1 && nullable bol r2
  | Alt r1 r2 => nullable bol r1 || nullable bol r2
  | Star _ => true
  end.

Definition seq (r1 r2 : regex) : regex :=
  match r1, r2 with
  | Empty, _ => Empty
  | _, Empty => Empty
  | Eps, _ => r2
  | _, _ => Seq r1 r2
  end.

Definition alt (r1 r2 : regex) : regex :=
  match r1, r2 with
  | Empty, _ => r2
  | _, Empty => r1
  | _, _ => Alt r1 r2
  end.

Definition is_line_terminator (c : ascii) : bool :=
  (to_int_type c =? 10) || (to_int_type c =? 13).

Definition chr_matches (icase : bool) (pat c : ascii) : bool :=
  if icase then Ascii.eqb (tolower_char pat) (tolower_char c)
  else Ascii.eqb pat c.

(** The derivative of [r] by the character [c] read at a position that is
    ([bol]) or is not the beginning of the subject. *)
Fixpoint deriv (icase bol : bool) (c : ascii) (r : regex) : regex :=
  match r with
  | Empty | Eps | Bol => Empty
  | Chr pat => if chr_matches icase pat c then Eps else Empty
  | Any => if is_line_terminator c then Empty else Eps
  | Seq r1 r2 =>
      let d1 := seq (deriv icase bol c r1) r2 in
      if nullable bol r1 then alt d1 (deriv icase bol c r2) else d1
  | Alt r1 r2 => alt (deriv icase bol c r1) (deriv icase bol c r2)
  | Star r1 => seq (deriv icase bol c r1) (Star r1)
  end.

Fixpoint matches_from (icase bol : bool) (r : regex) (s : string) : bool :=
  match s with
  | EmptyString => nullable bol r
  | String c s' => matches_from icase false (deriv icase bol c r) s'
  end.

(** [std::regex_match(s, rx)]; [icase] is [std::regex_constants::icase]. *)
Definition regex_match (icase : bool) (s : string) (r : regex) : bool :=
  matches_from icase true r s.

End Regex.

(** ** The tokenizer: include/cif++/v2/parser.hpp ([V2]) and the older
       src/parser.cpp ([V1]).  The two scanners differ in [get_next_char],
       in [retract] and in the [State::Value] case only. *)

Module Parser.
Import Text.

Inductive impl : Type :=
| V2   (* sac_parser of include/cif++/v2/parser.hpp *)
| V1.  (* sac_parser of src/parser.cpp *)

(** [enum CharTraitsMask]. *)
Definition kOrdinaryMask : Z := Z.shiftl 1 0.
Definition kNonBlankMask : Z := Z.shiftl 1 1.
Definition kTextLeadMask : Z := Z.shiftl 1 2.
Definition kAnyPrintMask : Z := Z.shiftl 1 3.

(** [kCharTraitsTable]: rows 0x20 .. 0x7f; the remaining entries of the
    128-element array are zero-initialised. *)
Definition kCharTraitsTable : list Z :=
  [ 14; 15; 14; 14; 14; 15; 15; 14; 15; 15; 15; 15; 15; 15; 15; 15;
    15; 15; 15; 15; 15; 15; 15; 15; 15; 15; 15; 10; 15; 15; 15; 15;
    15; 15; 15; 15; 15; 15; 15; 15; 15; 15; 15; 15; 15; 15; 15; 15;
    15; 15; 15; 15; 15; 15; 15; 15; 15; 15; 15; 14; 15; 14; 15; 14;
    15; 15; 15; 15; 15; 15; 15; 15; 15; 15; 15; 15; 15; 15; 15; 15;
    15; 15; 15; 15; 15; 15; 15; 15; 15; 15; 15; 15; 15; 15; 15; 0 ].

Definition table_at (ix : Z) : Z := nth (Z.to_nat ix) kCharTraitsTable 0.

Definition is_white (ch : Z) : bool :=
  isspace ch || (ch =? 35).                                    (* '#' *)

Definition is_ordinary (ch : Z) : bool :=
  (ch >=? 32) && (ch <=? 127) &&
  negb (Z.land (table_at (ch - 32)) kOrdinaryMask =? 0).

Definition is_non_blank (ch : Z) : bool :=
  (ch >? 32) && (ch <=? 127) &&
  negb (Z.land (table_at (ch - 32)) kNonBlankMask =? 0).

Definition is_text_lead (ch : Z) : bool :=
  (ch >=? 32) && (ch <=? 127) &&
  negb (Z.land (table_at (ch - 32)) kTextLeadMask =? 0).

Definition is_any_print (ch : Z) : bool :=
  (ch =? 9) ||
  ((ch >=? 32) && (ch <=? 127) &&
   negb (Z.land (table_at (ch - 32)) kAnyPrintMask =? 0)).

Inductive CIFToken : Type :=
| CIFToken_Unknown | CIFToken_Eof | CIFToken_DATA | CIFToken_LOOP
| CIFToken_GLOBAL | CIFToken_SAVE | CIFToken_STOP | CIFToken_Tag
| CIFToken_Value.

Inductive CIFValue : Type :=
| CIFValue_Int | CIFValue_Float | CIFValue_Numeric | CIFValue_String
| CIFValue_TextField | CIFValue_Inapplicable | CIFValue_Unknown.

(** [enum State]; [State_TextField_1] is [State::TextField + 1],
    [State_Float_n] is [State::Float + n], [State_Int_1] is [State::Int + 1]. *)
Inductive State : Type :=
| State_Start | State_White | State_Comment
| State_QuotedString | State_QuotedStringQuote
| State_Tag | State_TextField | State_TextField_1
| State_Float | State_Float_1 | State_Float_2 | State_Float_3
| State_Float_4 | State_Float_5
| State_Int | State_Int_1
| State_Value | State_DATA | State_SAVE.

(** The members of [sac_parser] the scanner uses.  [mData] is the rest of
    the input stream, [mBuffer] the push-back stack with its top first. *)
Record sac_parser : Type := mk_parser {
  mData : list Z;
  mBuffer : list Z;
  mTokenValue : string;
  mTokenType : CIFValue;
  m_line_nr : Z;
  m_bol : bool
}.

Definition uint32 (z : Z) : Z := z mod 2 ^ 32.

Definition set_token (p : sac_parser) (v : string) : sac_parser :=
  mk_parser (mData p) (mBuffer p) v (mTokenType p) (m_line_nr p) (m_bol p).
Definition set_type (p : sac_parser) (t : CIFValue) : sac_parser :=
  mk_parser (mData p) (mBuffer p) (mTokenValue p) t (m_line_nr p) (m_bol p).
Definition set_bol (p : sac_parser) (b : bool) : sac_parser :=
  mk_parser (mData p) (mBuffer p) (mTokenValue p) (mTokenType p) (m_line_nr p) b.

(** [std::string::back] and [pop_back]. *)
Fixpoint back (s : string) : option ascii :=
  match s with
  | EmptyString => None
  | String c EmptyString => Some c
  | String _ s' => back s'
  end.

Fixpoint pop_back (s : string) : string :=
  match s with
  | EmptyString => EmptyString
  | String _ EmptyString => EmptyString
  | String c s' => String c (pop_back s')
  end.

Definition push_back (s : string) (c : ascii) : string := s ++ String c "".

(** [std::string::substr(pos, n)] for [pos <= length]: [n] is a [size_t],
    and at most [length - pos] characters are taken. *)
Definition substr (s : string) (pos : Z) (n : Z) : string :=
  let count := Z.min (n mod 2 ^ 64) (ItemValue.strlen s - pos) in
  String.substring (Z.to_nat pos) (Z.to_nat count) s.

(** [s.erase(s.begin(), s.begin() + n)]. *)
Fixpoint erase_front (n : nat) (s : string) : string :=
  match n, s with
  | S n', String _ s' => erase_front n' s'
  | _, _ => s
  end.

(** [mData.get()] / [m_source.sbumpc()]. *)
Definition stream_get (p : sac_parser) : Z * sac_parser :=
  match mData p with
  | [] => (kEOF, p)
  | c :: d => (c, mk_parser d (mBuffer p) (mTokenValue p) (mTokenType p)
                            (m_line_nr p) (m_bol p))
  end.

Definition buffer_push (p : sac_parser) (ch : Z) : sac_parser :=
  mk_parser (mData p) (ch :: mBuffer p) (mTokenValue p) (mTokenType p)
            (m_line_nr p) (m_bol p).

Definition CR : Z := 13.
Definition LF : Z := 10.

(** [getNextChar] ([V2]) and [get_next_char] ([V1]). *)
Definition get_next_char (i : impl) (p : sac_parser) : Z * sac_parser :=
  let '(result, p) :=
    match mBuffer p with
    | [] => stream_get p
    | top :: rest =>
        (top, mk_parser (mData p) rest (mTokenValue p) (mTokenType p)
                        (m_line_nr p) (m_bol p))
    end in
  (* very simple CR/LF translation into LF *)
  let '(result, p) :=
    if result =? CR then
      let '(lookahead, p) := stream_get p in
      let p := if lookahead =? LF then p else buffer_push p lookahead in
      (LF, p)
    else (result, p) in
  let p :=
    match i with
    | V2 => set_token p (push_back (mTokenValue p) (char_of_int result))
    | V1 => if result =? kEOF
            then set_token p (push_back (mTokenValue p) Ascii.zero)
            else set_token p (push_back (mTokenValue p) (char_of_int result))
    end in
  let p :=
    if result =? LF
    then mk_parser (mData p) (mBuffer p) (mTokenValue p) (mTokenType p)
                   (uint32 (m_line_nr p + 1)) (m_bol p)
    else p in
  (result, p).

(** [retract]; the source asserts that the token is not empty. *)
Definition retract (i : impl) (p : sac_parser) : sac_parser :=
  match back (mTokenValue p) with
  | None => p
  | Some ch =>
      let line := if int_of_char ch =? LF
                  then uint32 (m_line_nr p - 1) else m_line_nr p in
      let pushed :=
        match i with
        | V2 => int_of_char ch
        | V1 => if int_of_char ch =? 0 then kEOF else to_int_type ch
        end in
      mk_parser (mData p) (pushed :: mBuffer p) (pop_back (mTokenValue p))
                (mTokenType p) line (m_bol p)
  end.

(** [while (not mTokenValue.empty()) retract();] *)
Fixpoint retract_n (i : impl) (n : nat) (p : sac_parser) : sac_parser :=
  match n with
  | O => p
  | S n' => retract_n i n' (retract i p)
  end.

Definition retract_all (i : impl) (p : sac_parser) : sac_parser :=
  retract_n i (String.length (mTokenValue p)) p.

Definition error {A : Type} (p : sac_parser) (msg : string) : result A :=
  Err (parse_error (m_line_nr p) msg).

(** [restart(start)]: rewind the token and go one step down the ladder. *)
Definition restart (i : impl) (start : State) (p : sac_parser)
  : result (State * sac_parser) :=
  let p := retract_all i p in
  do result <-
    match start with
    | State_Start => Ok State_Float
    | State_Float => Ok State_Int
    | State_Int => Ok State_Value
    | _ => error p "Invalid state in SacParser"
    end;
  Ok (result, set_bol p false).

(** The local variables of [get_next_token]. *)
Record locals : Type := mk_locals {
  state : State;
  start : State;
  quoteChar : Z
}.

Inductive outcome : Type :=
| Continue (l : locals)
| Done (result : CIFToken).

Definition goto (l : locals) (s : State) : locals :=
  mk_locals s (start l) (quoteChar l).

(** [state = start = restart(start);] *)
Definition do_restart (i : impl) (l : locals) (p : sac_parser)
  : result (outcome * sac_parser) :=
  do r <- restart i (start l) p;
  Ok (Continue (mk_locals (fst r) (fst r) (quoteChar l)), snd r).

(** The number is complete: [retract(); result = Value; mTokenType = t;] *)
Definition accept_number (i : impl) (t : CIFValue) (p : sac_parser)
  : result (outcome * sac_parser) :=
  Ok (Done CIFToken_Value, set_type (retract i p) t).

Definition char_code (c : string) : Z :=
  match c with String a _ => int_of_char a | EmptyString => 0 end.

(** [case State::Value] of include/cif++/v2/parser.hpp. *)
Definition value_state_V2 (l : locals) (ch : Z) (p : sac_parser)
  : result (outcome * sac_parser) :=
  let s := to_lower_copy (mTokenValue p) in
  let reserved :=
    if ch =? char_code "_" then
      if String.eqb s "global_" then Some (Done CIFToken_GLOBAL)
      else if String.eqb s "stop_" then Some (Done CIFToken_STOP)
      else if String.eqb s "loop_" then Some (Done CIFToken_LOOP)
      else if String.eqb s "data_" then Some (Continue (goto l State_DATA))
      else if String.eqb s "save_" then Some (Continue (goto l State_SAVE))
      else None
    else None in
  match reserved with
  | Some o => Ok (o, p)
  | None =>
      if negb (is_non_blank ch) then
        let p := retract V2 p in
        let p :=
          if String.eqb (mTokenValue p) "." then set_type p CIFValue_Inapplicable
          else if String.eqb (mTokenValue p) "?"
               then set_token (set_type p CIFValue_Unknown) ""
               else p in
        Ok (Done CIFToken_Value, p)
      else Ok (Continue l, p)
  end.

(** [case State::Value] of src/parser.cpp. *)
Definition value_state_V1 (l : locals) (ch : Z) (p : sac_parser)
  : result (outcome * sac_parser) :=
  let s := to_lower_copy (mTokenValue p) in
  let reserved :=
    if ch =? char_code "_" then
      if String.eqb s "data_" then Some (Continue (goto l State_DATA))
      else if String.eqb s "save_" then Some (Continue (goto l State_SAVE))
      else None
    else None in
  match reserved with
  | Some o => Ok (o, p)
  | None =>
      if negb (is_non_blank ch) then
        let p := retract V1 p in
        if String.eqb (mTokenValue p) "." then
          Ok (Done CIFToken_Value, set_type p CIFValue_Inapplicable)
        else if iequals (mTokenValue p) "global_" then Ok (Done CIFToken_GLOBAL, p)
        else if iequals (mTokenValue p) "stop_" then Ok (Done CIFToken_STOP, p)
        else if iequals (mTokenValue p) "loop_" then Ok (Done CIFToken_LOOP, p)
        else if String.eqb (mTokenValue p) "?" then
          Ok (Done CIFToken_Value, set_token (set_type p CIFValue_Unknown) "")
        else Ok (Done CIFToken_Value, p)
      else Ok (Continue l, p)
  end.

(** One iteration of [while (result == CIFToken::Unknown)], after
    [auto ch = getNextChar();].  [warning] only prints. *)
Definition step (i : impl) (l : locals) (ch : Z) (p : sac_parser)
  : result (outcome * sac_parser) :=
  match state l with
  | State_Start =>
      if ch =? kEOF then Ok (Done CIFToken_Eof, p)
      else if ch =? LF then Ok (Continue (goto l State_White), set_bol p true)
      else if (ch =? char_code " ") || (ch =? 9) then
        Ok (Continue (goto l State_White), p)
      else if ch =? char_code "#" then Ok (Continue (goto l State_Comment), p)
      else if ch =? char_code "_" then Ok (Continue (goto l State_Tag), p)
      else if (ch =? char_code ";") && m_bol p then
        Ok (Continue (goto l State_TextField), p)
      else if (ch =? char_code "'") || (ch =? 34) then
        Ok (Continue (mk_locals State_QuotedString (start l) ch), p)
      else do_restart i l p

  | State_White =>
      if ch =? kEOF then Ok (Done CIFToken_Eof, p)
      else if negb (isspace ch) then
        Ok (Continue (goto l State_Start), set_token (retract i p) "")
      else Ok (Continue l, set_bol p (ch =? LF))

  | State_Comment =>
      if ch =? LF then
        Ok (Continue (goto l State_Start), set_token (set_bol p true) "")
      else if ch =? kEOF then Ok (Done CIFToken_Eof, p)
      else if negb (is_any_print ch) then error p "invalid character in comment"
      else Ok (Continue l, p)

  | State_TextField =>
      if ch =? LF then Ok (Continue (goto l State_TextField_1), p)
      else if ch =? kEOF then error p "unterminated textfield"
      else Ok (Continue l, p)

  | State_TextField_1 =>
      if is_text_lead ch || (ch =? char_code " ") || (ch =? 9) then
        Ok (Continue (goto l State_TextField), p)
      else if ch =? char_code ";" then
        let v := mTokenValue p in
        let p := set_token p (substr v 1 (ItemValue.strlen v - 3)) in
        Ok (Done CIFToken_Value, set_type p CIFValue_TextField)
      else if ch =? kEOF then error p "unterminated textfield"
      else if negb (ch =? LF) then error p "invalid character in text field"
      else Ok (Continue l, p)

  | State_QuotedString =>
      if ch =? kEOF then error p "unterminated quoted string"
      else if ch =? quoteChar l then
        Ok (Continue (goto l State_QuotedStringQuote), p)
      else Ok (Continue l, p)

  | State_QuotedStringQuote =>
      if is_white ch then
        let p := set_type (retract i p) CIFValue_String in
        let v := mTokenValue p in
        if ItemValue.strlen v <? 2 then error p "Invalid quoted string token"
        else Ok (Done CIFToken_Value,
                 set_token p (substr v 1 (ItemValue.strlen v - 2)))
      else if ch =? quoteChar l then Ok (Continue l, p)
      else if is_any_print ch then Ok (Continue (goto l State_QuotedString), p)
      else if ch =? kEOF then error p "unterminated quoted string"
      else error p "invalid character in quoted string"

  | State_Tag =>
      if negb (is_non_blank ch) then Ok (Done CIFToken_Tag, retract i p)
      else Ok (Continue l, p)

  | State_Float =>
      if (ch =? char_code "+") || (ch =? char_code "-") then
        Ok (Continue (goto l State_Float_1), p)
      else if isdigit ch then Ok (Continue (goto l State_Float_1), p)
      else do_restart i l p

  | State_Float_1 =>
      if ch =? char_code "." then Ok (Continue (goto l State_Float_2), p)
      else if tolower ch =? char_code "e" then
        Ok (Continue (goto l State_Float_3), p)
      else if is_white ch || (ch =? kEOF) then accept_number i CIFValue_Int p
      else do_restart i l p

  | State_Float_2 =>
      if tolower ch =? char_code "e" then
        Ok (Continue (goto l State_Float_3), p)
      else if is_white ch || (ch =? kEOF) then accept_number i CIFValue_Float p
      else do_restart i l p

  | State_Float_3 =>
      if (ch =? char_code "-") || (ch =? char_code "+") then
        Ok (Continue (goto l State_Float_4), p)
      else if isdigit ch then Ok (Continue (goto l State_Float_5), p)
      else do_restart i l p

  | State_Float_4 =>
      if isdigit ch then Ok (Continue (goto l State_Float_5), p)
      else do_restart i l p

  | State_Float_5 =>
      if is_white ch || (ch =? kEOF) then accept_number i CIFValue_Float p
      else do_restart i l p

  | State_Int =>
      if isdigit ch || (ch =? char_code "+") || (ch =? char_code "-") then
        Ok (Continue (goto l State_Int_1), p)
      else do_restart i l p

  | State_Int_1 =>
      if is_white ch || (ch =? kEOF) then accept_number i CIFValue_Int p
      else do_restart i l p

  | State_Value =>
      match i with
      | V2 => value_state_V2 l ch p
      | V1 => value_state_V1 l ch p
      end

  | State_DATA | State_SAVE =>
      if negb (is_non_blank ch) then
        let p := retract i p in
        let result := match state l with
                      | State_DATA => CIFToken_DATA
                      | _ => CIFToken_SAVE
                      end in
        Ok (Done result, set_token p (erase_front 5 (mTokenValue p)))
      else Ok (Continue l, p)
  end.

(** A scanned token: what [get_next_token] returns, and the parser with
    [mTokenValue] and [mTokenType] set. *)
Inductive run (A : Type) : Type :=
| Returns (a : A)
| Throws (e : exception)
| OutOfFuel.
Arguments Returns {A} a.
Arguments Throws {A} e.
Arguments OutOfFuel {A}.

(** The loop of [get_next_token]; [fuel] bounds the number of iterations. *)
Fixpoint scan (i : impl) (fuel : nat) (l : locals) (p : sac_parser)
  : run (CIFToken * sac_parser) :=
  match fuel with
  | O => OutOfFuel
  | S fuel' =>
      let '(ch, p) := get_next_char i p in
      match step i l ch p with
      | Err e => Throws e
      | Ok (Done t, p) => Returns (t, p)
      | Ok (Continue l', p) => scan i fuel' l' p
      end
  end.

Definition get_next_token (i : impl) (fuel : nat) (p : sac_parser)
  : run (CIFToken * sac_parser) :=
  let l := mk_locals State_Start State_Start 0 in
  let p := mk_parser (mData p) (mBuffer p) "" CIFValue_Unknown
                     (m_line_nr p) false in
  scan i fuel l p.

(** A parser about to read [input], as the constructor leaves it. *)
Definition parser_on (input : list Z) : sac_parser :=
  mk_parser input [] "" CIFValue_Unknown 1 true.

(** The bytes of a string, as the stream delivers them. *)
Fixpoint bytes (s : string) : list Z :=
  match s with
  | EmptyString => []
  | String c s' => to_int_type c :: bytes s'
  end.

(** The characters of a [const char *]: up to the first zero byte. *)
Fixpoint c_str (s : string) : string :=
  match s with
  | EmptyString => EmptyString
  | String c s' =>
      if Ascii.eqb c Ascii.zero then EmptyString else String c (c_str s')
  end.

(** [reservedRx]: (^(?:data|save)|.*(?:loop|stop|global))_.+ with [icase]. *)
Definition reservedRx : Regex.regex :=
  Regex.Seq
    (Regex.Alt
       (Regex.Seq Regex.Bol (Regex.Alt (Regex.Lit "data") (Regex.Lit "save")))
       (Regex.Seq (Regex.Star Regex.Any)
          (Regex.Alt (Regex.Lit "loop")
             (Regex.Alt (Regex.Lit "stop") (Regex.Lit "global")))))
    (Regex.Seq (Regex.Chr "_") (Regex.Plus Regex.Any)).

(** The loop over the characters after the first, up to the terminating
    zero, that stops at the first character that is not non-blank. *)
Fixpoint non_blank_tail (s : string) : bool :=
  match s with
  | EmptyString => true
  | String c s' => is_non_blank (int_of_char c) && non_blank_tail s'
  end.

(** [sac_parser::is_unquoted_string(const char *s)]. *)
Definition is_unquoted_string (s : string) : bool :=
  let ss := c_str s in
  let result :=
    match ss with
    | EmptyString => is_ordinary 0
    | String c tail => is_ordinary (int_of_char c) && non_blank_tail tail
    end in
  (* but be careful it does not contain e.g. stop_ *)
  if result then negb (Regex.regex_match true ss reservedRx) else result.

End Parser.

(** ** Lexemes: the shapes of input the scanner properties are stated for *)

Module Lexeme.
Import Text Parser.

Fixpoint all_non_blank (w : string) : bool :=
  match w with
  | EmptyString => true
  | String a w' => is_non_blank (to_int_type a) && all_non_blank w'
  end.

Definition terminated (rest : list Z) : Prop :=
  match rest with
  | [] => True
  | t :: _ => is_non_blank t = false
  end.

Definition value_token (w : string) (t0 : CIFValue) : CIFValue * string :=
  if String.eqb w "." then (CIFValue_Inapplicable, ".")
  else if String.eqb w "?" then (CIFValue_Unknown, "")
  else (t0, w).

(** The character [get_next_char] appends to the token for the [int] it
    returns. *)
Definition token_char (i : impl) (ch : Z) : ascii :=
  match i with
  | V2 => char_of_int ch
  | V1 => if ch =? kEOF then Ascii.zero else char_of_int ch
  end.

(** The characters that [retract] hands back unchanged: a [char] survives
    the conversion to [int] ([V2]); every byte but 0 does ([V1]). *)
Definition pushback_faithful (i : impl) (ch : Z) : Prop :=
  match i with
  | V2 => -128 <= ch < 128
  | V1 => ch = kEOF \/ 1 <= ch <= 255
  end.

(** A blank: space, tab or line feed. *)
Definition is_blank (ch : Z) : bool := (ch =? 32) || (ch =? 9) || (ch =? 10).

(** The characters of a stream as [getNextChar] delivers them: a carriage
    return with the line feed after it, or alone, is one line feed. *)
Fixpoint translate (after_cr : bool) (s : list Z) : list Z :=
  match s with
  | [] => []
  | c :: s' =>
      if after_cr && (c =? LF) then translate false s'
      else if c =? CR then LF :: translate true s'
      else c :: translate false s'
  end.

(** A stream without the ends of file at its end. *)
Fixpoint strip_eof (s : list Z) : list Z :=
  match s with
  | [] => []
  | c :: s' =>
      match strip_eof s' with
      | [] => if c =? kEOF then [] else [c]
      | r => c :: r
      end
  end.

(** What is still to be read: the push-back stack and then the stream. *)
Definition to_read (p : sac_parser) : list Z :=
  strip_eof (translate false (mBuffer p ++ mData p)).

Definition is_byte (c : Z) : bool := (0 <=? c) && (c <=? 255).
Definition is_pushed (c : Z) : bool := (-128 <=? c) && (c <=? 255).

(** A push-back stack as the scanner builds it: a carriage return only at
    its bottom. *)
Fixpoint buffer_ok (b : list Z) : bool :=
  match b with
  | [] => true
  | c :: b' =>
      is_pushed c && (match b' with [] => true | _ => negb (c =? CR) end) &&
      buffer_ok b'
  end.

Fixpoint no_cr (s : string) : bool :=
  match s with
  | EmptyString => true
  | String a s' => negb (to_int_type a =? CR) && no_cr s'
  end.

(** A parser as the scanner leaves it. *)
Definition parser_ok (p : sac_parser) : bool :=
  buffer_ok (mBuffer p) && forallb is_byte (mData p) && no_cr (mTokenValue p).

(** The push-back stack and the stream in [getNextChar]. *)
Definition cr_lookahead (b d : list Z) : Z * (list Z * list Z) :=
  match d with
  | [] => (LF, (kEOF :: b, []))
  | c :: d' => if c =? LF then (LF, (b, d')) else (LF, (c :: b, d'))
  end.

Definition read_char (b d : list Z) : Z * (list Z * list Z) :=
  match b with
  | [] =>
      match d with
      | [] => (kEOF, ([], []))
      | c :: d' => if c =? CR then cr_lookahead [] d' else (c, ([], d'))
      end
  | top :: rest => if top =? CR then cr_lookahead rest d else (top, (rest, d))
  end.

(** What [retract] pushes back for the last character [a] of the token. *)
Definition unread (i : impl) (a : ascii) : Z :=
  match i with
  | V2 => int_of_char a
  | V1 => if int_of_char a =? 0 then kEOF else to_int_type a
  end.

(** The unread characters with [c] pushed back in front of them. *)
Definition push_front (c : Z) (s : list Z) : list Z :=
  match s with
  | [] => if c =? kEOF then [] else [c]
  | _ => c :: s
  end.

(** The parser [p] is as the scanner leaves one, and the characters it is
    about to read, the pushed back ones first, are [s]. *)
Definition reads (p : sac_parser) (s : list Z) : Prop :=
  parser_ok p = true /\ to_read p = s.

(** The line counter after the characters [cs] were read. *)
Fixpoint line_after (line : Z) (cs : list Z) : Z :=
  match cs with
  | [] => line
  | c :: cs' => line_after (if c =? LF then uint32 (line + 1) else line) cs'
  end.

(** The blanks [ws] end in a line feed. *)
Definition after_line_feed (ws : list Z) : bool := last ws 0 =? LF.

(** The turns of the loop that skip the blanks [ws]: one for each blank and
    one for the character that ends them. *)
Definition skipped (ws : list Z) : nat :=
  match ws with
  | [] => 0
  | _ :: _ => S (List.length ws)
  end.

(** The image of a character that was read and is pushed back. *)
Definition pushed (i : impl) (c : Z) : Z := unread i (token_char i c).

(** The unread characters after the first of them, or the end of file, was
    read and pushed back. *)
Definition handed_back (i : impl) (s : list Z) : list Z :=
  push_front (pushed i (hd kEOF s)) (tl s).

(** The end of a number: a white character, or the end of the input. *)
Definition number_end (rest : list Z) : Prop :=
  match rest with
  | [] => True
  | w :: _ => is_white w = true
  end.

Definition is_digit_or_sign (ch : Z) : bool :=
  isdigit ch || (ch =? 43) || (ch =? 45).

(** The words that [State::Float] and the states after it accept, by the
    characters still to come in each state, and their type. *)
Definition float_5 (cs : string) : option CIFValue :=
  match cs with
  | EmptyString => Some CIFValue_Float
  | String _ _ => None
  end.

Definition float_4 (cs : string) : option CIFValue :=
  match cs with
  | EmptyString => None
  | String a cs' => if isdigit (to_int_type a) then float_5 cs' else None
  end.

Definition float_3 (cs : string) : option CIFValue :=
  match cs with
  | EmptyString => None
  | String a cs' =>
      let ch := to_int_type a in
      if (ch =? 45) || (ch =? 43) then float_4 cs'
      else if isdigit ch then float_5 cs'
      else None
  end.

Definition float_2 (cs : string) : option CIFValue :=
  match cs with
  | EmptyString => Some CIFValue_Float
  | String a cs' => if tolower (to_int_type a) =? 101 then float_3 cs' else None
  end.

Definition float_1 (cs : string) : option CIFValue :=
  match cs with
  | EmptyString => Some CIFValue_Int
  | String a cs' =>
      let ch := to_int_type a in
      if ch =? 46 then float_2 cs'
      else if tolower ch =? 101 then float_3 cs'
      else None
  end.

(** The type of the word [w] when the number states accept it. *)
Definition number_type (w : string) : option CIFValue :=
  match w with
  | EmptyString => None
  | String a cs => if is_digit_or_sign (to_int_type a) then float_1 cs else None
  end.

(** One step down the ladder of [restart]. *)
Definition next_start (s : State) : State :=
  match s with
  | State_Start => State_Float
  | State_Float => State_Int
  | _ => State_Value
  end.

(** What the number states make, in at most [fuel] turns of the loop, of
    the word [w] that is followed by [rest]: the word is a number of the
    type [f] says, or the scanner restarts one step down the ladder with
    the word to be read again. *)
Definition number_outcome (i : impl) (w : string) (rest : list Z) (fuel : nat)
    (l : locals) (p : sac_parser) (f : option CIFValue) : Prop :=
  (exists ty p',
     f = Some ty /\
     scan i fuel l p = Returns (CIFToken_Value, p') /\
     mTokenValue p' = w /\ mTokenType p' = ty /\ parser_ok p' = true) \/
  (exists k p' rest',
     (k <= fuel)%nat /\
     (forall n, scan i (k + n) l p =
                scan i n (mk_locals (next_start (start l)) (next_start (start l))
                                    (quoteChar l)) p') /\
     reads p' (bytes w ++ rest') /\
     (rest' = rest \/ rest' = handed_back i rest) /\
     mTokenValue p' = "" /\ mTokenType p' = mTokenType p /\ m_bol p' = false /\
     (number_end rest -> f = None)).

(** The words that [State::Int] and the state after it accept. *)
Definition int_1 (cs : string) : option CIFValue :=
  match cs with
  | EmptyString => Some CIFValue_Int
  | String _ _ => None
  end.

Definition int_type (w : string) : option CIFValue :=
  match w with
  | EmptyString => None
  | String a cs => if is_digit_or_sign (to_int_type a) then int_1 cs else None
  end.

(** The token is one of the words that [State::Value] looks for when an
    underscore was read. *)
Definition reserved_at (i : impl) (s : string) : bool :=
  let s := to_lower_copy s in
  match i with
  | V2 => String.eqb s "global_" || String.eqb s "stop_" || String.eqb s "loop_" ||
          String.eqb s "data_" || String.eqb s "save_"
  | V1 => String.eqb s "data_" || String.eqb s "save_"
  end.

(** The token is one of the words that [State::Value] of parser.cpp looks
    for at the end of the lexeme. *)
Definition reserved_end (i : impl) (s : string) : bool :=
  match i with
  | V2 => false
  | V1 => iequals s "global_" || iequals s "stop_" || iequals s "loop_"
  end.

(** None of the tokens that [State::Value] sees while it reads [d] after
    [pre] is reserved. *)
Fixpoint prefixes_ok (i : impl) (pre d : string) : bool :=
  match d with
  | EmptyString => true
  | String a d' =>
      negb (reserved_at i (push_back pre a)) && prefixes_ok i (push_back pre a) d'
  end.

(** The lexeme [w] is read to its end as a value: the scanner meets none
    of its reserved words on the way. *)
Definition not_reserved (i : impl) (w : string) : bool :=
  prefixes_ok i "" w && negb (reserved_end i w).

(** The first character of a lexeme that [State::Start] hands to the
    ladder of [restart]: not [#], [_] or a quote, and not [;] at the
    beginning of a line. *)
Definition value_lead (bol : bool) (w : string) : bool :=
  match w with
  | EmptyString => false
  | String a _ =>
      let ch := to_int_type a in
      negb ((ch =? 35) || (ch =? 95) || (ch =? 39) || (ch =? 34) ||
            ((ch =? 59) && bol))
  end.

(** What ends the unquoted lexeme [w]: the end of the input, a character
    that is not non-blank, or, after a number, a [#]. *)
Definition lexeme_end (w : string) (rest : list Z) : Prop :=
  match rest with
  | [] => True
  | t :: _ => is_non_blank t = false \/ (t = 35 /\ number_type w <> None)
  end.

(** The type of the value token for the lexeme [w] that is ended by a white
    character or by the end of the input. *)
Definition lexeme_type (w : string) : CIFValue :=
  match number_type w with
  | Some t => t
  | None => fst (value_token w CIFValue_Unknown)
  end.

(** A [#] in [d] comes right after a number: [pre] are the characters
    before [d]. *)
Fixpoint hash_after_number (pre d : string) : bool :=
  match d with
  | EmptyString => false
  | String a d' =>
      ((to_int_type a =? 35) &&
       match number_type pre with Some _ => true | None => false end) ||
      hash_after_number (push_back pre a) d'
  end.

(** The next character, if any, is printable and not white: after a quote
    character it makes the quote a part of the string. *)
Definition content_next (w : string) : bool :=
  match w with
  | EmptyString => true
  | String b _ => is_any_print (to_int_type b) && negb (is_white (to_int_type b))
  end.

(** The body of a quoted string: every quote character [q] in it that is
    not its last character is followed by a printable character that is not
    white.  Any other byte may be in it. *)
Fixpoint quoted_body (q : Z) (body : string) : bool :=
  match body with
  | EmptyString => true
  | String a rest =>
      (if to_int_type a =? q then content_next rest else true) &&
      quoted_body q rest
  end.

End Lexeme.

(** ** Validators: src/validate.cpp *)

Module Validate.
Import Text.

Inductive DDL_PrimitiveType : Type := Char | UChar | Numb.

(** [map_to_primitive_type]. *)
Definition map_to_primitive_type (s : string) : result DDL_PrimitiveType :=
  if iequals s "char" then Ok Char
  else if iequals s "uchar" then Ok UChar
  else if iequals s "numb" then Ok Numb
  else Err (validation_error "Not a known primitive type").

(** [struct type_validator]; [m_rx] is the pattern the regex is compiled
    from. *)
Record type_validator : Type := mk_type_validator {
  m_name : string;
  m_primitive_type : DDL_PrimitiveType;
  m_rx : string
}.

(** The constructor [type_validator(name, type, rx)]: an empty regular
    expression is replaced by [.+]. *)
Definition new_type_validator (name : string) (type : DDL_PrimitiveType)
    (rx : string) : type_validator :=
  mk_type_validator name type (if String.eqb rx "" then ".+" else rx).

(** [struct item_validator]; [m_category] is the name of the category
    validator the item belongs to. *)
Record item_validator : Type := mk_item_validator {
  m_tag : string;
  m_mandatory : bool;
  m_type : option type_validator;
  m_enums : list string;
  m_category : string
}.

(** [struct category_validator]. *)
Record category_validator : Type := mk_category_validator {
  cv_name : string;                               (* m_name *)
  m_keys : list string;
  m_mandatory_fields : list string;
  m_item_validators : list item_validator
}.

(** [struct link_validator]. *)
Record link_validator : Type := mk_link_validator {
  m_link_group_id : Z;
  m_parent_category : string;
  m_parent_keys : list string;
  m_child_category : string;
  m_child_keys : list string
}.

(** [class validator]. *)
Record validator : Type := mk_validator {
  v_name : string;                                (* m_name *)
  m_strict : bool;
  m_type_validators : list type_validator;
  m_category_validators : list category_validator;
  m_link_validators : list link_validator
}.

Section WithRegex.

(** [regex_match(value.begin(), value.end(), *m_rx)] for the regex compiled
    from a pattern: the POSIX-extended engine of the C++ library. *)
Variable regex_impl : string -> string -> bool.

(** The ordering of the set type of [m_enums]: validate.hpp, which declares
    it, is not among the sources.  [enums_less a b] says that [a] comes
    before [b]. *)
Variable enums_less : string -> string -> bool.

(** Two keys that a set with this ordering takes for the same element. *)
Definition enums_equiv (a b : string) : bool :=
  negb (enums_less a b) && negb (enums_less b a).

(** [m_enums.count(std::string{ value })]: a set holds the value once or
    not at all; the item and its type are not consulted. *)
Definition enums_count (iv : item_validator) (value : string) : Z :=
  if existsb (fun e => enums_equiv e value) (m_enums iv) then 1 else 0.

(** [item_validator::operator()]. *)
Definition item_validator_call (iv : item_validator) (value : string)
  : result unit :=
  if negb (String.eqb value "") && negb (String.eqb value "?") &&
     negb (String.eqb value ".") then
    if match m_type iv with
       | Some t => negb (regex_impl (m_rx t) value)
       | None => false
       end
    then Err (validation_error "Value does not match type expression")
    else
      match m_enums iv with
      | [] => Ok tt
      | _ :: _ =>
          if enums_count iv value =? 0
          then Err (validation_error "Value is not in the list of allowed values")
          else Ok tt
      end
  else Ok tt.

End WithRegex.

(** The character loop of [type_validator::compare] for [Char] and [UChar]:
    spaces are collapsed, and [UChar] folds case.  [fuel] bounds the number
    of iterations; reading [ai[1]] at the end of the text finds no space. *)
Fixpoint skip_spaces (s : string) : string :=
  match s with
  | String c s' => if Ascii.eqb c " " then skip_spaces s' else s
  | EmptyString => s
  end.

Fixpoint compare_text (fuel : nat) (uchar : bool) (a b : string) : Z :=
  match fuel with
  | O => 0
  | S fuel' =>
      match a, b with
      | EmptyString, EmptyString => 0
      | EmptyString, String _ _ => -1
      | String _ _, EmptyString => 1
      | String x a', String y b' =>
          let ca := if uchar then tolower_char x else x in
          let cb := if uchar then tolower_char y else y in
          let result := int_of_char ca - int_of_char cb in
          if negb (result =? 0) then result
          else if Ascii.eqb ca " "
               then compare_text fuel' uchar (skip_spaces a') (skip_spaces b')
               else compare_text fuel' uchar a' b'
      end
  end.

Section WithNumbers.

(** The [case DDL_PrimitiveType::Numb] of [compare], which parses both texts
    as [double]. *)
Variable compare_numb : string -> string -> Z.

(** [type_validator::compare]. *)
Definition compare (t : type_validator) (a b : string) : Z :=
  if String.eqb a "" then (if String.eqb b "" then 0 else -1)
  else if String.eqb b "" then 1
  else
    match m_primitive_type t with
    | Numb => compare_numb a b
    | UChar => compare_text (S (String.length a)) true a b
    | Char => compare_text (S (String.length a)) false a b
    end.

End WithNumbers.

(** [category_validator::get_validator_for_item].  Modelled from the spec:
    the ordering of [item_validator] (validate.hpp) is not among the
    sources; tags are compared without case. *)
Definition get_validator_for_item (cv : category_validator) (tag : string)
  : option item_validator :=
  find (fun iv => iequals (m_tag iv) tag) (m_item_validators cv).

(** [validator::report_error]. *)
Definition report_error (v : validator) (msg : string) (fatal : bool)
  : result unit :=
  if m_strict v || fatal then Err (validation_error msg) else Ok tt.

(** [validator::get_links_for_parent] and [get_links_for_child]. *)
Definition get_links_for_parent (v : validator) (category : string)
  : list link_validator :=
  filter (fun l => String.eqb (m_parent_category l) category) (m_link_validators v).

Definition get_links_for_child (v : validator) (category : string)
  : list link_validator :=
  filter (fun l => String.eqb (m_child_category l) category) (m_link_validators v).

End Validate.

(** ** Categories: include/cif++/v2/category.hpp *)

Module Store.
Import Text ItemValue Validate.

(** [class item]: a name and the text of a value. *)
Record item : Type := mk_item {
  name : string;
  value : string
}.

(** [struct row]: the singly linked list of its cells, head first. *)
Definition row : Type := list item_value.

(** [struct category::item_column]. *)
Record item_column : Type := mk_item_column {
  col_name : string;                              (* m_name *)
  col_validator : option item_validator           (* m_validator *)
}.

(** [class category]; [m_rows] is the list from [m_head] to [m_tail]. *)
Record category : Type := mk_category {
  m_name : string;
  m_columns : list item_column;
  m_validator : option validator;
  m_cat_validator : option category_validator;
  m_rows : list row
}.

(** The constructor [category(std::string_view name)]. *)
Definition new_category (name : string) : category :=
  mk_category name [] None None [].

Definition set_columns (c : category) (cols : list item_column) : category :=
  mk_category (m_name c) cols (m_validator c) (m_cat_validator c) (m_rows c).

Definition set_rows (c : category) (rows : list row) : category :=
  mk_category (m_name c) (m_columns c) (m_validator c) (m_cat_validator c) rows.

(** [size()], [empty()], [front()], [back()]. *)
Definition size (c : category) : nat := List.length (m_rows c).
Definition empty (c : category) : bool :=
  match m_rows c with [] => true | _ => false end.
Definition front (c : category) : option row := hd_error (m_rows c).
Definition back (c : category) : option row := last (map Some (m_rows c)) None.

(** [clear()]. *)
Definition clear (c : category) : category := set_rows c [].

(** The loop of [get_column_ix]: the number of columns before the first
    one whose name equals [column_name] without case. *)
Fixpoint column_position (column_name : string) (cols : list item_column) : Z :=
  match cols with
  | [] => 0
  | col :: rest =>
      if iequals column_name (col_name col) then 0
      else 1 + column_position column_name rest
  end.

(** [get_column_ix]: a [uint16_t]. *)
Definition get_column_ix (c : category) (column_name : string) : Z :=
  to_uint16 (column_position column_name (m_columns c)).

(** [get_column_name].  The [std::out_of_range] it throws is written with
    the tag [runtime_error] and its message. *)
Definition get_column_name (c : category) (ix : Z) : result string :=
  if ix >=? Z.of_nat (List.length (m_columns c)) then
    Err (runtime_error "column index is out of range")
  else
    match nth_error (m_columns c) (Z.to_nat ix) with
    | Some col => Ok (col_name col)
    | None => Err (runtime_error "column index is out of range")
    end.

(** [add_column]: the category after the call, and the index or the
    exception. *)
Definition add_column (c : category) (column_name : string)
  : category * result Z :=
  let result := get_column_ix c column_name in
  if result =? Z.of_nat (List.length (m_columns c)) then
    let lookup :=
      match m_cat_validator c with
      | Some cv =>
          match get_validator_for_item cv column_name with
          | Some iv => Ok (Some iv)
          | None =>
              do _ <- match m_validator c with
                      | Some v => report_error v "tag not allowed in category" false
                      | None => Ok tt
                      end;
              Ok None
          end
      | None => Ok None
      end in
    match lookup with
    | Err e => (c, Err e)
    | Ok item_validator =>
        (set_columns c (m_columns c ++ [mk_item_column column_name item_validator]),
         Ok (to_uint16 result))
    end
  else (c, Ok (to_uint16 result)).

(** [create_item(const item &i)]. *)
Definition create_item_for (c : category) (i : item)
  : category * result item_value :=
  let '(c, ix) := add_column c (name i) in
  match ix with
  | Err e => (c, Err e)
  | Ok ix => (c, create_item ix (value i))
  end.

(** The [for] loop of [emplace]: the cells are created one by one and
    appended to the new row [r]. *)
Fixpoint emplace_items (c : category) (r : row) (items : list item)
  : category * result row :=
  match items with
  | [] => (c, Ok r)
  | i :: rest =>
      let '(c, new_item) := create_item_for c i in
      match new_item with
      | Err e => (c, Err e)
      | Ok new_item => emplace_items c (r ++ [new_item])%list rest
      end
  end.

(** The loop of [clone_row]: every cell of [r] is created anew and appended
    to the copy. *)
Fixpoint clone_cells (copy : row) (cells : row) : result row :=
  match cells with
  | [] => Ok copy
  | i :: rest =>
      do v <- create_item (m_column_ix i) (text i);
      clone_cells (copy ++ [v])%list rest
  end.

(** [clone_row]. *)
Definition clone_row (r : row) : result row := clone_cells [] r.

(** The text of the cell of [r] in column [ix]; a row without such a cell
    has the empty text there. *)
Definition row_text (r : row) (ix : Z) : string :=
  match find (fun iv => m_column_ix iv =? ix) r with
  | Some iv => text iv
  | None => ""
  end.

(** A cell of [item] [it] in the column table of [c]. *)
Definition cell_of (c : category) (it : item) (iv : item_value) : Prop :=
  text iv = value it /\
  m_column_ix iv = get_column_ix c (name it) /\
  m_column_ix iv < Z.of_nat (List.length (m_columns c)).

(** The text that [items] give for the name [k]: the value of the first
    item of that name, without regard to case; the empty text when no item
    has the name. *)
Definition item_text (items : list item) (k : string) : string :=
  match find (fun it => iequals (name it) k) items with
  | Some it => value it
  | None => ""
  end.

Section WithLibrary.

Variable regex_impl : string -> string -> bool.
Variable enums_less : string -> string -> bool.
Variable compare_numb : string -> string -> Z.

(** Modelled from the spec: [category::insert_impl] (category.cpp) is not
    among the sources.  "Each value is validated before the row becomes
    observable": the cells of the new row are checked by the item
    validators of their columns. *)
Fixpoint validate_row (c : category) (r : row) : result unit :=
  match r with
  | [] => Ok tt
  | iv :: rest =>
      do _ <- match nth_error (m_columns c) (Z.to_nat (m_column_ix iv)) with
              | Some (mk_item_column _ (Some v)) =>
                  item_validator_call regex_impl enums_less v (text iv)
              | _ => Ok tt
              end;
      validate_row c rest
  end.

(** Modelled from the spec: two rows agree on the key item [k] "under
    UChar-aware compare", that is under [type_validator::compare] of the
    item's type. *)
Definition key_field_equal (c : category) (cv : category_validator)
    (k : string) (r1 r2 : row) : bool :=
  let ix := get_column_ix c k in
  let a := row_text r1 ix in
  let b := row_text r2 ix in
  match get_validator_for_item cv k with
  | Some (mk_item_validator _ _ (Some t) _ _) => compare compare_numb t a b =? 0
  | _ => String.eqb a b
  end.

Definition same_key (c : category) (cv : category_validator) (r1 r2 : row)
  : bool :=
  forallb (fun k => key_field_equal c cv k r1 r2) (m_keys cv).

(** Modelled from the spec: [category::insert_impl(cend(), n)].  "Inserts at
    the tail; if a primary key is configured, reject (DuplicateKey) when
    another row already has the same key under UChar-aware compare." *)
Definition insert_impl (c : category) (n : row) : category * result unit :=
  match validate_row c n with
  | Err e => (c, Err e)
  | Ok _ =>
      let duplicate :=
        match m_cat_validator c with
        | Some cv =>
            match m_keys cv with
            | [] => false
            | _ :: _ => existsb (same_key c cv n) (m_rows c)
            end
        | None => false
        end in
      if duplicate then (c, Err (duplicate_key_error "Duplicate Key"))
      else (set_rows c (m_rows c ++ [n]), Ok tt)
  end.

(** [emplace(ItemIter b, ItemIter e)]: when a cell cannot be created the
    new row is deleted and the exception is thrown again. *)
Definition emplace (c : category) (items : list item) : category * result unit :=
  let '(c, r) := emplace_items c [] items in
  match r with
  | Err e => (c, Err e)
  | Ok r => insert_impl c r
  end.

End WithLibrary.

End Store.

(** ** Data blocks: src/datablock.cpp (src/src/v2/condition.cpp) *)

Module Datablock.
Import Text Validate Store.

(** [class datablock : public std::list<category>]. *)
Record datablock : Type := mk_datablock {
  db_name : string;                               (* m_name *)
  db_validator : option validator;                (* m_validator *)
  categories : list category                      (* the std::list base *)
}.

Definition set_categories (db : datablock) (cats : list category) : datablock :=
  mk_datablock (db_name db) (db_validator db) cats.

(** [datablock::get]. *)
Definition get (db : datablock) (name : string) : option category :=
  find (fun c => iequals (m_name c) name) (categories db).

(** The [while] loop of [datablock::emplace]: [before] are the categories
    already passed, [rest] those from the iterator [i] on.  When [i] names
    the category and is not [begin()], it is spliced to the front. *)
Fixpoint find_and_promote (name : string) (before rest : list category)
  : option (list category) :=
  match rest with
  | [] => None
  | i :: rest' =>
      if iequals name (m_name i) then
        Some (match before with
              | [] => i :: rest'
              | _ :: _ => i :: (before ++ rest')%list
              end)
      else find_and_promote name (before ++ [i])%list rest'
  end.

Section WithSetValidator.

(** [category::set_validator(v, db)] (category.cpp) is not among the
    sources; it is called on the category just created. *)
Variable set_validator : option validator -> datablock -> category -> category.

(** [datablock::emplace]: the block after the call, the category [begin()]
    points to, and [is_new]. *)
Definition emplace (db : datablock) (name : string)
  : datablock * option category * bool :=
  match find_and_promote name [] (categories db) with
  | Some cats => (set_categories db cats, hd_error cats, false)
  | None =>
      let c := new_category name in
      let db1 := set_categories db (c :: categories db) in
      let c' := set_validator (db_validator db) db1 c in
      (set_categories db (c' :: categories db), Some c', true)
  end.

(** [datablock::operator[]]. *)
Definition index (db : datablock) (name : string) : datablock * category :=
  match find (fun c => iequals (m_name c) name) (categories db) with
  | Some c => (db, c)
  | None =>
      let cat := new_category name in
      let db1 := set_categories db (categories db ++ [cat]) in
      let cat' := match db_validator db with
                  | Some v => set_validator (Some v) db1 cat
                  | None => cat
                  end in
      (set_categories db (categories db ++ [cat']), cat')
  end.

End WithSetValidator.

End Datablock.

(** ** The update propagator.

    [category::update_value], [category::erase] and [category::is_orphan]
    are declared in category.hpp, but their bodies (category.cpp) are not
    among the sources.  This module follows section 4.I of the
    specification; rows are addressed by their position in the category. *)

Module Propagator.
Import Text ItemValue Validate Store Datablock.

Definition links_of (db : datablock) : list link_validator :=
  match db_validator db with
  | Some v => m_link_validators v
  | None => []
  end.

(** The first category of that name is replaced by [f] of it. *)
Fixpoint update_category (name : string) (f : category -> category)
    (cats : list category) : list category :=
  match cats with
  | [] => []
  | c :: rest =>
      if iequals (m_name c) name then f c :: rest
      else c :: update_category name f rest
  end.

Definition update_rows (db : datablock) (name : string)
    (f : list row -> list row) : datablock :=
  set_categories db
    (update_category name (fun c => set_rows c (f (m_rows c))) (categories db)).

(** The text of the item [name] in the row [r] of the category [c]. *)
Definition field (c : category) (r : row) (name : string) : string :=
  row_text r (get_column_ix c name).

Definition key_tuple (c : category) (r : row) (keys : list string)
  : list string :=
  map (field c r) keys.

Fixpoint tuple_eqb (a b : list string) : bool :=
  match a, b with
  | [], [] => true
  | x :: a', y :: b' => String.eqb x y && tuple_eqb a' b'
  | _, _ => false
  end.

(** Modelled from the spec: the row [ch] of the child category [cc] has
    the full join tuple [vals] for the link group [G]. *)
Definition joins (G : link_validator) (cc : category) (vals : list string)
    (ch : row) : bool :=
  tuple_eqb (key_tuple cc ch (m_child_keys G)) vals.

(** Modelled from the spec: the link group [G'] of the child row [ch]
    "resolves to a live parent": its join columns are all non-empty and a
    row of the parent category has that tuple.  [skip] is the parent row
    that is being updated, which does not count (seed scenario 4 of the
    specification, test [d5]). *)
Definition resolves (db : datablock) (G' : link_validator) (cc : category)
    (ch : row) (skip : option (string * nat)) : bool :=
  let tuple := key_tuple cc ch (m_child_keys G') in
  forallb (fun v => negb (String.eqb v "")) tuple &&
  match get db (m_parent_category G') with
  | None => false
  | Some pc =>
      existsb
        (fun ip : nat * row =>
           negb match skip with
                | Some (cat, ri) => iequals (m_name pc) cat && Nat.eqb (fst ip) ri
                | None => false
                end &&
           tuple_eqb (key_tuple pc (snd ip) (m_parent_keys G')) tuple)
        (combine (seq 0 (List.length (m_rows pc))) (m_rows pc))
  end.

(** Modelled from the spec: "[ch] has other link groups G' (different
    link_group_id) into the same or another parent category that currently
    resolve to some live parent". *)
Definition has_other_parent (db : datablock) (G : link_validator)
    (cc : category) (ch : row) (skip : option (string * nat)) : bool :=
  existsb
    (fun G' =>
       negb (m_link_group_id G' =? m_link_group_id G) &&
       iequals (m_child_category G') (m_child_category G) &&
       resolves db G' cc ch skip)
    (links_of db).

(** Rewriting a cell: the cell of the column is replaced by a new one, and
    a row without such a cell gets one at its end. *)
Fixpoint replace_cell (ix : Z) (nv : item_value) (r : row) : row :=
  match r with
  | [] => [nv]
  | iv :: rest =>
      if m_column_ix iv =? ix then nv :: rest
      else iv :: replace_cell ix nv rest
  end.

Definition set_field (c : category) (r : row) (name value : string)
  : result row :=
  let ix := get_column_ix c name in
  do nv <- create_item ix value;
  Ok (replace_cell ix nv r).

(** Blanking a column: the row loses its cell there. *)
Definition blank_field (c : category) (r : row) (name : string) : row :=
  filter (fun iv => negb (m_column_ix iv =? get_column_ix c name)) r.

Fixpoint rewrite_keys (c : category) (r : row) (keys vals : list string)
  : result row :=
  match keys, vals with
  | k :: keys', v :: vals' =>
      do r' <- set_field c r k v;
      rewrite_keys c r' keys' vals'
  | _, _ => Ok r
  end.

(** The split: "clone [ch] into [ch2] (deep copy of every cell)"; "in
    [ch2], rewrite exactly the columns of G.child_keys to the new parent
    tuple". *)
Definition split_row (cc : category) (G : link_validator)
    (new_vals : list string) (ch : row) : result row :=
  do ch2 <- clone_row ch;
  rewrite_keys cc ch2 (m_child_keys G) new_vals.

(** The child keys that are joined with the parent key [col]. *)
Fixpoint child_keys_of (col : string) (parent_keys child_keys : list string)
  : list string :=
  match parent_keys, child_keys with
  | pk :: pks, ck :: cks =>
      if iequals pk col then ck :: child_keys_of col pks cks
      else child_keys_of col pks cks
  | _, _ => []
  end.

(** [l] with [x] put after its element [j]. *)
Definition insert_after {A : Type} (j : nat) (x : A) (l : list A) : list A :=
  (firstn (S j) l ++ x :: skipn (S j) l)%list.

(** [l] without its element [j]. *)
Definition remove_at {A : Type} (j : nat) (l : list A) : list A :=
  (firstn j l ++ skipn (S j) l)%list.

(** [l] with its element [j] replaced by [x]. *)
Definition replace_at {A : Type} (j : nat) (x : A) (l : list A) : list A :=
  match nth_error l j with
  | Some _ => (firstn j l ++ x :: skipn (S j) l)%list
  | None => l
  end.

Section WithLibrary.

Variable regex_impl : string -> string -> bool.
Variable enums_less : string -> string -> bool.

(** "validating the value against the item validator if present". *)
Definition validate_value (c : category) (col value : string) : result unit :=
  match nth_error (m_columns c) (Z.to_nat (get_column_ix c col)) with
  | Some (mk_item_column _ (Some v)) => item_validator_call regex_impl enums_less v value
  | _ => Ok tt
  end.

Section Cascade.

(** The operation itself, with less fuel, for the rows further down. *)
Variable rec : datablock -> string -> nat -> string -> string
               -> option (result datablock).

(** "Otherwise, rewrite ch's G.child_keys columns in place (recursively -
    the child may itself be a parent elsewhere)".  The child row matched
    the old tuple, so the columns in which it differs from the new tuple
    are those joined with the rewritten parent key: each of them, [cks],
    is rewritten by the operation itself. *)
Fixpoint rewrite_in_place (db : datablock) (cat : string) (j : nat)
    (cks : list string) (value : string) : option (result datablock) :=
  match cks with
  | [] => Some (Ok db)
  | ck :: rest =>
      match rec db cat j ck value with
      | Some (Ok db1) => rewrite_in_place db1 cat j rest value
      | other => other
      end
  end.

(** Step 2 of [set_cell] for the child row at position [j]: a child that
    has another parent is split, any other child is rewritten in place. *)
Definition fix_child (db : datablock) (G : link_validator)
    (skip : string * nat) (new_vals : list string) (cks : list string)
    (value : string) (j : nat) : option (result datablock) :=
  match get db (m_child_category G) with
  | None => Some (Ok db)
  | Some cc =>
      match nth_error (m_rows cc) j with
      | None => Some (Ok db)
      | Some ch =>
          if has_other_parent db G cc ch (Some skip) then
            match split_row cc G new_vals ch with
            | Err e => Some (Err e)
            | Ok ch2 =>
                Some (Ok (update_rows db (m_child_category G) (insert_after j ch2)))
            end
          else rewrite_in_place db (m_child_category G) j cks value
      end
  end.

(** Steps 1 and 2 for the link group [G]: [rows] are the rows of the
    child category when the set S is computed, [j] the position of the
    first of them.  The rows are fixed from the last one to the first, so
    that a clone does not move a row that is still to be fixed. *)
Fixpoint fix_children (db : datablock) (G : link_validator) (cc : category)
    (skip : string * nat) (old_vals new_vals : list string)
    (cks : list string) (value : string) (rows : list row) (j : nat)
  : option (result datablock) :=
  match rows with
  | [] => Some (Ok db)
  | ch :: rest =>
      match fix_children db G cc skip old_vals new_vals cks value rest (S j) with
      | Some (Ok db1) =>
          if joins G cc old_vals ch
          then fix_child db1 G skip new_vals cks value j
          else Some (Ok db1)
      | other => other
      end
  end.

(** The old and the new key tuple of the parent row [r] for the link
    group [G], when its cell [col] is rewritten to [value]. *)
Definition old_tuple (c : category) (r : row) (G : link_validator)
  : list string :=
  key_tuple c r (m_parent_keys G).

Definition new_tuple (c : category) (r : row) (col value : string)
    (G : link_validator) : list string :=
  map (fun pk => if iequals pk col then value else field c r pk)
      (m_parent_keys G).

Definition cascade_link (db : datablock) (c : category) (ri : nat) (r : row)
    (col value : string) (G : link_validator) : option (result datablock) :=
  match get db (m_child_category G) with
  | Some cc =>
      fix_children db G cc (m_name c, ri) (old_tuple c r G)
                   (new_tuple c r col value G)
                   (child_keys_of col (m_parent_keys G) (m_child_keys G))
                   value (m_rows cc) 0
  | None => Some (Ok db)
  end.

Fixpoint cascade_links (db : datablock) (c : category) (ri : nat) (r : row)
    (col value : string) (links : list link_validator)
  : option (result datablock) :=
  match links with
  | [] => Some (Ok db)
  | G :: rest =>
      match cascade_link db c ri r col value G with
      | Some (Ok db1) => cascade_links db1 c ri r col value rest
      | other => other
      end
  end.

End Cascade.

(** The link groups in which [cat] is the parent and [col] a parent key. *)
Definition parent_links (db : datablock) (cat col : string)
  : list link_validator :=
  filter (fun G => iequals (m_parent_category G) cat &&
                   existsb (fun pk => iequals pk col) (m_parent_keys G))
         (links_of db).

(** Modelled from the spec: [set_cell(row, col, new_text)].  [None] says
    that [fuel], the bound on the depth of the cascade, was used up. *)
Fixpoint set_cell (fuel : nat) (db : datablock) (cat : string) (ri : nat)
    (col value : string) : option (result datablock) :=
  match fuel with
  | O => None
  | S fuel' =>
      match get db cat with
      | None => Some (Err (runtime_error "no such category"))
      | Some c =>
          match nth_error (m_rows c) ri with
          | None => Some (Err (runtime_error "no such row"))
          | Some r =>
              match validate_value c col value with
              | Err e => Some (Err e)
              | Ok _ =>
                  match cascade_links (set_cell fuel') db c ri r col value
                                      (parent_links db cat col) with
                  | Some (Ok db1) =>
                      (* 3. after all children have been fixed, rewrite the
                            parent row's cell *)
                      match set_field c r col value with
                      | Err e => Some (Err e)
                      | Ok r' => Some (Ok (update_rows db1 cat (replace_at ri r')))
                      end
                  | other => other
                  end
              end
          end
      end
  end.

End WithLibrary.

Fixpoint blank_keys (c : category) (r : row) (keys : list string) : row :=
  match keys with
  | [] => r
  | k :: keys' => blank_keys c (blank_field c r k) keys'
  end.

Section Orphans.

(** [erase] itself, with less fuel, for the rows further down. *)
Variable rec : datablock -> string -> nat -> option (result datablock).

(** The child row at position [j], whose join tuple for [G] was the key
    of the erased row: it is erased unless another of its link groups
    still resolves; then only the columns of [G] are blanked. *)
Definition orphan_child (db : datablock) (G : link_validator) (j : nat)
  : option (result datablock) :=
  match get db (m_child_category G) with
  | None => Some (Ok db)
  | Some cc =>
      match nth_error (m_rows cc) j with
      | None => Some (Ok db)
      | Some ch =>
          if has_other_parent db G cc ch None then
            Some (Ok (update_rows db (m_child_category G)
                        (replace_at j (blank_keys cc ch (m_child_keys G)))))
          else rec db (m_child_category G) j
      end
  end.

Fixpoint orphan_children (db : datablock) (G : link_validator) (cc : category)
    (key : list string) (rows : list row) (j : nat)
  : option (result datablock) :=
  match rows with
  | [] => Some (Ok db)
  | ch :: rest =>
      match orphan_children db G cc key rest (S j) with
      | Some (Ok db1) =>
          if joins G cc key ch then orphan_child db1 G j else Some (Ok db1)
      | other => other
      end
  end.

Definition erase_link (db : datablock) (c : category) (r : row)
    (G : link_validator) : option (result datablock) :=
  match get db (m_child_category G) with
  | Some cc =>
      orphan_children db G cc (key_tuple c r (m_parent_keys G)) (m_rows cc) 0
  | None => Some (Ok db)
  end.

Fixpoint erase_links (db : datablock) (c : category) (r : row)
    (links : list link_validator) : option (result datablock) :=
  match links with
  | [] => Some (Ok db)
  | G :: rest =>
      match erase_link db c r G with
      | Some (Ok db1) => erase_links db1 c r rest
      | other => other
      end
  end.

End Orphans.

(** The link groups in which [cat] is the parent. *)
Definition child_links (db : datablock) (cat : string) : list link_validator :=
  filter (fun G => iequals (m_parent_category G) cat) (links_of db).

(** Modelled from the spec: [erase(row)].  The row is taken out of its
    category, then the children in every child link group are seen to. *)
Fixpoint erase (fuel : nat) (db : datablock) (cat : string) (ri : nat)
  : option (result datablock) :=
  match fuel with
  | O => None
  | S fuel' =>
      match get db cat with
      | None => Some (Err (runtime_error "no such category"))
      | Some c =>
          match nth_error (m_rows c) ri with
          | None => Some (Err (runtime_error "no such row"))
          | Some r =>
              erase_links (erase fuel') (update_rows db cat (remove_at ri)) c r
                          (child_links db cat)
          end
      end
  end.

(** Modelled from the spec: "mutations are staged and only committed after
    all validations pass".  The store after an operation whose staged
    outcome is [r]: the staged store when the operation succeeded, the
    store as it was when the operation threw. *)
Definition commit (db : datablock) (r : option (result datablock))
  : datablock :=
  match r with
  | Some (Ok db') => db'
  | _ => db
  end.

End Propagator.

(** ** What the propagator theorems say of the rows of a child category *)

Module PropagatorSpec.
Import Text ItemValue Validate Store Datablock Propagator.

(** A cell whose text [create_item] accepts, and a store of such cells. *)
Definition short_cell (iv : item_value) : Prop := strlen (text iv) < 65535.

Definition short_store (db : datablock) : Prop :=
  forall name c, get db name = Some c -> Forall (Forall short_cell) (m_rows c).

(** The text of the cell that the row [r] has in column [ix], if it has
    one. *)
Definition cell (r : row) (ix : Z) : option string :=
  option_map text (find (fun iv => m_column_ix iv =? ix) r).

(** The parent row at position [i] of [pc] is the row that is being
    updated. *)
Definition is_skipped (skip : option (string * nat)) (pc : category)
    (i : nat) : Prop :=
  exists cat, skip = Some (cat, i) /\ iequals (m_name pc) cat = true.

(** The child row [ch] has another surviving parent link: a link group
    [G'] other than [G] whose join columns in [ch] are all filled in and
    are the key of a row [p] of the parent category of [G'], which is not
    the row that is being updated. *)
Definition other_parent (db : datablock) (G : link_validator) (cc : category)
    (ch : row) (skip : option (string * nat)) : Prop :=
  exists G' pc i p,
    In G' (links_of db) /\
    m_link_group_id G' <> m_link_group_id G /\
    iequals (m_child_category G') (m_child_category G) = true /\
    Forall (fun v => v <> "") (key_tuple cc ch (m_child_keys G')) /\
    get db (m_parent_category G') = Some pc /\
    nth_error (m_rows pc) i = Some p /\
    ~ is_skipped skip pc i /\
    key_tuple pc p (m_parent_keys G') = key_tuple cc ch (m_child_keys G').

(** [ix] is the column of one of the child keys of [G]. *)
Definition key_column (cc : category) (G : link_validator) (ix : Z) : Prop :=
  exists ck, In ck (m_child_keys G) /\ get_column_ix cc ck = ix.

(** [ch'] is [ch] with exactly the columns of [G.child_keys] rewritten to
    the tuple [vals]: every other column has the cell it has in [ch]. *)
Definition rewritten (cc : category) (G : link_validator)
    (vals : list string) (ch ch' : row) : Prop :=
  key_tuple cc ch' (m_child_keys G) = vals /\
  forall ix, ~ key_column cc G ix -> cell ch' ix = cell ch ix.

(** [ch'] is [ch] with only the columns of [G.child_keys] blanked. *)
Definition blanked (cc : category) (G : link_validator) (ch ch' : row)
  : Prop :=
  (forall ix, key_column cc G ix -> cell ch' ix = None) /\
  (forall ix, ~ key_column cc G ix -> cell ch' ix = cell ch ix).

Section Ranked.

(** A measure on the names of the categories. *)
Variable rank : string -> nat.

(** No category is its own descendant: every link group goes from a
    category to one of smaller measure, and the measure does not tell the
    letter cases of a name apart. *)
Definition acyclic (db : datablock) : Prop :=
  (forall a b, iequals a b = true -> rank a = rank b) /\
  forall G, In G (links_of db) ->
    (rank (m_child_category G) < rank (m_parent_category G))%nat.

(** The child keys of a link group are different columns of the child
    category. *)
Definition distinct_keys (db : datablock) : Prop :=
  forall G cc, In G (links_of db) -> get db (m_child_category G) = Some cc ->
               NoDup (map (get_column_ix cc) (m_child_keys G)).

(** From [db] to [db'] the link groups, the column table of every
    category, and every category that is not below the category [name]
    stayed as they were, [name] itself apart. *)
Definition untouched_above (name : string) (db db' : datablock) : Prop :=
  links_of db' = links_of db /\
  (forall n, option_map m_columns (get db' n) =
             option_map m_columns (get db n)) /\
  forall n, (rank name <= rank n)%nat -> iequals n name = false ->
            get db' n = get db n.

(** What the cascade relies on when it calls the operation itself for the
    rows further down: for a category of measure below [bound] the call
    returns, and in a store that it returns the cell is rewritten, while
    the link groups and the categories that are not below stayed as they
    were. *)
Definition cell_rewriter (bound : nat)
    (rec : datablock -> string -> nat -> string -> string
           -> option (result datablock)) : Prop :=
  forall db cat j col value,
    (rank cat < bound)%nat -> acyclic db -> distinct_keys db ->
    short_store db -> strlen value < 65535 ->
    exists res,
      rec db cat j col value = Some res /\
      forall db', res = Ok db' ->
        exists c r r',
          get db cat = Some c /\ nth_error (m_rows c) j = Some r /\
          set_field c r col value = Ok r' /\
          get db' cat = Some (set_rows c (replace_at j r' (m_rows c))) /\
          untouched_above cat db db' /\ short_store db'.

(** The same for [erase]: the row is taken out. *)
Definition row_eraser (bound : nat)
    (rec : datablock -> string -> nat -> option (result datablock)) : Prop :=
  forall db cat j,
    (rank cat < bound)%nat -> acyclic db ->
    exists res,
      rec db cat j = Some res /\
      forall db', res = Ok db' ->
        exists c r,
          get db cat = Some c /\ nth_error (m_rows c) j = Some r /\
          get db' cat = Some (set_rows c (remove_at j (m_rows c))) /\
          untouched_above cat db db'.

Section SetCell.

(** The parent row [r], at position [ri] of the category [c], whose cell
    [col] is rewritten to [value]. *)
Variables (c : category) (ri : nat) (r : row) (col value : string).

(** What becomes of the child row [ch] when the link group [G] is seen to
    in the store [db]: [part] are the rows that take its place. *)
Definition fixed_child (db : datablock) (G : link_validator) (cc : category)
    (ch : row) (part : list row) : Prop :=
  let matched := key_tuple cc ch (m_child_keys G) = old_tuple c r G in
  let other := other_parent db G cc ch (Some (m_name c, ri)) in
  (~ matched -> part = [ch]) /\
  (matched -> other ->
     exists ch2, part = [ch; ch2] /\
                 rewritten cc G (new_tuple c r col value G) ch ch2) /\
  (matched -> ~ other ->
     exists ch', part = [ch'] /\
                 rewritten cc G (new_tuple c r col value G) ch ch').

(** The store [db1] is the store [db] after the link group [G] was seen
    to. *)
Definition link_fixed (db : datablock) (G : link_validator) (db1 : datablock)
  : Prop :=
  untouched_above (m_child_category G) db db1 /\
  match get db (m_child_category G) with
  | None => db1 = db
  | Some cc =>
      exists parts,
        Forall2 (fixed_child db G cc) (m_rows cc) parts /\
        get db1 (m_child_category G) = Some (set_rows cc (List.concat parts))
  end.

(** The link groups are seen to one after the other. *)
Inductive links_fixed : datablock -> list link_validator -> datablock -> Prop :=
| links_fixed_nil db : links_fixed db [] db
| links_fixed_cons db G db1 links db2 :
    link_fixed db G db1 -> links_fixed db1 links db2 ->
    links_fixed db (G :: links) db2.

End SetCell.

Section Erase.

(** The erased row [r] of the category [c]. *)
Variables (c : category) (r : row).

(** What becomes of the child row [ch] when the link group [G] is seen to
    in the store [db], from which the parent row is gone: [part] are the
    rows that take its place. *)
Definition orphaned_child (db : datablock) (G : link_validator)
    (cc : category) (ch : row) (part : list row) : Prop :=
  let matched :=
    key_tuple cc ch (m_child_keys G) = key_tuple c r (m_parent_keys G) in
  let other := other_parent db G cc ch None in
  (~ matched -> part = [ch]) /\
  (matched -> other -> exists ch', part = [ch'] /\ blanked cc G ch ch') /\
  (matched -> ~ other -> part = []).

Definition link_erased (db : datablock) (G : link_validator) (db1 : datablock)
  : Prop :=
  untouched_above (m_child_category G) db db1 /\
  match get db (m_child_category G) with
  | None => db1 = db
  | Some cc =>
      exists parts,
        Forall2 (orphaned_child db G cc) (m_rows cc) parts /\
        get db1 (m_child_category G) = Some (set_rows cc (List.concat parts))
  end.

Inductive links_erased : datablock -> list link_validator -> datablock -> Prop :=
| links_erased_nil db : links_erased db [] db
| links_erased_cons db G db1 links db2 :
    link_erased db G db1 -> links_erased db1 links db2 ->
    links_erased db (G :: links) db2.

End Erase.

End Ranked.

End PropagatorSpec.

(** ** Small stores used as concrete inputs *)

Module Examples.
Import Text ItemValue Validate Store Datablock Propagator.

Definition two_categories : datablock :=
  mk_datablock "test" None [new_category "a"; new_category "b"].

Definition ucode : type_validator := new_type_validator "ucode" UChar "[a-z]+".

Definition yes_no : item_validator :=
  mk_item_validator "flag" false (Some ucode) ["yes"; "no"] "cat_1".

(** A dictionary with one category [cat_1] whose key [id] is of the
    case-insensitive type [ucode]. *)
Definition cat_1_id : item_validator :=
  mk_item_validator "id" true (Some ucode) [] "cat_1".

Definition cat_1_validator : category_validator :=
  mk_category_validator "cat_1" ["id"] ["id"] [cat_1_id].

Definition test_dict : validator :=
  mk_validator "test_dict.dic" true [ucode] [cat_1_validator] [].

Definition cat_1 : category :=
  mk_category "cat_1" [] (Some test_dict) (Some cat_1_validator) [].

(** The engine parameters used for concrete inputs: a regex that accepts
    every value, and a numeric compare that is never consulted. *)
Definition any_value (rx value : string) : bool := true.
Definition no_numbers (a b : string) : Z := 0.

(** An ordering for the enumeration sets that does not tell the letter
    cases apart. *)
Definition iless (a b : string) : bool :=
  String.ltb (to_lower_copy a) (to_lower_copy b).

(** [cat_1] after [emplace({{"id", "AAP"}})]. *)
Definition cat_1_AAP : category :=
  fst (Store.emplace any_value iless no_numbers cat_1 [mk_item "id" "AAP"]).

(** A category filled by [emplace], one call for each list of items. *)
Definition filled (name : string) (rows : list (list item)) : category :=
  fold_left (fun c items => fst (Store.emplace any_value iless no_numbers c items))
            rows (new_category name).

(** The columns [cols] of all rows of the category [cat]. *)
Definition table (db : datablock) (cat : string) (cols : list string)
  : list (list string) :=
  match get db cat with
  | Some c => map (fun r => key_tuple c r cols) (m_rows c)
  | None => []
  end.

(** What an operation of the propagator returned, or the empty block. *)
Definition returned (r : option (result datablock)) : datablock :=
  match r with
  | Some (Ok db) => db
  | _ => mk_datablock "" None []
  end.

(** The dictionary and the data of test [d5]: three link groups from
    [cat_2] to the key [id] of [cat_1]. *)
Definition d5_link (id : Z) (child_key : string) : link_validator :=
  mk_link_validator id "cat_1" ["id"] "cat_2" [child_key].

Definition d5_dict : validator :=
  mk_validator "test_dict.dic" true [] []
    [d5_link 1 "parent_id"; d5_link 2 "parent_id2"; d5_link 3 "parent_id3"].

Definition d5_cat_1 : category :=
  filled "cat_1" [[mk_item "id" "1"]; [mk_item "id" "2"]; [mk_item "id" "3"]].

Definition d5_cat_2 : category :=
  filled "cat_2"
    [[mk_item "id" "1"; mk_item "parent_id" "1"];
     [mk_item "id" "2"; mk_item "parent_id2" "1"];
     [mk_item "id" "3"; mk_item "parent_id3" "1"];
     [mk_item "id" "4"; mk_item "parent_id" "2"; mk_item "parent_id2" "2"];
     [mk_item "id" "5"; mk_item "parent_id" "2"; mk_item "parent_id3" "2"];
     [mk_item "id" "6"; mk_item "parent_id2" "2"; mk_item "parent_id3" "2"];
     [mk_item "id" "7"; mk_item "parent_id" "3"; mk_item "parent_id2" "3";
      mk_item "parent_id3" "3"]].

Definition d5 : datablock :=
  mk_datablock "test" (Some d5_dict) [d5_cat_1; d5_cat_2].

Definition d5_columns : list string :=
  ["id"; "parent_id"; "parent_id2"; "parent_id3"].

(** [d5] after the three renames of the test. *)
Definition d5_renamed : datablock :=
  let s1 := returned (set_cell any_value iless 2 d5 "cat_1" 0 "id" "10") in
  let s2 := returned (set_cell any_value iless 2 s1 "cat_1" 1 "id" "20") in
  returned (set_cell any_value iless 2 s2 "cat_1" 2 "id" "30").

(** A block in which the rows of [cat_2] have a parent in [cat_1] (link
    group 1) and some of them another one in [cat_3] (link group 2). *)
Definition family_link_1 : link_validator :=
  mk_link_validator 1 "cat_1" ["id"] "cat_2" ["parent_id"].

Definition family_link_2 : link_validator :=
  mk_link_validator 2 "cat_3" ["id"] "cat_2" ["other_id"].

Definition family_dict : validator :=
  mk_validator "family.dic" true [] [] [family_link_1; family_link_2].

Definition family_cat_1 : category :=
  filled "cat_1" [[mk_item "id" "1"]; [mk_item "id" "2"]].

Definition family_cat_3 : category := filled "cat_3" [[mk_item "id" "9"]].

Definition family_cat_2 : category :=
  filled "cat_2"
    [[mk_item "id" "1"; mk_item "parent_id" "1"; mk_item "other_id" "9"];
     [mk_item "id" "2"; mk_item "parent_id" "1"];
     [mk_item "id" "3"; mk_item "parent_id" "2"]].

Definition family : datablock :=
  mk_datablock "family" (Some family_dict)
    [family_cat_1; family_cat_3; family_cat_2].

Definition family_parent : row := hd [] (m_rows family_cat_1).

(** A measure for the categories of [d5]: [cat_1] is above [cat_2]. *)
Definition d5_rank (n : string) : nat :=
  if iequals n "cat_1" then 1%nat else 0%nat.

(** A block with three generations: the key [id] of [cat_a] is the parent
    of the key [id] of [cat_b], which is the parent of [b_id] in [cat_c]. *)
Definition chain_dict : validator :=
  mk_validator "chain.dic" true [] []
    [mk_link_validator 1 "cat_a" ["id"] "cat_b" ["id"];
     mk_link_validator 2 "cat_b" ["id"] "cat_c" ["b_id"]].

Definition chain : datablock :=
  mk_datablock "chain" (Some chain_dict)
    [filled "cat_a" [[mk_item "id" "1"]; [mk_item "id" "2"]];
     filled "cat_b" [[mk_item "id" "1"; mk_item "name" "x"];
                     [mk_item "id" "2"; mk_item "name" "y"]];
     filled "cat_c" [[mk_item "id" "1"; mk_item "b_id" "1"];
                     [mk_item "id" "2"; mk_item "b_id" "1"];
                     [mk_item "id" "3"; mk_item "b_id" "2"]]].

Definition chain_rank (n : string) : nat :=
  if iequals n "cat_a" then 2%nat
  else if iequals n "cat_b" then 1%nat else 0%nat.

(** A block whose category [cat_1] has the validated key [id] and the one
    row [AAP], and a regex engine that rejects every value. *)
Definition keyed : datablock :=
  mk_datablock "keyed" (Some test_dict) [cat_1_AAP].

Definition no_value (rx value : string) : bool := false.

End Examples.

(** ** Further lexemes of the tokenizer *)

Module LexemeNotions.
Import Text Parser Lexeme.

(** The body of a text field: no carriage return, and at the beginning of
    a line ([bol]) a character that continues the field, so not a [;]. *)
Fixpoint text_field_body (bol : bool) (b : string) : bool :=
  match b with
  | EmptyString => true
  | String a b' =>
      let ch := to_int_type a in
      negb (ch =? 13) &&
      (if bol then is_text_lead ch || (ch =? 9) || (ch =? 10) else true) &&
      text_field_body (ch =? 10) b'
  end.

(** A letter, in either case. *)
Definition is_letter (c : ascii) : bool :=
  let ch := to_int_type (tolower_char c) in (97 <=? ch) && (ch <=? 122).

(** The token [State::Value] gives for a reserved word without a name. *)
Definition keyword_token (s : string) : option CIFToken :=
  if String.eqb s "global_" then Some CIFToken_GLOBAL
  else if String.eqb s "stop_" then Some CIFToken_STOP
  else if String.eqb s "loop_" then Some CIFToken_LOOP
  else None.

(** The token [State::DATA] and [State::SAVE] give for the prefix of a
    name. *)
Definition heading_token (s : string) : option CIFToken :=
  if String.eqb s "data_" then Some CIFToken_DATA
  else if String.eqb s "save_" then Some CIFToken_SAVE
  else None.

Fixpoint all_letters (w : string) : bool :=
  match w with
  | EmptyString => true
  | String a w' => is_letter a && all_letters w'
  end.

(** Two parsers that differ in the line ends of their input only. *)
Definition same_text (p q : sac_parser) : Prop :=
  mTokenValue p = mTokenValue q /\ mTokenType p = mTokenType q /\
  m_line_nr p = m_line_nr q /\ m_bol p = m_bol q /\
  to_read p = to_read q /\ parser_ok p = true /\ parser_ok q = true.

(** Two runs of the scanner with the same outcome. *)
Definition same_run (r1 r2 : run (CIFToken * sac_parser)) : Prop :=
  match r1, r2 with
  | Returns (t1, p1), Returns (t2, p2) => t1 = t2 /\ same_text p1 p2
  | Throws e1, Throws e2 => e1 = e2
  | OutOfFuel, OutOfFuel => True
  | _, _ => False
  end.

(** Two results of a state of the scanner with the same outcome. *)
Definition same_step (r1 r2 : result (outcome * sac_parser)) : Prop :=
  match r1, r2 with
  | Ok (o1, p1), Ok (o2, p2) => o1 = o2 /\ same_text p1 p2
  | Err e1, Err e2 => e1 = e2
  | _, _ => False
  end.

End LexemeNotions.

(** ** Locating a datablock: parseSingleDatablock of include/cif++/v2/parser.hpp *)

Module Locate.
Import Text Parser.

(** The local [enum] of [parseSingleDatablock]. *)
Inductive locate_state : Type :=
| st_start | st_comment | st_string | st_string_quote | st_qstring | st_data.

(** The local variables of the loop of [parseSingleDatablock]. *)
Record locate_vars : Type := mk_locate_vars {
  l_state : locate_state;
  quote : Z;
  bol : bool;
  si : nat
}.

(** [dblk[si]] of a [std::string]: a character, the zero at [size()], and
    nothing further on. *)
Definition dblk_at (dblk : string) (si : nat) : option Z :=
  match String.get si dblk with
  | Some c => Some (int_of_char c)
  | None => if Nat.eqb si (String.length dblk) then Some 0 else None
  end.

(** The body of the [for] loop of [parseSingleDatablock], for the
    character [ch] that [sbumpc] returned: the variables after it and
    [found], or nothing when [dblk] is read out of range. *)
Definition locate_body (dblk : string) (v : locate_vars) (ch : Z)
  : option (locate_vars * bool) :=
  let next (st : locate_state) (q : Z) (s : nat) :=
    Some (mk_locate_vars st q (ch =? LF) s, false) in
  match l_state v with
  | st_start =>
      if ch =? char_code "#" then next st_comment (quote v) (si v)
      else if (ch =? char_code "d") || (ch =? char_code "D") then
        next st_data (quote v) 1%nat
      else if (ch =? char_code "'") || (ch =? 34) then next st_string ch (si v)
      else if ch =? char_code ";" then
        next (if bol v then st_qstring else st_start) (quote v) (si v)
      else next st_start (quote v) (si v)
  | st_comment =>
      next (if ch =? LF then st_start else st_comment) (quote v) (si v)
  | st_string =>
      next (if ch =? quote v then st_string_quote else st_string) (quote v) (si v)
  | st_string_quote =>
      next (if isspace ch then st_start else st_string) (quote v) (si v)
  | st_qstring =>
      next (if (ch =? char_code ";") && bol v then st_start else st_qstring)
           (quote v) (si v)
  | st_data =>
      match dblk_at dblk (si v) with
      | None => None
      | Some c =>
          if isspace ch && (c =? 0) then
            Some (mk_locate_vars st_data (quote v) (ch =? LF) (si v), true)
          else
            next (if negb (c =? ch) then st_start else st_data) (quote v) (S (si v))
      end
  end.

(** The [for] loop of [parseSingleDatablock(datablock)] on the bytes
    [source] of the stream buffer: [found] and the bytes left in the
    buffer, or nothing when [dblk] is read out of range.  The increment
    [ch = sb.sbumpc()] runs once more after the body has set [found]. *)
Fixpoint locate (dblk : string) (v : locate_vars) (source : list Z)
  : option (bool * list Z) :=
  match source with
  | [] => Some (false, [])
  | ch :: source' =>
      match locate_body dblk v ch with
      | None => None
      | Some (v', true) => Some (true, tl source')
      | Some (v', false) => locate dblk v' source'
      end
  end.

(** The variables as they are initialised. *)
Definition locate_init : locate_vars := mk_locate_vars st_start 0 true 0.

(** [parseSingleDatablock(datablock)] up to the call of
    [produceDatablock]. *)
Definition locate_datablock (datablock : string) (source : list Z)
  : option (bool * list Z) :=
  locate ("data_" ++ datablock) locate_init source.

(** The variables after the loop has run over [pre] without finding the
    datablock. *)
Fixpoint locate_over (dblk : string) (v : locate_vars) (pre : list Z)
  : option locate_vars :=
  match pre with
  | [] => Some v
  | ch :: pre' =>
      match locate_body dblk v ch with
      | Some (v', false) => locate_over dblk v' pre'
      | _ => None
      end
  end.

(** A name of 7-bit characters. *)
Definition ascii_name (s : string) : bool :=
  forallb (fun ch => ch <? 128) (bytes s).

End Locate.

(** ** The grammar: parseDataBlock of include/cif++/v2/parser.hpp and parse_datablock of src/parser.cpp *)

Module Grammar.
Import Text Parser.

(** The production methods of [sac_parser], pure virtual there: a call is
    recorded. *)
Inductive event : Type :=
| produceDatablock (name : string)
| produceCategory (name : string)
| produceRow
| produceItem (category item value : string).

(** The parser with its lookahead token, and the productions so far. *)
Record grammar : Type := mk_grammar {
  lexer : sac_parser;
  m_lookahead : CIFToken;
  produced : list event
}.

(** [get_token_name]. *)
Definition get_token_name (token : CIFToken) : string :=
  match token with
  | CIFToken_Unknown => "Unknown"
  | CIFToken_Eof => "Eof"
  | CIFToken_DATA => "DATA"
  | CIFToken_LOOP => "LOOP"
  | CIFToken_GLOBAL => "GLOBAL"
  | CIFToken_SAVE => "SAVE"
  | CIFToken_STOP => "STOP"
  | CIFToken_Tag => "Tag"
  | CIFToken_Value => "Value"
  end.

Definition CIFToken_eqb (a b : CIFToken) : bool :=
  match a, b with
  | CIFToken_Unknown, CIFToken_Unknown | CIFToken_Eof, CIFToken_Eof
  | CIFToken_DATA, CIFToken_DATA | CIFToken_LOOP, CIFToken_LOOP
  | CIFToken_GLOBAL, CIFToken_GLOBAL | CIFToken_SAVE, CIFToken_SAVE
  | CIFToken_STOP, CIFToken_STOP | CIFToken_Tag, CIFToken_Tag
  | CIFToken_Value, CIFToken_Value => true
  | _, _ => false
  end.

Definition run_bind {A B : Type} (r : run A) (k : A -> run B) : run B :=
  match r with
  | Returns a => k a
  | Throws e => Throws e
  | OutOfFuel => OutOfFuel
  end.

(** [kUnitializedCategory] of src/parser.cpp. *)
Definition kUnitializedCategory : string := "<invalid>".

Definition produce (e : event) (g : grammar) : grammar :=
  mk_grammar (lexer g) (m_lookahead g) (produced g ++ [e]).

(** [sac_parser::error], from the grammar. *)
Definition grammar_error {A : Type} (g : grammar) (msg : string) : run A :=
  Throws (parse_error (m_line_nr (lexer g)) msg).

Section WithTagNames.

Variable i : impl.

(** [splitTagName] (text.cpp) is not among the sources. *)
Variable splitTagName : string -> result (string * string).

(** The bound on the iterations of the loop of [get_next_token]. *)
Variable token_fuel : nat.

(** [match]. *)
Definition match_ (token : CIFToken) (g : grammar) : run grammar :=
  if negb (CIFToken_eqb (m_lookahead g) token) then
    grammar_error g ("Unexpected token, expected " ++ get_token_name token ++
                     " but found " ++ get_token_name (m_lookahead g))
  else
    run_bind (get_next_token i token_fuel (lexer g))
             (fun r => Returns (mk_grammar (snd r) (fst r) (produced g))).

(** The category name that says that a loop has named no category yet. *)
Definition no_category (cat : string) : bool :=
  match i with
  | V2 => String.eqb cat ""
  | V1 => String.eqb cat kUnitializedCategory
  end.

Definition no_category_name : string :=
  match i with V2 => "" | V1 => kUnitializedCategory end.

(** [while (m_lookahead == CIFToken::Tag)] of the case LOOP; [fuel] bounds
    the number of iterations. *)
Fixpoint loop_tags (fuel : nat) (cat : string) (tags : list string) (g : grammar)
  : run (string * list string * grammar) :=
  match fuel with
  | O => OutOfFuel
  | S fuel' =>
      if CIFToken_eqb (m_lookahead g) CIFToken_Tag then
        match splitTagName (mTokenValue (lexer g)) with
        | Err e => Throws e
        | Ok (catName, itemName) =>
            run_bind
              (if no_category cat then
                 Returns (catName, produce (produceCategory catName) g)
               else if negb (iequals cat catName) then
                 grammar_error g "inconsistent categories in loop_"
               else Returns (cat, g))
              (fun cg =>
                 run_bind (match_ CIFToken_Tag (snd cg))
                          (loop_tags fuel' (fst cg) (tags ++ [itemName])))
        end
      else Returns (cat, tags, g)
  end.

(** [for (auto tag : tags)] of the case LOOP. *)
Fixpoint row_items (cat : string) (tags : list string) (g : grammar) : run grammar :=
  match tags with
  | [] => Returns g
  | tag :: tags' =>
      run_bind
        (match_ CIFToken_Value
           (produce (produceItem cat tag (mTokenValue (lexer g))) g))
        (row_items cat tags')
  end.

(** [while (m_lookahead == CIFToken::Value)] of the case LOOP. *)
Fixpoint loop_rows (fuel : nat) (cat : string) (tags : list string) (g : grammar)
  : run grammar :=
  match fuel with
  | O => OutOfFuel
  | S fuel' =>
      if CIFToken_eqb (m_lookahead g) CIFToken_Value then
        run_bind (row_items cat tags (produce produceRow g))
                 (loop_rows fuel' cat tags)
      else Returns g
  end.

(** [parseDataBlock]; [cat] is its local variable. *)
Fixpoint parseDataBlock_from (fuel : nat) (cat : string) (g : grammar) : run grammar :=
  match fuel with
  | O => OutOfFuel
  | S fuel' =>
      match m_lookahead g with
      | CIFToken_LOOP =>
          run_bind (match_ CIFToken_LOOP g) (fun g =>
          run_bind (loop_tags fuel' no_category_name [] g) (fun ctg =>
          run_bind (loop_rows fuel' (fst (fst ctg)) (snd (fst ctg)) (snd ctg))
                   (parseDataBlock_from fuel' "")))
      | CIFToken_Tag =>
          match splitTagName (mTokenValue (lexer g)) with
          | Err e => Throws e
          | Ok (catName, itemName) =>
              let cg :=
                if negb (iequals cat catName) then
                  (catName, produce produceRow (produce (produceCategory catName) g))
                else (cat, g) in
              run_bind (match_ CIFToken_Tag (snd cg)) (fun g =>
              run_bind (match_ CIFToken_Value
                          (produce (produceItem (fst cg) itemName
                                      (mTokenValue (lexer g))) g))
                       (parseDataBlock_from fuel' (fst cg)))
          end
      | CIFToken_SAVE =>
          grammar_error g "A regular CIF file should not contain a save frame"
      | _ => Returns g
      end
  end.

Definition parseDataBlock (fuel : nat) (g : grammar) : run grammar :=
  parseDataBlock_from fuel no_category_name g.

(** What [get_next_token] returns, call after call: the tokens [toks] with
    their texts, and the parser after the last of them. *)
Fixpoint token_run (p : sac_parser) (toks : list (CIFToken * string))
  : option sac_parser :=
  match toks with
  | [] => Some p
  | (t, s) :: toks' =>
      match get_next_token i token_fuel p with
      | Returns (t', p') =>
          if CIFToken_eqb t t' && String.eqb s (mTokenValue p')
          then token_run p' toks' else None
      | _ => None
      end
  end.

End WithTagNames.

(** The productions of one row of a loop. *)
Definition row_events (cat : string) (tags row : list string) : list event :=
  produceRow :: map (fun tv => produceItem cat (fst tv) (snd tv)) (combine tags row).

Definition values (vs : list string) : list (CIFToken * string) :=
  map (fun v => (CIFToken_Value, v)) vs.

(** The tokens of tags with their values: each entry is the text of the
    tag, the item name in it and the text of the value. *)
Definition pair_tokens (pairs : list (string * string * string))
  : list (CIFToken * string) :=
  List.concat (map (fun tiv => [(CIFToken_Tag, fst (fst tiv));
                                (CIFToken_Value, snd tiv)]) pairs).

(** The lookahead token with its text, and the tokens that
    [get_next_token] returns after it. *)
Definition pending (i : impl) (token_fuel : nat) (g : grammar)
    (toks : list (CIFToken * string)) (p_end : sac_parser) : Prop :=
  match toks with
  | [] => False
  | (t, s) :: toks' =>
      m_lookahead g = t /\ mTokenValue (lexer g) = s /\
      token_run i token_fuel (lexer g) toks' = Some p_end
  end.

End Grammar.

(** ** The categories of a datablock: src/v2/condition.cpp *)

Module Blocks.
Import Text Validate Store Datablock.

(** No two categories of the list have the same name up to case. *)
Fixpoint unique_names (cats : list category) : Prop :=
  match cats with
  | [] => True
  | c :: rest =>
      (forall x, In x rest -> iequals (m_name c) (m_name x) = false) /\
      unique_names rest
  end.

Section WithTagOrder.

(** [category::get_tag_order] (category.cpp) is not among the sources. *)
Variable category_get_tag_order : category -> list string.

Definition is_entry (cat : category) : bool := String.eqb (m_name cat) "entry".
Definition is_audit_conform (cat : category) : bool :=
  String.eqb (m_name cat) "audit_conform".

(** The categories of the last loop of [get_tag_order]. *)
Definition is_other (cat : category) : bool :=
  negb (is_entry cat || is_audit_conform cat).

(** The tags of the category a [find_if] of [get_tag_order] points to, none
    at [end()]. *)
Definition tags_of (ci : option category) : list string :=
  match ci with Some ci => category_get_tag_order ci | None => [] end.

(** [datablock::get_tag_order]. *)
Definition get_tag_order (db : datablock) : list string :=
  let result := [] in
  let result :=
    match find is_entry (categories db) with
    | Some ci => (result ++ category_get_tag_order ci)%list
    | None => result
    end in
  let result :=
    match find is_audit_conform (categories db) with
    | Some ci => (result ++ category_get_tag_order ci)%list
    | None => result
    end in
  fold_left
    (fun result cat =>
       if is_entry cat || is_audit_conform cat then result
       else (result ++ category_get_tag_order cat)%list)
    (categories db) result.

End WithTagOrder.

End Blocks.

(** ** Texts as type_validator::compare reads them *)

Module Collapse.
Import Text Validate.

(** A text with every run of spaces collapsed to one space. *)
Fixpoint collapse (s : string) : string :=
  match s with
  | EmptyString => EmptyString
  | String c s' =>
      match s' with
      | String d _ =>
          if Ascii.eqb c " " && Ascii.eqb d " " then collapse s'
          else String c (collapse s')
      | EmptyString => String c EmptyString
      end
  end.

(** The text as [compare] reads it for a primitive type: [UChar] folds the
    case of every character. *)
Definition folded (uchar : bool) (s : string) : string :=
  if uchar then to_lower_copy s else s.

Definition folds_case (t : type_validator) : bool :=
  match m_primitive_type t with UChar => true | _ => false end.

End Collapse.

(** ** Link validators: validator::add_link_validator of src/validate.cpp *)

Module Links.
Import Text Validate.

(** [validator::get_validator_for_category].  Modelled from the spec: the
    ordering of [category_validator] (validate.hpp) is not among the
    sources; names are compared without case. *)
Definition get_validator_for_category (v : validator) (category : string)
  : option category_validator :=
  find (fun cv => iequals (cv_name cv) category) (m_category_validators v).

Definition with_type (iv : item_validator) (t : option type_validator)
  : item_validator :=
  mk_item_validator (m_tag iv) (m_mandatory iv) t (m_enums iv) (m_category iv).

(** The item validator that [get_validator_for_item] finds, with [m_type]
    assigned. *)
Fixpoint assign_item_type (ivs : list item_validator) (tag : string)
    (t : option type_validator) : list item_validator :=
  match ivs with
  | [] => []
  | iv :: rest =>
      if iequals (m_tag iv) tag then with_type iv t :: rest
      else iv :: assign_item_type rest tag t
  end.

Definition set_item_validators (cv : category_validator)
    (ivs : list item_validator) : category_validator :=
  mk_category_validator (cv_name cv) (m_keys cv) (m_mandatory_fields cv) ivs.

(** The same, in the category validator that [get_validator_for_category]
    finds. *)
Fixpoint assign_type_in (cvs : list category_validator) (category tag : string)
    (t : option type_validator) : list category_validator :=
  match cvs with
  | [] => []
  | cv :: rest =>
      if iequals (cv_name cv) category then
        set_item_validators cv (assign_item_type (m_item_validators cv) tag t) :: rest
      else cv :: assign_type_in rest category tag t
  end.

Definition set_category_validators (v : validator)
    (cvs : list category_validator) : validator :=
  mk_validator (v_name v) (m_strict v) (m_type_validators v) cvs
               (m_link_validators v).

(** [const_cast<item_validator *>(civ)->m_type = piv->m_type]. *)
Definition assign_type (v : validator) (category tag : string)
    (t : option type_validator) : validator :=
  set_category_validators v
    (assign_type_in (m_category_validators v) category tag t).

Definition is_some {A : Type} (o : option A) : bool :=
  match o with Some _ => true | None => false end.

(** The [for] loop of [add_link_validator] over the keys of the link; the
    category validators [pcv] and [ccv] are those of the two names. *)
Fixpoint link_keys (v : validator) (parent_category child_category : string)
    (parent_keys child_keys : list string) : validator * result unit :=
  match parent_keys, child_keys with
  | pk :: parent_keys', ck :: child_keys' =>
      match option_map (fun pcv => get_validator_for_item pcv pk)
                       (get_validator_for_category v parent_category) with
      | Some (Some piv) =>
          match option_map (fun ccv => get_validator_for_item ccv ck)
                           (get_validator_for_category v child_category) with
          | Some (Some civ) =>
              let v :=
                if negb (is_some (m_type civ)) && is_some (m_type piv)
                then assign_type v child_category ck (m_type piv) else v in
              link_keys v parent_category child_category parent_keys' child_keys'
          | _ =>
              (v, Err (runtime_error
                         ("unknown child tag _" ++ child_category ++ "." ++ ck)))
          end
      | _ =>
          (v, Err (runtime_error
                     ("unknown parent tag _" ++ parent_category ++ "." ++ pk)))
      end
  | _, _ => (v, Ok tt)
  end.

(** [validator::add_link_validator]; the [assert] on the number of keys is
    compiled out in a release build, and the check after it throws. *)
Definition add_link_validator (v : validator) (l : link_validator)
  : validator * result unit :=
  if negb (Nat.eqb (List.length (m_parent_keys l)) (List.length (m_child_keys l))) then
    (v, Err (runtime_error "unequal number of keys for parent and child in link"))
  else
    match get_validator_for_category v (m_parent_category l),
          get_validator_for_category v (m_child_category l) with
    | None, _ =>
        (v, Err (runtime_error ("unknown parent category " ++ m_parent_category l)))
    | Some _, None =>
        (v, Err (runtime_error ("unknown child category " ++ m_child_category l)))
    | Some _, Some _ =>
        let '(v, r) := link_keys v (m_parent_category l) (m_child_category l)
                                 (m_parent_keys l) (m_child_keys l) in
        match r with
        | Err e => (v, Err e)
        | Ok _ =>
            (mk_validator (v_name v) (m_strict v) (m_type_validators v)
                          (m_category_validators v) (m_link_validators v ++ [l]),
             Ok tt)
        end
    end.

(** The item [tag] of the category [category] has a validator. *)
Definition known_item (v : validator) (category tag : string) : bool :=
  match get_validator_for_category v category with
  | Some cv => is_some (get_validator_for_item cv tag)
  | None => false
  end.

(** A link that the validator can resolve: as many child keys as parent
    keys, and a validator for every key. *)
Definition resolved_link (v : validator) (l : link_validator) : bool :=
  Nat.eqb (List.length (m_parent_keys l)) (List.length (m_child_keys l)) &&
  is_some (get_validator_for_category v (m_parent_category l)) &&
  is_some (get_validator_for_category v (m_child_category l)) &&
  forallb (known_item v (m_parent_category l)) (m_parent_keys l) &&
  forallb (known_item v (m_child_category l)) (m_child_keys l).

End Links.

(** ** Packed symmetry operations: src/unnamed/part_002 *)

Module Symmetry.


(** Conversions between the integer types of the header. *)
Definition to_uint64 (z : Z) : Z := z mod 2 ^ 64.
Definition to_int (z : Z) : Z := (z + 2 ^ 31) mod 2 ^ 32 - 2 ^ 31.
Definition to_uint16 (z : Z) : Z := z mod 2 ^ 16.
Definition to_uint8 (z : Z) : Z := z mod 2 ^ 8.

(** [<<] on [uint64_t]. *)
Definition shl (a k : Z) : Z := to_uint64 (Z.shiftl a k).

(** [std::array<int, 15>]: the fifteen entries in order. *)
Definition at_ (data : list Z) (i : nat) : Z := nth i data 0.

(** [struct symop_data]: the field [m_packed]. *)
Record symop_data : Type := mk_symop_data { m_packed : Z }.

(** The constructor [symop_data(const std::array<int, 15> &data)]. *)
Definition new_symop_data (data : list Z) : symop_data :=
  mk_symop_data
    (Z.lor (Z.lor (Z.lor (Z.lor (Z.lor (Z.lor (Z.lor (Z.lor (Z.lor (Z.lor
     (Z.lor (Z.lor (Z.lor (Z.lor
       (shl (Z.land (to_uint64 (at_ data 0)) 3) 34)
       (shl (Z.land (to_uint64 (at_ data 1)) 3) 32))
       (shl (Z.land (to_uint64 (at_ data 2)) 3) 30))
       (shl (Z.land (to_uint64 (at_ data 3)) 3) 28))
       (shl (Z.land (to_uint64 (at_ data 4)) 3) 26))
       (shl (Z.land (to_uint64 (at_ data 5)) 3) 24))
       (shl (Z.land (to_uint64 (at_ data 6)) 3) 22))
       (shl (Z.land (to_uint64 (at_ data 7)) 3) 20))
       (shl (Z.land (to_uint64 (at_ data 8)) 3) 18))
       (shl (Z.land (to_uint64 (at_ data 9)) 7) 15))
       (shl (Z.land (to_uint64 (at_ data 10)) 7) 12))
       (shl (Z.land (to_uint64 (at_ data 11)) 7) 9))
       (shl (Z.land (to_uint64 (at_ data 12)) 7) 6))
       (shl (Z.land (to_uint64 (at_ data 13)) 7) 3))
       (shl (Z.land (to_uint64 (at_ data 14)) 7) 0)).

(** [symop_data::operator==]. *)
Definition symop_data_eq (a b : symop_data) : bool := m_packed a =? m_packed b.

(** [symop_data::data()]. *)
Definition data (s : symop_data) : list Z :=
  [ Z.land (to_int (Z.shiftr (m_packed s) 34)) 3;
    Z.land (to_int (Z.shiftr (m_packed s) 32)) 3;
    Z.land (to_int (Z.shiftr (m_packed s) 30)) 3;
    Z.land (to_int (Z.shiftr (m_packed s) 28)) 3;
    Z.land (to_int (Z.shiftr (m_packed s) 26)) 3;
    Z.land (to_int (Z.shiftr (m_packed s) 24)) 3;
    Z.land (to_int (Z.shiftr (m_packed s) 22)) 3;
    Z.land (to_int (Z.shiftr (m_packed s) 20)) 3;
    Z.land (to_int (Z.shiftr (m_packed s) 18)) 3;
    Z.land (to_int (Z.shiftr (m_packed s) 15)) 7;
    Z.land (to_int (Z.shiftr (m_packed s) 12)) 7;
    Z.land (to_int (Z.shiftr (m_packed s) 9)) 7;
    Z.land (to_int (Z.shiftr (m_packed s) 6)) 7;
    Z.land (to_int (Z.shiftr (m_packed s) 3)) 7;
    Z.land (to_int (Z.shiftr (m_packed s) 0)) 7 ].

(** [kPackMask = (~0ULL >> (64 - 36))]. *)
Definition kPackMask : Z := Z.shiftr (2 ^ 64 - 1) (64 - 36).

(** The private constructor [symop_data(uint64_t v)]. *)
Definition symop_data_of_uint64 (v : Z) : symop_data :=
  mk_symop_data (Z.land v kPackMask).

(** [struct symop_datablock]: the field [m_v]. *)
Record symop_datablock : Type := mk_symop_datablock { m_v : Z }.

(** The constructor [symop_datablock(spacegroup, rotational_number, rt_data)]. *)
Definition new_symop_datablock (spacegroup rotational_number : Z)
    (rt_data : list Z) : symop_datablock :=
  mk_symop_datablock
    (Z.lor (Z.lor (shl (Z.land (to_uint64 spacegroup) 65535) 48)
                  (shl (Z.land (to_uint64 rotational_number) 255) 40))
           (m_packed (new_symop_data rt_data))).

Definition spacegroup (b : symop_datablock) : Z := to_uint16 (Z.shiftr (m_v b) 48).
Definition symop (b : symop_datablock) : symop_data := symop_data_of_uint64 (m_v b).
Definition rotational_number (b : symop_datablock) : Z :=
  to_uint8 (Z.land (Z.shiftr (m_v b) 40) 255).

End Symmetry.

(** * Properties *)

Lemma substring_0_app (a b : string) :
  String.substring 0 (String.length a) (a ++ b) = a.
Proof.
  induction a as [|c a IH]; simpl.
  - destruct b; reflexivity.
  - now rewrite IH.
Qed.

Lemma strlen_nonneg (s : string) : 0 <= ItemValue.strlen s.
Proof. unfold ItemValue.strlen. lia. Qed.

(** C10.  [create_item] throws before building a cell when the text length
    plus one exceeds 65535; otherwise the cell's 16-bit length is the exact
    byte length, its text is the payload, and the payload is inline below
    eight bytes and on the heap from eight bytes on. *)
Theorem C10_create_item_length (column_ix : Z) (txt : string)
    (Hsz : ItemValue.strlen txt < ItemValue.size_t_modulus - 1) :
  (ItemValue.strlen txt + 1 > 65535 ->
     exists msg, ItemValue.create_item column_ix txt = Err (runtime_error msg)) /\
  (ItemValue.strlen txt + 1 <= 65535 ->
     exists iv, ItemValue.create_item column_ix txt = Ok iv /\
       ItemValue.m_column_ix iv = column_ix /\
       ItemValue.m_length iv = ItemValue.strlen txt /\
       0 <= ItemValue.m_length iv < 65536 /\
       ItemValue.text iv = txt /\
       (ItemValue.strlen txt < 8 ->
          ItemValue.is_heap (ItemValue.m_storage iv) = false) /\
       (8 <= ItemValue.strlen txt ->
          ItemValue.is_heap (ItemValue.m_storage iv) = true)).
Proof.
  pose proof (strlen_nonneg txt) as Hnn.
  unfold ItemValue.create_item, ItemValue.size_t_add, ItemValue.uint16_max.
  unfold ItemValue.size_t_modulus in *.
  rewrite (Z.mod_small (ItemValue.strlen txt + 1)) by lia.
  split; intro H.
  - destruct (Z.gtb_spec (ItemValue.strlen txt + 1) 65535); [|lia].
    eexists; reflexivity.
  - destruct (Z.gtb_spec (ItemValue.strlen txt + 1) 65535); [lia|].
    eexists; split; [reflexivity|]. cbn [ItemValue.m_column_ix ItemValue.m_length ItemValue.m_storage].
    unfold ItemValue.to_uint16. rewrite Z.mod_small by lia.
    repeat split; try lia.
    + unfold ItemValue.text. cbn [ItemValue.m_length ItemValue.m_storage].
      unfold ItemValue.kBufferSize.
      destruct (ItemValue.strlen txt >=? 8); cbn [ItemValue.storage_bytes];
        unfold ItemValue.strlen; rewrite Nat2Z.id; apply substring_0_app.
    + intro Hlt. unfold ItemValue.kBufferSize.
      destruct (Z.geb_spec (ItemValue.strlen txt) 8); [lia|reflexivity].
    + intro Hge. unfold ItemValue.kBufferSize.
      destruct (Z.geb_spec (ItemValue.strlen txt) 8); [reflexivity|lia].
Qed.

Lemma C10_create_item_length_witness :
  exists iv, ItemValue.create_item 2 "abcdefgh" = Ok iv /\
    ItemValue.m_length iv = 8 /\ ItemValue.text iv = "abcdefgh" /\
    ItemValue.is_heap (ItemValue.m_storage iv) = true.
Proof.
  assert (Hsz : ItemValue.strlen "abcdefgh" < ItemValue.size_t_modulus - 1)
    by (vm_compute; reflexivity).
  destruct (C10_create_item_length 2 "abcdefgh" Hsz) as [_ H].
  destruct H as [iv (E & _ & L & _ & T & _ & Hp)]; [vm_compute; discriminate|].
  exists iv. repeat split; try assumption.
  apply Hp. vm_compute. discriminate.
Defined.

(** ** The scanner *)

Module ParserProofs.
Import Text Parser Lexeme.

Lemma back_push_back s c : back (push_back s c) = Some c.
Proof.
  unfold push_back. induction s as [|a s IH]; simpl; [reflexivity|].
  rewrite IH. destruct s; reflexivity.
Qed.

Lemma pop_back_push_back s c : pop_back (push_back s c) = s.
Proof.
  unfold push_back. induction s as [|a s IH]; simpl; [reflexivity|].
  rewrite IH. destruct s; reflexivity.
Qed.

Lemma length_push_back s c : String.length (push_back s c) = S (String.length s).
Proof. unfold push_back. induction s; simpl; congruence. Qed.

(** A stream byte that is non-blank is a printable ASCII code. *)
Lemma is_non_blank_range ch : is_non_blank ch = true -> 33 <= ch <= 126.
Proof.
  unfold is_non_blank. intro H.
  apply andb_prop in H as [H H3]. apply andb_prop in H as [H1 H2].
  apply Z.gtb_lt in H1. apply Z.leb_le in H2.
  assert (ch = 127 \/ ch <= 126) as [->|] by lia; [discriminate H3|lia].
Qed.

Lemma char_of_to_int_type a : char_of_int (to_int_type a) = a.
Proof.
  unfold char_of_int, to_int_type.
  pose proof (N_ascii_bounded a) as Hb.
  rewrite Z.mod_small by lia.
  rewrite N2Z.id. apply ascii_N_embedding.
Qed.

Lemma int_of_char_small a : to_int_type a < 128 -> int_of_char a = to_int_type a.
Proof.
  unfold int_of_char, to_int_type. intro H.
  destruct (Z.ltb_spec (Z.of_N (N_of_ascii a)) 128); lia.
Qed.

Lemma append_push_back pre a d : push_back pre a ++ d = pre ++ String a d.
Proof. unfold push_back. induction pre; simpl; congruence. Qed.

Lemma append_empty_r (s : string) : s ++ "" = s.
Proof. induction s; simpl; congruence. Qed.

Lemma iequals_to_lower a b :
  iequals a b = true -> to_lower_copy a = to_lower_copy b.
Proof.
  revert b. induction a as [|x a IH]; intros [|y b]; simpl; try discriminate; auto.
  intro H. apply andb_prop in H as [H1 H2].
  apply Ascii.eqb_eq in H1. rewrite H1. f_equal. auto.
Qed.

Lemma to_lower_iequals a : forall b,
  to_lower_copy a = to_lower_copy b -> iequals a b = true.
Proof.
  induction a as [|x a IH]; intros [|y b] H; try discriminate; [reflexivity|].
  cbn in H. injection H as Hxy Hab. cbn. rewrite Hxy, Ascii.eqb_refl. cbn. auto.
Qed.

Lemma iequals_refl a : iequals a a = true.
Proof. now apply to_lower_iequals. Qed.

Lemma iequals_sym a b : iequals a b = iequals b a.
Proof.
  destruct (iequals a b) eqn:E1, (iequals b a) eqn:E2; try reflexivity.
  - apply iequals_to_lower in E1. symmetry in E1.
    apply to_lower_iequals in E1. congruence.
  - apply iequals_to_lower in E2. symmetry in E2.
    apply to_lower_iequals in E2. congruence.
Qed.

Lemma iequals_trans a b c :
  iequals a b = true -> iequals b c = true -> iequals a c = true.
Proof.
  intros H1 H2. apply iequals_to_lower in H1, H2.
  apply to_lower_iequals. congruence.
Qed.

Lemma mod_256_signed ch :
  -128 <= ch < 128 -> ch mod 256 = if ch <? 0 then ch + 256 else ch.
Proof.
  intro H. destruct (Z.ltb_spec ch 0).
  - replace ch with (ch + 256 + (-1) * 256) at 1 by lia.
    rewrite Z_mod_plus_full. apply Z.mod_small. lia.
  - apply Z.mod_small. lia.
Qed.

Lemma int_of_char_of_int ch : -128 <= ch < 128 -> int_of_char (char_of_int ch) = ch.
Proof.
  intro H. unfold int_of_char, char_of_int.
  assert (Hm : 0 <= ch mod 256 < 256) by (apply Z.mod_pos_bound; lia).
  rewrite N_ascii_embedding by lia.
  rewrite Z2N.id by lia.
  rewrite (mod_256_signed ch H) in *.
  destruct (Z.ltb_spec ch 0);
    match goal with |- context [?a <? 128] => destruct (Z.ltb_spec a 128) end; lia.
Qed.

Lemma to_int_type_of_int ch : 0 <= ch <= 255 -> to_int_type (char_of_int ch) = ch.
Proof.
  intro H. unfold to_int_type, char_of_int.
  rewrite Z.mod_small by lia. rewrite N_ascii_embedding by lia. lia.
Qed.

Lemma uint32_line_round l : uint32 (uint32 (uint32 (l + 1) - 1) + 1) = uint32 (l + 1).
Proof.
  unfold uint32.
  rewrite Zplus_mod_idemp_l.
  replace (((l + 1) mod 2 ^ 32 - 1) + 1) with ((l + 1) mod 2 ^ 32) by lia.
  apply Z.mod_mod. lia.
Qed.


Lemma get_next_char_read i p :
  get_next_char i p =
    (fst (read_char (mBuffer p) (mData p)),
     mk_parser (snd (snd (read_char (mBuffer p) (mData p))))
       (fst (snd (read_char (mBuffer p) (mData p))))
       (push_back (mTokenValue p) (token_char i (fst (read_char (mBuffer p) (mData p)))))
       (mTokenType p)
       (if fst (read_char (mBuffer p) (mData p)) =? LF
        then uint32 (m_line_nr p + 1) else m_line_nr p)
       (m_bol p)).
Proof.
  destruct p as [d b tok ty line bol].
  unfold get_next_char, stream_get, token_char, read_char, cr_lookahead.
  cbn [mData mBuffer mTokenValue mTokenType m_line_nr m_bol].
  destruct b as [|top rest]; [destruct d as [|c d]|].
  - cbn. destruct i; reflexivity.
  - destruct (Z.eqb_spec c CR) as [->|Hc].
    + destruct d as [|c2 d2]; cbn.
      * destruct i; reflexivity.
      * destruct (c2 =? LF); destruct i; reflexivity.
    + destruct i; cbn.
      * destruct (c =? LF); reflexivity.
      * destruct (c =? kEOF), (c =? LF); reflexivity.
  - destruct (Z.eqb_spec top CR) as [->|Hc].
    + destruct d as [|c2 d2]; cbn.
      * destruct i; reflexivity.
      * destruct (c2 =? LF); destruct i; reflexivity.
    + destruct i; cbn.
      * destruct (top =? LF); reflexivity.
      * destruct (top =? kEOF), (top =? LF); reflexivity.
Qed.

Lemma strip_eof_cons c s :
  hd kEOF (strip_eof (c :: s)) = c /\ tl (strip_eof (c :: s)) = strip_eof s.
Proof.
  cbn [strip_eof]. destruct (strip_eof s) as [|x r] eqn:E.
  - destruct (Z.eqb_spec c kEOF) as [->|]; split; reflexivity.
  - split; reflexivity.
Qed.

Lemma strip_eof_same c s1 s2 :
  strip_eof s1 = strip_eof s2 -> strip_eof (c :: s1) = strip_eof (c :: s2).
Proof. intro H. cbn [strip_eof]. now rewrite H. Qed.

Lemma translate_after_cr c s :
  c <> LF -> translate true (c :: s) = translate false (c :: s).
Proof.
  intro H. cbn [translate]. apply Z.eqb_neq in H. now rewrite H, andb_false_r.
Qed.

Lemma translate_cons c s :
  c <> CR -> translate false (c :: s) = c :: translate false s.
Proof. intro H. cbn [translate andb]. apply Z.eqb_neq in H. now rewrite H. Qed.

Lemma buffer_ok_tail c b : buffer_ok (c :: b) = true -> buffer_ok b = true.
Proof. cbn [buffer_ok]. intro H. now apply andb_prop in H as [_ H]. Qed.

Lemma buffer_ok_cr b : buffer_ok (CR :: b) = true -> b = [].
Proof.
  cbn [buffer_ok]. intro H. apply andb_prop in H as [H _].
  apply andb_prop in H as [_ H]. destruct b; [reflexivity|discriminate H].
Qed.

Lemma buffer_ok_push c b :
  is_pushed c = true -> c <> CR -> buffer_ok b = true -> buffer_ok (c :: b) = true.
Proof.
  intros Hc Hcr Hb. cbn [buffer_ok]. rewrite Hc, Hb. apply Z.eqb_neq in Hcr.
  rewrite Hcr. destruct b; reflexivity.
Qed.

Lemma is_byte_pushed c : is_byte c = true -> is_pushed c = true.
Proof. unfold is_byte, is_pushed. lia. Qed.

(** What [getNextChar] reads is the first character still to be read, or
    the end of file when there is none. *)
Lemma read_char_next b d :
  buffer_ok b = true -> forallb is_byte d = true ->
  let r := read_char b d in
  fst r = hd kEOF (strip_eof (translate false (b ++ d))) /\
  strip_eof (translate false (fst (snd r) ++ snd (snd r))) =
    tl (strip_eof (translate false (b ++ d))) /\
  buffer_ok (fst (snd r)) = true /\ forallb is_byte (snd (snd r)) = true /\
  fst r <> CR /\ is_pushed (fst r) = true.
Proof.
  intros Hb Hd.
  assert (Hcr : forall b0 d0,
            (b0 = [] \/ b0 = b) -> b0 = [] ->
            forallb is_byte d0 = true ->
            let r := cr_lookahead b0 d0 in
            fst r = hd kEOF (strip_eof (translate false (CR :: b0 ++ d0))) /\
            strip_eof (translate false (fst (snd r) ++ snd (snd r))) =
              tl (strip_eof (translate false (CR :: b0 ++ d0))) /\
            buffer_ok (fst (snd r)) = true /\ forallb is_byte (snd (snd r)) = true /\
            fst r <> CR /\ is_pushed (fst r) = true).
  { intros b0 d0 _ -> Hd0. cbn [app]. unfold cr_lookahead.
    change (translate false (CR :: d0)) with (LF :: translate true d0).
    destruct (strip_eof_cons LF (translate true d0)) as [H1 H2].
    rewrite H1, H2.
    destruct d0 as [|c d0]; [cbn; repeat split; discriminate|].
    cbn [forallb] in Hd0. apply andb_prop in Hd0 as [Hc Hd0].
    destruct (Z.eqb_spec c LF) as [->|Hlf]; cbn [fst snd app].
    - repeat split; try assumption; discriminate.
    - rewrite (translate_after_cr c d0 Hlf).
      repeat split; try discriminate.
      + cbn [buffer_ok]. now rewrite (is_byte_pushed c Hc).
      + exact Hd0. }
  unfold read_char. destruct b as [|top rest].
  - destruct d as [|c d']; [cbn; repeat split; discriminate|].
    destruct (Z.eqb_spec c CR) as [->|Hc].
    + cbn [forallb] in Hd. apply andb_prop in Hd as [_ Hd].
      exact (Hcr [] d' (or_introl eq_refl) eq_refl Hd).
    + cbn [app fst snd]. rewrite (translate_cons c d' Hc).
      destruct (strip_eof_cons c (translate false d')) as [H1 H2].
      cbn [forallb] in Hd. apply andb_prop in Hd as [Hcb Hd].
      split; [now rewrite H1|]. split; [now rewrite H2|].
      split; [reflexivity|]. split; [exact Hd|]. split; [exact Hc|].
      now apply is_byte_pushed.
  - destruct (Z.eqb_spec top CR) as [->|Hc].
    + pose proof (buffer_ok_cr _ Hb) as ->.
      exact (Hcr [] d (or_introl eq_refl) eq_refl Hd).
    + cbn [app fst snd]. rewrite (translate_cons top _ Hc).
      destruct (strip_eof_cons top (translate false (rest ++ d))) as [H1 H2].
      split; [now rewrite H1|]. split; [now rewrite H2|].
      split; [exact (buffer_ok_tail _ _ Hb)|]. split; [exact Hd|]. split; [exact Hc|].
      cbn [buffer_ok] in Hb. apply andb_prop in Hb as [Hb _].
      now apply andb_prop in Hb as [Hb _].
Qed.

Lemma no_cr_push_back s c :
  no_cr s = true -> to_int_type c <> CR -> no_cr (push_back s c) = true.
Proof.
  intros Hs Hc. unfold push_back. induction s as [|a s IH]; cbn [append no_cr].
  - apply Z.eqb_neq in Hc. now rewrite Hc.
  - cbn [no_cr] in Hs. apply andb_prop in Hs as [Ha Hs]. now rewrite Ha, IH.
Qed.

Lemma no_cr_back s c :
  no_cr s = true -> back s = Some c ->
  to_int_type c <> CR /\ no_cr (pop_back s) = true.
Proof.
  induction s as [|a s IH]; [discriminate|]. intros Hs Hb.
  cbn [no_cr] in Hs. apply andb_prop in Hs as [Ha Hs].
  destruct s as [|a2 s].
  - injection Hb as <-. split; [|reflexivity].
    apply negb_true_iff in Ha. now apply Z.eqb_neq.
  - destruct (IH Hs Hb) as [H1 H2]. split; [exact H1|].
    change (pop_back (String a (String a2 s))) with (String a (pop_back (String a2 s))).
    cbn [no_cr]. now rewrite Ha, H2.
Qed.

Lemma no_cr_substring s : forall n m,
  no_cr s = true -> no_cr (String.substring n m s) = true.
Proof.
  induction s as [|a s IH]; intros n m Hs.
  - destruct n, m; reflexivity.
  - cbn [no_cr] in Hs. apply andb_prop in Hs as [Ha Hs].
    destruct n as [|n]; [destruct m as [|m]|]; cbn [String.substring no_cr]; auto.
    now rewrite Ha, IH.
Qed.

Lemma no_cr_substr s pos n : no_cr s = true -> no_cr (substr s pos n) = true.
Proof. intro H. unfold substr. now apply no_cr_substring. Qed.

Lemma no_cr_erase_front n : forall s,
  no_cr s = true -> no_cr (erase_front n s) = true.
Proof.
  induction n as [|n IH]; intros s Hs; [destruct s; exact Hs|].
  destruct s as [|a s]; [reflexivity|]. cbn [erase_front].
  cbn [no_cr] in Hs. apply andb_prop in Hs as [_ Hs]. now apply IH.
Qed.

Lemma token_char_no_cr i r :
  r <> CR -> is_pushed r = true -> to_int_type (token_char i r) <> CR.
Proof.
  intros Hr Hp. unfold is_pushed in Hp.
  assert (H : to_int_type (char_of_int r) <> CR).
  { unfold to_int_type, char_of_int.
    assert (Hm : 0 <= r mod 256 < 256) by (apply Z.mod_pos_bound; lia).
    rewrite N_ascii_embedding by lia. rewrite Z2N.id by lia.
    unfold CR in *. intro E.
    destruct (Z.ltb_spec r 0).
    - replace r with (r + 256 + (-1) * 256) in E by lia.
      rewrite Z_mod_plus_full, Z.mod_small in E by lia. lia.
    - rewrite Z.mod_small in E by lia. lia. }
  unfold token_char. destruct i; [exact H|].
  destruct (r =? kEOF); [discriminate|exact H].
Qed.

Lemma parser_ok_parts p :
  parser_ok p = true <->
  buffer_ok (mBuffer p) = true /\ forallb is_byte (mData p) = true /\
  no_cr (mTokenValue p) = true.
Proof.
  unfold parser_ok. rewrite !andb_true_iff. tauto.
Qed.

Lemma scan_fuel_mono i n : forall l p x k,
  scan i n l p = Returns x -> scan i (n + k) l p = Returns x.
Proof.
  induction n as [|n IH]; intros l p x k H; [discriminate|].
  cbn [scan Nat.add] in *.
  destruct (get_next_char i p) as [ch p1].
  destruct (step i l ch p1) as [[[l'|t] p2]|e]; auto.
Qed.

Lemma substr_strip v x y :
  ItemValue.strlen v + 2 < 2 ^ 64 ->
  substr (String x (push_back v y)) 1 (ItemValue.strlen (String x (push_back v y)) - 2) = v.
Proof.
  intro Hlen. unfold substr, ItemValue.strlen in *.
  cbn [String.length]. rewrite length_push_back.
  replace (Z.of_nat (S (S (String.length v))) - 2) with (Z.of_nat (String.length v)) by lia.
  rewrite Z.mod_small by lia.
  rewrite Z.min_l by lia.
  rewrite Nat2Z.id. change (Z.to_nat 1) with 1%nat. cbn [substring].
  unfold push_back. apply substring_0_app.
Qed.

Lemma retract_unread i p s a :
  mTokenValue p = push_back s a ->
  retract i p =
    mk_parser (mData p) (unread i a :: mBuffer p) s (mTokenType p)
      (if int_of_char a =? LF then uint32 (m_line_nr p - 1) else m_line_nr p)
      (m_bol p).
Proof.
  intro H. unfold retract. rewrite H, back_push_back, pop_back_push_back.
  destruct i; reflexivity.
Qed.

Lemma unread_ok i a :
  to_int_type a <> CR -> is_pushed (unread i a) = true /\ unread i a <> CR.
Proof.
  intro Hch. pose proof (N_ascii_bounded a) as B. unfold to_int_type in Hch.
  unfold unread, is_pushed, int_of_char, to_int_type, kEOF, CR in *. cbv zeta.
  destruct i.
  - destruct (Z.ltb_spec (Z.of_N (N_of_ascii a)) 128); split; lia.
  - destruct (Z.ltb_spec (Z.of_N (N_of_ascii a)) 128);
      match goal with |- context [?x =? 0] => destruct (Z.eqb_spec x 0) end;
      split; lia.
Qed.

Lemma strip_eof_push c s : strip_eof (c :: s) = push_front c (strip_eof s).
Proof. cbn [strip_eof]. destruct (strip_eof s); reflexivity. Qed.

(** The unread characters never end in an end of file. *)
Lemma strip_eof_last s : forall c r, strip_eof s = c :: r -> push_front c r = c :: r.
Proof.
  induction s as [|x s IH]; intros c r H; [discriminate|].
  rewrite strip_eof_push in H. unfold push_front in *.
  destruct (strip_eof s) as [|y t] eqn:E.
  - destruct (Z.eqb_spec x kEOF); [discriminate|].
    injection H as <- <-. destruct (Z.eqb_spec x kEOF); [contradiction|reflexivity].
  - injection H as <- <-. reflexivity.
Qed.

Lemma no_cr_pop s a : no_cr (push_back s a) = true -> no_cr s = true /\ to_int_type a <> CR.
Proof.
  intro H. destruct (no_cr_back _ _ H (back_push_back s a)) as [H1 H2].
  rewrite pop_back_push_back in H2. auto.
Qed.

(** [retract] puts the last character of the token in front of the unread
    ones. *)
Lemma retract_reads i p s a r :
  reads p r -> mTokenValue p = push_back s a ->
  reads (retract i p) (push_front (unread i a) r) /\
  mTokenValue (retract i p) = s /\
  mTokenType (retract i p) = mTokenType p /\
  m_bol (retract i p) = m_bol p /\
  m_line_nr (retract i p) =
    (if int_of_char a =? LF then uint32 (m_line_nr p - 1) else m_line_nr p).
Proof.
  intros [Hok Hr] Ht. rewrite (retract_unread i p s a Ht).
  apply parser_ok_parts in Hok as (Pb & Pd & Pt). rewrite Ht in Pt.
  destruct (no_cr_pop _ _ Pt) as [Hs Ha].
  destruct (unread_ok i a Ha) as [Hp Hcr].
  cbn [mTokenValue mTokenType m_bol m_line_nr].
  split; [|repeat split].
  split.
  - apply parser_ok_parts. cbn [mData mBuffer mTokenValue].
    repeat split; auto using buffer_ok_push.
  - unfold to_read in *. cbn [mData mBuffer app].
    rewrite (translate_cons _ _ Hcr), strip_eof_push. now rewrite Hr.
Qed.

(** [getNextChar] takes the first of the unread characters. *)
Lemma next_char i p c s :
  reads p (c :: s) ->
  exists p1,
    get_next_char i p = (c, p1) /\ reads p1 s /\
    mTokenValue p1 = push_back (mTokenValue p) (token_char i c) /\
    mTokenType p1 = mTokenType p /\ m_bol p1 = m_bol p /\
    m_line_nr p1 = (if c =? LF then uint32 (m_line_nr p + 1) else m_line_nr p) /\
    c <> CR /\ is_pushed c = true.
Proof.
  intros [Hok Hr]. apply parser_ok_parts in Hok as (Pb & Pd & Pt).
  destruct (read_char_next _ _ Pb Pd) as (P1 & P2 & P3 & P4 & P5 & P6).
  unfold to_read in Hr. rewrite Hr in P1, P2. cbn [hd tl] in P1, P2.
  rewrite (get_next_char_read i p). rewrite P1 in *.
  eexists. split; [reflexivity|].
  cbn [mTokenValue mTokenType m_bol m_line_nr].
  repeat split; auto.
  apply parser_ok_parts. cbn [mData mBuffer mTokenValue].
  repeat split; auto. apply no_cr_push_back; auto. now apply token_char_no_cr.
Qed.

(** At the end of the input [getNextChar] returns the end of file. *)
Lemma next_char_eof i p :
  reads p [] ->
  exists p1,
    get_next_char i p = (kEOF, p1) /\ reads p1 [] /\
    mTokenValue p1 = push_back (mTokenValue p) (token_char i kEOF) /\
    mTokenType p1 = mTokenType p /\ m_bol p1 = m_bol p /\
    m_line_nr p1 = m_line_nr p.
Proof.
  intros [Hok Hr]. apply parser_ok_parts in Hok as (Pb & Pd & Pt).
  destruct (read_char_next _ _ Pb Pd) as (P1 & P2 & P3 & P4 & P5 & P6).
  unfold to_read in Hr. rewrite Hr in P1, P2. cbn [hd tl] in P1, P2.
  rewrite (get_next_char_read i p). rewrite P1 in *.
  eexists. split; [reflexivity|].
  cbn [mTokenValue mTokenType m_bol m_line_nr].
  repeat split; auto.
  apply parser_ok_parts. cbn [mData mBuffer mTokenValue].
  repeat split; auto. apply no_cr_push_back; auto. now apply token_char_no_cr.
Qed.

Lemma token_char_byte i a : token_char i (to_int_type a) = a.
Proof.
  unfold token_char. pose proof (N_ascii_bounded a) as B.
  destruct i; [apply char_of_to_int_type|].
  replace (to_int_type a =? kEOF) with false; [apply char_of_to_int_type|].
  symmetry. apply Z.eqb_neq. unfold to_int_type, kEOF. lia.
Qed.

Lemma token_char_plain i c : 0 <= c <= 255 -> token_char i c = char_of_int c.
Proof.
  intro H. unfold token_char. destruct i; [reflexivity|].
  replace (c =? kEOF) with false; [reflexivity|].
  symmetry. apply Z.eqb_neq. unfold kEOF. lia.
Qed.

(** A character from 1 to 127 is pushed back as it was read. *)
Lemma unread_plain i c :
  1 <= c < 128 ->
  unread i (token_char i c) = c /\ (int_of_char (token_char i c) =? LF) = (c =? LF).
Proof.
  intro H. rewrite token_char_plain by lia.
  assert (E : int_of_char (char_of_int c) = c) by (apply int_of_char_of_int; lia).
  split; [|now rewrite E].
  unfold unread. destruct i; [exact E|].
  rewrite E. replace (c =? 0) with false by (symmetry; apply Z.eqb_neq; lia).
  apply to_int_type_of_int. lia.
Qed.

Lemma unread_byte i a :
  is_non_blank (to_int_type a) = true ->
  unread i a = to_int_type a /\ (int_of_char a =? LF) = false.
Proof.
  intro H. apply is_non_blank_range in H.
  destruct (unread_plain i (to_int_type a)) as [H1 H2]; [lia|].
  rewrite token_char_byte in H1, H2. split; [exact H1|].
  rewrite H2. apply Z.eqb_neq. unfold LF. lia.
Qed.

Lemma push_front_cons c s : c <> kEOF -> push_front c s = c :: s.
Proof.
  intro H. unfold push_front. destruct s; [|reflexivity].
  apply Z.eqb_neq in H. now rewrite H.
Qed.

Lemma is_blank_cases c : is_blank c = true -> c = 32 \/ c = 9 \/ c = 10.
Proof.
  unfold is_blank. intro Hc.
  apply orb_prop in Hc as [Hc|Hc]; [apply orb_prop in Hc as [Hc|Hc]|];
    apply Z.eqb_eq in Hc; auto.
Qed.

Lemma uint32_idem z : uint32 (uint32 z) = uint32 z.
Proof. unfold uint32. apply Z.mod_mod. lia. Qed.

(** Reading a character and handing it back. *)
Lemma read_and_retract i p c s :
  reads p (c :: s) -> is_non_blank c = true ->
  exists p1,
    get_next_char i p = (c, p1) /\
    reads (retract i p1) (c :: s) /\
    mTokenValue (retract i p1) = mTokenValue p /\
    mTokenType (retract i p1) = mTokenType p /\
    m_bol (retract i p1) = m_bol p /\
    m_line_nr (retract i p1) = m_line_nr p.
Proof.
  intros Hr Hnb. apply is_non_blank_range in Hnb.
  destruct (next_char i p c s Hr) as (p1 & E & R1 & T1 & Ty1 & B1 & L1 & _).
  destruct (retract_reads i p1 _ _ _ R1 T1) as (R2 & T2 & Ty2 & B2 & L2).
  destruct (unread_plain i c) as [U1 U2]; [lia|].
  rewrite U1 in R2. rewrite U2 in L2.
  rewrite push_front_cons in R2 by (unfold kEOF; lia).
  exists p1. repeat split; try tauto; try congruence.
  - apply R2.
  - apply R2.
  - rewrite L2, L1.
    replace (c =? LF) with false by (symmetry; apply Z.eqb_neq; unfold LF; lia).
    reflexivity.
Qed.

(** [State::White]: the blanks are skipped, and the character that ends
    them is handed back. *)
Lemma scan_white i c s : is_non_blank c = true ->
  forall ws l p (bol : bool),
    state l = State_White ->
    reads p (ws ++ c :: s) -> forallb is_blank ws = true ->
    m_bol p = bol ->
    exists p2,
      (forall n, scan i (S (List.length ws) + n) l p =
                 scan i n (goto l State_Start) p2) /\
      reads p2 (c :: s) /\ mTokenValue p2 = "" /\
      mTokenType p2 = mTokenType p /\
      m_bol p2 = (match ws with [] => bol | _ => after_line_feed ws end) /\
      m_line_nr p2 = line_after (m_line_nr p) ws.
Proof.
  intro Hnb. pose proof (is_non_blank_range _ Hnb) as Hrange.
  induction ws as [|w ws IH]; intros l p bol Hl Hr Hws Hbol.
  - cbn [app] in Hr.
    destruct (read_and_retract i p c s Hr Hnb) as (p1 & E & R & T & Ty & B & L).
    exists (set_token (retract i p1) "").
    split.
    { intro n. cbn [List.length Nat.add scan]. rewrite E.
      unfold step. rewrite Hl.
      replace (c =? kEOF) with false by (symmetry; apply Z.eqb_neq; unfold kEOF; lia).
      replace (isspace c) with false; [reflexivity|].
      symmetry. unfold isspace.
      apply orb_false_iff. split; [apply Z.eqb_neq; lia|].
      apply andb_false_iff. right. apply Z.leb_gt. lia. }
    split.
    { destruct R as [R R']. split; [|exact R'].
      apply parser_ok_parts in R as (? & ? & ?).
      apply parser_ok_parts. cbn. auto. }
    cbn [set_token mTokenValue mTokenType m_bol m_line_nr line_after].
    repeat split; congruence.
  - cbn [forallb] in Hws. apply andb_prop in Hws as [Hw Hws].
    cbn [app] in Hr.
    destruct (next_char i p w _ Hr) as (p1 & E & R1 & T1 & Ty1 & B1 & L1 & _).
    assert (R2 : reads (set_bol p1 (w =? LF)) (ws ++ c :: s)).
    { destruct R1 as [R1 R1']. split; [|exact R1'].
      apply parser_ok_parts in R1 as (? & ? & ?). apply parser_ok_parts. cbn. auto. }
    destruct (IH l (set_bol p1 (w =? LF)) (w =? LF) Hl R2 Hws eq_refl)
      as (p2 & Hscan & R & T & Ty & B & L).
    exists p2.
    split.
    { intro n. cbn [List.length Nat.add scan]. rewrite E.
      unfold step. rewrite Hl.
      assert (Hsp : isspace w = true /\ (w =? kEOF) = false).
      { destruct (is_blank_cases _ Hw) as [-> | [-> | ->]]; split; reflexivity. }
      destruct Hsp as [-> ->]. cbn [negb]. apply Hscan. }
    split; [exact R|]. split; [exact T|].
    split; [rewrite Ty; cbn; congruence|].
    split.
    { rewrite B. destruct ws as [|w2 ws]; [|reflexivity].
      unfold after_line_feed. reflexivity. }
    rewrite L. cbn [line_after m_line_nr set_bol]. now rewrite L1.
Qed.

(** [State::Start] at blanks: they are skipped, and the scanner is back in
    [State::Start] before the first character after them. *)
Lemma skip_blanks i ws c s l p :
  state l = State_Start ->
  reads p (ws ++ c :: s) -> forallb is_blank ws = true ->
  is_non_blank c = true ->
  mTokenValue p = "" -> m_bol p = false ->
  exists p2,
    (forall n, scan i (skipped ws + n) l p = scan i n l p2) /\
    reads p2 (c :: s) /\ mTokenValue p2 = "" /\
    mTokenType p2 = mTokenType p /\
    m_bol p2 = after_line_feed ws /\
    m_line_nr p2 = line_after (m_line_nr p) ws.
Proof.
  intros Hl Hr Hws Hnb Ht Hbol.
  destruct ws as [|w ws].
  - exists p. split; [reflexivity|]. split; [exact Hr|]. split; [exact Ht|].
    split; [reflexivity|]. split; [exact Hbol|reflexivity].
  - cbn [forallb] in Hws. apply andb_prop in Hws as [Hw Hws].
    cbn [app] in Hr.
    destruct (next_char i p w _ Hr) as (p1 & E & R1 & T1 & Ty1 & B1 & L1 & _).
    set (p1' := if w =? LF then set_bol p1 true else p1).
    assert (R2 : reads p1' (ws ++ c :: s)).
    { subst p1'. destruct (w =? LF); [|exact R1].
      destruct R1 as [R1 R1']. split; [|exact R1'].
      apply parser_ok_parts in R1 as (? & ? & ?). apply parser_ok_parts. cbn. auto. }
    assert (Hb1 : m_bol p1' = (w =? LF)).
    { subst p1'. destruct (w =? LF) eqn:Ew; [reflexivity|]. congruence. }
    destruct (scan_white i c s Hnb ws (goto l State_White) p1' (w =? LF)
                eq_refl R2 Hws Hb1) as (p2 & Hscan & R & T & Ty & B & L).
    exists p2.
    split.
    { intro n. unfold skipped. cbn [List.length Nat.add scan]. rewrite E.
      unfold step at 1. rewrite Hl.
      replace (goto (goto l State_White) State_Start) with l in Hscan
        by (destruct l; cbn in Hl; subst; reflexivity).
      specialize (Hscan n). cbn [Nat.add] in Hscan.
      destruct (is_blank_cases _ Hw) as [-> | [-> | ->]]; cbn; exact Hscan. }
    split; [exact R|]. split; [exact T|].
    split; [subst p1'; rewrite Ty; destruct (w =? LF); cbn; congruence|].
    split.
    { rewrite B. destruct ws as [|w2 ws]; [|reflexivity].
      unfold after_line_feed. reflexivity. }
    rewrite L. cbn [line_after]. subst p1'.
    destruct (w =? LF); cbn [m_line_nr set_bol]; now rewrite L1.
Qed.

(** [getNextChar], whatever is left to read. *)
Lemma read_next i p s :
  reads p s ->
  exists p1,
    get_next_char i p = (hd kEOF s, p1) /\ reads p1 (tl s) /\
    mTokenValue p1 = push_back (mTokenValue p) (token_char i (hd kEOF s)) /\
    mTokenType p1 = mTokenType p /\ m_bol p1 = m_bol p /\
    hd kEOF s <> CR /\ is_pushed (hd kEOF s) = true.
Proof.
  intro Hr. destruct s as [|c s].
  - destruct (next_char_eof i p Hr) as (p1 & E & R1 & T1 & Ty1 & B1 & L1).
    exists p1. cbn [hd tl]. repeat split; try tauto; try apply R1; discriminate.
  - destruct (next_char i p c s Hr) as (p1 & E & R1 & T1 & Ty1 & B1 & L1 & C1 & C2).
    exists p1. cbn [hd tl]. repeat split; try tauto; apply R1.
Qed.

Lemma all_non_blank_app a b :
  all_non_blank (a ++ b) = all_non_blank a && all_non_blank b.
Proof.
  induction a as [|x a IH]; cbn [append all_non_blank]; [reflexivity|].
  now rewrite IH, andb_assoc.
Qed.

Lemma bytes_app a b : bytes (a ++ b) = (bytes a ++ bytes b)%list.
Proof. induction a as [|x a IH]; cbn [append bytes app]; congruence. Qed.

Lemma string_snoc s : s = "" \/ exists s' a, s = push_back s' a.
Proof.
  induction s as [|x s IH]; [now left|right].
  destruct IH as [->|(s' & a & ->)].
  - exists "", x. reflexivity.
  - exists (String x s'), a. reflexivity.
Qed.

(** [while (not mTokenValue.empty()) retract();] on a token of non-blank
    characters: they are all to be read again. *)
Lemma retract_n_plain i : forall n tok p s,
  String.length tok = n -> reads p s -> mTokenValue p = tok ->
  all_non_blank tok = true ->
  reads (retract_n i n p) (bytes tok ++ s) /\
  mTokenValue (retract_n i n p) = "" /\
  mTokenType (retract_n i n p) = mTokenType p /\
  m_bol (retract_n i n p) = m_bol p /\
  m_line_nr (retract_n i n p) = m_line_nr p.
Proof.
  induction n as [|n IH]; intros tok p s Hn Hr Ht Hnb.
  - destruct tok; [|discriminate]. cbn [retract_n bytes app]. auto.
  - destruct (string_snoc tok) as [->|(tok' & a & ->)]; [discriminate|].
    rewrite length_push_back in Hn. injection Hn as Hn.
    unfold push_back in Hnb. rewrite all_non_blank_app in Hnb.
    apply andb_prop in Hnb as [Hnb Ha]. cbn [all_non_blank] in Ha.
    rewrite andb_true_r in Ha.
    destruct (retract_reads i p tok' a s Hr Ht) as (R & T & Ty & B & L).
    destruct (unread_byte i a Ha) as [U1 U2]. rewrite U1 in R. rewrite U2 in L.
    rewrite push_front_cons in R
      by (apply is_non_blank_range in Ha; unfold kEOF; lia).
    cbn [retract_n].
    destruct (IH tok' (retract i p) _ Hn R T Hnb) as (R' & T' & Ty' & B' & L').
    unfold push_back. rewrite bytes_app. cbn [bytes]. rewrite <- app_assoc. cbn [app].
    repeat split; try apply R'; congruence.
Qed.

(** [restart] after a word of non-blank characters and one more character,
    or the end of file, were read: all go back, and the scanner is one step
    further down the ladder. *)
Lemma restart_word i l p s tok :
  reads p s -> mTokenValue p = tok -> all_non_blank tok = true ->
  forall p1, get_next_char i p = (hd kEOF s, p1) ->
  match start l with
  | State_Start | State_Float | State_Int => True
  | _ => False
  end ->
  exists st' p',
    do_restart i l p1 = Ok (Continue (mk_locals st' st' (quoteChar l)), p') /\
    st' = (match start l with
           | State_Start => State_Float
           | State_Float => State_Int
           | _ => State_Value
           end) /\
    reads p' (bytes tok ++ handed_back i s) /\
    mTokenValue p' = "" /\ mTokenType p' = mTokenType p /\ m_bol p' = false.
Proof.
  intros Hr Ht Hnb p1 E Hst.
  destruct (read_next i p s Hr) as (p1' & E' & R1 & T1 & Ty1 & B1 & C1 & C2).
  rewrite E in E'. injection E' as <-.
  destruct (retract_reads i p1 _ _ _ R1 T1) as (R2 & T2 & Ty2 & B2 & L2).
  fold (pushed i (hd kEOF s)) in R2. fold (handed_back i s) in R2.
  destruct (retract_n_plain i (String.length tok) tok (retract i p1) _ eq_refl R2
              (eq_trans T2 Ht) Hnb) as (R3 & T3 & Ty3 & B3 & L3).
  assert (Eall : retract_all i p1 = retract_n i (String.length tok) (retract i p1)).
  { unfold retract_all. rewrite T1, Ht, length_push_back. reflexivity. }
  unfold do_restart, restart. rewrite Eall.
  destruct (start l); try contradiction; cbn [bind fst snd];
    eexists; eexists; (split; [reflexivity|]); (split; [reflexivity|]);
    (split; [|cbn [set_bol mTokenValue mTokenType m_bol]; repeat split; congruence]);
    (destruct R3 as [R3 R3']; split; [|exact R3']);
    apply parser_ok_parts in R3 as (? & ? & ?); apply parser_ok_parts; cbn; auto.
Qed.

(** A character of a word is pushed back as it is. *)
Lemma handed_back_byte i a s :
  is_non_blank (to_int_type a) = true ->
  handed_back i (to_int_type a :: s) = to_int_type a :: s.
Proof.
  intro H. unfold handed_back, pushed. cbn [hd tl].
  rewrite token_char_byte. destruct (unread_byte i a H) as [-> _].
  apply push_front_cons. apply is_non_blank_range in H. unfold kEOF. lia.
Qed.

Lemma is_white_range c : is_white c = true -> 9 <= c <= 35.
Proof.
  unfold is_white, isspace. intro H.
  repeat (apply orb_prop in H as [H|H]); try (apply Z.eqb_eq in H; lia).
  apply andb_prop in H as [H1 H2]. apply Z.leb_le in H1, H2. lia.
Qed.

Lemma pushed_eof i : pushed i kEOF = kEOF.
Proof. destruct i; reflexivity. Qed.

(** The end of a number is pushed back as it is. *)
Lemma handed_back_end i s : number_end s -> handed_back i s = s.
Proof.
  unfold handed_back, pushed. destruct s as [|c s]; cbn [hd tl number_end].
  - intros _. fold (pushed i kEOF). now rewrite pushed_eof.
  - intro H. apply is_white_range in H.
    destruct (unread_plain i c) as [-> _]; [lia|].
    apply push_front_cons. unfold kEOF. lia.
Qed.

(** The printable characters but the space are non-blank. *)
Lemma is_non_blank_true c : 33 <= c <= 126 -> is_non_blank c = true.
Proof.
  intro H. unfold is_non_blank.
  assert (H1 : (c >? 32) = true) by (apply Z.gtb_lt; lia).
  assert (H2 : (c <=? 127) = true) by (apply Z.leb_le; lia).
  rewrite H1, H2. cbn [andb].
  assert (Hall : forall n, (33 <= n <= 126)%nat ->
            negb (Z.land (table_at (Z.of_nat n - 32)) kNonBlankMask =? 0) = true).
  { intros n Hn.
    do 33 (destruct n as [|n]; [lia|]).
    do 94 (destruct n as [|n]; [reflexivity|]). lia. }
  specialize (Hall (Z.to_nat c)). rewrite Z2Nat.id in Hall by lia.
  apply Hall. lia.
Qed.

(** What is pushed back in place of a character that is not non-blank is
    not non-blank. *)
Lemma pushed_blank i c :
  is_pushed c = true -> is_non_blank c = false -> is_non_blank (pushed i c) = false.
Proof.
  intros Hp Hnb.
  destruct (is_non_blank (pushed i c)) eqn:E; [|reflexivity].
  apply is_non_blank_range in E. exfalso.
  unfold is_pushed in Hp.
  assert (Hc : pushed i c = c \/ pushed i c < 0 \/ 127 < pushed i c).
  { destruct (Z.ltb_spec c 1); [|destruct (Z.ltb_spec c 128)].
    - (* c <= 0 *)
      unfold pushed, unread, token_char.
      destruct i.
      + left. apply int_of_char_of_int. lia.
      + destruct (Z.eqb_spec c kEOF) as [->|Hk]; [left; reflexivity|].
        destruct (Z.eqb_spec c 0) as [->|H0]; [right; left; vm_compute; reflexivity|].
        right. right.
        assert (Hm : c mod 256 = c + 256).
        { replace c with (c + 256 + (-1) * 256) at 1 by lia.
          rewrite Z_mod_plus_full. apply Z.mod_small. lia. }
        assert (Ht : to_int_type (char_of_int c) = c + 256).
        { unfold to_int_type, char_of_int. rewrite Hm.
          rewrite N_ascii_embedding by lia. lia. }
        unfold int_of_char. fold (to_int_type (char_of_int c)). rewrite Ht.
        cbv zeta.
        destruct (Z.ltb_spec (c + 256) 128); [unfold kEOF in *; lia|].
        match goal with |- context [?x =? 0] => destruct (Z.eqb_spec x 0) end; lia.
    - left. apply unread_plain. lia.
    - unfold pushed, unread. rewrite token_char_plain by lia.
      assert (Ht : to_int_type (char_of_int c) = c) by (apply to_int_type_of_int; lia).
      unfold int_of_char. fold (to_int_type (char_of_int c)). rewrite Ht. cbv zeta.
      destruct (Z.ltb_spec c 128); [lia|].
      destruct i; [right; left; lia|].
      destruct (Z.eqb_spec (c - 256) 0); [lia|]. right. right. lia. }
  destruct Hc as [Hc|Hc]; [|lia].
  rewrite Hc in E.
  rewrite is_non_blank_true in Hnb by lia. discriminate.
Qed.

Lemma terminated_handed_back i s :
  match s with [] => True | c :: _ => is_pushed c = true end ->
  terminated s -> terminated (handed_back i s).
Proof.
  destruct s as [|c s]; intros Hp Ht.
  - unfold handed_back. cbn [hd tl]. rewrite pushed_eof. exact I.
  - unfold handed_back. cbn [hd tl terminated] in *.
    pose proof (pushed_blank i c Hp Ht) as H.
    unfold push_front. destruct s.
    + destruct (pushed i c =? kEOF); [exact I|exact H].
    + exact H.
Qed.

Lemma ladder_start_ok l :
  start l = State_Float \/ start l = State_Int ->
  match start l with
  | State_Start | State_Float | State_Int => True
  | _ => False
  end.
Proof. intros [-> | ->]; exact I. Qed.

Lemma number_end_char rest :
  number_end rest ->
  (is_white (hd kEOF rest) || (hd kEOF rest =? kEOF)) = true.
Proof.
  destruct rest as [|c s]; cbn [hd number_end]; [reflexivity|].
  intros ->. reflexivity.
Qed.

Section Ladder.

Variables (i : impl) (w : string) (rest : list Z).
Hypothesis Hnb : all_non_blank w = true.
Hypothesis Hhash : forall u v, w = u ++ String "#" v -> number_type u = None.
Hypothesis Hrest :
  match rest with
  | [] => True
  | t :: _ => is_non_blank t = false \/ t = 35
  end.

(** One turn of the loop that stays in the number states. *)
Lemma outcome_step n l l1 p ch p1 p1' f :
  get_next_char i p = (ch, p1) ->
  step i l ch p1 = Ok (Continue l1, p1') ->
  start l1 = start l -> quoteChar l1 = quoteChar l ->
  mTokenType p1' = mTokenType p ->
  number_outcome i w rest n l1 p1' f ->
  number_outcome i w rest (S n) l p f.
Proof.
  intros E Hs Hst Hq Hty [(ty & p' & F & Hscan & T & Ty & Ok')
                          |(k & p' & rest' & Hk & Hscan & R & Hr & T & Ty & B & Hf)].
  - left. exists ty, p'. repeat split; auto.
    cbn [scan]. now rewrite E, Hs.
  - right. exists (S k), p', rest'.
    split; [lia|]. split.
    { intro m. cbn [Nat.add scan]. rewrite E, Hs, Hscan, Hst, Hq. reflexivity. }
    repeat split; auto; try apply R. congruence.
Qed.

(** The turn of the loop that restarts at a character of the word. *)
Lemma outcome_restart_inside n l p pre a cs f :
  w = pre ++ String a cs ->
  start l = State_Float \/ start l = State_Int ->
  reads p (bytes (String a cs) ++ rest) -> mTokenValue p = pre ->
  (forall p1, get_next_char i p = (to_int_type a, p1) ->
     step i l (to_int_type a) p1 = do_restart i l p1) ->
  (number_end rest -> f = None) ->
  number_outcome i w rest (S n) l p f.
Proof.
  intros Hw Hst Hr Ht Hstep Hf.
  rewrite Hw in Hnb. rewrite all_non_blank_app in Hnb.
  apply andb_prop in Hnb as [Hpre Hcs].
  cbn [all_non_blank] in Hcs. apply andb_prop in Hcs as [Ha Hcs].
  destruct (read_next i p _ Hr) as (p1 & E & R1 & T1 & Ty1 & B1 & C1 & C2).
  cbn [bytes app hd tl] in E.
  destruct (restart_word i l p _ pre Hr Ht Hpre p1 E (ladder_start_ok l Hst))
    as (st' & p' & Er & Hst' & R & T & Ty & B).
  cbn [bytes app] in R. rewrite (handed_back_byte i a _ Ha) in R.
  right. exists 1%nat, p', rest.
  split; [lia|]. split.
  { intro m. cbn [Nat.add scan]. rewrite E, (Hstep p1 E), Er.
    subst st'. destruct Hst as [-> | ->]; reflexivity. }
  split.
  { rewrite Hw, bytes_app. cbn [bytes]. rewrite <- app_assoc. exact R. }
  repeat split; auto.
Qed.

(** The turn of the loop that restarts at the character after the word. *)
Lemma outcome_restart_end n l p f :
  start l = State_Float \/ start l = State_Int ->
  reads p rest -> mTokenValue p = w ->
  (forall p1, get_next_char i p = (hd kEOF rest, p1) ->
     step i l (hd kEOF rest) p1 = do_restart i l p1) ->
  (number_end rest -> f = None) ->
  number_outcome i w rest (S n) l p f.
Proof.
  intros Hst Hr Ht Hstep Hf.
  destruct (read_next i p _ Hr) as (p1 & E & R1 & T1 & Ty1 & B1 & C1 & C2).
  destruct (restart_word i l p _ w Hr Ht Hnb p1 E (ladder_start_ok l Hst))
    as (st' & p' & Er & Hst' & R & T & Ty & B).
  right. exists 1%nat, p', (handed_back i rest).
  split; [lia|]. split.
  { intro m. cbn [Nat.add scan]. rewrite E, (Hstep p1 E), Er.
    subst st'. destruct Hst as [-> | ->]; reflexivity. }
  repeat split; auto; apply R.
Qed.

(** The turn of the loop that accepts the word as a number. *)
Lemma outcome_accept n l p ty f :
  reads p rest -> mTokenValue p = w -> f = Some ty ->
  (forall p1, get_next_char i p = (hd kEOF rest, p1) ->
     step i l (hd kEOF rest) p1 = accept_number i ty p1) ->
  number_outcome i w rest (S n) l p f.
Proof.
  intros Hr Ht Hf Hstep.
  destruct (read_next i p _ Hr) as (p1 & E & R1 & T1 & Ty1 & B1 & C1 & C2).
  destruct (retract_reads i p1 _ _ _ R1 T1) as (R2 & T2 & Ty2 & B2 & L2).
  left. exists ty, (set_type (retract i p1) ty).
  split; [exact Hf|]. split.
  { cbn [scan]. rewrite E, (Hstep p1 E). reflexivity. }
  cbn [set_type mTokenValue mTokenType].
  repeat split; [congruence|].
  destruct R2 as [R2 _]. apply parser_ok_parts in R2 as (? & ? & ?).
  apply parser_ok_parts. cbn. auto.
Qed.

(** A [#] inside the word does not follow a number. *)
Lemma no_hash_here pre a cs (f : string -> option CIFValue) :
  w = pre ++ String a cs ->
  (forall u, number_type (pre ++ u) = f u) ->
  f "" <> None ->
  (to_int_type a =? 35) = false.
Proof.
  intros Hw Hpath Hf. apply Z.eqb_neq. intro E.
  assert (Ea : a = "#"%char).
  { rewrite <- (char_of_to_int_type a), E. reflexivity. }
  subst a. apply Hf. rewrite <- Hpath, append_empty_r. now apply (Hhash pre cs).
Qed.

Lemma non_blank_facts a :
  is_non_blank (to_int_type a) = true ->
  (to_int_type a =? kEOF) = false /\
  (is_white (to_int_type a) = (to_int_type a =? 35)).
Proof.
  intro H. apply is_non_blank_range in H. split.
  - apply Z.eqb_neq. unfold kEOF. lia.
  - unfold is_white, isspace.
    replace (to_int_type a =? 32) with false by (symmetry; apply Z.eqb_neq; lia).
    replace (to_int_type a <=? 13) with false by (symmetry; apply Z.leb_gt; lia).
    now rewrite andb_false_r.
Qed.

Lemma word_char pre a cs :
  w = pre ++ String a cs -> is_non_blank (to_int_type a) = true.
Proof.
  intro Hw. rewrite Hw, all_non_blank_app in Hnb.
  apply andb_prop in Hnb as [_ H]. cbn [all_non_blank] in H.
  now apply andb_prop in H as [H _].
Qed.

Lemma path_push pre a (f g : string -> option CIFValue) :
  (forall u, number_type (pre ++ u) = f u) ->
  (forall u, f (String a u) = g u) ->
  forall u, number_type (push_back pre a ++ u) = g u.
Proof.
  intros Hp Hfg u. rewrite append_push_back, Hp. apply Hfg.
Qed.


(** A turn of the loop that takes a character of the word and goes on. *)
Lemma outcome_continue n l l1 p pre a cs f g :
  w = pre ++ String a cs ->
  reads p (bytes (String a cs) ++ rest) -> mTokenValue p = pre ->
  (forall p1, step i l (to_int_type a) p1 = Ok (Continue l1, p1)) ->
  start l1 = start l -> quoteChar l1 = quoteChar l ->
  (forall p1, reads p1 (bytes cs ++ rest) -> mTokenValue p1 = push_back pre a ->
     mTokenType p1 = mTokenType p -> number_outcome i w rest n l1 p1 g) ->
  f = g ->
  number_outcome i w rest (S n) l p f.
Proof.
  intros Hw Hr Ht Hstep Hst Hq Hnext ->.
  destruct (read_next i p _ Hr) as (p1 & E & R1 & T1 & Ty1 & B1 & C1 & C2).
  cbn [bytes app hd tl] in E, R1, T1. rewrite token_char_byte, Ht in T1.
  apply (outcome_step n l l1 p _ p1 p1 g E (Hstep p1) Hst Hq Ty1).
  now apply Hnext.
Qed.

(** The character after the word is none that a number goes on with. *)
Lemma end_facts :
  let ch := hd kEOF rest in
  isdigit ch = false /\ (ch =? 43) = false /\ (ch =? 45) = false /\
  (ch =? 46) = false /\ (tolower ch =? 101) = false.
Proof.
  destruct rest as [|t s]; cbn [hd]; [repeat split; reflexivity|].
  destruct Hrest as [Ht | ->]; [|repeat split; reflexivity].
  assert (Hout : ~ 33 <= t <= 126).
  { intro H. rewrite is_non_blank_true in Ht by exact H. discriminate. }
  unfold isdigit, tolower.
  repeat split.
  - destruct (Z.leb_spec 48 t), (Z.leb_spec t 57); try reflexivity. lia.
  - apply Z.eqb_neq. lia.
  - apply Z.eqb_neq. lia.
  - apply Z.eqb_neq. lia.
  - destruct (Z.leb_spec 65 t), (Z.leb_spec t 90); cbn [andb];
      apply Z.eqb_neq; lia.
Qed.

(** The states that accept the word at its end: [State::Float + 5] here,
    then [State::Float + 2], [State::Float + 1] and [State::Int + 1]. *)
Lemma scan_float_5 l p pre cs :
  w = pre ++ cs -> (forall u, number_type (pre ++ u) = float_5 u) ->
  state l = State_Float_5 -> start l = State_Float ->
  reads p (bytes cs ++ rest) -> mTokenValue p = pre ->
  number_outcome i w rest (S (String.length cs)) l p (float_5 cs).
Proof.
  intros Hw Hpath Hl Hst Hr Ht.
  destruct cs as [|a cs].
  - rewrite append_empty_r in Hw. subst pre. cbn [bytes app] in Hr.
    destruct (is_white (hd kEOF rest) || (hd kEOF rest =? kEOF)) eqn:Eend.
    + apply (outcome_accept _ l p CIFValue_Float); auto.
      intros p1 _. unfold step. now rewrite Hl, Eend.
    + apply outcome_restart_end; auto.
      * intros p1 _. unfold step. now rewrite Hl, Eend.
      * intro He. apply number_end_char in He. congruence.
  - pose proof (word_char _ _ _ Hw) as Ha.
    destruct (non_blank_facts a Ha) as [Heof Hwh].
    pose proof (no_hash_here pre a cs float_5 Hw Hpath ltac:(discriminate)) as Hh.
    apply (outcome_restart_inside _ l p pre a cs); auto.
    intros p1 _. unfold step. now rewrite Hl, Hwh, Hh, Heof.
Qed.

Lemma scan_float_4 l p pre cs :
  w = pre ++ cs -> (forall u, number_type (pre ++ u) = float_4 u) ->
  state l = State_Float_4 -> start l = State_Float ->
  reads p (bytes cs ++ rest) -> mTokenValue p = pre ->
  number_outcome i w rest (S (String.length cs)) l p (float_4 cs).
Proof.
  intros Hw Hpath Hl Hst Hr Ht.
  destruct cs as [|a cs].
  - rewrite append_empty_r in Hw. subst pre. cbn [bytes app] in Hr.
    destruct end_facts as (F1 & F2 & F3 & F4 & F5).
    apply outcome_restart_end; auto.
    intros p1 _. unfold step. now rewrite Hl, F1.
  - cbn [float_4 String.length].
    destruct (isdigit (to_int_type a)) eqn:Ed.
    + apply (outcome_continue _ l (goto l State_Float_5) p pre a cs _ (float_5 cs)); auto.
      * intros p1. unfold step. now rewrite Hl, Ed.
      * intros p1 R1 T1 Ty1.
        apply (scan_float_5 (goto l State_Float_5) p1 (push_back pre a) cs); auto.
        -- now rewrite append_push_back.
        -- apply (path_push pre a float_4 float_5 Hpath).
           intro u. cbn [float_4]. now rewrite Ed.
    + apply (outcome_restart_inside _ l p pre a cs); auto.
      intros p1 _. unfold step. now rewrite Hl, Ed.
Qed.

Lemma scan_float_3 l p pre cs :
  w = pre ++ cs -> (forall u, number_type (pre ++ u) = float_3 u) ->
  state l = State_Float_3 -> start l = State_Float ->
  reads p (bytes cs ++ rest) -> mTokenValue p = pre ->
  number_outcome i w rest (S (String.length cs)) l p (float_3 cs).
Proof.
  intros Hw Hpath Hl Hst Hr Ht.
  destruct cs as [|a cs].
  - rewrite append_empty_r in Hw. subst pre. cbn [bytes app] in Hr.
    destruct end_facts as (F1 & F2 & F3 & F4 & F5).
    apply outcome_restart_end; auto.
    intros p1 _. unfold step. rewrite Hl. cbn [char_code]. 
    change (int_of_char "-") with 45. change (int_of_char "+") with 43.
    now rewrite F1, F2, F3.
  - cbn [float_3 String.length]. cbv zeta.
    destruct ((to_int_type a =? 45) || (to_int_type a =? 43)) eqn:Es;
      [|destruct (isdigit (to_int_type a)) eqn:Ed].
    + apply (outcome_continue _ l (goto l State_Float_4) p pre a cs _ (float_4 cs)); auto.
      * intros p1. unfold step. rewrite Hl. cbn [char_code].
        change (int_of_char "-") with 45. change (int_of_char "+") with 43.
        now rewrite Es.
      * intros p1 R1 T1 Ty1.
        apply (scan_float_4 (goto l State_Float_4) p1 (push_back pre a) cs); auto.
        -- now rewrite append_push_back.
        -- apply (path_push pre a float_3 float_4 Hpath).
           intro u. cbn [float_3]. cbv zeta. now rewrite Es.
    + apply (outcome_continue _ l (goto l State_Float_5) p pre a cs _ (float_5 cs)); auto.
      * intros p1. unfold step. rewrite Hl. cbn [char_code].
        change (int_of_char "-") with 45. change (int_of_char "+") with 43.
        now rewrite Es, Ed.
      * intros p1 R1 T1 Ty1.
        apply (scan_float_5 (goto l State_Float_5) p1 (push_back pre a) cs); auto.
        -- now rewrite append_push_back.
        -- apply (path_push pre a float_3 float_5 Hpath).
           intro u. cbn [float_3]. cbv zeta. now rewrite Es, Ed.
    + apply (outcome_restart_inside _ l p pre a cs); auto.
      intros p1 _. unfold step. rewrite Hl. cbn [char_code].
      change (int_of_char "-") with 45. change (int_of_char "+") with 43.
      now rewrite Es, Ed.
Qed.

Lemma scan_float_2 l p pre cs :
  w = pre ++ cs -> (forall u, number_type (pre ++ u) = float_2 u) ->
  state l = State_Float_2 -> start l = State_Float ->
  reads p (bytes cs ++ rest) -> mTokenValue p = pre ->
  number_outcome i w rest (S (String.length cs)) l p (float_2 cs).
Proof.
  intros Hw Hpath Hl Hst Hr Ht.
  destruct cs as [|a cs].
  - rewrite append_empty_r in Hw. subst pre. cbn [bytes app] in Hr.
    destruct end_facts as (F1 & F2 & F3 & F4 & F5).
    destruct (is_white (hd kEOF rest) || (hd kEOF rest =? kEOF)) eqn:Eend.
    + apply (outcome_accept _ l p CIFValue_Float); auto.
      intros p1 _. unfold step. rewrite Hl. cbn [char_code].
      change (int_of_char "e") with 101. now rewrite F5, Eend.
    + apply outcome_restart_end; auto.
      * intros p1 _. unfold step. rewrite Hl. cbn [char_code].
        change (int_of_char "e") with 101. now rewrite F5, Eend.
      * intro He. apply number_end_char in He. congruence.
  - pose proof (word_char _ _ _ Hw) as Ha.
    destruct (non_blank_facts a Ha) as [Heof Hwh].
    pose proof (no_hash_here pre a cs float_2 Hw Hpath ltac:(discriminate)) as Hh.
    cbn [float_2 String.length].
    destruct (tolower (to_int_type a) =? 101) eqn:Ee.
    + apply (outcome_continue _ l (goto l State_Float_3) p pre a cs _ (float_3 cs)); auto.
      * intros p1. unfold step. rewrite Hl. cbn [char_code].
        change (int_of_char "e") with 101. now rewrite Ee.
      * intros p1 R1 T1 Ty1.
        apply (scan_float_3 (goto l State_Float_3) p1 (push_back pre a) cs); auto.
        -- now rewrite append_push_back.
        -- apply (path_push pre a float_2 float_3 Hpath).
           intro u. cbn [float_2]. now rewrite Ee.
    + apply (outcome_restart_inside _ l p pre a cs); auto.
      intros p1 _. unfold step. rewrite Hl. cbn [char_code].
      change (int_of_char "e") with 101. now rewrite Ee, Hwh, Hh, Heof.
Qed.

Lemma scan_float_1 l p pre cs :
  w = pre ++ cs -> (forall u, number_type (pre ++ u) = float_1 u) ->
  state l = State_Float_1 -> start l = State_Float ->
  reads p (bytes cs ++ rest) -> mTokenValue p = pre ->
  number_outcome i w rest (S (String.length cs)) l p (float_1 cs).
Proof.
  intros Hw Hpath Hl Hst Hr Ht.
  destruct cs as [|a cs].
  - rewrite append_empty_r in Hw. subst pre. cbn [bytes app] in Hr.
    destruct end_facts as (F1 & F2 & F3 & F4 & F5).
    destruct (is_white (hd kEOF rest) || (hd kEOF rest =? kEOF)) eqn:Eend.
    + apply (outcome_accept _ l p CIFValue_Int); auto.
      intros p1 _. unfold step. rewrite Hl. cbn [char_code].
      change (int_of_char "e") with 101. change (int_of_char ".") with 46.
      now rewrite F4, F5, Eend.
    + apply outcome_restart_end; auto.
      * intros p1 _. unfold step. rewrite Hl. cbn [char_code].
        change (int_of_char "e") with 101. change (int_of_char ".") with 46.
        now rewrite F4, F5, Eend.
      * intro He. apply number_end_char in He. congruence.
  - pose proof (word_char _ _ _ Hw) as Ha.
    destruct (non_blank_facts a Ha) as [Heof Hwh].
    pose proof (no_hash_here pre a cs float_1 Hw Hpath ltac:(discriminate)) as Hh.
    cbn [float_1 String.length]. cbv zeta.
    destruct (to_int_type a =? 46) eqn:Ep;
      [|destruct (tolower (to_int_type a) =? 101) eqn:Ee].
    + apply (outcome_continue _ l (goto l State_Float_2) p pre a cs _ (float_2 cs)); auto.
      * intros p1. unfold step. rewrite Hl. cbn [char_code].
        change (int_of_char ".") with 46. now rewrite Ep.
      * intros p1 R1 T1 Ty1.
        apply (scan_float_2 (goto l State_Float_2) p1 (push_back pre a) cs); auto.
        -- now rewrite append_push_back.
        -- apply (path_push pre a float_1 float_2 Hpath).
           intro u. cbn [float_1]. cbv zeta. now rewrite Ep.
    + apply (outcome_continue _ l (goto l State_Float_3) p pre a cs _ (float_3 cs)); auto.
      * intros p1. unfold step. rewrite Hl. cbn [char_code].
        change (int_of_char "e") with 101. change (int_of_char ".") with 46.
        now rewrite Ep, Ee.
      * intros p1 R1 T1 Ty1.
        apply (scan_float_3 (goto l State_Float_3) p1 (push_back pre a) cs); auto.
        -- now rewrite append_push_back.
        -- apply (path_push pre a float_1 float_3 Hpath).
           intro u. cbn [float_1]. cbv zeta. now rewrite Ep, Ee.
    + apply (outcome_restart_inside _ l p pre a cs); auto.
      intros p1 _. unfold step. rewrite Hl. cbn [char_code].
      change (int_of_char "e") with 101. change (int_of_char ".") with 46.
      now rewrite Ep, Ee, Hwh, Hh, Heof.
Qed.

(** [State::Float]: the word is a number, or the scanner restarts in
    [State::Int] with the word to be read again. *)
Lemma scan_float_at l p cs :
  w = "" ++ cs ->
  state l = State_Float -> start l = State_Float ->
  reads p (bytes cs ++ rest) -> mTokenValue p = "" ->
  number_outcome i w rest (S (String.length cs)) l p (number_type cs).
Proof.
  intros Hw Hl Hst Hr Ht.
  destruct cs as [|a cs].
  - cbn [bytes app] in Hr. cbn [append] in Hw.
    destruct end_facts as (F1 & F2 & F3 & F4 & F5).
    apply outcome_restart_end; auto; [congruence|].
    intros p1 _. unfold step. rewrite Hl. cbn [char_code].
    change (int_of_char "-") with 45. change (int_of_char "+") with 43.
    now rewrite F1, F2, F3.
  - cbn [number_type String.length]. unfold is_digit_or_sign.
    destruct ((to_int_type a =? 43) || (to_int_type a =? 45)) eqn:Es;
      [|destruct (isdigit (to_int_type a)) eqn:Ed].
    + replace (isdigit (to_int_type a) || (to_int_type a =? 43) || (to_int_type a =? 45))
        with true by (rewrite <- orb_assoc, Es; now rewrite orb_true_r).
      apply (outcome_continue _ l (goto l State_Float_1) p "" a cs _ (float_1 cs)); auto.
      * intros p1. unfold step. rewrite Hl. cbn [char_code].
        change (int_of_char "-") with 45. change (int_of_char "+") with 43.
        now rewrite Es.
      * intros p1 R1 T1 Ty1.
        apply (scan_float_1 (goto l State_Float_1) p1 (String a "") cs); auto.
        intro u. cbn [append number_type]. unfold is_digit_or_sign.
        rewrite <- orb_assoc, Es. now rewrite orb_true_r.
    + cbn [orb].
      apply (outcome_continue _ l (goto l State_Float_1) p "" a cs _ (float_1 cs)); auto.
      * intros p1. unfold step. rewrite Hl. cbn [char_code].
        change (int_of_char "-") with 45. change (int_of_char "+") with 43.
        now rewrite Es, Ed.
      * intros p1 R1 T1 Ty1.
        apply (scan_float_1 (goto l State_Float_1) p1 (String a "") cs); auto.
        intro u. cbn [append number_type]. unfold is_digit_or_sign.
        now rewrite Ed.
    + cbn [orb]. rewrite Es.
      apply (outcome_restart_inside _ l p "" a cs); auto.
      intros p1 _. unfold step. rewrite Hl. cbn [char_code].
      change (int_of_char "-") with 45. change (int_of_char "+") with 43.
      now rewrite Es, Ed.
Qed.

(** [State::Int + 1] and [State::Int]. *)
Lemma scan_int_1 l p pre cs :
  w = pre ++ cs -> (forall u, number_type (pre ++ u) = float_1 u) ->
  state l = State_Int_1 -> start l = State_Int ->
  reads p (bytes cs ++ rest) -> mTokenValue p = pre ->
  number_outcome i w rest (S (String.length cs)) l p (int_1 cs).
Proof.
  intros Hw Hpath Hl Hst Hr Ht.
  destruct cs as [|a cs].
  - rewrite append_empty_r in Hw. subst pre. cbn [bytes app] in Hr.
    destruct (is_white (hd kEOF rest) || (hd kEOF rest =? kEOF)) eqn:Eend.
    + apply (outcome_accept _ l p CIFValue_Int); auto.
      intros p1 _. unfold step. now rewrite Hl, Eend.
    + apply outcome_restart_end; auto.
      * intros p1 _. unfold step. now rewrite Hl, Eend.
      * intro He. apply number_end_char in He. congruence.
  - pose proof (word_char _ _ _ Hw) as Ha.
    destruct (non_blank_facts a Ha) as [Heof Hwh].
    pose proof (no_hash_here pre a cs float_1 Hw Hpath ltac:(discriminate)) as Hh.
    apply (outcome_restart_inside _ l p pre a cs); auto.
    intros p1 _. unfold step. now rewrite Hl, Hwh, Hh, Heof.
Qed.

Lemma scan_int_at l p cs :
  w = "" ++ cs ->
  state l = State_Int -> start l = State_Int ->
  reads p (bytes cs ++ rest) -> mTokenValue p = "" ->
  number_outcome i w rest (S (String.length cs)) l p (int_type cs).
Proof.
  intros Hw Hl Hst Hr Ht.
  destruct cs as [|a cs].
  - cbn [bytes app] in Hr. cbn [append] in Hw.
    destruct end_facts as (F1 & F2 & F3 & F4 & F5).
    apply outcome_restart_end; auto; [congruence|].
    intros p1 _. unfold step. rewrite Hl. cbn [char_code].
    change (int_of_char "-") with 45. change (int_of_char "+") with 43.
    now rewrite F1, F2, F3.
  - cbn [int_type String.length].
    destruct (is_digit_or_sign (to_int_type a)) eqn:Ed.
    + apply (outcome_continue _ l (goto l State_Int_1) p "" a cs _ (int_1 cs)); auto.
      * intros p1. unfold step. rewrite Hl. cbn [char_code].
        change (int_of_char "-") with 45. change (int_of_char "+") with 43.
        unfold is_digit_or_sign in Ed. now rewrite Ed.
      * intros p1 R1 T1 Ty1.
        apply (scan_int_1 (goto l State_Int_1) p1 (String a "") cs); auto.
        intro u. cbn [append number_type]. now rewrite Ed.
    + apply (outcome_restart_inside _ l p "" a cs); auto.
      intros p1 _. unfold step. rewrite Hl. cbn [char_code].
      change (int_of_char "-") with 45. change (int_of_char "+") with 43.
      unfold is_digit_or_sign in Ed. now rewrite Ed.
Qed.

Lemma scan_float l p :
  state l = State_Float -> start l = State_Float ->
  reads p (bytes w ++ rest) -> mTokenValue p = "" ->
  number_outcome i w rest (S (String.length w)) l p (number_type w).
Proof. now apply scan_float_at. Qed.

Lemma scan_int l p :
  state l = State_Int -> start l = State_Int ->
  reads p (bytes w ++ rest) -> mTokenValue p = "" ->
  number_outcome i w rest (S (String.length w)) l p (int_type w).
Proof. now apply scan_int_at. Qed.

End Ladder.

Lemma terminated_char rest :
  terminated rest -> is_non_blank (hd kEOF rest) = false.
Proof. destruct rest as [|t s]; cbn [hd terminated]; auto. Qed.

Lemma iequals_false_eqb a b : iequals a b = false -> String.eqb a b = false.
Proof.
  intro H. destruct (String.eqb_spec a b) as [->|]; [|reflexivity].
  assert (R : forall s, iequals s s = true).
  { induction s as [|x s IH]; cbn; [reflexivity|]. now rewrite Ascii.eqb_refl. }
  now rewrite R in H.
Qed.

(** [State::Value]: the characters up to the first one that is not
    non-blank are collected. *)
Lemma scan_value i l rest : forall d pre p,
  state l = State_Value ->
  reads p (bytes d ++ rest) -> mTokenValue p = pre ->
  all_non_blank d = true ->
  prefixes_ok i pre d = true -> reserved_end i (pre ++ d) = false ->
  terminated rest ->
  exists p',
    scan i (S (String.length d)) l p = Returns (CIFToken_Value, p') /\
    mTokenType p' = fst (value_token (pre ++ d) (mTokenType p)) /\
    mTokenValue p' = snd (value_token (pre ++ d) (mTokenType p)) /\
    parser_ok p' = true.
Proof.
  induction d as [|a d IH]; intros pre p Hl Hr Hpre Hnb Hpo Hend Hterm.
  - (* the character that ends the lexeme *)
    cbn [bytes app] in Hr. rewrite append_empty_r in *.
    destruct (read_next i p _ Hr) as (p1 & E & R1 & T1 & Ty1 & B1 & C1 & C2).
    pose proof (terminated_char _ Hterm) as Hch.
    destruct (retract_reads i p1 _ _ _ R1 T1) as (R2 & T2 & Ty2 & B2 & L2).
    assert (Hus : (hd kEOF rest =? char_code "_") = false).
    { destruct (Z.eqb_spec (hd kEOF rest) (char_code "_")) as [Eu|]; [|reflexivity].
      rewrite Eu in Hch. discriminate Hch. }
    assert (Hok : forall q, mData q = mData (retract i p1) ->
                    mBuffer q = mBuffer (retract i p1) ->
                    no_cr (mTokenValue q) = true -> parser_ok q = true).
    { intros q Hd Hb Hn. destruct R2 as [R2 _].
      apply parser_ok_parts in R2 as (? & ? & ?).
      apply parser_ok_parts. rewrite Hd, Hb. auto. }
    assert (Hncr : no_cr (mTokenValue (retract i p1)) = true).
    { destruct R2 as [R2 _]. now apply parser_ok_parts in R2 as (? & ? & ?). }
    cbn [String.length scan]. rewrite E. unfold step. rewrite Hl.
    unfold value_token.
    destruct i.
    + unfold value_state_V2. rewrite Hus, Hch. cbn [negb].
      rewrite T2, Hpre.
      destruct (String.eqb_spec pre ".");
        [|destruct (String.eqb_spec pre "?")];
        eexists; (split; [reflexivity|]); cbn [fst snd set_type set_token mTokenType mTokenValue];
        (split; [congruence|]); (split; [congruence|]);
        apply Hok; cbn; auto.
    + unfold value_state_V1. rewrite Hus, Hch. cbn [negb].
      rewrite T2, Hpre.
      cbn [reserved_end] in Hend.
      apply orb_false_iff in Hend as [Hend H3].
      apply orb_false_iff in Hend as [H1 H2].
      destruct (String.eqb_spec pre ".");
        [|rewrite H1, H2, H3; destruct (String.eqb_spec pre "?")];
        eexists; (split; [reflexivity|]); cbn [fst snd set_type set_token mTokenType mTokenValue];
        (split; [congruence|]); (split; [congruence|]);
        apply Hok; cbn; auto.
  - cbn [all_non_blank] in Hnb. apply andb_prop in Hnb as [Ha Hnb].
    cbn [prefixes_ok] in Hpo. apply andb_prop in Hpo as [Hra Hpo].
    apply negb_true_iff in Hra.
    destruct (read_next i p _ Hr) as (p1 & E & R1 & T1 & Ty1 & B1 & C1 & C2).
    cbn [bytes app hd tl] in E, R1, T1. rewrite token_char_byte, Hpre in T1.
    assert (Hstep : step i l (to_int_type a) p1 = Ok (Continue l, p1)).
    { unfold step. rewrite Hl.
      destruct i; [unfold value_state_V2|unfold value_state_V1];
        rewrite T1; unfold reserved_at in Hra; cbv zeta in Hra;
        repeat (apply orb_false_iff in Hra; destruct Hra as [Hra ?]);
        repeat match goal with H : String.eqb _ _ = false |- _ => rewrite H; clear H end;
        rewrite Ha; destruct (_ =? _); reflexivity. }
    destruct (IH (push_back pre a) p1 Hl R1 T1 Hnb Hpo) as (p' & Es & Ty' & T' & Ok');
      [now rewrite append_push_back|exact Hterm|].
    exists p'. cbn [String.length scan]. rewrite E, Hstep.
    rewrite append_push_back, Ty1 in Ty', T'. auto.
Qed.

Lemma hash_after_number_none : forall d pre,
  hash_after_number pre d = false ->
  forall u v, d = u ++ String "#" v -> number_type (pre ++ u) = None.
Proof.
  induction d as [|a d IH]; intros pre H u v E.
  - destruct u; discriminate E.
  - cbn [hash_after_number] in H. apply orb_false_iff in H as [H1 H2].
    destruct u as [|x u].
    + cbn [append] in E. injection E as -> _. rewrite append_empty_r.
      change (to_int_type "#" =? 35) with true in H1. cbn [andb] in H1.
      destruct (number_type pre); [discriminate|reflexivity].
    + cbn [append] in E. injection E as -> E.
      rewrite <- append_push_back. now apply (IH _ H2 u v).
Qed.

Lemma translate_pushed : forall s b,
  forallb is_pushed s = true -> forallb is_pushed (translate b s) = true.
Proof.
  induction s as [|c s IH]; intros b H; [reflexivity|].
  cbn [forallb] in H. apply andb_prop in H as [Hc Hs].
  cbn [translate].
  destruct (b && (c =? LF)); [now apply IH|].
  destruct (c =? CR); cbn [forallb]; rewrite IH by assumption;
    [reflexivity|now rewrite Hc].
Qed.

Lemma strip_eof_pushed : forall s,
  forallb is_pushed s = true -> forallb is_pushed (strip_eof s) = true.
Proof.
  induction s as [|c s IH]; intro H; [reflexivity|].
  cbn [forallb] in H. apply andb_prop in H as [Hc Hs].
  cbn [strip_eof]. specialize (IH Hs).
  destruct (strip_eof s) as [|x r].
  - destruct (c =? kEOF); cbn [forallb]; [reflexivity|now rewrite Hc].
  - cbn [forallb] in *. now rewrite Hc, IH.
Qed.

Lemma buffer_ok_pushed : forall b, buffer_ok b = true -> forallb is_pushed b = true.
Proof.
  induction b as [|c b IH]; intro H; [reflexivity|].
  cbn [buffer_ok] in H. apply andb_prop in H as [H Hb].
  apply andb_prop in H as [Hc _]. cbn [forallb]. now rewrite Hc, IH.
Qed.

(** The characters still to be read are characters. *)
Lemma reads_pushed p s : reads p s -> forallb is_pushed s = true.
Proof.
  intros [Hok <-]. apply parser_ok_parts in Hok as (Pb & Pd & _).
  unfold to_read. apply strip_eof_pushed, translate_pushed.
  rewrite forallb_app, (buffer_ok_pushed _ Pb). cbn [andb].
  clear -Pd. induction (mData p) as [|c d IH]; [reflexivity|].
  cbn [forallb] in *. apply andb_prop in Pd as [Hc Hd].
  now rewrite (is_byte_pushed c Hc), IH.
Qed.

Lemma reads_pushed_at p xs s :
  reads p (xs ++ s) -> match s with [] => True | c :: _ => is_pushed c = true end.
Proof.
  intro H. apply reads_pushed in H. rewrite forallb_app in H.
  apply andb_prop in H as [_ H]. destruct s as [|c s]; [exact I|].
  cbn [forallb] in H. now apply andb_prop in H as [H _].
Qed.

Lemma terminated_either i p xs rest rest' :
  reads p (xs ++ rest') -> terminated rest ->
  rest' = rest \/ rest' = handed_back i rest ->
  match rest with [] => True | c :: _ => is_pushed c = true end ->
  terminated rest'.
Proof.
  intros Hr Ht [-> | ->] Hp; [exact Ht|]. now apply terminated_handed_back.
Qed.

(** [State::Start] at the first character of a value: the scanner restarts
    in [State::Float] with the character to be read again. *)
Lemma start_value i l p a s bol :
  state l = State_Start -> start l = State_Start ->
  reads p (to_int_type a :: s) -> mTokenValue p = "" -> m_bol p = bol ->
  is_non_blank (to_int_type a) = true ->
  value_lead bol (String a "") = true ->
  exists p',
    (forall n, scan i (S n) l p =
               scan i n (mk_locals State_Float State_Float (quoteChar l)) p') /\
    reads p' (to_int_type a :: s) /\ mTokenValue p' = "" /\
    mTokenType p' = mTokenType p /\ m_bol p' = false.
Proof.
  intros Hl Hst Hr Ht Hbol Ha Hlead.
  destruct (read_next i p _ Hr) as (p1 & E & R1 & T1 & Ty1 & B1 & C1 & C2).
  cbn [hd tl] in E.
  assert (Hs : match start l with
               | State_Start | State_Float | State_Int => True
               | _ => False
               end) by now rewrite Hst.
  destruct (restart_word i l p _ "" Hr Ht eq_refl p1 E Hs)
    as (st' & p' & Er & Hst' & R & T & Ty & B).
  rewrite Hst in Hst'. subst st'.
  cbn [bytes app] in R. rewrite (handed_back_byte i a s Ha) in R.
  exists p'. split; [|auto].
  intro n. cbn [scan]. rewrite E.
  replace (step i l (to_int_type a) p1) with (do_restart i l p1); [now rewrite Er|].
  pose proof (is_non_blank_range _ Ha) as Hrange.
  cbn [value_lead] in Hlead. cbv zeta in Hlead. apply negb_true_iff in Hlead.
  repeat (apply orb_false_iff in Hlead; destruct Hlead as [Hlead ?]).
  unfold step. rewrite Hl. cbn [char_code].
  change (int_of_char "#") with 35. change (int_of_char "_") with 95.
  change (int_of_char " ") with 32. change (int_of_char ";") with 59.
  change (int_of_char "'") with 39.
  replace (to_int_type a =? kEOF) with false by (symmetry; apply Z.eqb_neq; unfold kEOF; lia).
  replace (to_int_type a =? LF) with false by (symmetry; apply Z.eqb_neq; unfold LF; lia).
  replace (to_int_type a =? 32) with false by (symmetry; apply Z.eqb_neq; lia).
  replace (to_int_type a =? 9) with false by (symmetry; apply Z.eqb_neq; lia).
  rewrite B1, Hbol.
  repeat match goal with H : _ = false |- _ => rewrite H; clear H end.
  reflexivity.
Qed.

Lemma scan_returns_more i n m l p x :
  (n <= m)%nat -> scan i n l p = Returns x -> scan i m l p = Returns x.
Proof.
  intros H E. replace m with (n + (m - n))%nat by lia. now apply scan_fuel_mono.
Qed.

Lemma number_type_lead w ty :
  int_type w = Some ty -> number_type w = Some CIFValue_Int.
Proof.
  destruct w as [|a cs]; [discriminate|]. cbn [int_type number_type].
  destruct (is_digit_or_sign (to_int_type a)); [|discriminate].
  destruct cs; [reflexivity|discriminate].
Qed.

(** The ladder of [restart] for an unquoted lexeme, from [State::Float]
    on. *)
Lemma scan_lexeme i w rest l p :
  all_non_blank w = true ->
  hash_after_number "" w = false ->
  not_reserved i w = true ->
  lexeme_end w rest ->
  state l = State_Float -> start l = State_Float ->
  reads p (bytes w ++ rest) -> mTokenValue p = "" ->
  mTokenType p = CIFValue_Unknown ->
  exists p',
    scan i (3 * String.length w + 3) l p = Returns (CIFToken_Value, p') /\
    mTokenValue p' = snd (value_token w CIFValue_Unknown) /\
    (number_type w = None \/ number_end rest -> mTokenType p' = lexeme_type w) /\
    parser_ok p' = true.
Proof.
  intros Hnb Hh Hres Hend Hl Hst Hr Ht Hty.
  pose proof (hash_after_number_none w "" Hh) as Hhash. cbn [append] in Hhash.
  assert (Hrest : match rest with
                  | [] => True
                  | t :: _ => is_non_blank t = false \/ t = 35
                  end).
  { destruct rest as [|t s]; [exact I|]. cbn [lexeme_end] in Hend. tauto. }
  assert (Hnum : forall ty, number_type w = Some ty ->
            snd (value_token w CIFValue_Unknown) = w).
  { intros ty Hn. unfold value_token.
    destruct (String.eqb_spec w ".") as [E|_]; [rewrite E in Hn; discriminate|].
    destruct (String.eqb_spec w "?") as [E|_]; [rewrite E in Hn; discriminate|].
    reflexivity. }
  destruct (scan_float i w rest Hnb Hhash Hrest l p Hl Hst Hr Ht)
    as [(ty & p' & F & Hscan & T & Ty & Ok')
       |(k1 & p1 & rest1 & Hk1 & Hscan1 & R1 & Hr1 & T1 & Ty1 & B1 & Hf1)].
  { (* a number *)
    exists p'. split; [|split; [|split]].
    - apply (scan_returns_more i (S (String.length w))); [lia|exact Hscan].
    - now rewrite (Hnum ty F).
    - intros _. unfold lexeme_type. now rewrite F.
    - exact Ok'. }
  assert (Hterm : terminated rest).
  { destruct rest as [|t s]; [exact I|]. cbn [lexeme_end terminated] in *.
    destruct Hend as [Hend|[-> Hend]]; [exact Hend|].
    exfalso. apply Hend. now apply Hf1. }
  pose proof (reads_pushed_at p _ _ Hr) as Hp0.
  assert (Hterm1 : terminated rest1) by exact (terminated_either i p1 _ _ _ R1 Hterm Hr1 Hp0).
  assert (Hrest1 : match rest1 with
                   | [] => True
                   | t :: _ => is_non_blank t = false \/ t = 35
                   end).
  { destruct rest1 as [|t s]; [exact I|]. left. exact Hterm1. }
  rewrite Hst in Hscan1. cbn [next_start] in Hscan1.
  set (l1 := mk_locals State_Int State_Int (quoteChar l)) in *.
  destruct (scan_int i w rest1 Hnb Hhash Hrest1 l1 p1 eq_refl eq_refl R1 T1)
    as [(ty & p' & F & Hscan & T & Ty & Ok')
       |(k2 & p2 & rest2 & Hk2 & Hscan2 & R2 & Hr2 & T2 & Ty2 & B2 & Hf2)].
  { (* a number for [State::Int] only *)
    pose proof (number_type_lead w ty F) as Hn.
    exists p'. split; [|split; [|split]].
    - apply (scan_returns_more i (k1 + S (String.length w))); [lia|].
      now rewrite Hscan1.
    - now rewrite (Hnum _ Hn).
    - intros [Hnone|He]; [congruence|]. specialize (Hf1 He). congruence.
    - exact Ok'. }
  pose proof (reads_pushed_at p1 _ _ R1) as Hp1.
  assert (Hterm2 : terminated rest2) by exact (terminated_either i p2 _ _ _ R2 Hterm1 Hr2 Hp1).
  cbn [start quoteChar l1 next_start] in Hscan2.
  set (l2 := mk_locals State_Value State_Value (quoteChar l)) in *.
  unfold not_reserved in Hres. apply andb_prop in Hres as [Hpo Hre].
  apply negb_true_iff in Hre.
  destruct (scan_value i l2 rest2 w "" p2 eq_refl R2 T2 Hnb Hpo Hre Hterm2)
    as (p' & Hscan & Ty & T & Ok').
  cbn [append] in Ty, T. rewrite Ty2, Ty1, Hty in Ty, T.
  exists p'. split; [|split; [|split]].
  - apply (scan_returns_more i (k1 + (k2 + S (String.length w)))); [lia|].
    now rewrite Hscan1, Hscan2.
  - exact T.
  - intros [Hnone|He].
    + unfold lexeme_type. now rewrite Hnone.
    + unfold lexeme_type. now rewrite (Hf1 He).
  - exact Ok'.
Qed.

(** The scanner on an unquoted lexeme, after any blanks. *)
Lemma value_lexeme_token (i : impl) (blanks : list Z) (w : string)
    (rest : list Z) (fuel : nat) (p : sac_parser)
    (Hok : parser_ok p = true)
    (Hread : to_read p = (blanks ++ bytes w ++ rest)%list)
    (Hblank : forallb is_blank blanks = true)
    (Hlead : value_lead (after_line_feed blanks) w = true)
    (Hnb : all_non_blank w = true)
    (Hhash : hash_after_number "" w = false)
    (Hres : not_reserved i w = true)
    (Hend : lexeme_end w rest)
    (Hfuel : (List.length blanks + 3 * String.length w + 5 <= fuel)%nat) :
  exists p',
    get_next_token i fuel p = Returns (CIFToken_Value, p') /\
    (w = "?" -> mTokenType p' = CIFValue_Unknown /\ mTokenValue p' = "") /\
    (w = "." -> mTokenType p' = CIFValue_Inapplicable /\ mTokenValue p' = ".") /\
    (w <> "?" -> mTokenValue p' = w) /\
    (number_type w = None \/ number_end rest -> mTokenType p' = lexeme_type w) /\
    parser_ok p' = true.
Proof.
  destruct w as [|a d] eqn:Ew; [discriminate Hlead|]. rewrite <- Ew in *.
  assert (Ha : is_non_blank (to_int_type a) = true).
  { rewrite Ew in Hnb. cbn [all_non_blank] in Hnb. now apply andb_prop in Hnb as [H _]. }
  set (l0 := mk_locals State_Start State_Start 0).
  set (p0 := mk_parser (mData p) (mBuffer p) "" CIFValue_Unknown (m_line_nr p) false).
  assert (R0 : reads p0 (blanks ++ to_int_type a :: bytes d ++ rest)).
  { split.
    - apply parser_ok_parts in Hok as (? & ? & ?). apply parser_ok_parts. cbn. auto.
    - unfold to_read in *. cbn [p0 mData mBuffer]. rewrite Hread, Ew. reflexivity. }
  destruct (skip_blanks i blanks _ _ l0 p0 eq_refl R0 Hblank Ha eq_refl eq_refl)
    as (p2 & Hscan0 & R2 & T2 & Ty2 & B2 & L2).
  assert (Hlead' : value_lead (after_line_feed blanks) (String a "") = true)
    by (rewrite Ew in Hlead; exact Hlead).
  destruct (start_value i l0 p2 a _ _ eq_refl eq_refl R2 T2 B2 Ha Hlead')
    as (p3 & Hscan1 & R3 & T3 & Ty3 & B3).
  cbn [quoteChar l0] in Hscan1.
  assert (R3' : reads p3 (bytes w ++ rest)) by (rewrite Ew; exact R3).
  destruct (scan_lexeme i w rest (mk_locals State_Float State_Float 0) p3
              Hnb Hhash Hres Hend eq_refl eq_refl R3' T3)
    as (p' & Hscan & T & Ty & Ok').
  { rewrite Ty3, Ty2. reflexivity. }
  exists p'. split.
  { unfold get_next_token. fold p0. fold l0.
    apply (scan_returns_more i (skipped blanks + S (3 * String.length w + 3))).
    - unfold skipped. destruct blanks; cbn [List.length] in *; lia.
    - now rewrite Hscan0, Hscan1. }
  unfold value_token in T.
  split; [|split; [|split; [|split]]].
  - intro E. rewrite E in *. split; [|exact T]. apply Ty. now left.
  - intro E. rewrite E in *. split; [|exact T]. apply Ty. now left.
  - intro Hq. destruct (String.eqb_spec w ".") as [E|_]; [now rewrite T, E|].
    destruct (String.eqb_spec w "?"); [contradiction|exact T].
  - exact Ty.
  - exact Ok'.
Qed.

(** C6.  An unquoted lexeme [w], after any blanks, is returned as a Value
    token: for [?] the type is Unknown and the stored text is empty, for
    [.] the type is Inapplicable and the text is [.], and every other
    lexeme, number or not, keeps its text.  The parser is any that the
    scanner left, with characters pushed back or not; the lexeme starts
    with a character that [State::Start] hands to the ladder of [restart],
    holds none of the reserved words its scanner looks for, and is ended by
    a character that is not non-blank, by the end of the input or, when it
    is a number, by a [#]. *)
Theorem C6_value_lexeme (i : impl) (blanks : list Z) (w : string)
    (rest : list Z) (fuel : nat) (p : sac_parser)
    (Hok : parser_ok p = true)
    (Hread : to_read p = (blanks ++ bytes w ++ rest)%list)
    (Hblank : forallb is_blank blanks = true)
    (Hlead : value_lead (after_line_feed blanks) w = true)
    (Hnb : all_non_blank w = true)
    (Hhash : hash_after_number "" w = false)
    (Hres : not_reserved i w = true)
    (Hend : lexeme_end w rest)
    (Hfuel : (List.length blanks + 3 * String.length w + 5 <= fuel)%nat) :
  exists p',
    get_next_token i fuel p = Returns (CIFToken_Value, p') /\
    (w = "?" -> mTokenType p' = CIFValue_Unknown /\ mTokenValue p' = "") /\
    (w = "." -> mTokenType p' = CIFValue_Inapplicable /\ mTokenValue p' = ".") /\
    (w <> "?" -> mTokenValue p' = w) /\
    (number_type w = None \/ number_end rest -> mTokenType p' = lexeme_type w) /\
    parser_ok p' = true.
Proof.
  exact (value_lexeme_token i blanks w rest fuel p Hok Hread Hblank Hlead Hnb
           Hhash Hres Hend Hfuel).
Qed.

Lemma C6_witness :
  exists p',
    get_next_token V2 20 (mk_parser (bytes "? x") [32] "_a.b" CIFValue_Unknown 1 false) =
      Returns (CIFToken_Value, p') /\
    mTokenType p' = CIFValue_Unknown /\ mTokenValue p' = "".
Proof.
  assert (Hfuel : (List.length [32; 32] + 3 * String.length "?" + 5 <= 20)%nat)
    by (cbn; lia).
  destruct (C6_value_lexeme V2 [32] "?" (bytes " x") 20
              (mk_parser (bytes "? x") [32] "_a.b" CIFValue_Unknown 1 false)
              eq_refl eq_refl eq_refl eq_refl eq_refl eq_refl eq_refl
              (or_introl eq_refl) ltac:(cbn; lia))
    as (p' & E & Hq & _).
  exists p'. split; [exact E|]. apply Hq. reflexivity.
Defined.

Lemma get_next_char_line i p :
  m_line_nr (snd (get_next_char i p)) =
    (if fst (get_next_char i p) =? LF then uint32 (m_line_nr p + 1) else m_line_nr p).
Proof. rewrite (get_next_char_read i p). reflexivity. Qed.

Lemma line_after_app l a b : line_after l (a ++ b) = line_after (line_after l a) b.
Proof. revert l. induction a as [|c a IH]; intro l; cbn [app line_after]; auto. Qed.

Lemma read_line i p s p1 :
  get_next_char i p = (hd kEOF s, p1) ->
  m_line_nr p1 = line_after (m_line_nr p) [hd kEOF s].
Proof.
  intro E. pose proof (get_next_char_line i p) as H. rewrite E in H. exact H.
Qed.

(** [State::QuotedString] ([aq = false]) and [State::QuotedStringQuote]
    ([aq = true]) over the body of a string. *)
Lemma scan_quoted_body i q tail : q = 39 \/ q = 34 ->
  forall b pre p (aq : bool) l,
    state l = (if aq then State_QuotedStringQuote else State_QuotedString) ->
    quoteChar l = q ->
    reads p (bytes b ++ tail) -> mTokenValue p = pre ->
    quoted_body q b = true -> (aq = true -> b <> "" -> content_next b = true) ->
    exists p1 (aq1 : bool) l1,
      (forall n, scan i (String.length b + n) l p = scan i n l1 p1) /\
      state l1 = (if aq1 then State_QuotedStringQuote else State_QuotedString) /\
      quoteChar l1 = q /\ start l1 = start l /\
      (b = "" -> aq1 = aq) /\
      reads p1 tail /\ mTokenValue p1 = pre ++ b /\
      mTokenType p1 = mTokenType p /\
      m_line_nr p1 = line_after (m_line_nr p) (bytes b).
Proof.
  intros Hq.
  induction b as [|a b IH]; intros pre p aq l Hst Hqc Hr Ht Hb Haq.
  - exists p, aq, l. rewrite append_empty_r. cbn [bytes app] in Hr.
    split; [reflexivity|]. split; [exact Hst|]. split; [exact Hqc|].
    split; [reflexivity|]. split; [reflexivity|]. split; [exact Hr|].
    split; [exact Ht|]. split; reflexivity.
  - cbn [quoted_body] in Hb. apply andb_prop in Hb as [Ha Hb].
    destruct (read_next i p _ Hr) as (p1 & E & R1 & T1 & Ty1 & B1 & C1 & C2).
    pose proof (read_line i p _ p1 E) as L1.
    cbn [bytes app hd tl] in E, R1, T1, L1. rewrite token_char_byte, Ht in T1.
    assert (Heof : (to_int_type a =? kEOF) = false).
    { apply Z.eqb_neq. pose proof (N_ascii_bounded a). unfold to_int_type, kEOF. lia. }
    assert (Hstep : exists l1 (aq1 : bool),
              step i l (to_int_type a) p1 = Ok (Continue l1, p1) /\
              state l1 = (if aq1 then State_QuotedStringQuote else State_QuotedString) /\
              quoteChar l1 = q /\ start l1 = start l /\
              (aq1 = true -> b <> "" -> content_next b = true)).
    { unfold step. rewrite Hst. destruct aq.
      - specialize (Haq eq_refl ltac:(discriminate)). cbn [content_next] in Haq.
        apply andb_prop in Haq as [Hpr Hnw]. apply negb_true_iff in Hnw.
        rewrite Hnw, Hqc.
        destruct (Z.eqb_spec (to_int_type a) q) as [Heq|Hne].
        + exists l, true. rewrite Hst. repeat split; auto.
        + rewrite Hpr. exists (goto l State_QuotedString), false. cbn.
          repeat split; auto. discriminate.
      - rewrite Heof, Hqc.
        destruct (Z.eqb_spec (to_int_type a) q) as [Heq|Hne].
        + exists (goto l State_QuotedStringQuote), true. cbn. repeat split; auto.
        + exists l, false. rewrite Hst. repeat split; auto. discriminate. }
    destruct Hstep as (l1 & aq1 & Es & Hl1 & Hl1q & Hl1s & Haq1).
    destruct (IH (push_back pre a) p1 aq1 l1 Hl1 Hl1q R1 T1 Hb Haq1)
      as (p2 & aq2 & l2 & Hscan & Hl2 & Hl2q & Hl2s & _ & R2 & T2 & Ty2 & L2).
    exists p2, aq2, l2.
    split.
    { intro n. cbn [String.length Nat.add scan]. now rewrite E, Es. }
    split; [exact Hl2|]. split; [exact Hl2q|]. split; [congruence|].
    split; [discriminate|]. split; [exact R2|].
    split; [now rewrite T2, append_push_back|].
    split; [congruence|].
    rewrite L2, L1. reflexivity.
Qed.

(** [State::Start] at a quote character. *)
Lemma start_quote i l p q s :
  q = 39 \/ q = 34 ->
  state l = State_Start -> reads p (q :: s) -> mTokenValue p = "" ->
  exists p1,
    (forall n, scan i (S n) l p =
               scan i n (mk_locals State_QuotedString (start l) q) p1) /\
    reads p1 s /\ mTokenValue p1 = String (char_of_int q) "" /\
    mTokenType p1 = mTokenType p /\ m_line_nr p1 = m_line_nr p.
Proof.
  intros Hq Hl Hr Ht.
  destruct (read_next i p _ Hr) as (p1 & E & R1 & T1 & Ty1 & B1 & C1 & C2).
  pose proof (read_line i p _ p1 E) as L1.
  cbn [hd tl] in E, R1, T1, L1.
  exists p1. split; [|split; [exact R1|split; [|split; [exact Ty1|]]]].
  - intro n. cbn [scan]. rewrite E. unfold step. rewrite Hl.
    destruct Hq; subst q; cbn -[scan]; reflexivity.
  - rewrite T1, Ht, token_char_plain by (destruct Hq; subst q; lia). reflexivity.
  - rewrite L1. destruct Hq; subst q; reflexivity.
Qed.

Lemma scan_throws_more i n : forall l p e k,
  scan i n l p = Throws e -> scan i (n + k) l p = Throws e.
Proof.
  induction n as [|n IH]; intros l p e k H; [discriminate|].
  cbn [scan Nat.add] in *.
  destruct (get_next_char i p) as [ch p1].
  destruct (step i l ch p1) as [[[l'|t] p2]|e']; auto; discriminate.
Qed.

Lemma line_after_blank_quote l q blanks body :
  q = 39 \/ q = 34 ->
  line_after (line_after l blanks) (bytes body) = line_after l (blanks ++ bytes body).
Proof. intros _. now rewrite line_after_app. Qed.

(** A string in quotes, after any blanks: the scanner up to the character
    after the closing quote. *)
Lemma scan_string i q blanks body rest p :
  q = 39 \/ q = 34 ->
  parser_ok p = true ->
  to_read p = (blanks ++ q :: bytes body ++ q :: rest)%list ->
  forallb is_blank blanks = true ->
  quoted_body q body = true ->
  exists p1 p2 l1,
    (forall n, get_next_token i (skipped blanks + S (String.length body + S (S n))) p =
               match step i l1 (hd kEOF rest) p2 with
               | Err e => Throws e
               | Ok (Done t, p') => Returns (t, p')
               | Ok (Continue l', p') => scan i n l' p'
               end) /\
    get_next_char i p1 = (hd kEOF rest, p2) /\
    state l1 = State_QuotedStringQuote /\ quoteChar l1 = q /\
    reads p2 (tl rest) /\
    mTokenValue p2 =
      push_back (String (char_of_int q) (push_back body (char_of_int q)))
                (token_char i (hd kEOF rest)) /\
    m_line_nr p2 = line_after (m_line_nr p) (blanks ++ bytes body ++ [hd kEOF rest]).
Proof.
  intros Hq Hok Hread Hblank Hbody.
  assert (Hqnb : is_non_blank q = true) by (destruct Hq; subst q; reflexivity).
  set (l0 := mk_locals State_Start State_Start 0).
  set (p0 := mk_parser (mData p) (mBuffer p) "" CIFValue_Unknown (m_line_nr p) false).
  assert (R0 : reads p0 (blanks ++ q :: bytes body ++ q :: rest)).
  { split.
    - apply parser_ok_parts in Hok as (? & ? & ?). apply parser_ok_parts. cbn. auto.
    - unfold to_read in *. cbn [p0 mData mBuffer]. exact Hread. }
  destruct (skip_blanks i blanks _ _ l0 p0 eq_refl R0 Hblank Hqnb eq_refl eq_refl)
    as (pa & Hscan0 & Ra & Ta & Tya & Ba & La).
  destruct (start_quote i l0 pa q _ Hq eq_refl Ra Ta)
    as (pb & Hscan1 & Rb & Tb & Tyb & Lb).
  destruct (scan_quoted_body i q (q :: rest) Hq body _ pb false
              (mk_locals State_QuotedString State_Start q) eq_refl eq_refl Rb Tb Hbody)
    as (pc & aq & lc & Hscan2 & Hlc & Hlcq & Hlcs & _ & Rc & Tc & Tyc & Lc);
    [discriminate|].
  (* the closing quote *)
  destruct (read_next i pc _ Rc) as (pd & Ed & Rd & Td & Tyd & Bd & _).
  pose proof (read_line i pc _ pd Ed) as Ld.
  cbn [hd tl] in Ed, Rd, Td, Ld.
  assert (Hqw : is_white q = false) by (destruct Hq; subst q; reflexivity).
  assert (Hqe : (q =? kEOF) = false) by (destruct Hq; subst q; reflexivity).
  assert (Hstep : exists ld, step i lc q pd = Ok (Continue ld, pd) /\
                    state ld = State_QuotedStringQuote /\ quoteChar ld = q).
  { unfold step. rewrite Hlc. destruct aq.
    - rewrite Hqw, Hlcq, Z.eqb_refl. exists lc. now rewrite Hlc.
    - rewrite Hqe, Hlcq, Z.eqb_refl. eexists. split; [reflexivity|]. cbn. auto. }
  destruct Hstep as (ld & Es & Hld & Hldq).
  (* the character after it *)
  destruct (read_next i pd _ Rd) as (pe & Ee & Re & Te & Tye & Be & _).
  pose proof (read_line i pd _ pe Ee) as Le.
  exists pd, pe, ld.
  split.
  { intro n. unfold get_next_token. fold p0. fold l0.
    rewrite Hscan0, Hscan1.
    cbn [start l0] in Hscan2.
    rewrite Hscan2. cbn [scan]. rewrite Ed, Es, Ee. reflexivity. }
  split; [exact Ee|]. split; [exact Hld|]. split; [exact Hldq|].
  split; [exact Re|]. split.
  { rewrite Te, Td, Tc.
    rewrite token_char_plain by (destruct Hq; subst q; lia).
    cbn [append]. unfold push_back at 2. reflexivity. }
  rewrite Le, Ld, Lc, Lb, La. cbn [p0 m_line_nr].
  rewrite !line_after_app. cbn [line_after].
  destruct Hq; subst q; reflexivity.
Qed.

Lemma line_after_last l cs t :
  t <> LF -> line_after l (cs ++ [t]) = line_after l cs.
Proof.
  intro H. rewrite line_after_app. cbn [line_after].
  apply Z.eqb_neq in H. now rewrite H.
Qed.

(** C7 (as amended).  A quoted string, after any blanks, is closed by the
    quote character that is followed by a white character ([is_white]:
    white space or [#]): the token is a Value of type String whose text is
    the body, in which a quote character followed by a printable character
    that is not white is content.  When the end of the input follows the
    quote character, or a byte that is neither white nor printable, the
    scanner throws; when a printable character that is not white follows
    it, the scanner goes on with the string. *)
Theorem C7_quoted_string (i : impl) (q : Z) (blanks : list Z) (body : string)
    (rest : list Z) (fuel : nat) (p : sac_parser)
    (Hq : q = 39 \/ q = 34)
    (Hok : parser_ok p = true)
    (Hread : to_read p = (blanks ++ q :: bytes body ++ q :: rest)%list)
    (Hblank : forallb is_blank blanks = true)
    (Hbody : quoted_body q body = true)
    (Hlen : ItemValue.strlen body + 2 < 2 ^ 64)
    (Hfuel : (List.length blanks + String.length body + 4 <= fuel)%nat) :
  let t := hd kEOF rest in
  let line := line_after (m_line_nr p) (blanks ++ bytes body) in
  (is_white t = true ->
     exists p',
       get_next_token i fuel p = Returns (CIFToken_Value, p') /\
       mTokenType p' = CIFValue_String /\ mTokenValue p' = body /\
       parser_ok p' = true) /\
  (t = kEOF ->
     get_next_token i fuel p =
       Throws (parse_error line "unterminated quoted string")) /\
  (is_white t = false -> t <> q -> is_any_print t = false -> t <> kEOF ->
     get_next_token i fuel p =
       Throws (parse_error line "invalid character in quoted string")) /\
  (is_white t = false -> t = q \/ is_any_print t = true ->
     get_next_token i (skipped blanks + String.length body + 3) p = OutOfFuel).
Proof.
  intros t line.
  destruct (scan_string i q blanks body rest p Hq Hok Hread Hblank Hbody)
    as (p1 & p2 & l1 & Hscan & E & Hl1 & Hl1q & R2 & T2 & L2).
  fold t in Hscan, E, T2, L2.
  set (k := (skipped blanks + S (String.length body + 2))%nat).
  assert (Hk : (k <= fuel)%nat).
  { subst k. unfold skipped. destruct blanks; cbn [List.length] in *; lia. }
  assert (Hfu : fuel = (k + (fuel - k))%nat) by lia.
  specialize (Hscan 0%nat). fold k in Hscan.
  assert (Hline : t <> LF -> m_line_nr p2 = line).
  { intro Ht. rewrite L2. subst line.
    rewrite (app_assoc blanks). now apply line_after_last. }
  split; [|split; [|split]].
  - (* the string is closed *)
    intro Hw.
    destruct (retract_reads i p2 _ _ _ R2 T2) as (R3 & T3 & Ty3 & B3 & L3).
    assert (Hstep : step i l1 t p2 =
              Ok (Done CIFToken_Value,
                  set_token (set_type (retract i p2) CIFValue_String) body)).
    { unfold step. rewrite Hl1, Hw. cbn [set_type mTokenValue]. rewrite T3.
      replace (ItemValue.strlen _ <? 2) with false.
      2:{ symmetry. apply Z.ltb_ge. unfold ItemValue.strlen. cbn [String.length].
          rewrite length_push_back. lia. }
      now rewrite (substr_strip body _ _ Hlen). }
    rewrite Hstep in Hscan.
    eexists. split; [rewrite Hfu; apply scan_fuel_mono; exact Hscan|].
    cbn [set_token set_type mTokenType mTokenValue].
    split; [reflexivity|]. split; [reflexivity|].
    destruct R3 as [R3 _]. apply parser_ok_parts in R3 as (? & ? & ?).
    apply parser_ok_parts. cbn [mData mBuffer mTokenValue set_token set_type].
    repeat split; auto.
    clear -T2 R2. rename T2 into H.
    destruct R2 as [R2 _]. apply parser_ok_parts in R2 as (_ & _ & R2).
    rewrite H in R2. apply no_cr_pop in R2 as [R2 _].
    cbn [no_cr] in R2. apply andb_prop in R2 as [_ R2].
    now apply no_cr_pop in R2 as [R2 _].
  - (* the end of the input *)
    intro Ht.
    assert (Hstep : step i l1 t p2 = error p2 "unterminated quoted string").
    { unfold step. rewrite Hl1, Ht, Hl1q.
      destruct Hq; subst q; reflexivity. }
    rewrite Hstep in Hscan. unfold error in Hscan.
    rewrite Hline in Hscan by (rewrite Ht; discriminate).
    rewrite Hfu. apply scan_throws_more.
    unfold get_next_token in *. exact Hscan.
  - (* a byte that cannot be in a string *)
    intros Hw Hnq Hpr Hne.
    assert (Hstep : step i l1 t p2 = error p2 "invalid character in quoted string").
    { unfold step. rewrite Hl1, Hw, Hl1q, Hpr.
      apply Z.eqb_neq in Hnq, Hne. now rewrite Hnq, Hne. }
    rewrite Hstep in Hscan. unfold error in Hscan.
    rewrite Hline in Hscan.
    2:{ intro Et. rewrite Et in Hw. discriminate Hw. }
    rewrite Hfu. apply scan_throws_more.
    unfold get_next_token in *. exact Hscan.
  - (* the quote was content *)
    intros Hw Hc.
    replace (skipped blanks + String.length body + 3)%nat with k by (subst k; lia).
    rewrite Hscan. unfold step. rewrite Hl1, Hw, Hl1q.
    destruct (Z.eqb_spec t q) as [_|Hne]; [reflexivity|].
    destruct Hc as [Hc|Hc]; [contradiction|]. now rewrite Hc.
Qed.

Lemma C7_quoted_string_witness :
  exists p',
    get_next_token V2 12
      (mk_parser (bytes "'it's' x") [10] "_a.b" CIFValue_Unknown 1 false) =
      Returns (CIFToken_Value, p') /\
    mTokenType p' = CIFValue_String /\ mTokenValue p' = "it's" /\
    parser_ok p' = true.
Proof.
  assert (Hlen : ItemValue.strlen "it's" + 2 < 2 ^ 64) by (vm_compute; reflexivity).
  assert (Hfuel : (List.length [10] + String.length "it's" + 4 <= 12)%nat) by (cbn; lia).
  exact (proj1 (C7_quoted_string V2 39 [10] "it's" (bytes " x") 12
           (mk_parser (bytes "'it's' x") [10] "_a.b" CIFValue_Unknown 1 false)
           (or_introl eq_refl) eq_refl eq_refl eq_refl eq_refl Hlen Hfuel) eq_refl).
Defined.

(** C7, counterexample.  A quote followed by a character that is not white
    space is not always content: after the byte 1 the scanner throws, at the
    end of the input it throws as well, and a [#], which is no white space,
    closes the string. *)
Lemma C7_counterexample :
  (is_white 1 = false /\
   get_next_token V2 10 (parser_on (bytes "'a'" ++ [1; 32])%list) =
     Throws (parse_error 1 "invalid character in quoted string")) /\
  get_next_token V2 10 (parser_on (bytes "'a'")) =
    Throws (parse_error 1 "unterminated quoted string") /\
  (isspace 35 = false /\
   exists p', get_next_token V2 10 (parser_on (bytes "'a'#b")) =
                Returns (CIFToken_Value, p') /\ mTokenValue p' = "a").
Proof.
  split; [split; vm_compute; reflexivity|].
  split; [vm_compute; reflexivity|].
  split; [reflexivity|]. eexists. split; vm_compute; reflexivity.
Qed.

(** The values of the serializer's round-trip test: the first three are
    written quoted, the last one unquoted. *)
Lemma is_unquoted_string_examples :
  is_unquoted_string "stop_the_crap" = false /\
  is_unquoted_string "and stop_ this too" = false /\
  is_unquoted_string "data_dinges" = false /\
  is_unquoted_string "boo.data_.whatever" = true.
Proof. repeat split; vm_compute; reflexivity. Qed.

(** C5, at the failing input.  The values [stop_] and [loop_] contain a
    reserved word and yet pass [is_unquoted_string], because the pattern
    asks for at least one character after the underscore; written bare,
    [stop_] is read back as the STOP token and not as a value. *)
Theorem C5_reserved_word_passes_unquoted :
  is_unquoted_string "stop_" = true /\
  is_unquoted_string "loop_" = true /\
  (exists p', get_next_token V2 10 (parser_on (bytes "stop_ ")) =
                Returns (CIFToken_STOP, p')) /\
  (exists p', get_next_token V1 10 (parser_on (bytes "stop_ ")) =
                Returns (CIFToken_STOP, p')).
Proof.
  split; [vm_compute; reflexivity|].
  split; [vm_compute; reflexivity|].
  split; eexists; vm_compute; reflexivity.
Qed.

End ParserProofs.

(** ** Data blocks *)

Module DatablockProofs.
Import Text Validate Store Datablock Examples.

Lemma find_and_promote_found name c post : forall pre before,
  (forall x, In x pre -> iequals name (m_name x) = false) ->
  iequals name (m_name c) = true ->
  find_and_promote name before (pre ++ c :: post)%list =
    Some (match (before ++ pre)%list with
          | [] => c :: post
          | _ :: _ => c :: ((before ++ pre) ++ post)%list
          end).
Proof.
  induction pre as [|x pre IH]; intros before Hpre Hc.
  - cbn [app find_and_promote]. rewrite Hc, app_nil_r. reflexivity.
  - cbn [app find_and_promote]. rewrite (Hpre x (or_introl eq_refl)).
    rewrite IH by (intros; auto using in_cons).
    rewrite <- app_assoc. reflexivity.
Qed.

Lemma find_and_promote_missing name : forall rest before,
  (forall x, In x rest -> iequals name (m_name x) = false) ->
  find_and_promote name before rest = None.
Proof.
  induction rest as [|x rest IH]; intros before H; [reflexivity|].
  cbn [find_and_promote]. rewrite (H x (or_introl eq_refl)).
  apply IH. intros; auto using in_cons.
Qed.

(** C8 (as amended).  [emplace] of a name that the block already has, up
    to case, creates no category: the first category of that name is
    returned and is moved to the front of the list, whether or not it was
    asked for; the other categories keep their order and every category
    its contents. *)
Theorem C8_emplace_existing
    (set_validator : option validator -> datablock -> category -> category)
    (db : datablock) (name : string) (pre post : list category) (c : category)
    (Hcats : categories db = (pre ++ c :: post)%list)
    (Hpre : forall x, In x pre -> iequals name (m_name x) = false)
    (Hc : iequals name (m_name c) = true) :
  emplace set_validator db name =
    (set_categories db (c :: pre ++ post)%list, Some c, false) /\
  Permutation (categories db) (c :: pre ++ post)%list /\
  List.length (c :: pre ++ post)%list = List.length (categories db).
Proof.
  split; [|split].
  - unfold emplace. rewrite Hcats, (find_and_promote_found name c post pre [] Hpre Hc).
    cbn [app]. destruct pre; reflexivity.
  - rewrite Hcats. symmetry. apply Permutation_middle.
  - rewrite Hcats. cbn. rewrite !length_app. cbn. lia.
Qed.

Lemma C8_emplace_existing_witness :
  emplace (fun _ _ c => c) two_categories "B" =
    (set_categories two_categories [new_category "b"; new_category "a"],
     Some (new_category "b"), false).
Proof.
  apply (C8_emplace_existing (fun _ _ c => c) two_categories "B"
           [new_category "a"] [] (new_category "b") eq_refl).
  - intros x [<-|[]]. reflexivity.
  - reflexivity.
Defined.

(** C8, counterexample.  A repeated [emplace] carries no request, and still
    the order of the block changes: the category is promoted. *)
Lemma C8_counterexample :
  categories (fst (fst (emplace (fun _ _ c => c) two_categories "b"))) <>
  categories two_categories.
Proof. vm_compute. discriminate. Qed.

End DatablockProofs.

(** ** Validators *)

Module ValidateProofs.
Import Text Validate Examples.
Import ParserProofs.

Lemma existsb_false_iff {A : Type} (f : A -> bool) (l : list A) :
  existsb f l = false <-> (forall x, In x l -> f x = false).
Proof.
  induction l as [|a l IH]; cbn.
  - split; [intros _ x []|reflexivity].
  - rewrite orb_false_iff, IH. split.
    + intros [Ha H] x [<-|Hx]; auto.
    + intro H. split; auto.
Qed.

(** The ordering [iless] puts two strings in the same class exactly when
    they are equal without regard to case. *)
Lemma iless_folds_case a b : enums_equiv iless a b = iequals a b.
Proof.
  unfold enums_equiv, iless, String.ltb.
  destruct (iequals a b) eqn:E.
  - apply iequals_to_lower in E. rewrite E.
    assert (Hc : (to_lower_copy b ?= to_lower_copy b)%string = Eq)
      by (pose proof (String.compare_antisym (to_lower_copy b) (to_lower_copy b)) as A;
          destruct (to_lower_copy b ?= to_lower_copy b)%string; (reflexivity || discriminate A)).
    now rewrite Hc.
  - destruct (to_lower_copy a ?= to_lower_copy b)%string eqn:C.
    + apply String.compare_eq_iff in C. apply to_lower_iequals in C. congruence.
    + reflexivity.
    + rewrite (String.compare_antisym (to_lower_copy b)), C. reflexivity.
Qed.



End ValidateProofs.

(** ** Categories *)

Module StoreProofs.
Import Text ItemValue Validate Store Examples.
Import ParserProofs.

Lemma add_column_frame c column_name c' r :
  add_column c column_name = (c', r) ->
  m_rows c' = m_rows c /\ m_name c' = m_name c /\
  m_validator c' = m_validator c /\ m_cat_validator c' = m_cat_validator c /\
  exists extra, m_columns c' = (m_columns c ++ extra)%list.
Proof.
  unfold add_column.
  destruct (_ =? _).
  - destruct (match m_cat_validator c with Some _ => _ | None => _ end) as [v|e];
      intro H; inversion H; subst; cbn; repeat split; eauto.
    exists []. now rewrite app_nil_r.
  - intro H; inversion H; subst; repeat split. exists []. now rewrite app_nil_r.
Qed.

Lemma create_item_for_frame c i c' r :
  create_item_for c i = (c', r) ->
  m_rows c' = m_rows c /\ m_name c' = m_name c /\
  m_validator c' = m_validator c /\ m_cat_validator c' = m_cat_validator c /\
  exists extra, m_columns c' = (m_columns c ++ extra)%list.
Proof.
  unfold create_item_for. destruct (add_column c (name i)) as [c1 ix] eqn:E.
  apply add_column_frame in E.
  destruct ix; intro H; inversion H; subst; exact E.
Qed.

Lemma emplace_items_frame items : forall c r c' res,
  emplace_items c r items = (c', res) ->
  m_rows c' = m_rows c /\ m_name c' = m_name c /\
  m_validator c' = m_validator c /\ m_cat_validator c' = m_cat_validator c /\
  exists extra, m_columns c' = (m_columns c ++ extra)%list.
Proof.
  induction items as [|i items IH]; intros c r c' res H.
  - inversion H; subst. repeat split. exists []. now rewrite app_nil_r.
  - cbn [emplace_items] in H.
    destruct (create_item_for c i) as [c1 ni] eqn:E.
    apply create_item_for_frame in E as (R1 & N1 & V1 & C1 & x1 & X1).
    destruct ni as [ni|e].
    + apply IH in H as (R2 & N2 & V2 & C2 & x2 & X2).
      repeat split; try congruence.
      exists (x1 ++ x2)%list. rewrite X2, X1, app_assoc. reflexivity.
    + inversion H; subst. repeat split; try congruence. eauto.
Qed.

Lemma insert_impl_frame regex_impl enums_less compare_numb c n c' res :
  insert_impl regex_impl enums_less compare_numb c n = (c', res) ->
  m_columns c' = m_columns c /\
  match res with
  | Ok _ => m_rows c' = (m_rows c ++ [n])%list
  | Err _ => m_rows c' = m_rows c
  end.
Proof.
  unfold insert_impl. destruct (validate_row regex_impl enums_less c n).
  - destruct (match m_cat_validator c with Some _ => _ | None => _ end);
      intro H; inversion H; subst; cbn; auto.
  - intro H; inversion H; subst; auto.
Qed.

Lemma column_position_bounds n cols :
  0 <= column_position n cols <= Z.of_nat (List.length cols).
Proof.
  induction cols as [|col cols IH]; cbn [column_position List.length]; [lia|].
  destruct (iequals n (col_name col)); lia.
Qed.

Lemma column_position_found n cols :
  column_position n cols < Z.of_nat (List.length cols) ->
  exists col,
    nth_error cols (Z.to_nat (column_position n cols)) = Some col /\
    iequals n (col_name col) = true.
Proof.
  induction cols as [|col cols IH]; cbn [column_position List.length]; [lia|].
  destruct (iequals n (col_name col)) eqn:E; intro H.
  - exists col. now split.
  - pose proof (column_position_bounds n cols).
    destruct IH as (c & Hc & Hn); [lia|]. exists c. split; [|exact Hn].
    replace (Z.to_nat (1 + column_position n cols))
      with (S (Z.to_nat (column_position n cols))) by lia.
    exact Hc.
Qed.

Lemma column_position_missing n cols :
  column_position n cols = Z.of_nat (List.length cols) <->
  forall col, In col cols -> iequals n (col_name col) = false.
Proof.
  induction cols as [|col cols IH]; cbn [column_position List.length].
  - split; [intros _ col []|reflexivity].
  - pose proof (column_position_bounds n cols) as Hb.
    destruct (iequals n (col_name col)) eqn:E; split.
    + lia.
    + intro H. rewrite (H col (or_introl eq_refl)) in E. discriminate.
    + intros H1 c [<-|Hc]; [exact E|]. apply IH; [lia|exact Hc].
    + intro H1. assert (column_position n cols = Z.of_nat (List.length cols)).
      { apply IH. intros c Hc. apply H1. now right. }
      lia.
Qed.

Lemma column_position_app_found n cols extra :
  column_position n cols < Z.of_nat (List.length cols) ->
  column_position n (cols ++ extra) = column_position n cols.
Proof.
  induction cols as [|col cols IH]; cbn [column_position List.length app]; [lia|].
  destruct (iequals n (col_name col)); [reflexivity|].
  intro H. rewrite IH; [reflexivity|lia].
Qed.

Lemma column_position_app_missing n cols extra :
  column_position n cols = Z.of_nat (List.length cols) ->
  column_position n (cols ++ extra) =
    Z.of_nat (List.length cols) + column_position n extra.
Proof.
  induction cols as [|col cols IH]; cbn [column_position List.length app]; [lia|].
  pose proof (column_position_bounds n cols).
  destruct (iequals n (col_name col)); [lia|].
  intro H1. rewrite IH; lia.
Qed.

Lemma add_column_length c n c1 r :
  add_column c n = (c1, r) ->
  (List.length (m_columns c) <= List.length (m_columns c1) <=
     S (List.length (m_columns c)))%nat.
Proof.
  unfold add_column. destruct (_ =? _).
  - destruct (match m_cat_validator c with Some _ => _ | None => _ end) as [v|e];
      intro H; inversion H; subst; cbn [m_columns set_columns];
      rewrite ?length_app; cbn [List.length]; lia.
  - intro H; inversion H; subst. lia.
Qed.

(** What [add_column] does, case by case, when the column table it leaves
    is one that a [uint16_t] can index. *)
Lemma add_column_cases c n c1 ix :
  Z.of_nat (List.length (m_columns c1)) <= 65535 ->
  add_column c n = (c1, Ok ix) ->
  ix = column_position n (m_columns c) /\
  column_position n (m_columns c1) = ix /\
  ix < Z.of_nat (List.length (m_columns c1)) /\
  ((ix < Z.of_nat (List.length (m_columns c)) /\ c1 = c) \/
   (ix = Z.of_nat (List.length (m_columns c)) /\
    exists v, m_columns c1 = (m_columns c ++ [mk_item_column n v])%list)).
Proof.
  intros Hlen H. pose proof (add_column_length c n c1 _ H) as Hl.
  unfold add_column, get_column_ix, to_uint16 in H.
  pose proof (column_position_bounds n (m_columns c)) as Hb.
  rewrite !Z.mod_small in H by lia.
  destruct (Z.eqb_spec (column_position n (m_columns c))
              (Z.of_nat (List.length (m_columns c)))) as [E|E].
  - destruct (match m_cat_validator c with Some _ => _ | None => _ end) as [v|e];
      inversion H; subst; clear H. cbn [m_columns set_columns].
    rewrite (column_position_app_missing _ _ _ E), length_app.
    cbn [column_position col_name List.length]. rewrite iequals_refl.
    repeat split; try lia. right. split; [lia|]. now exists v.
  - inversion H; subst; clear H. repeat split; try lia. left. split; [lia|reflexivity].
Qed.

Lemma create_item_cell ix v iv :
  strlen v < size_t_modulus - 1 ->
  create_item ix v = Ok iv -> m_column_ix iv = ix /\ text iv = v.
Proof.
  unfold create_item, size_t_add, size_t_modulus, uint16_max.
  pose proof (strlen_nonneg v) as Hn. intro Hs.
  rewrite Z.mod_small by lia.
  destruct (Z.gtb_spec (strlen v + 1) 65535) as [|Hle]; [discriminate|].
  intro H. inversion H; subst; clear H. split; [reflexivity|].
  unfold text, to_uint16. cbn [m_length m_storage].
  rewrite Z.mod_small by lia.
  destruct (strlen v >=? kBufferSize); cbn [storage_bytes];
    unfold strlen; rewrite Nat2Z.id; apply substring_0_app.
Qed.

Lemma cell_of_app c c' it iv extra :
  m_columns c' = (m_columns c ++ extra)%list ->
  Z.of_nat (List.length (m_columns c')) <= 65535 ->
  cell_of c it iv -> cell_of c' it iv.
Proof.
  intros Hc Hmax (Ht & Hix & Hlt). unfold cell_of, get_column_ix in *.
  pose proof (column_position_bounds (name it) (m_columns c)) as Hb.
  assert (Hl : (List.length (m_columns c) <= List.length (m_columns c'))%nat)
    by (rewrite Hc, length_app; lia).
  unfold to_uint16 in *. rewrite Z.mod_small in Hix by lia.
  rewrite Hc, column_position_app_found by lia.
  rewrite Z.mod_small by lia. rewrite <- Hc. repeat split; [exact Ht|exact Hix|lia].
Qed.

Lemma emplace_items_cells items : forall c r0 c' r,
  Forall (fun it => strlen (value it) < size_t_modulus - 1) items ->
  Z.of_nat (List.length (m_columns c')) <= 65535 ->
  emplace_items c r0 items = (c', Ok r) ->
  exists new, r = (r0 ++ new)%list /\ Forall2 (cell_of c') items new.
Proof.
  induction items as [|it items IH]; intros c r0 c' r Hv Hmax H.
  - inversion H; subst. exists []. split; [now rewrite app_nil_r|constructor].
  - inversion Hv as [|? ? Hit Hrest]; subst. cbn [emplace_items] in H.
    destruct (create_item_for c it) as [c1 ni] eqn:E.
    destruct ni as [ni|e]; [|discriminate H].
    pose proof (emplace_items_frame _ _ _ _ _ H) as (_ & _ & _ & _ & ex & Hex).
    destruct (IH _ _ _ _ Hrest Hmax H) as (new & -> & Hnew).
    exists (ni :: new). split; [now rewrite <- app_assoc|].
    constructor; [|exact Hnew].
    unfold create_item_for in E.
    destruct (add_column c (name it)) as [c2 ix] eqn:Ea.
    destruct ix as [ix|e]; [|inversion E].
    injection E as Ec H1. subst c2.
    assert (Hm1 : Z.of_nat (List.length (m_columns c1)) <= 65535)
      by (rewrite Hex, length_app in Hmax; lia).
    destruct (add_column_cases _ _ _ _ Hm1 Ea) as (_ & Hpos & Hlt & _).
    destruct (create_item_cell _ _ _ Hit H1) as [Hci Hct].
    apply (cell_of_app c1 c' it ni ex Hex Hmax).
    pose proof (column_position_bounds (name it) (m_columns c1)).
    unfold cell_of, get_column_ix, to_uint16. rewrite Hpos, Z.mod_small by lia.
    repeat split; [exact Hct|exact Hci|lia].
Qed.

Lemma column_position_same n k cols :
  column_position n cols < Z.of_nat (List.length cols) ->
  (column_position n cols =? column_position k cols) = iequals n k.
Proof.
  induction cols as [|col cols IH]; cbn [column_position List.length]; [lia|].
  pose proof (column_position_bounds n cols) as Hn.
  pose proof (column_position_bounds k cols) as Hk.
  destruct (iequals n (col_name col)) eqn:En, (iequals k (col_name col)) eqn:Ek; intro H.
  - symmetry. rewrite iequals_sym in Ek. now apply (iequals_trans _ _ _ En).
  - destruct (iequals n k) eqn:E.
    + rewrite iequals_sym in E. rewrite (iequals_trans _ _ _ E En) in Ek. discriminate.
    + apply Z.eqb_neq. lia.
  - destruct (iequals n k) eqn:E.
    + rewrite (iequals_trans _ _ _ E Ek) in En. discriminate.
    + apply Z.eqb_neq. lia.
  - rewrite <- IH by lia.
    destruct (Z.eqb_spec (column_position n cols) (column_position k cols)) as [->|Hne].
    + apply Z.eqb_refl.
    + apply Z.eqb_neq. lia.
Qed.

(** The text a row made of the cells of [items] has in the column of the
    name [k]. *)
Lemma row_text_items c items r k :
  Z.of_nat (List.length (m_columns c)) <= 65535 ->
  Forall2 (cell_of c) items r ->
  row_text r (get_column_ix c k) = item_text items k.
Proof.
  intros Hmax H. induction H as [|it iv items r (Ht & Hix & Hlt) _ IH]; [reflexivity|].
  unfold row_text, item_text in *. cbn [find].
  assert (E : (m_column_ix iv =? get_column_ix c k) = iequals (name it) k).
  { rewrite Hix in *. unfold get_column_ix, to_uint16 in *.
    pose proof (column_position_bounds (name it) (m_columns c)).
    pose proof (column_position_bounds k (m_columns c)).
    rewrite !Z.mod_small in * by lia. now apply column_position_same. }
  rewrite E. destruct (iequals (name it) k); [exact Ht|exact IH].
Qed.

Lemma tolower_char_space x : tolower_char x = " "%char -> x = " "%char.
Proof.
  destruct x as [[] [] [] [] [] [] [] []]; vm_compute; intro H;
    try reflexivity; discriminate H.
Qed.

Lemma length_skip_spaces s :
  (String.length (skip_spaces s) <= String.length s)%nat.
Proof.
  induction s as [|c s IH]; cbn; [lia|].
  destruct (Ascii.eqb c " "); cbn; lia.
Qed.

Lemma iequals_skip_spaces a : forall b,
  iequals a b = true -> iequals (skip_spaces a) (skip_spaces b) = true.
Proof.
  induction a as [|x a IH]; intros [|y b] H; try discriminate; auto.
  cbn [iequals] in H. apply andb_prop in H as [Hxy Hab].
  apply Ascii.eqb_eq in Hxy. cbn [skip_spaces].
  destruct (Ascii.eqb_spec x " ") as [->|Hx].
  - assert (y = " "%char) as -> by (apply tolower_char_space; now rewrite <- Hxy).
    cbn. auto.
  - destruct (Ascii.eqb_spec y " ") as [->|Hy].
    + exfalso. apply Hx. apply tolower_char_space. now rewrite Hxy.
    + cbn [iequals]. rewrite Hxy, Ascii.eqb_refl. exact Hab.
Qed.

Lemma compare_text_iequals fuel : forall a b,
  (String.length a < fuel)%nat -> iequals a b = true ->
  compare_text fuel true a b = 0.
Proof.
  induction fuel as [|fuel IH]; intros a b Hlen H; [lia|].
  destruct a as [|x a], b as [|y b]; try discriminate; [reflexivity|].
  cbn [iequals] in H. apply andb_prop in H as [Hxy Hab].
  apply Ascii.eqb_eq in Hxy. cbn [compare_text String.length] in *.
  rewrite Hxy, Z.sub_diag. cbn [Z.eqb negb].
  destruct (Ascii.eqb (tolower_char y) " ").
  - apply IH; [|now apply iequals_skip_spaces].
    pose proof (length_skip_spaces a). lia.
  - apply IH; [lia|assumption].
Qed.

(** [type_validator::compare] of a [UChar] type does not tell apart two
    texts that are equal without regard to case. *)
Lemma compare_uchar_iequals compare_numb t a b :
  m_primitive_type t = UChar -> iequals a b = true ->
  compare compare_numb t a b = 0.
Proof.
  intros Ht H. unfold compare. rewrite Ht.
  destruct a as [|x a], b as [|y b]; try discriminate; [reflexivity|].
  cbn [String.eqb]. apply compare_text_iequals; [lia|assumption].
Qed.

(** Whether the new row, made of [items], and the row [old] agree on the
    key item [k]: under [type_validator::compare] when the item has a
    type, as texts otherwise. *)
Lemma key_field_equal_items compare_numb c cv items r old k :
  Z.of_nat (List.length (m_columns c)) <= 65535 ->
  Forall2 (cell_of c) items r ->
  key_field_equal compare_numb c cv k r old = true <->
  match get_validator_for_item cv k with
  | Some iv =>
      match m_type iv with
      | Some t =>
          compare compare_numb t (item_text items k)
                  (row_text old (get_column_ix c k)) = 0
      | None => item_text items k = row_text old (get_column_ix c k)
      end
  | None => item_text items k = row_text old (get_column_ix c k)
  end.
Proof.
  intros Hmax Hcells. unfold key_field_equal.
  rewrite (row_text_items c items r k Hmax Hcells).
  destruct (get_validator_for_item cv k) as [[tag man [t|] en ca]|]; cbn [m_type].
  - apply Z.eqb_eq.
  - apply String.eqb_eq.
  - apply String.eqb_eq.
Qed.

(** C3.  With a primary key configured, [emplace] of items whose cells can
    be created and pass their validators makes a row that has one cell for
    each item, in the order of the items.  When a row of the category has
    the same primary-key tuple as the items give, [emplace] throws the
    duplicate-key error and the rows stay as they are; when no row has it,
    the new row is appended at the tail of the row list.  Two key values
    are the same when [type_validator::compare] of the key item's type
    returns 0 (when the texts are equal, for a key item without a type), so
    that keys of a [UChar] type that are equal without regard to case are
    duplicates. *)
Theorem C3_emplace_primary_key (regex_impl : string -> string -> bool)
    (enums_less : string -> string -> bool)
    (compare_numb : string -> string -> Z)
    (c c1 : category) (cv : category_validator) (items : list item) (r : row)
    (Hcv : m_cat_validator c = Some cv)
    (Hkeys : m_keys cv <> [])
    (Hvalues : Forall (fun it => strlen (value it) < size_t_modulus - 1) items)
    (Hcolumns : Z.of_nat (List.length (m_columns c1)) <= 65535)
    (Hitems : emplace_items c [] items = (c1, Ok r))
    (Hvalid : validate_row regex_impl enums_less c1 r = Ok tt) :
  let out := emplace regex_impl enums_less compare_numb c items in
  let agree (old : row) (k : string) : Prop :=
    let a := item_text items k in
    let b := row_text old (get_column_ix c1 k) in
    match get_validator_for_item cv k with
    | Some iv =>
        match m_type iv with
        | Some t => compare compare_numb t a b = 0
        | None => a = b
        end
    | None => a = b
    end in
  Forall2 (cell_of c1) items r /\
  ((exists old, In old (m_rows c) /\ forall k, In k (m_keys cv) -> agree old k) ->
     snd out = Err (duplicate_key_error "Duplicate Key") /\
     m_rows (fst out) = m_rows c) /\
  ((forall old, In old (m_rows c) ->
      exists k, In k (m_keys cv) /\ ~ agree old k) ->
     snd out = Ok tt /\
     m_rows (fst out) = (m_rows c ++ [r])%list) /\
  (forall old,
     In old (m_rows c) ->
     (forall k, In k (m_keys cv) ->
        exists iv t,
          get_validator_for_item cv k = Some iv /\ m_type iv = Some t /\
          m_primitive_type t = UChar /\
          iequals (item_text items k)
                  (row_text old (get_column_ix c1 k)) = true) ->
     snd out = Err (duplicate_key_error "Duplicate Key")).
Proof.
  intros out agree.
  destruct (emplace_items_cells items c [] c1 r Hvalues Hcolumns Hitems)
    as (new & Hnew & Hcells).
  cbn [app] in Hnew. subst new.
  assert (Hemp : out = insert_impl regex_impl enums_less compare_numb c1 r).
  { unfold out, emplace. now rewrite Hitems. }
  apply emplace_items_frame in Hitems as (R1 & _ & _ & C1 & _).
  assert (Hagree : forall old k,
            key_field_equal compare_numb c1 cv k r old = true <-> agree old k).
  { intros old k. apply (key_field_equal_items compare_numb c1 cv items r old k Hcolumns Hcells). }
  assert (Hdup : (exists old, In old (m_rows c) /\
                    forall k, In k (m_keys cv) -> agree old k) ->
                 out = (c1, Err (duplicate_key_error "Duplicate Key"))).
  { intros (old & Hin & Hall). rewrite Hemp. unfold insert_impl.
    rewrite Hvalid, C1, Hcv, R1.
    destruct (m_keys cv) as [|k0 ks] eqn:Hk; [contradiction|].
    assert (E : existsb (same_key compare_numb c1 cv r) (m_rows c) = true).
    { apply existsb_exists. exists old. split; [exact Hin|].
      unfold same_key. rewrite Hk. apply forallb_forall.
      intros k Hkin. apply Hagree. apply Hall. exact Hkin. }
    now rewrite E. }
  split; [exact Hcells|]. split; [|split].
  - intro H. rewrite (Hdup H). cbn [fst snd]. split; [reflexivity|exact R1].
  - intro H. rewrite Hemp. unfold insert_impl. rewrite Hvalid, C1, Hcv, R1.
    destruct (m_keys cv) as [|k0 ks] eqn:Hk; [contradiction|].
    assert (E : existsb (same_key compare_numb c1 cv r) (m_rows c) = false).
    { destruct (existsb _ (m_rows c)) eqn:E; [|reflexivity].
      apply existsb_exists in E as (old & Hin & Hs).
      destruct (H old Hin) as (k & Hkin & Hno). exfalso. apply Hno.
      apply Hagree. unfold same_key in Hs. rewrite forallb_forall in Hs.
      apply Hs. rewrite Hk. exact Hkin. }
    rewrite E. cbn [fst snd m_rows set_rows]. split; reflexivity.
  - intros old Hin Hall. rewrite Hdup; [reflexivity|].
    exists old. split; [exact Hin|]. intros k Hkin.
    destruct (Hall k Hkin) as (iv & t & Hiv & Ht & Hu & Heq).
    unfold agree. rewrite Hiv, Ht. now apply compare_uchar_iequals.
Qed.

(** The key [id] is of type [ucode]: after the row [AAP], the key [aap] is
    a duplicate. *)
Lemma C3_emplace_primary_key_witness :
  snd (emplace any_value iless no_numbers cat_1_AAP [mk_item "id" "aap"]) =
    Err (duplicate_key_error "Duplicate Key").
Proof.
  assert (Hkeys : m_keys cat_1_validator <> []) by discriminate.
  assert (Hvalues : Forall (fun it => strlen (value it) < size_t_modulus - 1)
                           [mk_item "id" "aap"])
    by (constructor; [reflexivity|constructor]).
  assert (Hcolumns :
            Z.of_nat (List.length
              (m_columns (fst (emplace_items cat_1_AAP [] [mk_item "id" "aap"]))))
            <= 65535) by (vm_compute; discriminate).
  destruct (C3_emplace_primary_key any_value iless no_numbers cat_1_AAP
              (fst (emplace_items cat_1_AAP [] [mk_item "id" "aap"]))
              cat_1_validator [mk_item "id" "aap"]
              [mk_item_value 0 3 (m_local_data (String "a" (String "a" (String "p" (String Ascii.zero "")))))]
              eq_refl Hkeys Hvalues Hcolumns eq_refl eq_refl) as (_ & _ & _ & H).
  apply (H (hd [] (m_rows cat_1_AAP))); [left; reflexivity|].
  intros k [<-|[]]. exists cat_1_id, ucode. repeat split.
Defined.

End StoreProofs.

(** ** The update propagator *)

Module PropagatorProofs.
Import Text ItemValue Validate Store Datablock Propagator PropagatorSpec Examples.
Import ParserProofs StoreProofs.

(** [get] finds a category of the name asked for. *)
Lemma get_name db n c : get db n = Some c -> iequals (m_name c) n = true.
Proof. unfold get. intro H. now apply find_some in H as [_ H]. Qed.

Lemma get_update_rows_same db n f c :
  get db n = Some c ->
  get (update_rows db n f) n = Some (set_rows c (f (m_rows c))).
Proof.
  unfold get, update_rows. cbn [categories set_categories].
  induction (categories db) as [|x cats IH]; cbn [find update_category]; [discriminate|].
  destruct (iequals (m_name x) n) eqn:E.
  - intro H. injection H as ->. cbn [find m_name set_rows]. now rewrite E.
  - intro H. cbn [find]. rewrite E. auto.
Qed.

Lemma get_update_rows_other db n f other :
  iequals other n = false ->
  get (update_rows db n f) other = get db other.
Proof.
  intro Hne. unfold get, update_rows. cbn [categories set_categories].
  induction (categories db) as [|x cats IH]; cbn [find update_category]; [reflexivity|].
  destruct (iequals (m_name x) n) eqn:E.
  - cbn [find m_name set_rows].
    destruct (iequals (m_name x) other) eqn:E2; [|reflexivity].
    exfalso. rewrite iequals_sym in E2.
    rewrite (iequals_trans _ _ _ E2 E) in Hne. discriminate.
  - cbn [find]. destruct (iequals (m_name x) other); auto.
Qed.

Lemma links_of_update_rows db n f : links_of (update_rows db n f) = links_of db.
Proof. reflexivity. Qed.

(** What [has_other_parent] looks at: the link groups, the parent
    categories and the column table of the child category. *)
Lemma has_other_parent_ext db db' G cc cc' ch skip :
  links_of db' = links_of db ->
  (forall G', In G' (links_of db) ->
     get db' (m_parent_category G') = get db (m_parent_category G')) ->
  m_columns cc' = m_columns cc ->
  has_other_parent db' G cc' ch skip = has_other_parent db G cc ch skip.
Proof.
  intros Hl Hg Hc. unfold has_other_parent. rewrite Hl. clear Hl.
  induction (links_of db) as [|G' ls IH]; [reflexivity|].
  cbn [existsb]. rewrite IH by (intros; apply Hg; now right).
  f_equal. f_equal. unfold resolves, key_tuple, field, get_column_ix.
  rewrite Hc, (Hg G' (or_introl eq_refl)). reflexivity.
Qed.

Lemma joins_cols G cc cc' vals ch :
  m_columns cc' = m_columns cc -> joins G cc' vals ch = joins G cc vals ch.
Proof.
  intro Hc. unfold joins, key_tuple, field, get_column_ix. now rewrite Hc.
Qed.

Lemma blank_keys_cols cc cc' keys : forall ch,
  m_columns cc' = m_columns cc -> blank_keys cc' ch keys = blank_keys cc ch keys.
Proof.
  induction keys as [|k keys IH]; intros ch Hc; [reflexivity|].
  cbn [blank_keys]. rewrite IH by assumption.
  unfold blank_field, get_column_ix. now rewrite Hc.
Qed.

Lemma nth_error_middle {A} (pre : list A) x post :
  nth_error (pre ++ x :: post) (List.length pre) = Some x.
Proof. rewrite nth_error_app2 by lia. now rewrite Nat.sub_diag. Qed.

Lemma remove_at_middle {A} (pre : list A) x post :
  remove_at (List.length pre) (pre ++ x :: post) = (pre ++ post)%list.
Proof.
  unfold remove_at. rewrite firstn_app, Nat.sub_diag, firstn_all. cbn [firstn].
  rewrite app_nil_r.
  replace (S (List.length pre)) with (List.length (pre ++ [x])) by (rewrite length_app; cbn; lia).
  replace (pre ++ x :: post)%list with ((pre ++ [x]) ++ post)%list by (now rewrite <- app_assoc).
  rewrite skipn_app, skipn_all, Nat.sub_diag. reflexivity.
Qed.

Lemma replace_at_middle {A} (pre : list A) x y post :
  replace_at (List.length pre) y (pre ++ x :: post) = (pre ++ y :: post)%list.
Proof.
  unfold replace_at. rewrite nth_error_middle.
  rewrite firstn_app, Nat.sub_diag, firstn_all. cbn [firstn]. rewrite app_nil_r.
  replace (S (List.length pre)) with (List.length (pre ++ [x])) by (rewrite length_app; cbn; lia).
  replace (pre ++ x :: post)%list with ((pre ++ [x]) ++ post)%list by (now rewrite <- app_assoc).
  rewrite skipn_app, skipn_all, Nat.sub_diag. reflexivity.
Qed.

Lemma insert_after_middle {A} (pre : list A) x y post :
  insert_after (List.length pre) y (pre ++ x :: post) = (pre ++ x :: y :: post)%list.
Proof.
  unfold insert_after.
  replace (S (List.length pre)) with (List.length (pre ++ [x])) by (rewrite length_app; cbn; lia).
  replace (pre ++ x :: post)%list with ((pre ++ [x]) ++ post)%list by (now rewrite <- app_assoc).
  rewrite firstn_app, Nat.sub_diag, firstn_all, skipn_app, skipn_all, Nat.sub_diag.
  cbn [firstn skipn app]. now rewrite app_nil_r, <- app_assoc.
Qed.

Lemma filter_none {A} (f : A -> bool) l :
  (forall x, In x l -> f x = false) -> filter f l = [].
Proof.
  induction l as [|a l IH]; intro H; [reflexivity|].
  cbn. rewrite (H a (or_introl eq_refl)). apply IH. intros; apply H; now right.
Qed.

Lemma erase_unfold fuel db cat ri :
  erase (S fuel) db cat ri =
  match get db cat with
  | None => Some (Err (runtime_error "no such category"))
  | Some c =>
      match nth_error (m_rows c) ri with
      | None => Some (Err (runtime_error "no such row"))
      | Some r =>
          erase_links (erase fuel) (update_rows db cat (remove_at ri)) c r
                      (child_links db cat)
      end
  end.
Proof. reflexivity. Qed.

Lemma set_cell_unfold regex_impl enums_less fuel db cat ri col value :
  set_cell regex_impl enums_less (S fuel) db cat ri col value =
  match get db cat with
  | None => Some (Err (runtime_error "no such category"))
  | Some c =>
      match nth_error (m_rows c) ri with
      | None => Some (Err (runtime_error "no such row"))
      | Some r =>
          match validate_value regex_impl enums_less c col value with
          | Err e => Some (Err e)
          | Ok _ =>
              match cascade_links (set_cell regex_impl enums_less fuel) db c ri r col value
                                  (parent_links db cat col) with
              | Some (Ok db1) =>
                  match set_field c r col value with
                  | Err e => Some (Err e)
                  | Ok r' => Some (Ok (update_rows db1 cat (replace_at ri r')))
                  end
              | other => other
              end
          end
      end
  end.
Proof. reflexivity. Qed.

Lemma create_item_short ix v :
  strlen v < 65535 -> exists iv, create_item ix v = Ok iv.
Proof.
  intro H. pose proof (strlen_nonneg v).
  unfold create_item, size_t_add, size_t_modulus, uint16_max.
  rewrite Z.mod_small by lia.
  destruct (Z.gtb_spec (strlen v + 1) 65535); [lia|]. eauto.
Qed.

Lemma set_field_short c r k v :
  strlen v < 65535 -> exists r', set_field c r k v = Ok r'.
Proof.
  intro H. unfold set_field.
  destruct (create_item_short (get_column_ix c k) v H) as [iv ->]. cbn. eauto.
Qed.

Lemma set_field_cols c c' r k v :
  m_columns c' = m_columns c -> set_field c' r k v = set_field c r k v.
Proof. intro H. unfold set_field, get_column_ix. now rewrite H. Qed.

Lemma rewrite_keys_cols c c' keys : forall vals r,
  m_columns c' = m_columns c -> rewrite_keys c' r keys vals = rewrite_keys c r keys vals.
Proof.
  induction keys as [|k keys IH]; intros [|v vals] r H; try reflexivity.
  cbn [rewrite_keys]. rewrite (set_field_cols c c') by assumption.
  destruct (set_field c r k v); cbn; auto.
Qed.

Lemma split_row_cols c c' G vals ch :
  m_columns c' = m_columns c -> split_row c' G vals ch = split_row c G vals ch.
Proof.
  intro H. unfold split_row. destruct (clone_row ch); cbn; [|reflexivity].
  now apply rewrite_keys_cols.
Qed.

Lemma validate_value_cols regex_impl enums_less c c' col v :
  m_columns c' = m_columns c ->
  validate_value regex_impl enums_less c' col v = validate_value regex_impl enums_less c col v.
Proof. intro H. unfold validate_value, get_column_ix. now rewrite H. Qed.

Lemma clone_cells_ok r : forall acc,
  Forall short_cell r -> exists r', clone_cells acc r = Ok r'.
Proof.
  induction r as [|iv r IH]; intros acc H; [cbn; eauto|].
  inversion H as [|? ? Hiv Hr]; subst. cbn [clone_cells].
  destruct (create_item_short (m_column_ix iv) (text iv) Hiv) as [v ->].
  cbn [bind]. auto.
Qed.

Lemma rewrite_keys_ok c keys : forall vals r,
  Forall (fun v => strlen v < 65535) vals ->
  exists r', rewrite_keys c r keys vals = Ok r'.
Proof.
  induction keys as [|k keys IH]; intros [|v vals] r H; cbn [rewrite_keys]; eauto.
  inversion H as [|? ? Hv Hvs]; subst.
  destruct (set_field_short c r k v Hv) as [r1 ->]. cbn [bind]. auto.
Qed.

Lemma split_row_ok cc G vals ch :
  Forall short_cell ch -> Forall (fun v => strlen v < 65535) vals ->
  exists ch2, split_row cc G vals ch = Ok ch2.
Proof.
  intros Hch Hv. unfold split_row, clone_row.
  destruct (clone_cells_ok ch [] Hch) as [c2 ->]. cbn [bind].
  now apply rewrite_keys_ok.
Qed.

Lemma row_text_short r ix : Forall short_cell r -> strlen (row_text r ix) < 65535.
Proof.
  intro H. unfold row_text.
  destruct (find _ r) as [iv|] eqn:E; [|reflexivity].
  apply find_some in E as [Hin _].
  rewrite Forall_forall in H. now apply H.
Qed.

Lemma tuple_eqb_eq a : forall b, tuple_eqb a b = true <-> a = b.
Proof.
  induction a as [|x a IH]; intros [|y b]; cbn [tuple_eqb];
    try (split; [discriminate|discriminate]); [tauto|].
  rewrite andb_true_iff, IH, String.eqb_eq. split.
  - intros [-> ->]. reflexivity.
  - intro H. injection H as -> ->. auto.
Qed.

Lemma in_combine_seq {A} (l : list A) : forall s i p,
  In (i, p) (combine (seq s (List.length l)) l) <->
  (s <= i)%nat /\ nth_error l (i - s) = Some p.
Proof.
  induction l as [|x l IH]; intros s i p; cbn [List.length seq combine In].
  - split; [tauto|]. intros [_ H]. destruct (i - s)%nat; discriminate H.
  - rewrite IH. split.
    + intros [H|[H1 H2]].
      * injection H as <- <-. rewrite Nat.sub_diag. split; [lia|reflexivity].
      * split; [lia|]. replace (i - s)%nat with (S (i - S s)) by lia. exact H2.
    + intros [H1 H2]. destruct (Nat.eq_dec s i) as [<-|Hne].
      * left. rewrite Nat.sub_diag in H2. cbn in H2. congruence.
      * right. split; [lia|].
        replace (i - s)%nat with (S (i - S s)) in H2 by lia. exact H2.
Qed.

Lemma nonempty_forallb (t : list string) :
  forallb (fun v => negb (String.eqb v "")) t = true <->
  Forall (fun v => v <> "") t.
Proof.
  rewrite forallb_forall, Forall_forall. split; intros H v Hv.
  - specialize (H v Hv). apply negb_true_iff in H. now apply String.eqb_neq.
  - apply negb_true_iff. apply String.eqb_neq. now apply H.
Qed.

(** [has_other_parent] says what [other_parent] says. *)
Lemma has_other_parent_iff db G cc ch skip :
  has_other_parent db G cc ch skip = true <-> other_parent db G cc ch skip.
Proof.
  unfold has_other_parent, other_parent. rewrite existsb_exists. split.
  - intros (G' & Hin & H).
    apply andb_prop in H as [H Hres]. apply andb_prop in H as [Hid Hch].
    apply negb_true_iff, Z.eqb_neq in Hid.
    unfold resolves in Hres. apply andb_prop in Hres as [Hne Hp].
    apply nonempty_forallb in Hne.
    destruct (get db (m_parent_category G')) as [pc|] eqn:Hpc; [|discriminate].
    apply existsb_exists in Hp as ([i p] & Hip & H).
    apply in_combine_seq in Hip as [_ Hnth]. rewrite Nat.sub_0_r in Hnth.
    apply andb_prop in H as [Hsk Ht]. apply tuple_eqb_eq in Ht.
    cbn [fst snd] in *.
    exists G', pc, i, p. repeat split; try assumption.
    intros (cat & -> & Hcat). rewrite Hcat, Nat.eqb_refl in Hsk. discriminate.
  - intros (G' & pc & i & p & Hin & Hid & Hch & Hne & Hpc & Hnth & Hsk & Ht).
    exists G'. split; [exact Hin|].
    apply Z.eqb_neq in Hid. rewrite Hid, Hch. cbn [negb andb].
    unfold resolves. rewrite Hpc.
    rewrite (proj2 (nonempty_forallb _) Hne). cbn [andb].
    apply existsb_exists. exists (i, p). split.
    + apply in_combine_seq. rewrite Nat.sub_0_r. split; [lia|exact Hnth].
    + cbn [fst snd]. rewrite (proj2 (tuple_eqb_eq _ _) Ht), andb_true_r.
      apply negb_true_iff. destruct skip as [[cat ri]|]; [|reflexivity].
      destruct (iequals (m_name pc) cat) eqn:E1; [|reflexivity].
      destruct (Nat.eqb_spec i ri) as [->|]; [|reflexivity].
      exfalso. apply Hsk. exists cat. auto.
Qed.

Lemma joins_iff G cc vals ch :
  joins G cc vals ch = true <-> key_tuple cc ch (m_child_keys G) = vals.
Proof. unfold joins. apply tuple_eqb_eq. Qed.

(** *** Cells of a row *)

Lemma row_text_cell r ix :
  row_text r ix = match cell r ix with Some t => t | None => "" end.
Proof. unfold row_text, cell. now destruct (find _ r). Qed.

Lemma field_cell c r k :
  field c r k = match cell r (get_column_ix c k) with Some t => t | None => "" end.
Proof. apply row_text_cell. Qed.

Lemma cell_replace_cell ix nv r ix' :
  m_column_ix nv = ix ->
  cell (replace_cell ix nv r) ix' =
  if ix' =? ix then Some (text nv) else cell r ix'.
Proof.
  intro Hnv. unfold cell. induction r as [|iv r IH]; cbn [replace_cell find].
  - rewrite Hnv, (Z.eqb_sym ix ix'). now destruct (ix' =? ix).
  - destruct (Z.eqb_spec (m_column_ix iv) ix) as [E|E]; cbn [find].
    + rewrite Hnv, E, (Z.eqb_sym ix ix'). now destruct (ix' =? ix).
    + destruct (Z.eqb_spec (m_column_ix iv) ix') as [E'|E'].
      * destruct (Z.eqb_spec ix' ix); [congruence|reflexivity].
      * exact IH.
Qed.

Lemma set_field_cell c r k v r' :
  strlen v < size_t_modulus - 1 ->
  set_field c r k v = Ok r' ->
  forall ix, cell r' ix = if ix =? get_column_ix c k then Some v else cell r ix.
Proof.
  intros Hv H ix. unfold set_field in H.
  destruct (create_item (get_column_ix c k) v) as [nv|e] eqn:E; [|discriminate H].
  cbn [bind] in H. injection H as <-.
  destruct (create_item_cell _ _ _ Hv E) as [Hix Ht].
  rewrite (cell_replace_cell _ nv r ix Hix), Ht. reflexivity.
Qed.

Lemma Forall_replace_cell (P : item_value -> Prop) ix nv r :
  P nv -> Forall P r -> Forall P (replace_cell ix nv r).
Proof.
  intros Hnv H. induction H as [|iv r Hiv Hr IH]; cbn [replace_cell].
  - constructor; [exact Hnv|constructor].
  - destruct (m_column_ix iv =? ix); constructor; assumption.
Qed.

Lemma set_field_short_row c r k v r' :
  strlen v < 65535 -> Forall short_cell r ->
  set_field c r k v = Ok r' -> Forall short_cell r'.
Proof.
  intros Hv Hr H. unfold set_field in H.
  destruct (create_item (get_column_ix c k) v) as [nv|e] eqn:E; [|discriminate H].
  cbn [bind] in H. injection H as <-.
  assert (Hv' : strlen v < size_t_modulus - 1) by (unfold size_t_modulus; lia).
  destruct (create_item_cell _ _ _ Hv' E) as [Hix Ht].
  apply Forall_replace_cell; [|exact Hr]. unfold short_cell. now rewrite Ht.
Qed.

Lemma cell_ext r : forall r' ix,
  map m_column_ix r' = map m_column_ix r -> map text r' = map text r ->
  cell r' ix = cell r ix.
Proof.
  unfold cell. induction r as [|iv r IH]; intros [|iv' r'] ix Hc Ht;
    try discriminate; [reflexivity|].
  cbn [map] in Hc, Ht. injection Hc as Hc1 Hc2. injection Ht as Ht1 Ht2.
  cbn [find]. rewrite Hc1. destruct (m_column_ix iv =? ix).
  - cbn. now rewrite Ht1.
  - now apply IH.
Qed.

Lemma clone_cells_copy r : forall acc copy,
  clone_cells acc r = Ok copy ->
  Forall (fun iv => strlen (text iv) < size_t_modulus - 1) r ->
  exists new, copy = (acc ++ new)%list /\
    map m_column_ix new = map m_column_ix r /\ map text new = map text r.
Proof.
  induction r as [|iv r IH]; intros acc copy H Hs.
  - inversion H; subst. exists []. now rewrite app_nil_r.
  - inversion Hs as [|? ? Hiv Hr]; subst. cbn [clone_cells] in H.
    destruct (create_item (m_column_ix iv) (text iv)) as [v|e] eqn:E; [|discriminate H].
    cbn [bind] in H. destruct (IH _ _ H Hr) as (new & -> & Hc & Ht).
    destruct (create_item_cell _ _ _ Hiv E) as [Hci Hct].
    exists (v :: new). rewrite <- app_assoc. cbn [map app].
    now rewrite Hci, Hct, Hc, Ht.
Qed.

Lemma short_cells_size r :
  Forall short_cell r ->
  Forall (fun iv => strlen (text iv) < size_t_modulus - 1) r.
Proof.
  apply Forall_impl. intros iv H. unfold short_cell in H. unfold size_t_modulus. lia.
Qed.

Lemma short_cells_ext r r' :
  map text r' = map text r -> Forall short_cell r -> Forall short_cell r'.
Proof.
  revert r'. induction r as [|iv r IH]; intros [|iv' r'] Ht H; try discriminate;
    constructor; cbn [map] in Ht; injection Ht as Ht1 Ht2;
    inversion H as [|? ? Hiv Hr]; subst.
  - unfold short_cell in *. now rewrite Ht1.
  - now apply IH.
Qed.

(** A clone has the cells of the row it was made from. *)
Lemma clone_row_cells ch ch2 :
  Forall short_cell ch -> clone_row ch = Ok ch2 ->
  (forall ix, cell ch2 ix = cell ch ix) /\ Forall short_cell ch2.
Proof.
  intros Hs H. unfold clone_row in H.
  destruct (clone_cells_copy ch [] ch2 H (short_cells_size _ Hs)) as (new & -> & Hc & Ht).
  cbn [app]. split.
  - intro ix. now apply cell_ext.
  - now apply (short_cells_ext ch).
Qed.

Lemma rewrite_keys_cells c keys : forall vals r r',
  Forall (fun v => strlen v < 65535) vals ->
  Forall short_cell r ->
  rewrite_keys c r keys vals = Ok r' ->
  Forall short_cell r' /\
  (forall ix, (forall k, In k keys -> get_column_ix c k <> ix) ->
              cell r' ix = cell r ix) /\
  (List.length keys = List.length vals ->
   NoDup (map (get_column_ix c) keys) ->
   map (fun k => cell r' (get_column_ix c k)) keys = map Some vals).
Proof.
  induction keys as [|k keys IH]; intros vals r r' Hv Hr H.
  - cbn [rewrite_keys] in H. injection H as <-.
    split; [exact Hr|]. split; [reflexivity|].
    intros Hl _. destruct vals; [reflexivity|discriminate Hl].
  - destruct vals as [|v vals].
    { cbn [rewrite_keys] in H. injection H as <-.
      split; [exact Hr|]. split; [reflexivity|]. intros Hl; discriminate Hl. }
    cbn [rewrite_keys] in H.
    destruct (set_field c r k v) as [r1|e] eqn:E; [|discriminate H].
    cbn [bind] in H. inversion Hv as [|? ? Hv1 Hv2]; subst.
    assert (Hv1' : strlen v < size_t_modulus - 1) by (unfold size_t_modulus; lia).
    pose proof (set_field_cell c r k v r1 Hv1' E) as Hcell.
    pose proof (set_field_short_row c r k v r1 Hv1 Hr E) as Hr1.
    destruct (IH vals r1 r' Hv2 Hr1 H) as (Hs & Hother & Hkeys).
    split; [exact Hs|]. split.
    + intros ix Hix. rewrite Hother by (intros k' Hk'; apply Hix; now right).
      rewrite Hcell. destruct (Z.eqb_spec ix (get_column_ix c k)) as [->|]; [|reflexivity].
      exfalso. apply (Hix k); [now left|reflexivity].
    + intros Hl Hnd. cbn [List.length] in Hl. injection Hl as Hl.
      cbn [map] in Hnd. inversion Hnd as [|? ? Hnotin Hnd']; subst.
      cbn [map]. f_equal; [|now apply Hkeys].
      rewrite Hother, Hcell, Z.eqb_refl; [reflexivity|].
      intros k' Hk' Heq. apply Hnotin. rewrite <- Heq. now apply in_map.
Qed.

Lemma key_tuple_cells c r keys vals :
  map (fun k => cell r (get_column_ix c k)) keys = map Some vals ->
  key_tuple c r keys = vals.
Proof.
  revert vals. induction keys as [|k keys IH]; intros [|v vals] H; try discriminate;
    [reflexivity|].
  cbn [map] in H. injection H as H1 H2. unfold key_tuple. cbn [map].
  rewrite field_cell, H1. f_equal. now apply IH.
Qed.

Lemma cell_blank_field c r k ix :
  cell (blank_field c r k) ix =
  if ix =? get_column_ix c k then None else cell r ix.
Proof.
  unfold cell, blank_field. induction r as [|iv r IH]; cbn [filter find].
  - now destruct (ix =? get_column_ix c k).
  - destruct (Z.eqb_spec (m_column_ix iv) (get_column_ix c k)) as [E|E]; cbn [negb find].
    + rewrite IH. destruct (Z.eqb_spec ix (get_column_ix c k)) as [Heq|Hne]; [reflexivity|].
      destruct (Z.eqb_spec (m_column_ix iv) ix); [congruence|reflexivity].
    + destruct (Z.eqb_spec (m_column_ix iv) ix) as [E'|E'].
      * destruct (Z.eqb_spec ix (get_column_ix c k)); [congruence|reflexivity].
      * exact IH.
Qed.

Lemma cell_blank_keys c keys : forall r ix,
  cell (blank_keys c r keys) ix =
  if existsb (fun k => ix =? get_column_ix c k) keys then None else cell r ix.
Proof.
  induction keys as [|k keys IH]; intros r ix; cbn [blank_keys existsb]; [reflexivity|].
  rewrite IH, cell_blank_field.
  destruct (ix =? get_column_ix c k); cbn [orb]; [|reflexivity].
  now destruct (existsb _ keys).
Qed.

Lemma Forall_blank_keys (P : item_value -> Prop) c keys : forall r,
  Forall P r -> Forall P (blank_keys c r keys).
Proof.
  induction keys as [|k keys IH]; intros r H; cbn [blank_keys]; [exact H|].
  apply IH. unfold blank_field. apply Forall_forall. intros x Hx.
  apply filter_In in Hx as [Hx _]. rewrite Forall_forall in H. now apply H.
Qed.

Lemma key_column_dec c G ix :
  existsb (fun k => ix =? get_column_ix c k) (m_child_keys G) = true <->
  key_column c G ix.
Proof.
  unfold key_column. rewrite existsb_exists. split.
  - intros (k & Hk & E). apply Z.eqb_eq in E. eauto.
  - intros (k & Hk & E). exists k. split; [exact Hk|]. now apply Z.eqb_eq.
Qed.

(** Blanking the child keys of [G] gives a row that [blanked] describes. *)
Lemma blank_keys_blanked cc G ch :
  blanked cc G ch (blank_keys cc ch (m_child_keys G)).
Proof.
  split; intros ix H; rewrite cell_blank_keys.
  - apply key_column_dec in H. now rewrite H.
  - destruct (existsb _ (m_child_keys G)) eqn:E; [|reflexivity].
    apply key_column_dec in E. contradiction.
Qed.

(** The clone with the child keys of [G] rewritten is a row that
    [rewritten] describes. *)
Lemma split_row_rewritten cc G vals ch ch2 :
  Forall short_cell ch ->
  Forall (fun v => strlen v < 65535) vals ->
  List.length (m_child_keys G) = List.length vals ->
  NoDup (map (get_column_ix cc) (m_child_keys G)) ->
  split_row cc G vals ch = Ok ch2 ->
  rewritten cc G vals ch ch2 /\ Forall short_cell ch2.
Proof.
  intros Hch Hv Hl Hnd H. unfold split_row in H.
  destruct (clone_row ch) as [c2|e] eqn:E; [|discriminate H]. cbn [bind] in H.
  destruct (clone_row_cells ch c2 Hch E) as [Hcl Hs2].
  destruct (rewrite_keys_cells cc _ _ _ _ Hv Hs2 H) as (Hs & Hother & Hkeys).
  split; [|exact Hs]. split.
  - apply key_tuple_cells. now apply Hkeys.
  - intros ix Hix. rewrite Hother, Hcl; [reflexivity|].
    intros k Hk Heq. apply Hix. exists k. auto.
Qed.

(** *** Stores *)

Lemma get_iequals db n1 n2 : iequals n1 n2 = true -> get db n1 = get db n2.
Proof.
  intro H. unfold get. induction (categories db) as [|c cats IH]; [reflexivity|].
  cbn [find]. rewrite IH.
  assert (E : iequals (m_name c) n1 = iequals (m_name c) n2).
  { destruct (iequals (m_name c) n1) eqn:E1, (iequals (m_name c) n2) eqn:E2;
      try reflexivity.
    - rewrite (iequals_trans _ _ _ E1 H) in E2. discriminate.
    - rewrite iequals_sym in H. rewrite (iequals_trans _ _ _ E2 H) in E1.
      discriminate. }
  now rewrite E.
Qed.

Lemma set_rows_same c : set_rows c (m_rows c) = c.
Proof. now destruct c. Qed.

Lemma nth_error_decompose {A} (l : list A) j x :
  nth_error l j = Some x ->
  exists pre post, l = (pre ++ x :: post)%list /\ List.length pre = j.
Proof. intro H. apply nth_error_split in H as (pre & post & H1 & H2). eauto. Qed.

Lemma replace_at_same {A} (l : list A) j x :
  nth_error l j = Some x -> replace_at j x l = l.
Proof.
  intro H. destruct (nth_error_decompose l j x H) as (pre & post & -> & <-).
  apply replace_at_middle.
Qed.

Lemma replace_at_twice {A} (l : list A) j x y z :
  nth_error l j = Some x ->
  replace_at j z (replace_at j y l) = replace_at j z l /\
  nth_error (replace_at j y l) j = Some y.
Proof.
  intro H. destruct (nth_error_decompose l j x H) as (pre & post & -> & <-).
  rewrite !replace_at_middle. split; [reflexivity|apply nth_error_middle].
Qed.

Lemma short_store_update db n f c :
  short_store db -> get db n = Some c ->
  Forall (Forall short_cell) (f (m_rows c)) ->
  short_store (update_rows db n f).
Proof.
  intros Hs Hget Hf name c' H.
  destruct (iequals name n) eqn:E.
  - rewrite (get_iequals _ _ _ E), (get_update_rows_same db n f c Hget) in H.
    injection H as <-. exact Hf.
  - rewrite get_update_rows_other in H by exact E. now apply (Hs name).
Qed.

Lemma Forall_middle {A} (P : A -> Prop) pre x post :
  Forall P (pre ++ x :: post) <-> Forall P pre /\ P x /\ Forall P post.
Proof.
  rewrite Forall_app. split.
  - intros [H1 H2]. inversion H2; subst. auto.
  - intros (H1 & H2 & H3). split; [exact H1|now constructor].
Qed.

Section Ranked.

Variable rank : string -> nat.

Lemma untouched_above_refl name db : untouched_above rank name db db.
Proof. repeat split; reflexivity. Qed.

Lemma untouched_above_trans name db1 db2 db3 :
  untouched_above rank name db1 db2 -> untouched_above rank name db2 db3 ->
  untouched_above rank name db1 db3.
Proof.
  intros (L1 & C1 & H1) (L2 & C2 & H2). split; [congruence|]. split.
  - intro n. now rewrite C2.
  - intros n Hr Hn. rewrite H2, H1; auto.
Qed.

Lemma update_rows_columns db name f n :
  option_map m_columns (get (update_rows db name f) n) =
  option_map m_columns (get db n).
Proof.
  unfold get, update_rows. cbn [categories set_categories].
  induction (categories db) as [|x cats IH]; cbn [find update_category]; [reflexivity|].
  destruct (iequals (m_name x) name) eqn:E; cbn [find m_name set_rows].
  - now destruct (iequals (m_name x) n).
  - destruct (iequals (m_name x) n); [reflexivity|exact IH].
Qed.

Lemma untouched_above_update name db f :
  untouched_above rank name db (update_rows db name f).
Proof.
  split; [reflexivity|]. split.
  - intro n. apply update_rows_columns.
  - intros n _ Hn. now apply get_update_rows_other.
Qed.

(** A change to a category and what is below it is a change to what is
    below any category above it. *)
Lemma untouched_above_below name name' db db' :
  (forall a b, iequals a b = true -> rank a = rank b) ->
  (rank name < rank name')%nat ->
  untouched_above rank name db db' ->
  untouched_above rank name' db db' /\ get db' name' = get db name'.
Proof.
  intros Heq Hlt (L & C & H).
  assert (Hne : forall n, (rank name' <= rank n)%nat -> iequals n name = false).
  { intros n Hn. destruct (iequals n name) eqn:E; [|reflexivity].
    apply Heq in E. lia. }
  split; [split; [exact L|split; [exact C|]]|].
  - intros n Hn _. apply H; [lia|now apply Hne].
  - apply H; [lia|]. apply Hne. lia.
Qed.

Lemma distinct_keys_untouched name db db' :
  untouched_above rank name db db' -> distinct_keys db -> distinct_keys db'.
Proof.
  intros (L & C & _) H G cc' Hin Hget. rewrite L in Hin.
  specialize (C (m_child_category G)). rewrite Hget in C.
  destruct (get db (m_child_category G)) as [cc|] eqn:E; [|discriminate C].
  cbn in C. injection C as C. specialize (H G cc Hin E).
  unfold get_column_ix in *. now rewrite C.
Qed.

Lemma acyclic_links db db' :
  links_of db' = links_of db -> acyclic rank db -> acyclic rank db'.
Proof. intros Hl [H1 H2]. split; [exact H1|]. now rewrite Hl. Qed.

(** The parents of a category are above it and are not the category. *)
Lemma parent_above db G :
  acyclic rank db -> In G (links_of db) ->
  (rank (m_child_category G) <= rank (m_parent_category G))%nat /\
  iequals (m_parent_category G) (m_child_category G) = false.
Proof.
  intros [Heq Hlt] Hin. specialize (Hlt G Hin). split; [lia|].
  destruct (iequals _ _) eqn:E; [|reflexivity]. apply Heq in E. lia.
Qed.

(** What [has_other_parent] looks at stays when only the child category
    and what is below it change. *)
Lemma has_other_parent_untouched db db' G cc cc' ch skip :
  acyclic rank db ->
  untouched_above rank (m_child_category G) db db' ->
  m_columns cc' = m_columns cc ->
  has_other_parent db' G cc' ch skip = has_other_parent db G cc ch skip.
Proof.
  intros Hac (Hl & _ & Hg) Hc. unfold has_other_parent. rewrite Hl.
  assert (Hin : forall G', In G' (links_of db) -> In G' (links_of db)) by auto.
  revert Hin. generalize (links_of db) at 1 3 4 as ls.
  induction ls as [|G' ls IH]; intro Hin; [reflexivity|].
  cbn [existsb]. rewrite IH by (intros; apply Hin; now right).
  f_equal. destruct (negb _); [|reflexivity]. cbn [andb].
  destruct (iequals (m_child_category G') (m_child_category G)) eqn:E; [|reflexivity].
  cbn [andb]. unfold resolves, key_tuple, field, get_column_ix. rewrite Hc.
  destruct (parent_above db G' Hac (Hin G' (or_introl eq_refl))) as [Hr Hne].
  destruct Hac as [Heq _]. rewrite Hg; [reflexivity| |].
  - rewrite <- (Heq _ _ E). exact Hr.
  - destruct (iequals (m_parent_category G') (m_child_category G)) eqn:E2; [|reflexivity].
    rewrite iequals_sym in E.
    rewrite (iequals_trans _ _ _ E2 E) in Hne. discriminate.
Qed.

End Ranked.

(** *** The new tuple in a child row *)

Lemma child_keys_of_in col k : forall pks chks,
  In k (child_keys_of col pks chks) <->
  exists j pk, nth_error pks j = Some pk /\ nth_error chks j = Some k /\
               iequals pk col = true.
Proof.
  induction pks as [|pk pks IH]; intros chks.
  - cbn. split; [tauto|]. intros (j & pk & H & _). destruct j; discriminate H.
  - destruct chks as [|ck chks].
    + cbn. split; [tauto|]. intros (j & pk' & _ & H & _). destruct j; discriminate H.
    + cbn [child_keys_of]. destruct (iequals pk col) eqn:E.
      * cbn [In]. rewrite IH. split.
        -- intros [<-|(j & pk' & H1 & H2 & H3)].
           ++ exists 0%nat, pk. auto.
           ++ exists (S j), pk'. auto.
        -- intros (j & pk' & H1 & H2 & H3). destruct j as [|j].
           ++ cbn in H2. left. congruence.
           ++ right. exists j, pk'. auto.
      * rewrite IH. split.
        -- intros (j & pk' & H1 & H2 & H3). exists (S j), pk'. auto.
        -- intros (j & pk' & H1 & H2 & H3). destruct j as [|j].
           ++ cbn in H1. congruence.
           ++ exists j, pk'. auto.
Qed.

Lemma NoDup_map_nth {A B} (f : A -> B) (l : list A) i j a b :
  NoDup (map f l) -> nth_error l i = Some a -> nth_error l j = Some b ->
  f a = f b -> i = j.
Proof.
  intros Hnd Hi Hj Hf.
  apply (proj1 (NoDup_nth_error (map f l)) Hnd).
  - rewrite length_map. apply nth_error_Some. congruence.
  - rewrite !nth_error_map, Hi, Hj. cbn. now rewrite Hf.
Qed.

(** The columns rewritten in place are those in which the new tuple
    differs from the old one. *)
Lemma rewritten_columns cc col pks chks :
  NoDup (map (get_column_ix cc) chks) ->
  forall i pk ck,
    nth_error pks i = Some pk -> nth_error chks i = Some ck ->
    existsb (fun k => get_column_ix cc ck =? get_column_ix cc k)
            (child_keys_of col pks chks) = iequals pk col.
Proof.
  intros Hnd i pk ck Hpk Hck.
  destruct (iequals pk col) eqn:E.
  - apply existsb_exists. exists ck. split; [|apply Z.eqb_refl].
    apply child_keys_of_in. exists i, pk. auto.
  - destruct (existsb _ _) eqn:Ex; [|reflexivity].
    apply existsb_exists in Ex as (k & Hk & Heq). apply Z.eqb_eq in Heq.
    apply child_keys_of_in in Hk as (j & pk' & Hj1 & Hj2 & Hj3).
    assert (i = j) by (eapply (NoDup_map_nth (get_column_ix cc)); eauto).
    subst j. congruence.
Qed.

Lemma tuple_after cc ch ch' (c : category) (r : row) col value (hit : Z -> bool) :
  (forall ix, cell ch' ix = if hit ix then Some value else cell ch ix) ->
  forall pks chks,
    map (field cc ch) chks = map (field c r) pks ->
    (forall i pk ck, nth_error pks i = Some pk -> nth_error chks i = Some ck ->
                     hit (get_column_ix cc ck) = iequals pk col) ->
    map (field cc ch') chks =
    map (fun pk => if iequals pk col then value else field c r pk) pks.
Proof.
  intros Hcell. induction pks as [|pk pks IH]; intros [|ck chks] Hold HS;
    try discriminate; [reflexivity|].
  cbn [map] in *. injection Hold as H1 H2. f_equal.
  - rewrite field_cell, Hcell, (HS 0%nat pk ck eq_refl eq_refl).
    destruct (iequals pk col); [reflexivity|]. now rewrite <- H1, field_cell.
  - apply IH; [exact H2|]. intros i pk' ck' Hp Hc. now apply (HS (S i)).
Qed.

(** A child row that matched the old tuple and had the columns joined
    with [col] rewritten is a row that [rewritten] describes. *)
Lemma in_place_rewritten cc G (c : category) (r : row) col value ch ch' :
  NoDup (map (get_column_ix cc) (m_child_keys G)) ->
  key_tuple cc ch (m_child_keys G) = old_tuple c r G ->
  (forall ix, cell ch' ix =
     if existsb (fun k => ix =? get_column_ix cc k)
                (child_keys_of col (m_parent_keys G) (m_child_keys G))
     then Some value else cell ch ix) ->
  rewritten cc G (new_tuple c r col value G) ch ch'.
Proof.
  intros Hnd Hold Hcell. split.
  - unfold key_tuple, new_tuple.
    apply (tuple_after cc ch ch' c r col value _ Hcell); [exact Hold|].
    intros i pk ck. apply rewritten_columns. exact Hnd.
  - intros ix Hix. rewrite Hcell.
    destruct (existsb _ _) eqn:Ex; [|reflexivity].
    apply existsb_exists in Ex as (k & Hk & Heq). apply Z.eqb_eq in Heq.
    apply child_keys_of_in in Hk as (j & pk & _ & Hj & _).
    exfalso. apply Hix. exists k. split; [|now symmetry].
    eapply nth_error_In. exact Hj.
Qed.

Lemma new_tuple_short (c : category) (r : row) col value G :
  strlen value < 65535 -> Forall short_cell r ->
  Forall (fun v => strlen v < 65535) (new_tuple c r col value G).
Proof.
  intros Hv Hr. unfold new_tuple. apply Forall_forall. intros v Hin.
  apply in_map_iff in Hin as (pk & <- & _).
  destruct (iequals pk col); [exact Hv|]. unfold field.
  exact (row_text_short r _ Hr).
Qed.

Lemma matched_lengths cc ch (c : category) (r : row) col value G :
  key_tuple cc ch (m_child_keys G) = old_tuple c r G ->
  List.length (m_child_keys G) = List.length (new_tuple c r col value G).
Proof.
  intro H. apply (f_equal (@List.length string)) in H.
  unfold old_tuple, new_tuple, key_tuple in *. rewrite !length_map in H.
  rewrite length_map. exact H.
Qed.

(** *** The cascade of [set_cell] *)

Section CascadeProofs.

Variable rank : string -> nat.
Variable rec : datablock -> string -> nat -> string -> string
               -> option (result datablock).
Variable bound : nat.
Hypothesis Hrec : cell_rewriter rank bound rec.

Lemma rewrite_in_place_spec cks : forall db cat j value c r,
  (rank cat < bound)%nat -> acyclic rank db -> distinct_keys db ->
  short_store db -> strlen value < 65535 ->
  get db cat = Some c -> nth_error (m_rows c) j = Some r ->
  exists res,
    rewrite_in_place rec db cat j cks value = Some res /\
    forall db', res = Ok db' ->
      exists r',
        get db' cat = Some (set_rows c (replace_at j r' (m_rows c))) /\
        untouched_above rank cat db db' /\ short_store db' /\
        (forall ix, cell r' ix =
           if existsb (fun k => ix =? get_column_ix c k) cks
           then Some value else cell r ix).
Proof.
  induction cks as [|ck cks IH]; intros db cat j value c r Hrk Hac Hdk Hs Hv Hget Hnth.
  - exists (Ok db). split; [reflexivity|]. intros db' H. injection H as <-.
    exists r. rewrite (replace_at_same _ _ _ Hnth), set_rows_same.
    split; [exact Hget|]. split; [apply untouched_above_refl|]. split; [exact Hs|].
    reflexivity.
  - cbn [rewrite_in_place].
    destruct (Hrec db cat j ck value Hrk Hac Hdk Hs Hv) as (res1 & E1 & H1).
    rewrite E1. destruct res1 as [db1|e].
    2:{ exists (Err e). split; [reflexivity|]. intros db' H. discriminate H. }
    destruct (H1 db1 eq_refl) as (c0 & r0 & r1 & Hg0 & Hn0 & Hset & Hg1 & Hun & Hs1).
    rewrite Hget in Hg0. injection Hg0 as <-.
    rewrite Hnth in Hn0. injection Hn0 as <-.
    destruct (replace_at_twice (m_rows c) j r r1 r1 Hnth) as [_ Hnth1].
    assert (Hac1 : acyclic rank db1) by (apply (acyclic_links rank db); [apply Hun|exact Hac]).
    pose proof (distinct_keys_untouched rank _ _ _ Hun Hdk) as Hdk1.
    destruct (IH db1 cat j value (set_rows c (replace_at j r1 (m_rows c))) r1
                Hrk Hac1 Hdk1 Hs1 Hv Hg1 Hnth1) as (res & E & H).
    exists res. split; [exact E|]. intros db' Hres.
    destruct (H db' Hres) as (r' & Hg' & Hun' & Hs' & Hcell).
    exists r'. cbn [m_rows set_rows] in Hg'.
    destruct (replace_at_twice (m_rows c) j r r1 r' Hnth) as [Htw _].
    rewrite Htw in Hg'. split; [exact Hg'|].
    split; [exact (untouched_above_trans rank _ _ _ _ Hun Hun')|].
    split; [exact Hs'|].
    intro ix. rewrite Hcell. cbn [existsb].
    assert (Hv' : strlen value < size_t_modulus - 1) by (unfold size_t_modulus; lia).
    rewrite (set_field_cell c r ck value r1 Hv' Hset ix).
    change (get_column_ix (set_rows c (replace_at j r1 (m_rows c))))
      with (get_column_ix c).
    destruct (ix =? get_column_ix c ck); cbn [orb]; [|reflexivity].
    now destruct (existsb _ cks).
Qed.

(** The parent row whose cell is rewritten. *)
Variables (c : category) (ri : nat) (r : row) (col value : string).
Hypothesis Hvalue : strlen value < 65535.
Hypothesis Hr : Forall short_cell r.

Lemma fixed_child_unmatched db G cc ch :
  joins G cc (old_tuple c r G) ch = false ->
  fixed_child c ri r col value db G cc ch [ch].
Proof.
  intro Hj. assert (Hn : key_tuple cc ch (m_child_keys G) <> old_tuple c r G).
  { intro H. apply joins_iff in H. congruence. }
  split; [reflexivity|]. split; intros H; contradiction.
Qed.

Lemma fixed_child_split db G cc ch ch2 :
  joins G cc (old_tuple c r G) ch = true ->
  has_other_parent db G cc ch (Some (m_name c, ri)) = true ->
  rewritten cc G (new_tuple c r col value G) ch ch2 ->
  fixed_child c ri r col value db G cc ch [ch; ch2].
Proof.
  intros Hj Ho Hrw. apply joins_iff in Hj. apply has_other_parent_iff in Ho.
  split; [contradiction|]. split; [eauto|]. intros _ H. contradiction.
Qed.

Lemma fixed_child_in_place db G cc ch ch' :
  joins G cc (old_tuple c r G) ch = true ->
  has_other_parent db G cc ch (Some (m_name c, ri)) = false ->
  rewritten cc G (new_tuple c r col value G) ch ch' ->
  fixed_child c ri r col value db G cc ch [ch'].
Proof.
  intros Hj Ho Hrw. apply joins_iff in Hj.
  assert (Hn : ~ other_parent db G cc ch (Some (m_name c, ri))).
  { intro H. apply has_other_parent_iff in H. congruence. }
  split; [contradiction|]. split; [intros _ H; contradiction|eauto].
Qed.

Lemma fix_children_spec db0 G cc0 :
  acyclic rank db0 -> distinct_keys db0 -> In G (links_of db0) ->
  (rank (m_child_category G) < bound)%nat ->
  NoDup (map (get_column_ix cc0) (m_child_keys G)) ->
  forall rows pre db1,
    get db1 (m_child_category G) = Some (set_rows cc0 (pre ++ rows)) ->
    untouched_above rank (m_child_category G) db0 db1 ->
    short_store db1 ->
    exists res,
      fix_children rec db1 G cc0 (m_name c, ri) (old_tuple c r G)
        (new_tuple c r col value G)
        (child_keys_of col (m_parent_keys G) (m_child_keys G)) value
        rows (List.length pre) = Some res /\
      forall db2, res = Ok db2 ->
        exists parts,
          Forall2 (fixed_child c ri r col value db0 G cc0) rows parts /\
          get db2 (m_child_category G) =
            Some (set_rows cc0 (pre ++ List.concat parts)) /\
          untouched_above rank (m_child_category G) db0 db2 /\
          short_store db2.
Proof.
  intros Hac Hdk HG Hrk Hnd.
  induction rows as [|ch rest IH]; intros pre db1 Hget Hun Hs.
  - exists (Ok db1). split; [reflexivity|]. intros db2 H. injection H as <-.
    exists []. cbn [List.concat]. repeat split; try assumption; try apply Hun.
    constructor.
  - cbn [fix_children].
    destruct (IH (pre ++ [ch])%list db1) as (res1 & E1 & H1); try assumption.
    { now rewrite <- app_assoc. }
    rewrite length_app in E1. cbn [List.length] in E1. rewrite Nat.add_1_r in E1.
    rewrite E1. destruct res1 as [dbm|e].
    2:{ exists (Err e). split; [reflexivity|]. intros db2 H. discriminate H. }
    destruct (H1 dbm eq_refl) as (parts & HF & Hgm & Hunm & Hsm).
    rewrite <- app_assoc in Hgm. cbn [app] in Hgm.
    destruct (joins G cc0 (old_tuple c r G) ch) eqn:Hj.
    2:{ exists (Ok dbm). split; [reflexivity|]. intros db2 H. injection H as <-.
        exists ([ch] :: parts). cbn [List.concat app].
        split; [constructor; [now apply fixed_child_unmatched|exact HF]|].
        repeat split; try assumption; apply Hunm. }
    unfold fix_child. rewrite Hgm. cbn [m_rows set_rows].
    rewrite nth_error_middle.
    rewrite (has_other_parent_untouched rank db0 dbm G cc0
               (set_rows cc0 (pre ++ ch :: List.concat parts)) ch _ Hac Hunm eq_refl).
    assert (Hch : Forall short_cell ch).
    { specialize (Hsm _ _ Hgm). cbn [m_rows set_rows] in Hsm.
      apply Forall_middle in Hsm. apply Hsm. }
    assert (Hmatched : key_tuple cc0 ch (m_child_keys G) = old_tuple c r G)
      by (now apply joins_iff).
    destruct (has_other_parent db0 G cc0 ch (Some (m_name c, ri))) eqn:Hother.
    + rewrite (split_row_cols cc0 (set_rows cc0 _)) by reflexivity.
      destruct (split_row cc0 G (new_tuple c r col value G) ch) as [ch2|e] eqn:Hsplit.
      2:{ exists (Err e). split; [reflexivity|]. intros db2 H. discriminate H. }
      exists (Ok (update_rows dbm (m_child_category G)
                    (insert_after (List.length pre) ch2))).
      split; [reflexivity|]. intros db2 H. injection H as <-.
      destruct (split_row_rewritten cc0 G _ ch ch2 Hch
                  (new_tuple_short c r col value G Hvalue Hr)
                  (matched_lengths cc0 ch c r col value G Hmatched) Hnd Hsplit)
        as [Hrw Hs2].
      exists ([ch; ch2] :: parts). cbn [List.concat app].
      split; [constructor; [now apply fixed_child_split|exact HF]|].
      split.
      { rewrite (get_update_rows_same _ _ _ _ Hgm). cbn [m_rows set_rows].
        now rewrite insert_after_middle. }
      split; [exact (untouched_above_trans rank _ _ _ _ Hunm
                       (untouched_above_update rank _ _ _))|].
      apply (short_store_update _ _ _ _ Hsm Hgm). cbn [m_rows set_rows].
      rewrite insert_after_middle.
      specialize (Hsm _ _ Hgm). cbn [m_rows set_rows] in Hsm.
      apply Forall_middle in Hsm as (Hp & _ & Hpost).
      apply Forall_middle. split; [exact Hp|]. split; [exact Hch|].
      constructor; assumption.
    + assert (Hacm : acyclic rank dbm)
        by (apply (acyclic_links rank db0); [apply Hunm|exact Hac]).
      pose proof (distinct_keys_untouched rank _ _ _ Hunm Hdk) as Hdkm.
      destruct (rewrite_in_place_spec
                  (child_keys_of col (m_parent_keys G) (m_child_keys G))
                  dbm (m_child_category G) (List.length pre) value
                  (set_rows cc0 (pre ++ ch :: List.concat parts)) ch
                  Hrk Hacm Hdkm Hsm Hvalue Hgm)
        as (res & E & H).
      { cbn [m_rows set_rows]. apply nth_error_middle. }
      exists res. split; [exact E|]. intros db2 Hres.
      destruct (H db2 Hres) as (ch' & Hg2 & Hun2 & Hs2 & Hcell).
      cbn [m_rows set_rows] in Hg2. rewrite replace_at_middle in Hg2.
      exists ([ch'] :: parts). cbn [List.concat app].
      split.
      { constructor; [|exact HF]. apply fixed_child_in_place; try assumption.
        apply in_place_rewritten; assumption. }
      split; [exact Hg2|].
      split; [exact (untouched_above_trans rank _ _ _ _ Hunm Hun2)|exact Hs2].
Qed.

(** One link group: the store after it is the store that [link_fixed]
    describes. *)
Lemma cascade_link_spec db G :
  acyclic rank db -> distinct_keys db -> short_store db ->
  In G (links_of db) -> (rank (m_child_category G) < bound)%nat ->
  exists res,
    cascade_link rec db c ri r col value G = Some res /\
    forall db1, res = Ok db1 ->
      link_fixed rank c ri r col value db G db1 /\ short_store db1.
Proof.
  intros Hac Hdk Hs HG Hrk. unfold cascade_link, link_fixed.
  destruct (get db (m_child_category G)) as [cc|] eqn:Hget.
  - destruct (fix_children_spec db G cc Hac Hdk HG Hrk (Hdk G cc HG Hget)
                (m_rows cc) [] db) as (res & E & H).
    + cbn [app]. now rewrite set_rows_same.
    + apply untouched_above_refl.
    + exact Hs.
    + exists res. split; [exact E|]. intros db1 Hres.
      destruct (H db1 Hres) as (parts & HF & Hg1 & Hun & Hs1).
      split; [|exact Hs1]. split; [exact Hun|]. exists parts. auto.
  - exists (Ok db). split; [reflexivity|]. intros db1 H. injection H as <-.
    split; [|exact Hs]. split; [apply untouched_above_refl|reflexivity].
Qed.

(** All link groups of a parent key: the stores in between are those
    that [links_fixed] describes, and nothing at or above the measure [k]
    of the parent category changed. *)
Lemma cascade_links_spec (k : nat) links : forall db,
  (k <= bound)%nat ->
  acyclic rank db -> distinct_keys db -> short_store db ->
  (forall G, In G links ->
     In G (links_of db) /\ (rank (m_child_category G) < k)%nat) ->
  exists res,
    cascade_links rec db c ri r col value links = Some res /\
    forall db1, res = Ok db1 ->
      links_fixed rank c ri r col value db links db1 /\
      short_store db1 /\ links_of db1 = links_of db /\
      (forall n, option_map m_columns (get db1 n) =
                 option_map m_columns (get db n)) /\
      (forall n, (k <= rank n)%nat -> get db1 n = get db n).
Proof.
  induction links as [|G links IH]; intros db Hk Hac Hdk Hs Hl.
  - exists (Ok db). split; [reflexivity|]. intros db1 H. injection H as <-.
    split; [constructor|]. repeat split; auto.
  - cbn [cascade_links].
    destruct (Hl G (or_introl eq_refl)) as [HG Hrk].
    destruct (cascade_link_spec db G Hac Hdk Hs HG) as (res1 & E1 & H1); [lia|].
    rewrite E1. destruct res1 as [dbm|e].
    2:{ exists (Err e). split; [reflexivity|]. intros db1 H. discriminate H. }
    destruct (H1 dbm eq_refl) as [Hlf Hsm].
    pose proof Hlf as [Hun _].
    assert (Hacm : acyclic rank dbm)
      by (apply (acyclic_links rank db); [apply Hun|exact Hac]).
    pose proof (distinct_keys_untouched rank _ _ _ Hun Hdk) as Hdkm.
    destruct Hun as (HL & HC & HU).
    destruct (IH dbm Hk Hacm Hdkm Hsm) as (res & E & H).
    { intros G' HG'. rewrite HL. apply Hl. now right. }
    exists res. split; [exact E|]. intros db1 Hres.
    destruct (H db1 Hres) as (Hch & Hs1 & HL1 & HC1 & HU1).
    split; [econstructor; eassumption|].
    split; [exact Hs1|]. split; [congruence|]. split.
    + intro n. now rewrite HC1.
    + intros n Hn. rewrite HU1 by exact Hn. apply HU; [lia|].
      destruct (iequals n (m_child_category G)) eqn:En; [|reflexivity].
      destruct Hac as [Heq _]. apply Heq in En. lia.
Qed.

End CascadeProofs.

Lemma Forall_replace_at {A} (P : A -> Prop) j x (l : list A) :
  P x -> Forall P l -> Forall P (replace_at j x l).
Proof.
  intros Hx Hl. destruct (nth_error l j) as [y|] eqn:E.
  - destruct (nth_error_decompose l j y E) as (pre & post & -> & <-).
    rewrite replace_at_middle. apply Forall_middle in Hl as (H1 & _ & H3).
    apply Forall_middle. auto.
  - unfold replace_at. now rewrite E.
Qed.

Lemma parent_links_below rank db cat col G :
  acyclic rank db -> In G (parent_links db cat col) ->
  In G (links_of db) /\ (rank (m_child_category G) < rank cat)%nat.
Proof.
  intros [Heq Hlt] H. unfold parent_links in H. apply filter_In in H as [Hin H].
  apply andb_prop in H as [H _]. split; [exact Hin|].
  rewrite <- (Heq _ _ H). now apply Hlt.
Qed.

(** One call of [set_cell], given what the calls for the rows further
    down do. *)
Lemma set_cell_step rank regex_impl enums_less fuel :
  cell_rewriter rank fuel (set_cell regex_impl enums_less fuel) ->
  forall db cat ri col value,
    (rank cat <= fuel)%nat -> acyclic rank db -> distinct_keys db ->
    short_store db -> strlen value < 65535 ->
    exists res,
      set_cell regex_impl enums_less (S fuel) db cat ri col value = Some res /\
      forall db', res = Ok db' ->
        exists c r r' db1,
          get db cat = Some c /\ nth_error (m_rows c) ri = Some r /\
          links_fixed rank c ri r col value db (parent_links db cat col) db1 /\
          set_field c r col value = Ok r' /\
          db' = update_rows db1 cat (replace_at ri r') /\
          get db1 cat = Some c /\
          short_store db1 /\ links_of db1 = links_of db /\
          (forall n, option_map m_columns (get db1 n) =
                     option_map m_columns (get db n)) /\
          (forall n, (rank cat <= rank n)%nat -> get db1 n = get db n).
Proof.
  intros Hrec db cat ri col value Hrk Hac Hdk Hs Hv.
  rewrite set_cell_unfold.
  destruct (get db cat) as [c|] eqn:Hget.
  2:{ eexists. split; [reflexivity|]. intros db' H. discriminate H. }
  destruct (nth_error (m_rows c) ri) as [r|] eqn:Hn.
  2:{ eexists. split; [reflexivity|]. intros db' H. discriminate H. }
  destruct (validate_value regex_impl enums_less c col value) as [u|e].
  2:{ eexists. split; [reflexivity|]. intros db' H. discriminate H. }
  assert (Hr : Forall short_cell r).
  { specialize (Hs _ _ Hget). rewrite Forall_forall in Hs. apply Hs.
    eapply nth_error_In. exact Hn. }
  destruct (cascade_links_spec rank (set_cell regex_impl enums_less fuel) fuel Hrec
              c ri r col value Hv Hr (rank cat) (parent_links db cat col) db
              Hrk Hac Hdk Hs) as (res1 & E1 & H1).
  { intros G HG. now apply (parent_links_below rank db cat col). }
  rewrite E1. destruct res1 as [db1|e].
  2:{ eexists. split; [reflexivity|]. intros db' H. discriminate H. }
  destruct (H1 db1 eq_refl) as (Hch & Hs1 & HL & HC & HU).
  destruct (set_field c r col value) as [r'|e] eqn:Hset.
  2:{ eexists. split; [reflexivity|]. intros db' H. discriminate H. }
  eexists. split; [reflexivity|]. intros db' H. injection H as <-.
  exists c, r, r', db1. repeat split; try assumption.
  rewrite HU by lia. exact Hget.
Qed.

(** [set_cell] with fuel above the measure of the category returns, and
    changes nothing but the cell in the categories that are not below. *)
Lemma set_cell_rewriter rank regex_impl enums_less fuel :
  cell_rewriter rank fuel (set_cell regex_impl enums_less fuel).
Proof.
  induction fuel as [|fuel IH]; intros db cat j col value Hrk Hac Hdk Hs Hv; [lia|].
  destruct (set_cell_step rank regex_impl enums_less fuel IH db cat j col value)
    as (res & E & H); try assumption; [lia|].
  exists res. split; [exact E|]. intros db' Hres.
  destruct (H db' Hres)
    as (c & r & r' & db1 & Hget & Hn & _ & Hset & -> & Hg1 & Hs1 & HL & HC & HU).
  exists c, r, r'. split; [exact Hget|]. split; [exact Hn|]. split; [exact Hset|].
  split; [apply (get_update_rows_same _ _ _ _ Hg1)|]. split.
  - split; [exact HL|]. split.
    + intro n. now rewrite update_rows_columns.
    + intros n Hr Hne. rewrite get_update_rows_other by exact Hne. now apply HU.
  - apply (short_store_update _ _ _ _ Hs1 Hg1).
    apply Forall_replace_at; [|now apply (Hs1 _ _ Hg1)].
    apply (set_field_short_row c r col value r' Hv); [|exact Hset].
    specialize (Hs _ _ Hget). rewrite Forall_forall in Hs. apply Hs.
    eapply nth_error_In. exact Hn.
Qed.


(** *** The cascade of [erase] *)

Section OrphanProofs.

Variable rank : string -> nat.
Variable rec : datablock -> string -> nat -> option (result datablock).
Variable bound : nat.
Hypothesis Hrec : row_eraser rank bound rec.

(** The erased parent row. *)
Variables (c : category) (r : row).

Lemma orphaned_child_unmatched db G cc ch :
  joins G cc (key_tuple c r (m_parent_keys G)) ch = false ->
  orphaned_child c r db G cc ch [ch].
Proof.
  intro Hj.
  assert (Hn : key_tuple cc ch (m_child_keys G) <> key_tuple c r (m_parent_keys G)).
  { intro H. apply joins_iff in H. congruence. }
  split; [reflexivity|]. split; intros H; contradiction.
Qed.

Lemma orphaned_child_blanked db G cc ch :
  joins G cc (key_tuple c r (m_parent_keys G)) ch = true ->
  has_other_parent db G cc ch None = true ->
  orphaned_child c r db G cc ch [blank_keys cc ch (m_child_keys G)].
Proof.
  intros Hj Ho. apply joins_iff in Hj. apply has_other_parent_iff in Ho.
  split; [contradiction|]. split; [|intros _ H; contradiction].
  intros _ _. eexists. split; [reflexivity|apply blank_keys_blanked].
Qed.

Lemma orphaned_child_erased db G cc ch :
  joins G cc (key_tuple c r (m_parent_keys G)) ch = true ->
  has_other_parent db G cc ch None = false ->
  orphaned_child c r db G cc ch [].
Proof.
  intros Hj Ho. apply joins_iff in Hj.
  assert (Hn : ~ other_parent db G cc ch None).
  { intro H. apply has_other_parent_iff in H. congruence. }
  split; [contradiction|]. split; [intros _ H; contradiction|reflexivity].
Qed.

Lemma orphan_children_spec db0 G cc0 :
  acyclic rank db0 -> In G (links_of db0) ->
  (rank (m_child_category G) < bound)%nat ->
  forall rows pre db1,
    get db1 (m_child_category G) = Some (set_rows cc0 (pre ++ rows)) ->
    untouched_above rank (m_child_category G) db0 db1 ->
    exists res,
      orphan_children rec db1 G cc0 (key_tuple c r (m_parent_keys G))
        rows (List.length pre) = Some res /\
      forall db2, res = Ok db2 ->
        exists parts,
          Forall2 (orphaned_child c r db0 G cc0) rows parts /\
          get db2 (m_child_category G) =
            Some (set_rows cc0 (pre ++ List.concat parts)) /\
          untouched_above rank (m_child_category G) db0 db2.
Proof.
  intros Hac HG Hrk.
  induction rows as [|ch rest IH]; intros pre db1 Hget Hun.
  - exists (Ok db1). split; [reflexivity|]. intros db2 H. injection H as <-.
    exists []. cbn [List.concat]. split; [constructor|]. split; assumption.
  - cbn [orphan_children].
    destruct (IH (pre ++ [ch])%list db1) as (res1 & E1 & H1); try assumption.
    { now rewrite <- app_assoc. }
    rewrite length_app in E1. cbn [List.length] in E1. rewrite Nat.add_1_r in E1.
    rewrite E1. destruct res1 as [dbm|e].
    2:{ exists (Err e). split; [reflexivity|]. intros db2 H. discriminate H. }
    destruct (H1 dbm eq_refl) as (parts & HF & Hgm & Hunm).
    rewrite <- app_assoc in Hgm. cbn [app] in Hgm.
    destruct (joins G cc0 (key_tuple c r (m_parent_keys G)) ch) eqn:Hj.
    2:{ exists (Ok dbm). split; [reflexivity|]. intros db2 H. injection H as <-.
        exists ([ch] :: parts). cbn [List.concat app].
        split; [constructor; [now apply orphaned_child_unmatched|exact HF]|].
        split; assumption. }
    unfold orphan_child. rewrite Hgm. cbn [m_rows set_rows].
    rewrite nth_error_middle.
    rewrite (has_other_parent_untouched rank db0 dbm G cc0
               (set_rows cc0 (pre ++ ch :: List.concat parts)) ch _ Hac Hunm eq_refl).
    destruct (has_other_parent db0 G cc0 ch None) eqn:Hother.
    + rewrite (blank_keys_cols cc0 (set_rows cc0 _)) by reflexivity.
      eexists. split; [reflexivity|]. intros db2 H. injection H as <-.
      exists ([blank_keys cc0 ch (m_child_keys G)] :: parts). cbn [List.concat app].
      split; [constructor; [now apply orphaned_child_blanked|exact HF]|].
      split.
      * rewrite (get_update_rows_same _ _ _ _ Hgm). cbn [m_rows set_rows].
        now rewrite replace_at_middle.
      * exact (untouched_above_trans rank _ _ _ _ Hunm
                 (untouched_above_update rank _ _ _)).
    + assert (Hacm : acyclic rank dbm)
        by (apply (acyclic_links rank db0); [apply Hunm|exact Hac]).
      destruct (Hrec dbm (m_child_category G) (List.length pre) Hrk Hacm)
        as (res & E & H).
      exists res. split; [exact E|]. intros db2 Hres.
      destruct (H db2 Hres) as (c1 & r1 & Hg1 & _ & Hg2 & Hun2).
      rewrite Hgm in Hg1. injection Hg1 as <-.
      cbn [m_rows set_rows] in Hg2. rewrite remove_at_middle in Hg2.
      exists ([] :: parts). cbn [List.concat app].
      split; [constructor; [now apply orphaned_child_erased|exact HF]|].
      split; [exact Hg2|].
      exact (untouched_above_trans rank _ _ _ _ Hunm Hun2).
Qed.

Lemma erase_link_spec db G :
  acyclic rank db -> In G (links_of db) ->
  (rank (m_child_category G) < bound)%nat ->
  exists res,
    erase_link rec db c r G = Some res /\
    forall db1, res = Ok db1 -> link_erased rank c r db G db1.
Proof.
  intros Hac HG Hrk. unfold erase_link, link_erased.
  destruct (get db (m_child_category G)) as [cc|] eqn:Hget.
  - destruct (orphan_children_spec db G cc Hac HG Hrk (m_rows cc) [] db)
      as (res & E & H).
    + cbn [app]. now rewrite set_rows_same.
    + apply untouched_above_refl.
    + exists res. split; [exact E|]. intros db1 Hres.
      destruct (H db1 Hres) as (parts & HF & Hg1 & Hun).
      split; [exact Hun|]. exists parts. auto.
  - exists (Ok db). split; [reflexivity|]. intros db1 H. injection H as <-.
    split; [apply untouched_above_refl|reflexivity].
Qed.

Lemma erase_links_spec (k : nat) links : forall db,
  (k <= bound)%nat -> acyclic rank db ->
  (forall G, In G links ->
     In G (links_of db) /\ (rank (m_child_category G) < k)%nat) ->
  exists res,
    erase_links rec db c r links = Some res /\
    forall db1, res = Ok db1 ->
      links_erased rank c r db links db1 /\
      links_of db1 = links_of db /\
      (forall n, option_map m_columns (get db1 n) =
                 option_map m_columns (get db n)) /\
      (forall n, (k <= rank n)%nat -> get db1 n = get db n).
Proof.
  induction links as [|G links IH]; intros db Hk Hac Hl.
  - exists (Ok db). split; [reflexivity|]. intros db1 H. injection H as <-.
    split; [constructor|]. repeat split; auto.
  - cbn [erase_links].
    destruct (Hl G (or_introl eq_refl)) as [HG Hrk].
    destruct (erase_link_spec db G Hac HG) as (res1 & E1 & H1); [lia|].
    rewrite E1. destruct res1 as [dbm|e].
    2:{ exists (Err e). split; [reflexivity|]. intros db1 H. discriminate H. }
    pose proof (H1 dbm eq_refl) as Hlf.
    pose proof Hlf as [Hun _].
    assert (Hacm : acyclic rank dbm)
      by (apply (acyclic_links rank db); [apply Hun|exact Hac]).
    destruct Hun as (HL & HC & HU).
    destruct (IH dbm Hk Hacm) as (res & E & H).
    { intros G' HG'. rewrite HL. apply Hl. now right. }
    exists res. split; [exact E|]. intros db1 Hres.
    destruct (H db1 Hres) as (Hch & HL1 & HC1 & HU1).
    split; [econstructor; eassumption|].
    split; [congruence|]. split.
    + intro n. now rewrite HC1.
    + intros n Hn. rewrite HU1 by exact Hn. apply HU; [lia|].
      destruct (iequals n (m_child_category G)) eqn:En; [|reflexivity].
      destruct Hac as [Heq _]. apply Heq in En. lia.
Qed.

End OrphanProofs.

Lemma child_links_below rank db cat G :
  acyclic rank db -> In G (child_links db cat) ->
  In G (links_of db) /\ (rank (m_child_category G) < rank cat)%nat.
Proof.
  intros [Heq Hlt] H. unfold child_links in H. apply filter_In in H as [Hin H].
  split; [exact Hin|]. rewrite <- (Heq _ _ H). now apply Hlt.
Qed.

(** One call of [erase], given what the calls for the rows further down
    do. *)
Lemma erase_step rank fuel :
  row_eraser rank fuel (erase fuel) ->
  forall db cat ri,
    (rank cat <= fuel)%nat -> acyclic rank db ->
    exists res,
      erase (S fuel) db cat ri = Some res /\
      forall db', res = Ok db' ->
        exists c r,
          get db cat = Some c /\ nth_error (m_rows c) ri = Some r /\
          links_erased rank c r (update_rows db cat (remove_at ri))
                       (child_links db cat) db' /\
          links_of db' = links_of db /\
          (forall n, option_map m_columns (get db' n) =
                     option_map m_columns (get db n)) /\
          (forall n, (rank cat <= rank n)%nat ->
                     get db' n = get (update_rows db cat (remove_at ri)) n).
Proof.
  intros Hrec db cat ri Hrk Hac. rewrite erase_unfold.
  destruct (get db cat) as [c|] eqn:Hget.
  2:{ eexists. split; [reflexivity|]. intros db' H. discriminate H. }
  destruct (nth_error (m_rows c) ri) as [r|] eqn:Hn.
  2:{ eexists. split; [reflexivity|]. intros db' H. discriminate H. }
  destruct (erase_links_spec rank (erase fuel) fuel Hrec c r (rank cat)
              (child_links db cat) (update_rows db cat (remove_at ri)) Hrk)
    as (res & E & H).
  { apply (acyclic_links rank db); [reflexivity|exact Hac]. }
  { intros G HG. now apply (child_links_below rank db cat). }
  exists res. split; [exact E|]. intros db' Hres.
  destruct (H db' Hres) as (Hch & HL & HC & HU).
  exists c, r. split; [reflexivity|]. split; [exact Hn|]. split; [exact Hch|].
  split; [exact HL|]. split; [|exact HU].
  intro n. now rewrite HC, update_rows_columns.
Qed.

Lemma erase_eraser rank fuel : row_eraser rank fuel (erase fuel).
Proof.
  induction fuel as [|fuel IH]; intros db cat j Hrk Hac; [lia|].
  destruct (erase_step rank fuel IH db cat j) as (res & E & H); try assumption; [lia|].
  exists res. split; [exact E|]. intros db' Hres.
  destruct (H db' Hres) as (c & r & Hget & Hn & _ & HL & HC & HU).
  exists c, r. split; [exact Hget|]. split; [exact Hn|]. split.
  - rewrite HU by lia. now apply get_update_rows_same.
  - split; [exact HL|]. split; [exact HC|].
    intros n Hr Hne. rewrite HU by exact Hr. now apply get_update_rows_other.
Qed.


(** *** The example stores *)

Lemma iequals_left a b n : iequals a b = true -> iequals a n = iequals b n.
Proof.
  intro H. destruct (iequals a n) eqn:E1, (iequals b n) eqn:E2; try reflexivity.
  - rewrite iequals_sym in H. rewrite (iequals_trans _ _ _ H E1) in E2. discriminate.
  - rewrite (iequals_trans _ _ _ H E2) in E1. discriminate.
Qed.

Lemma short_store_categories db :
  Forall (fun c => Forall (Forall short_cell) (m_rows c)) (categories db) ->
  short_store db.
Proof.
  intros H name c Hget. unfold get in Hget. apply find_some in Hget as [Hin _].
  rewrite Forall_forall in H. now apply H.
Qed.

Lemma distinct_keys_links db :
  Forall (fun G => match get db (m_child_category G) with
                   | Some cc => NoDup (map (get_column_ix cc) (m_child_keys G))
                   | None => True
                   end) (links_of db) ->
  distinct_keys db.
Proof.
  intros H G cc Hin Hget. rewrite Forall_forall in H. specialize (H G Hin).
  now rewrite Hget in H.
Qed.

Lemma NoDup_one {A} (x : A) : NoDup [x].
Proof. constructor; [intros []|constructor]. Qed.

Lemma chain_acyclic : acyclic chain_rank chain.
Proof.
  split.
  - intros a b H. unfold chain_rank.
    now rewrite (iequals_left a b "cat_a" H), (iequals_left a b "cat_b" H).
  - intros G [<-|[<-|[]]]; vm_compute; lia.
Qed.

Lemma chain_distinct : distinct_keys chain.
Proof.
  apply distinct_keys_links.
  repeat (apply Forall_cons || apply Forall_nil); vm_compute; apply NoDup_one.
Qed.

Lemma chain_short : short_store chain.
Proof. apply short_store_categories. repeat constructor. Qed.

Lemma d5_acyclic : acyclic d5_rank d5.
Proof.
  split.
  - intros a b H. unfold d5_rank. now rewrite (iequals_left a b "cat_1" H).
  - intros G [<-|[<-|[<-|[]]]]; vm_compute; lia.
Qed.


Lemma chain_rename :
  let db' := returned (set_cell any_value iless 3 chain "cat_a" 0 "id" "10") in
  table db' "cat_a" ["id"] = [["10"]; ["2"]] /\
  table db' "cat_b" ["id"; "name"] = [["10"; "x"]; ["2"; "y"]] /\
  table db' "cat_c" ["id"; "b_id"] = [["1"; "10"]; ["2"; "10"]; ["3"; "2"]].
Proof. vm_compute. repeat split. Qed.


(** Test [d5] on the model: after the three renames no child refers to an
    old key and no row was added; the three erasures leave 4, 1 and 0 rows
    in [cat_2]. *)
Lemma d5_renames :
  table d5_renamed "cat_1" ["id"] = [["10"]; ["20"]; ["30"]] /\
  table d5_renamed "cat_2" d5_columns =
    [["1"; "10"; ""; ""]; ["2"; ""; "10"; ""]; ["3"; ""; ""; "10"];
     ["4"; "20"; "20"; ""]; ["5"; "20"; ""; "20"]; ["6"; ""; "20"; "20"];
     ["7"; "30"; "30"; "30"]].
Proof. split; vm_compute; reflexivity. Qed.

Lemma d5_erasures :
  let e1 := returned (erase 2 d5_renamed "cat_1" 0) in
  let e2 := returned (erase 2 e1 "cat_1" 0) in
  let e3 := returned (erase 2 e2 "cat_1" 0) in
  List.length (table e1 "cat_2" ["id"]) = 4%nat /\
  List.length (table e2 "cat_2" ["id"]) = 1%nat /\
  List.length (table e3 "cat_2" ["id"]) = 0%nat /\
  List.length (table e3 "cat_1" ["id"]) = 0%nat.
Proof. repeat split; vm_compute; reflexivity. Qed.




End PropagatorProofs.

(** ** The tokenizer, token by token *)

Module TokenizerProofs.
Import Text Parser Lexeme LexemeNotions ParserProofs.

(** The shape of every result of [get_next_char]: a CR is never returned,
    one character is appended to the token, and the line counter advances
    on LF only. *)
Lemma get_next_char_shape i p :
  exists d b,
    get_next_char i p =
      (fst (get_next_char i p),
       mk_parser d b
         (push_back (mTokenValue p) (token_char i (fst (get_next_char i p))))
         (mTokenType p)
         (if fst (get_next_char i p) =? LF
          then uint32 (m_line_nr p + 1) else m_line_nr p)
         (m_bol p)) /\
    fst (get_next_char i p) <> CR.
Proof.
  unfold get_next_char, stream_get, token_char.
  destruct (mBuffer p) as [|top rest]; [destruct (mData p) as [|c d]|].
  - cbn. destruct i; cbn; do 2 eexists; split; try reflexivity; discriminate.
  - cbn [mData mBuffer mTokenValue mTokenType m_line_nr m_bol].
    destruct (Z.eqb_spec c CR) as [->|Hc].
    + destruct d as [|c2 d2]; cbn.
      * destruct i; cbn; do 2 eexists; split; try reflexivity; discriminate.
      * destruct (c2 =? LF); destruct i; cbn;
          do 2 eexists; split; try reflexivity; discriminate.
    + destruct i; cbn.
      * destruct (c =? LF); do 2 eexists; split; try reflexivity; assumption.
      * destruct (c =? kEOF), (c =? LF); cbn;
          do 2 eexists; split; try reflexivity; assumption.
  - cbn [mData mBuffer mTokenValue mTokenType m_line_nr m_bol].
    destruct (Z.eqb_spec top CR) as [->|Hc].
    + destruct (mData p) as [|c2 d2]; cbn.
      * destruct i; cbn; do 2 eexists; split; try reflexivity; discriminate.
      * destruct (c2 =? LF); destruct i; cbn;
          do 2 eexists; split; try reflexivity; discriminate.
    + destruct i; cbn.
      * destruct (top =? LF); do 2 eexists; split; try reflexivity; assumption.
      * destruct (top =? kEOF), (top =? LF); cbn;
          do 2 eexists; split; try reflexivity; assumption.
Qed.

(** X1.  The one-character push-back of the scanner: after [retract], the
    next [get_next_char] returns the same character and leaves the parser
    as it was before the [retract], line counter included. *)
Theorem retract_then_get_next_char (i : impl) (p p1 : sac_parser) (ch : Z)
    (Hget : get_next_char i p = (ch, p1))
    (Hch : pushback_faithful i ch) :
  get_next_char i (retract i p1) = (ch, p1).
Proof.
  destruct (get_next_char_shape i p) as (d & b & E & Hcr).
  rewrite Hget in E, Hcr. cbn [fst] in E, Hcr. injection E as E. subst p1.
  unfold retract. cbn [mTokenValue mData mBuffer mTokenType m_line_nr m_bol].
  rewrite back_push_back, pop_back_push_back.
  assert (Hp : (match i with
                | V2 => int_of_char (token_char i ch)
                | V1 => if int_of_char (token_char i ch) =? 0 then kEOF
                        else to_int_type (token_char i ch)
                end) = ch).
  { destruct i; cbn [token_char pushback_faithful] in *.
    - now apply int_of_char_of_int.
    - destruct Hch as [->|Hr]; [reflexivity|].
      replace (ch =? kEOF) with false by (symmetry; apply Z.eqb_neq; unfold kEOF; lia).
      unfold int_of_char. fold (to_int_type (char_of_int ch)).
      rewrite to_int_type_of_int by lia.
      destruct (ch <? 128);
        match goal with |- context [?a =? 0] =>
          replace (a =? 0) with false by (symmetry; apply Z.eqb_neq; lia) end;
        reflexivity. }
  assert (Hlf : (int_of_char (token_char i ch) =? LF) = (ch =? LF)).
  { destruct i; cbn [token_char pushback_faithful] in *.
    - now rewrite int_of_char_of_int.
    - destruct Hch as [->|Hr]; [reflexivity|].
      replace (ch =? kEOF) with false by (symmetry; apply Z.eqb_neq; unfold kEOF; lia).
      unfold int_of_char. fold (to_int_type (char_of_int ch)).
      rewrite to_int_type_of_int by lia. unfold LF.
      destruct (Z.ltb_spec ch 128); [reflexivity|].
      destruct (Z.eqb_spec (ch - 256) 10), (Z.eqb_spec ch 10); try reflexivity; lia. }
  rewrite Hlf. unfold get_next_char.
  cbn [mTokenValue mData mBuffer mTokenType m_line_nr m_bol].
  destruct i; rewrite Hp; apply Z.eqb_neq in Hcr; rewrite Hcr.
  - cbn [set_token mTokenValue mData mBuffer mTokenType m_line_nr m_bol].
    destruct (ch =? LF); [|reflexivity].
    now rewrite uint32_line_round.
  - cbn [token_char]. destruct (ch =? kEOF);
      cbn [set_token mTokenValue mData mBuffer mTokenType m_line_nr m_bol];
      (destruct (ch =? LF); [|reflexivity]); now rewrite uint32_line_round.
Qed.

Lemma retract_then_get_next_char_witness :
  get_next_char V2 (retract V2 (snd (get_next_char V2 (parser_on (bytes "ab"))))) =
  get_next_char V2 (parser_on (bytes "ab")).
Proof.
  apply (retract_then_get_next_char V2 (parser_on (bytes "ab")) _ 97 eq_refl).
  cbn. lia.
Defined.

Lemma get_next_char_blank i p c d :
  mBuffer p = [] -> mData p = c :: d -> is_blank c = true ->
  get_next_char i p =
    (c, mk_parser d [] (push_back (mTokenValue p) (char_of_int c)) (mTokenType p)
                  (if c =? LF then uint32 (m_line_nr p + 1) else m_line_nr p)
                  (m_bol p)).
Proof.
  intros Hb Hd Hc. unfold get_next_char, stream_get. rewrite Hb, Hd.
  unfold is_blank in Hc.
  assert (Hcases : c = 32 \/ c = 9 \/ c = 10).
  { apply orb_prop in Hc as [Hc|Hc]; [apply orb_prop in Hc as [Hc|Hc]|];
      apply Z.eqb_eq in Hc; auto. }
  destruct Hcases as [-> | [-> | ->]]; destruct i; reflexivity.
Qed.

Lemma get_next_char_eof i p :
  mBuffer p = [] -> mData p = [] ->
  get_next_char i p =
    (kEOF, mk_parser [] [] (push_back (mTokenValue p) (token_char i kEOF))
                     (mTokenType p) (m_line_nr p) (m_bol p)).
Proof.
  intros Hb Hd. destruct p as [d b t ty ln bl]. cbn in Hb, Hd. subst.
  destruct i; reflexivity.
Qed.

Lemma scan_white_eof i l : forall ws p,
  state l = State_White ->
  mBuffer p = [] -> mData p = ws -> forallb is_blank ws = true ->
  exists p', scan i (S (List.length ws)) l p = Returns (CIFToken_Eof, p').
Proof.
  induction ws as [|c ws IH]; intros p Hl Hb Hd Hws.
  - cbn [List.length scan]. rewrite (get_next_char_eof i p Hb Hd).
    unfold step. rewrite Hl. cbn. eauto.
  - cbn [forallb] in Hws. apply andb_prop in Hws as [Hc Hws].
    cbn [List.length scan]. rewrite (get_next_char_blank i p c ws Hb Hd Hc).
    unfold step. rewrite Hl.
    assert (Hsp : isspace c = true /\ (c =? kEOF) = false).
    { unfold is_blank in Hc.
      apply orb_prop in Hc as [Hc|Hc]; [apply orb_prop in Hc as [Hc|Hc]|];
        apply Z.eqb_eq in Hc; subst c; split; reflexivity. }
    destruct Hsp as [-> ->]. cbn [negb].
    apply IH; auto.
Qed.

(** X2.  An input of blanks only, the empty input included, gives the Eof
    token. *)
Theorem blank_input_is_eof (i : impl) (ws : list Z) (fuel : nat) (p : sac_parser)
    (Hbuf : mBuffer p = [])
    (Hdata : mData p = ws)
    (Hws : forallb is_blank ws = true)
    (Hfuel : (List.length ws + 1 <= fuel)%nat) :
  exists p', get_next_token i fuel p = Returns (CIFToken_Eof, p').
Proof.
  unfold get_next_token.
  set (p0 := mk_parser (mData p) (mBuffer p) "" CIFValue_Unknown (m_line_nr p) false).
  destruct ws as [|c ws].
  - replace fuel with (1 + (fuel - 1))%nat by (cbn in Hfuel; lia).
    eexists. apply scan_fuel_mono. cbn [scan].
    rewrite (get_next_char_eof i p0 Hbuf Hdata). reflexivity.
  - cbn [forallb] in Hws. apply andb_prop in Hws as [Hc Hws].
    cbn [List.length] in Hfuel.
    replace fuel with (S (S (List.length ws)) + (fuel - S (S (List.length ws))))%nat by lia.
    cut (exists p', scan i (S (S (List.length ws)))
                      (mk_locals State_Start State_Start 0) p0 = Returns (CIFToken_Eof, p')).
    { intros [p' E]. exists p'. now apply scan_fuel_mono. }
    assert (Hstep : forall q, mBuffer q = [] -> mData q = ws ->
               exists p2 : sac_parser,
                 step i (mk_locals State_Start State_Start 0) c q =
                   Ok (Continue (mk_locals State_White State_Start 0), p2) /\
                 mBuffer p2 = [] /\ mData p2 = ws).
    { intros q Hq1 Hq2. unfold step. cbn [state].
      unfold is_blank in Hc.
      apply orb_prop in Hc as [Hc|Hc]; [apply orb_prop in Hc as [Hc|Hc]|];
        apply Z.eqb_eq in Hc; rewrite Hc; cbn; eexists; split; try reflexivity; auto. }
    cbn [scan].
    rewrite (get_next_char_blank i p0 c ws Hbuf Hdata Hc).
    match goal with
    | |- context [step i _ c ?q] =>
        destruct (Hstep q eq_refl eq_refl) as (p2 & Hstep1 & Hb2 & Hd2)
    end.
    destruct (scan_white_eof i (mk_locals State_White State_Start 0) ws p2
                eq_refl Hb2 Hd2 Hws) as [p' E].
    exists p'. rewrite Hstep1. exact E.
Qed.

Lemma blank_input_is_eof_witness :
  exists p', get_next_token V2 4 (parser_on [32; 10; 9]) = Returns (CIFToken_Eof, p').
Proof.
  apply (blank_input_is_eof V2 [32; 10; 9] 4 (parser_on [32; 10; 9]) eq_refl eq_refl eq_refl).
  cbn. lia.
Defined.

(** [State::Tag]: the characters up to the first one that is not non-blank
    are collected. *)
Lemma scan_tag i l rest : forall d pre p,
  state l = State_Tag ->
  reads p (bytes d ++ rest) -> mTokenValue p = pre ->
  all_non_blank d = true -> terminated rest ->
  exists p',
    scan i (S (String.length d)) l p = Returns (CIFToken_Tag, p') /\
    mTokenValue p' = pre ++ d /\ mTokenType p' = mTokenType p /\
    parser_ok p' = true.
Proof.
  induction d as [|a d IH]; intros pre p Hl Hr Hpre Hnb Hterm.
  - cbn [bytes app] in Hr. rewrite append_empty_r.
    destruct (read_next i p _ Hr) as (p1 & E & R1 & T1 & Ty1 & B1 & C1 & C2).
    pose proof (terminated_char _ Hterm) as Hch.
    destruct (retract_reads i p1 _ _ _ R1 T1) as (R2 & T2 & Ty2 & B2 & L2).
    exists (retract i p1). cbn [String.length scan]. rewrite E.
    unfold step. rewrite Hl, Hch. cbn [negb].
    split; [reflexivity|]. split; [congruence|]. split; [congruence|]. apply R2.
  - cbn [all_non_blank] in Hnb. apply andb_prop in Hnb as [Ha Hnb].
    destruct (read_next i p _ Hr) as (p1 & E & R1 & T1 & Ty1 & B1 & C1 & C2).
    cbn [bytes app hd tl] in E, R1, T1. rewrite token_char_byte, Hpre in T1.
    destruct (IH (push_back pre a) p1 Hl R1 T1 Hnb Hterm) as (p' & Es & T' & Ty' & Ok').
    exists p'. cbn [String.length scan]. rewrite E.
    unfold step at 1. rewrite Hl, Ha. cbn [negb].
    rewrite append_push_back in T'. repeat split; auto. congruence.
Qed.

(** X3.  An underscore starts a tag, after any blanks and whatever the
    scanner pushed back before: the token is Tag and its text is the
    underscore and the non-blank characters after it. *)
Theorem tag_token (i : impl) (blanks : list Z) (w : string) (rest : list Z)
    (fuel : nat) (p : sac_parser)
    (Hok : parser_ok p = true)
    (Hread : to_read p = (blanks ++ 95 :: bytes w ++ rest)%list)
    (Hblank : forallb is_blank blanks = true)
    (Hnb : all_non_blank w = true)
    (Hterm : terminated rest)
    (Hfuel : (List.length blanks + String.length w + 3 <= fuel)%nat) :
  exists p',
    get_next_token i fuel p = Returns (CIFToken_Tag, p') /\
    mTokenValue p' = String "_" w /\ parser_ok p' = true.
Proof.
  set (l0 := mk_locals State_Start State_Start 0).
  set (p0 := mk_parser (mData p) (mBuffer p) "" CIFValue_Unknown (m_line_nr p) false).
  assert (R0 : reads p0 (blanks ++ 95 :: bytes w ++ rest)).
  { split.
    - apply parser_ok_parts in Hok as (? & ? & ?). apply parser_ok_parts. cbn. auto.
    - unfold to_read in *. cbn [p0 mData mBuffer]. exact Hread. }
  destruct (skip_blanks i blanks _ _ l0 p0 eq_refl R0 Hblank eq_refl eq_refl eq_refl)
    as (p2 & Hscan0 & R2 & T2 & Ty2 & B2 & L2).
  destruct (read_next i p2 _ R2) as (p3 & E & R3 & T3 & Ty3 & B3 & C1 & C2).
  cbn [hd tl] in E, R3, T3. rewrite T2 in T3.
  destruct (scan_tag i (mk_locals State_Tag State_Start 0) rest w _ p3
              eq_refl R3 T3 Hnb Hterm) as (p' & Es & T' & Ty' & Ok').
  exists p'. split; [|split; [|exact Ok']].
  - unfold get_next_token. fold p0. fold l0.
    apply (scan_returns_more i (skipped blanks + S (S (String.length w)))).
    + unfold skipped. destruct blanks; cbn [List.length] in *; lia.
    + rewrite Hscan0. cbn [scan]. rewrite E. exact Es.
  - rewrite T'. destruct i; reflexivity.
Qed.

Lemma tag_token_witness :
  exists p',
    get_next_token V1 12
      (mk_parser (bytes "_cat.id 1") [10] "x" CIFValue_Unknown 1 false) =
      Returns (CIFToken_Tag, p') /\
    mTokenValue p' = "_cat.id" /\ parser_ok p' = true.
Proof.
  apply (tag_token V1 [10] "cat.id" (bytes " 1") 12
           (mk_parser (bytes "_cat.id 1") [10] "x" CIFValue_Unknown 1 false)
           eq_refl eq_refl eq_refl eq_refl eq_refl).
  cbn. lia.
Defined.

Lemma number_end_lexeme_end w rest :
  number_type w <> None -> number_end rest -> lexeme_end w rest.
Proof.
  intros Hn He. destruct rest as [|t s]; [exact I|].
  cbn [number_end lexeme_end] in *.
  destruct (Z.eq_dec t 35) as [->|Hne]; [right; auto|left].
  destruct (is_non_blank t) eqn:E; [|reflexivity].
  apply is_non_blank_range in E. apply is_white_range in He as Hr.
  unfold is_white, isspace in He.
  repeat (apply orb_prop in He as [He|He]); try (apply Z.eqb_eq in He; lia).
  apply andb_prop in He as [H1 H2]. apply Z.leb_le in H1, H2. lia.
Qed.

(** X4.  A single digit or sign that is followed by a white character or
    by the end of the input, after any blanks and whatever the scanner
    pushed back before, is a Value of type Int: also a lone [+] or [-]. *)
Theorem one_character_number (i : impl) (blanks : list Z) (a : ascii)
    (rest : list Z) (fuel : nat) (p : sac_parser)
    (Hok : parser_ok p = true)
    (Hread : to_read p = (blanks ++ to_int_type a :: rest)%list)
    (Hblank : forallb is_blank blanks = true)
    (Hnum : is_digit_or_sign (to_int_type a) = true)
    (Hend : number_end rest)
    (Hfuel : (List.length blanks + 8 <= fuel)%nat) :
  exists p',
    get_next_token i fuel p = Returns (CIFToken_Value, p') /\
    mTokenType p' = CIFValue_Int /\ mTokenValue p' = String a "" /\
    parser_ok p' = true.
Proof.
  assert (Hr : 43 <= to_int_type a <= 57).
  { unfold is_digit_or_sign, isdigit in Hnum.
    apply orb_prop in Hnum as [Hnum|Hnum]; [apply orb_prop in Hnum as [Hnum|Hnum]|].
    - apply andb_prop in Hnum as [H1 H2]. apply Z.leb_le in H1, H2. lia.
    - apply Z.eqb_eq in Hnum. lia.
    - apply Z.eqb_eq in Hnum. lia. }
  assert (Ha : is_non_blank (to_int_type a) = true) by (apply is_non_blank_true; lia).
  assert (Hty : number_type (String a "") = Some CIFValue_Int).
  { cbn [number_type]. now rewrite Hnum. }
  assert (Hne : forall c : ascii, to_int_type c <> to_int_type a -> Ascii.eqb a c = false).
  { intros c Hc. destruct (Ascii.eqb_spec a c) as [->|]; [contradiction|reflexivity]. }
  assert (Hlow : to_lower_copy (String a "") = String a "").
  { cbn [to_lower_copy]. f_equal. unfold tolower_char, tolower.
    rewrite int_of_char_small by lia.
    replace (to_int_type a <=? 90) with true by (symmetry; apply Z.leb_le; lia).
    replace (65 <=? to_int_type a) with false by (symmetry; apply Z.leb_gt; lia).
    cbn [andb]. apply char_of_to_int_type. }
  destruct (value_lexeme_token i blanks (String a "") rest fuel p Hok Hread Hblank)
    as (p' & E & _ & _ & T & Ty & Ok').
  - cbn [value_lead]. cbv zeta. apply negb_true_iff.
    repeat (apply orb_false_iff; split); try (apply Z.eqb_neq; lia).
    apply andb_false_iff. left. apply Z.eqb_neq. lia.
  - cbn [all_non_blank]. now rewrite Ha.
  - cbn [hash_after_number]. rewrite orb_false_r. apply andb_false_iff. left.
    apply Z.eqb_neq. lia.
  - unfold not_reserved, reserved_end, reserved_at. cbn [prefixes_ok]. 
    unfold reserved_at. change (push_back "" a) with (String a ""). rewrite Hlow.
    destruct i; cbn [String.eqb iequals];
      rewrite ?andb_false_r;
      repeat match goal with
             | |- context [if ?c then false else false] => destruct c
             end; reflexivity.
  - apply number_end_lexeme_end; [congruence|exact Hend].
  - cbn [String.length]. lia.
  - exists p'. split; [exact E|]. split; [|split; [|exact Ok']].
    + rewrite Ty by now right. unfold lexeme_type. now rewrite Hty.
    + apply T. intro Hq. injection Hq as Hq. rewrite Hq in Hr. cbn in Hr. lia.
Qed.

Lemma one_character_number_witness :
  exists p',
    get_next_token V2 10 (mk_parser (bytes "+ 1") [32] "x" CIFValue_Unknown 1 false) =
      Returns (CIFToken_Value, p') /\
    mTokenType p' = CIFValue_Int /\ mTokenValue p' = "+" /\ parser_ok p' = true.
Proof.
  apply (one_character_number V2 [32] "+" (bytes " 1") 10
           (mk_parser (bytes "+ 1") [32] "x" CIFValue_Unknown 1 false)
           eq_refl eq_refl eq_refl eq_refl eq_refl).
  cbn. lia.
Defined.

(** X5.  A quoted string that the input does not close is a parse error,
    after any blanks and whatever the scanner pushed back before; so is a
    string whose closing quote is the last byte of the input, since no
    white character follows it. The line of the error is the line the
    input ends on. *)
Theorem unterminated_quoted_string (i : impl) (q : Z) (blanks : list Z)
    (body : string) (fuel : nat) (p : sac_parser)
    (Hq : q = 39 \/ q = 34)
    (Hok : parser_ok p = true)
    (Hread : to_read p = (blanks ++ q :: bytes body)%list)
    (Hblank : forallb is_blank blanks = true)
    (Hbody : quoted_body q body = true)
    (Hfuel : (List.length blanks + String.length body + 3 <= fuel)%nat) :
  get_next_token i fuel p =
    Throws (parse_error (line_after (m_line_nr p) (blanks ++ bytes body))
                        "unterminated quoted string").
Proof.
  assert (Hqnb : is_non_blank q = true) by (destruct Hq; subst q; reflexivity).
  set (l0 := mk_locals State_Start State_Start 0).
  set (p0 := mk_parser (mData p) (mBuffer p) "" CIFValue_Unknown (m_line_nr p) false).
  assert (R0 : reads p0 (blanks ++ q :: bytes body ++ [])).
  { split.
    - apply parser_ok_parts in Hok as (? & ? & ?). apply parser_ok_parts. cbn. auto.
    - unfold to_read in *. cbn [p0 mData mBuffer]. now rewrite app_nil_r. }
  destruct (skip_blanks i blanks _ _ l0 p0 eq_refl R0 Hblank Hqnb eq_refl eq_refl)
    as (pa & Hscan0 & Ra & Ta & Tya & Ba & La).
  destruct (start_quote i l0 pa q _ Hq eq_refl Ra Ta)
    as (pb & Hscan1 & Rb & Tb & Tyb & Lb).
  destruct (scan_quoted_body i q [] Hq body _ pb false
              (mk_locals State_QuotedString State_Start q) eq_refl eq_refl Rb Tb Hbody)
    as (pc & aq & lc & Hscan2 & Hlc & Hlcq & Hlcs & _ & Rc & Tc & Tyc & Lc);
    [discriminate|].
  destruct (read_next i pc _ Rc) as (pd & Ed & Rd & Td & Tyd & Bd & _).
  pose proof (read_line i pc _ pd Ed) as Ld.
  cbn [hd tl line_after] in Ed, Ld.
  change (kEOF =? LF) with false in Ld.
  assert (Hstep : step i lc kEOF pd = error pd "unterminated quoted string").
  { unfold step. rewrite Hlc. destruct aq; [|reflexivity].
    rewrite Hlcq. destruct Hq; subst q; reflexivity. }
  set (k := (skipped blanks + S (String.length body + 1))%nat).
  assert (Hk : (k <= fuel)%nat).
  { subst k. unfold skipped. destruct blanks; cbn [List.length] in *; lia. }
  replace fuel with (k + (fuel - k))%nat by lia.
  apply scan_throws_more. unfold get_next_token. fold p0. fold l0. subst k.
  rewrite Hscan0, Hscan1. cbn [start l0] in Hscan2. rewrite Hscan2.
  cbn [scan]. rewrite Ed, Hstep. unfold error.
  rewrite Ld, Lc, Lb, La. cbn [p0 m_line_nr]. now rewrite line_after_app.
Qed.

Lemma unterminated_quoted_string_witness :
  get_next_token V2 10
    (mk_parser (bytes "'abc'") [10] "x" CIFValue_Unknown 1 false) =
    Throws (parse_error 2 "unterminated quoted string").
Proof.
  apply (unterminated_quoted_string V2 39 [10] "abc'" 10
           (mk_parser (bytes "'abc'") [10] "x" CIFValue_Unknown 1 false)
           (or_introl eq_refl) eq_refl eq_refl eq_refl eq_refl).
  cbn. lia.
Defined.

Lemma substr_strip3 v x y z :
  ItemValue.strlen v + 3 < 2 ^ 64 ->
  substr (String x (push_back (push_back v y) z)) 1
         (ItemValue.strlen (String x (push_back (push_back v y) z)) - 3) = v.
Proof.
  intro Hlen. unfold substr, ItemValue.strlen in *.
  cbn [String.length]. rewrite !length_push_back.
  replace (Z.of_nat (S (S (S (String.length v)))) - 3) with (Z.of_nat (String.length v)) by lia.
  rewrite Z.mod_small by lia.
  rewrite Z.min_l by lia.
  rewrite Nat2Z.id. change (Z.to_nat 1) with 1%nat. cbn [substring].
  unfold push_back.
  replace ((v ++ String y "") ++ String z "") with (v ++ String y (String z "")).
  - apply substring_0_app.
  - clear. induction v; cbn; congruence.
Qed.

(** Inside a text field, in [State::TextField] or, at the beginning of a
    line, in [State::TextField + 1]. *)
Lemma scan_text_field i rest : forall b pre p (bol : bool) l,
  state l = (if bol then State_TextField_1 else State_TextField) ->
  reads p (bytes b ++ 10 :: 59 :: rest) ->
  mTokenValue p = String ";" pre ->
  text_field_body bol b = true ->
  ItemValue.strlen (pre ++ b) + 3 < 2 ^ 64 ->
  exists p',
    scan i (String.length b + 2) l p = Returns (CIFToken_Value, p') /\
    mTokenType p' = CIFValue_TextField /\ mTokenValue p' = pre ++ b /\
    parser_ok p' = true.
Proof.
  induction b as [|a b IH]; intros pre p bol l Hst Hr Htok Hbody Hlen.
  - cbn [bytes app] in Hr. cbn [String.length Nat.add scan].
    destruct (read_next i p _ Hr) as (p1 & E1 & R1 & T1 & Ty1 & B1 & _).
    cbn [hd tl] in E1, R1, T1. rewrite E1.
    assert (Hstep : exists l1, step i l 10 p1 = Ok (Continue l1, p1) /\
                      state l1 = State_TextField_1).
    { unfold step. rewrite Hst. destruct bol; cbn; eauto. }
    destruct Hstep as (l1 & -> & Hl1).
    destruct (read_next i p1 _ R1) as (p2 & E2 & R2 & T2 & Ty2 & B2 & _).
    cbn [hd tl] in E2, R2, T2. rewrite E2.
    unfold step. rewrite Hl1.
    change (is_text_lead 59) with false.
    change (59 =? char_code " ") with false.
    change (59 =? 9) with false.
    change (59 =? char_code ";") with true.
    cbn [orb].
    eexists. split; [reflexivity|]. cbn [set_type set_token mTokenType mTokenValue].
    split; [reflexivity|].
    rewrite T2, T1, Htok, append_empty_r in *.
    rewrite !token_char_plain by lia.
    change (push_back (push_back (String ";" pre) (char_of_int 10)) (char_of_int 59))
      with (String ";" (push_back (push_back pre (char_of_int 10)) (char_of_int 59))).
    rewrite (substr_strip3 pre _ _ _ Hlen). split; [reflexivity|].
    destruct R2 as [R2 _]. apply parser_ok_parts in R2 as (Pb & Pd & Pt).
    apply parser_ok_parts. cbn [mData mBuffer mTokenValue set_token set_type].
    repeat split; auto.
    rewrite T2 in Pt.
    apply no_cr_pop in Pt as [Pt _]. apply no_cr_pop in Pt as [Pt _].
    cbn [no_cr] in Pt. now apply andb_prop in Pt as [_ Pt].
  - cbn [text_field_body] in Hbody.
    apply andb_prop in Hbody as [Hbody Hrest]. apply andb_prop in Hbody as [Hcr Hbol].
    apply negb_true_iff, Z.eqb_neq in Hcr.
    cbn [bytes app] in Hr. cbn [String.length Nat.add scan].
    destruct (read_next i p _ Hr) as (p1 & E1 & R1 & T1 & Ty1 & B1 & _).
    cbn [hd tl] in E1, R1, T1. rewrite token_char_byte, Htok in T1. rewrite E1.
    assert (Hstep : exists l1,
              step i l (to_int_type a) p1 = Ok (Continue l1, p1) /\
              state l1 = (if to_int_type a =? 10 then State_TextField_1
                          else State_TextField)).
    { unfold step. rewrite Hst.
      assert (Heof : (to_int_type a =? kEOF) = false).
      { apply Z.eqb_neq. unfold to_int_type, kEOF. lia. }
      destruct bol.
      - change (char_code " ") with 32. change (char_code ";") with 59.
        apply orb_prop in Hbol as [Hbol|Hlf].
        + assert (Hnl : (to_int_type a =? 10) = false).
          { apply orb_prop in Hbol as [Hl|Ht].
            - destruct (Z.eqb_spec (to_int_type a) 10) as [E|]; [|reflexivity].
              rewrite E in Hl. discriminate Hl.
            - apply Z.eqb_eq in Ht. now rewrite Ht. }
          rewrite Hnl.
          replace (is_text_lead (to_int_type a) || (to_int_type a =? 32) ||
                   (to_int_type a =? 9)) with true.
          * eexists. split; [reflexivity|reflexivity].
          * symmetry. apply orb_prop in Hbol as [Hx|Hx]; rewrite Hx; [reflexivity|].
            now rewrite !orb_true_r.
        + rewrite Hlf. apply Z.eqb_eq in Hlf. rewrite Hlf. cbn.
          eexists. split; [reflexivity|]. exact Hst.
      - unfold LF. destruct (to_int_type a =? 10) eqn:Hnl.
        + eexists. split; [reflexivity|reflexivity].
        + rewrite Heof. eexists. split; [reflexivity|]. exact Hst. }
    destruct Hstep as (l1 & -> & Hl1).
    destruct (IH (push_back pre a) p1 (to_int_type a =? 10) l1 Hl1 R1 T1 Hrest)
      as (p' & E & Ty' & T' & Ok').
    + now rewrite append_push_back.
    + exists p'. rewrite append_push_back in T'. auto.
Qed.

(** X6.  A text field, after blanks that end in a line feed and whatever
    the scanner pushed back before: a [;] at the beginning of a line opens
    it, the next line that begins with [;] closes it, and the token is a
    Value of type TextField whose text is what stands between them, line
    ends and inner white space included. *)
Theorem text_field_token (i : impl) (blanks : list Z) (body : string)
    (rest : list Z) (fuel : nat) (p : sac_parser)
    (Hok : parser_ok p = true)
    (Hread : to_read p = (blanks ++ 59 :: bytes body ++ 10 :: 59 :: rest)%list)
    (Hblank : forallb is_blank blanks = true)
    (Hbol : after_line_feed blanks = true)
    (Hbody : text_field_body false body = true)
    (Hlen : ItemValue.strlen body + 3 < 2 ^ 64)
    (Hfuel : (List.length blanks + String.length body + 4 <= fuel)%nat) :
  exists p',
    get_next_token i fuel p = Returns (CIFToken_Value, p') /\
    mTokenType p' = CIFValue_TextField /\ mTokenValue p' = body /\
    parser_ok p' = true.
Proof.
  set (l0 := mk_locals State_Start State_Start 0).
  set (p0 := mk_parser (mData p) (mBuffer p) "" CIFValue_Unknown (m_line_nr p) false).
  assert (R0 : reads p0 (blanks ++ 59 :: bytes body ++ 10 :: 59 :: rest)).
  { split.
    - apply parser_ok_parts in Hok as (? & ? & ?). apply parser_ok_parts. cbn. auto.
    - unfold to_read in *. cbn [p0 mData mBuffer]. exact Hread. }
  destruct (skip_blanks i blanks _ _ l0 p0 eq_refl R0 Hblank eq_refl eq_refl eq_refl)
    as (p2 & Hscan0 & R2 & T2 & Ty2 & B2 & L2).
  destruct (read_next i p2 _ R2) as (p3 & E & R3 & T3 & Ty3 & B3 & _).
  cbn [hd tl] in E, R3, T3. rewrite T2 in T3.
  rewrite token_char_plain in T3 by lia.
  destruct (scan_text_field i rest body "" p3 false
              (mk_locals State_TextField State_Start 0) eq_refl R3 T3 Hbody Hlen)
    as (p' & Es & Ty' & T' & Ok').
  exists p'. split; [|auto].
  unfold get_next_token. fold p0. fold l0.
  apply (scan_returns_more i (skipped blanks + S (String.length body + 2))).
  - unfold skipped. destruct blanks; cbn [List.length] in *; [discriminate Hbol|lia].
  - rewrite Hscan0. cbn [scan]. rewrite E.
    replace (step i l0 59 p3)
      with (@Ok (outcome * sac_parser)
              (Continue (mk_locals State_TextField State_Start 0), p3)); [exact Es|].
    unfold step. cbn [state l0]. rewrite B3, B2, Hbol. reflexivity.
Qed.

Lemma text_field_token_witness :
  exists p',
    get_next_token V2 20
      (mk_parser (bytes ";a b" ++ 10 :: bytes " c" ++ 10 :: bytes "; x")%list [10]
                 "x" CIFValue_Unknown 1 false) =
      Returns (CIFToken_Value, p') /\
    mTokenType p' = CIFValue_TextField /\
    mTokenValue p' = String "a" (String " " (String "b" (String "010" (String " " (String "c" ""))))) /\
    parser_ok p' = true.
Proof.
  assert (Hlen : ItemValue.strlen
            (String "a" (String " " (String "b" (String "010" (String " " (String "c" "")))))) + 3
            < 2 ^ 64) by (vm_compute; reflexivity).
  apply (text_field_token V2 [10]
           (String "a" (String " " (String "b" (String "010" (String " " (String "c" ""))))))
           (bytes " x") 20
           (mk_parser (bytes ";a b" ++ 10 :: bytes " c" ++ 10 :: bytes "; x")%list [10]
                      "x" CIFValue_Unknown 1 false)
           eq_refl eq_refl eq_refl eq_refl eq_refl Hlen).
  cbn. lia.
Defined.

Lemma ordinary_is_non_blank ch : is_ordinary ch = true -> is_non_blank ch = true.
Proof.
  intro H.
  assert (Hr : 32 <= ch <= 127).
  { unfold is_ordinary in H. apply andb_prop in H as [H _].
    apply andb_prop in H as [H1 H2]. apply Z.geb_le in H1. apply Z.leb_le in H2. lia. }
  assert (Hall : forallb (fun n => implb (is_ordinary (Z.of_nat n)) (is_non_blank (Z.of_nat n)))
                         (seq 32 96) = true) by (vm_compute; reflexivity).
  rewrite forallb_forall in Hall.
  specialize (Hall (Z.to_nat ch)). rewrite Z2Nat.id in Hall by lia.
  rewrite H in Hall. apply Hall. apply in_seq. lia.
Qed.

Lemma non_blank_char a :
  is_non_blank (int_of_char a) = true -> is_non_blank (to_int_type a) = true.
Proof.
  intro H. pose proof (is_non_blank_range _ H) as Hr.
  unfold int_of_char, to_int_type in *. cbv zeta in *.
  destruct (Z.ltb_spec (Z.of_N (N_of_ascii a)) 128); [assumption|].
  pose proof (N_ascii_bounded a). lia.
Qed.

Lemma non_blank_tail_all s : non_blank_tail s = true -> all_non_blank s = true.
Proof.
  induction s as [|a s IH]; [reflexivity|]. cbn. intro H.
  apply andb_prop in H as [Ha Hs]. now rewrite (non_blank_char a Ha), IH.
Qed.

(** An ordinary character is none that [State::Start] takes for the start
    of a comment, a tag, a string or a text field. *)
Lemma ordinary_lead ch :
  is_ordinary ch = true ->
  ((ch =? 35) || (ch =? 95) || (ch =? 39) || (ch =? 34) || (ch =? 59)) = false.
Proof.
  intro H.
  destruct (Z.eqb_spec ch 35) as [->|]; [discriminate H|].
  destruct (Z.eqb_spec ch 95) as [->|]; [discriminate H|].
  destruct (Z.eqb_spec ch 39) as [->|]; [discriminate H|].
  destruct (Z.eqb_spec ch 34) as [->|]; [discriminate H|].
  destruct (Z.eqb_spec ch 59) as [->|]; [discriminate H|].
  reflexivity.
Qed.

(** A string that [is_unquoted_string] accepts is not empty, has no blank
    in it and starts like a value. *)
Lemma is_unquoted_string_non_blank s :
  c_str s = s -> is_unquoted_string s = true ->
  all_non_blank s = true /\ forall bol, value_lead bol s = true.
Proof.
  intros Hc H. unfold is_unquoted_string in H. rewrite Hc in H.
  destruct s as [|a s]; [discriminate H|].
  destruct (is_ordinary (int_of_char a) && non_blank_tail s) eqn:E; [|discriminate H].
  apply andb_prop in E as [Ha Hs].
  pose proof (non_blank_char a (ordinary_is_non_blank _ Ha)) as Hnb.
  assert (Ei : int_of_char a = to_int_type a).
  { apply int_of_char_small. apply is_non_blank_range in Hnb. lia. }
  rewrite Ei in Ha. split.
  - cbn [all_non_blank]. rewrite Hnb. now apply non_blank_tail_all.
  - intro bol. cbn [value_lead]. cbv zeta. apply negb_true_iff.
    pose proof (ordinary_lead _ Ha) as Hl.
    repeat (apply orb_false_iff in Hl; destruct Hl as [Hl ?]).
    repeat (apply orb_false_iff; split); try assumption.
    apply andb_false_iff. now left.
Qed.

(** X7.  The serializer and the tokenizer agree: a value that passes
    [is_unquoted_string] and is written bare, after any blanks and
    whatever the scanner pushed back before, is read back as a Value with
    the same text, provided it holds none of the reserved words the
    scanner looks for, has no [#] right after a number, and is not the
    lone [?]. *)
Theorem bare_value_reads_back (i : impl) (blanks : list Z) (s : string)
    (rest : list Z) (fuel : nat) (p : sac_parser)
    (Hcstr : c_str s = s)
    (Hbare : is_unquoted_string s = true)
    (Hhash : hash_after_number "" s = false)
    (Hres : not_reserved i s = true)
    (Hq : s <> "?")
    (Hok : parser_ok p = true)
    (Hread : to_read p = (blanks ++ bytes s ++ rest)%list)
    (Hblank : forallb is_blank blanks = true)
    (Hend : lexeme_end s rest)
    (Hfuel : (List.length blanks + 3 * String.length s + 5 <= fuel)%nat) :
  exists p',
    get_next_token i fuel p = Returns (CIFToken_Value, p') /\
    mTokenValue p' = s /\ parser_ok p' = true.
Proof.
  destruct (is_unquoted_string_non_blank s Hcstr Hbare) as [Hnb Hlead].
  destruct (value_lexeme_token i blanks s rest fuel p Hok Hread Hblank
              (Hlead _) Hnb Hhash Hres Hend Hfuel)
    as (p' & E & _ & _ & T & _ & Ok').
  exists p'. split; [exact E|]. split; [now apply T|exact Ok'].
Qed.

Lemma bare_value_reads_back_witness :
  exists p',
    get_next_token V2 70
      (mk_parser (bytes "boo.data_.whatever x") [32] "x" CIFValue_Unknown 1 false) =
      Returns (CIFToken_Value, p') /\
    mTokenValue p' = "boo.data_.whatever" /\ parser_ok p' = true.
Proof.
  assert (Hq : "boo.data_.whatever" <> "?") by discriminate.
  assert (Hfuel : (List.length [32] + 3 * String.length "boo.data_.whatever" + 5 <= 70)%nat)
    by (cbn; lia).
  exact (bare_value_reads_back V2 [32] "boo.data_.whatever" (bytes " x") 70
           (mk_parser (bytes "boo.data_.whatever x") [32] "x" CIFValue_Unknown 1 false)
           eq_refl eq_refl eq_refl eq_refl Hq eq_refl eq_refl eq_refl
           (or_introl eq_refl) Hfuel).
Defined.

Lemma letter_facts c :
  is_letter c = true ->
  is_non_blank (to_int_type c) = true /\ to_int_type c <> 95 /\
  is_digit_or_sign (to_int_type c) = false /\
  forall bol, value_lead bol (String c "") = true.
Proof.
  destruct c as [[] [] [] [] [] [] [] []]; vm_compute; intro H;
    try discriminate H; repeat split; try discriminate; intros []; reflexivity.
Qed.

Lemma tolower_underscore c : tolower_char c = "_"%char -> c = "_"%char.
Proof.
  destruct c as [[] [] [] [] [] [] [] []]; vm_compute; intro H;
    try reflexivity; discriminate H.
Qed.

(** [State::Float] and [State::Int] at a character that is no digit and no
    sign: the scanner restarts at once. *)
Lemma restart_at_first i l p a s :
  (state l = State_Float /\ start l = State_Float) \/
  (state l = State_Int /\ start l = State_Int) ->
  reads p (to_int_type a :: s) -> mTokenValue p = "" ->
  is_non_blank (to_int_type a) = true ->
  is_digit_or_sign (to_int_type a) = false ->
  exists p',
    (forall n, scan i (S n) l p =
       scan i n (mk_locals (next_start (start l)) (next_start (start l)) (quoteChar l)) p') /\
    reads p' (to_int_type a :: s) /\ mTokenValue p' = "" /\
    mTokenType p' = mTokenType p /\ m_bol p' = false.
Proof.
  intros Hl Hr Ht Ha Hd.
  destruct (read_next i p _ Hr) as (p1 & E & R1 & T1 & Ty1 & B1 & C1 & C2).
  cbn [hd tl] in E.
  assert (Hs : match start l with
               | State_Start | State_Float | State_Int => True
               | _ => False
               end) by (destruct Hl as [[_ ->]|[_ ->]]; exact I).
  destruct (restart_word i l p _ "" Hr Ht eq_refl p1 E Hs)
    as (st' & p' & Er & Hst' & R & T & Ty & B).
  cbn [bytes app] in R. rewrite (handed_back_byte i a s Ha) in R.
  exists p'. split; [|auto].
  intro n. cbn [scan]. rewrite E.
  replace (step i l (to_int_type a) p1) with (do_restart i l p1).
  - rewrite Er. subst st'. destruct Hl as [[_ ->]|[_ ->]]; reflexivity.
  - unfold is_digit_or_sign in Hd.
    apply orb_false_iff in Hd as [Hd H45]. apply orb_false_iff in Hd as [Hd H43].
    unfold step. destruct Hl as [[-> _]|[-> _]]; cbn [char_code];
      change (int_of_char "-") with 45; change (int_of_char "+") with 43;
      now rewrite Hd, H43, H45.
Qed.

(** The letters of a word in [State::Value]. *)
Lemma value_letters i l : forall w p d,
  state l = State_Value ->
  reads p (bytes w ++ d) -> all_letters w = true ->
  exists p',
    (forall n, scan i (String.length w + n) l p = scan i n l p') /\
    reads p' d /\ mTokenValue p' = mTokenValue p ++ w /\
    mTokenType p' = mTokenType p.
Proof.
  induction w as [|a w IH]; intros p d Hl Hr Hw.
  - exists p. rewrite append_empty_r. cbn [bytes app] in Hr. auto.
  - cbn [all_letters] in Hw. apply andb_prop in Hw as [Ha Hw].
    destruct (letter_facts a Ha) as (Hnb & H95 & _).
    destruct (read_next i p _ Hr) as (p1 & E & R1 & T1 & Ty1 & B1 & C1 & C2).
    cbn [bytes app hd tl] in E, R1, T1. rewrite token_char_byte in T1.
    destruct (IH p1 d Hl R1 Hw) as (p' & Hscan & R' & T' & Ty').
    exists p'. split; [|split; [exact R'|split]].
    + intro n. cbn [String.length Nat.add scan]. rewrite E.
      replace (step i l (to_int_type a) p1) with (@Ok (outcome * sac_parser) (Continue l, p1));
        [apply Hscan|].
      unfold step. rewrite Hl.
      assert (E95 : (to_int_type a =? char_code "_") = false)
        by (apply Z.eqb_neq; exact H95).
      destruct i; [unfold value_state_V2|unfold value_state_V1];
        rewrite E95, Hnb; reflexivity.
    + rewrite T', T1. apply append_push_back.
    + congruence.
Qed.

(** A word that begins with a letter, goes on with letters and ends in an
    underscore, read from [State::Start]: the scanner is in [State::Value]
    and has just read the underscore. *)
Lemma scan_word i a w p d :
  reads p (bytes (String a w ++ "_") ++ d) ->
  mTokenValue p = "" ->
  is_letter a = true -> all_letters w = true ->
  exists p1,
    (forall n, scan i (5 + String.length w + n) (mk_locals State_Start State_Start 0) p =
       match step i (mk_locals State_Value State_Value 0) 95 p1 with
       | Err e => Throws e
       | Ok (Done t, q) => Returns (t, q)
       | Ok (Continue l', q) => scan i n l' q
       end) /\
    reads p1 d /\ mTokenValue p1 = String a w ++ "_" /\
    mTokenType p1 = mTokenType p.
Proof.
  intros Hr Ht Ha Hw.
  destruct (letter_facts a Ha) as (Hnb & H95 & Hnum & Hlead).
  assert (Hd' : (bytes (String a w ++ "_") ++ d)%list =
                (to_int_type a :: bytes w ++ 95 :: d)%list).
  { cbn [append bytes app]. f_equal. rewrite bytes_app, <- app_assoc. reflexivity. }
  rewrite Hd' in Hr.
  destruct (start_value i (mk_locals State_Start State_Start 0) p a _ (m_bol p)
              eq_refl eq_refl Hr Ht eq_refl Hnb (Hlead _))
    as (p2 & Hscan1 & R2 & T2 & Ty2 & B2).
  destruct (restart_at_first i (mk_locals State_Float State_Float 0) p2 a _
              (or_introl (conj eq_refl eq_refl)) R2 T2 Hnb Hnum)
    as (p3 & Hscan2 & R3 & T3 & Ty3 & B3).
  destruct (restart_at_first i (mk_locals State_Int State_Int 0) p3 a _
              (or_intror (conj eq_refl eq_refl)) R3 T3 Hnb Hnum)
    as (p4 & Hscan3 & R4 & T4 & Ty4 & B4).
  cbn [start quoteChar next_start] in Hscan2, Hscan3.
  change (to_int_type a :: bytes w ++ 95 :: d)%list
    with (bytes (String a w) ++ 95 :: d)%list in R4.
  assert (Hall : all_letters (String a w) = true) by (cbn [all_letters]; now rewrite Ha, Hw).
  destruct (value_letters i (mk_locals State_Value State_Value 0) (String a w) p4 _
              eq_refl R4 Hall) as (p5 & Hscan4 & R5 & T5 & Ty5).
  destruct (read_next i p5 _ R5) as (p6 & E & R6 & T6 & Ty6 & B6 & _).
  cbn [hd tl] in E, R6, T6.
  exists p6. split; [|split; [exact R6|split]].
  - intro n.
    replace (5 + String.length w + n)%nat
      with (S (S (S (String.length (String a w) + S n)))) by (cbn [String.length]; lia).
    cbn [quoteChar] in Hscan1.
    rewrite Hscan1, Hscan2, Hscan3, Hscan4. cbn [scan]. now rewrite E.
  - rewrite T6, T5, T4. rewrite token_char_plain by lia. reflexivity.
  - congruence.
Qed.

(** [State::DATA] and [State::SAVE]: the characters of the name are
    collected, and the five characters of the prefix are erased from the
    token. *)
Lemma scan_heading i l t rest : forall d pre p,
  (state l = State_DATA /\ t = CIFToken_DATA) \/
  (state l = State_SAVE /\ t = CIFToken_SAVE) ->
  reads p (bytes d ++ rest) -> mTokenValue p = pre ->
  all_non_blank d = true -> terminated rest ->
  exists p',
    scan i (S (String.length d)) l p = Returns (t, p') /\
    mTokenValue p' = erase_front 5 (pre ++ d) /\ parser_ok p' = true.
Proof.
  induction d as [|a d IH]; intros pre p Hl Hr Hpre Hnb Hterm.
  - cbn [bytes app] in Hr. rewrite append_empty_r.
    destruct (read_next i p _ Hr) as (p1 & E & R1 & T1 & Ty1 & B1 & C1 & C2).
    pose proof (terminated_char _ Hterm) as Hch.
    destruct (retract_reads i p1 _ _ _ R1 T1) as (R2 & T2 & Ty2 & B2 & L2).
    cbn [String.length scan]. rewrite E. unfold step.
    assert (Hok : parser_ok (set_token (retract i p1)
                    (erase_front 5 (mTokenValue (retract i p1)))) = true).
    { destruct R2 as [R2 _]. apply parser_ok_parts in R2 as (? & ? & ?).
      apply parser_ok_parts. cbn [set_token mData mBuffer mTokenValue].
      repeat split; auto. now apply no_cr_erase_front. }
    destruct Hl as [[Hl ->]|[Hl ->]]; rewrite Hl, Hch; cbn [negb];
      (eexists; split; [reflexivity|]); (split; [|exact Hok]);
      cbn [mTokenValue set_token]; now rewrite T2, Hpre.
  - cbn [all_non_blank] in Hnb. apply andb_prop in Hnb as [Ha Hnb].
    destruct (read_next i p _ Hr) as (p1 & E & R1 & T1 & Ty1 & B1 & C1 & C2).
    cbn [bytes app hd tl] in E, R1, T1. rewrite token_char_byte, Hpre in T1.
    destruct (IH (push_back pre a) p1 Hl R1 T1 Hnb Hterm) as (p' & Es & T' & Ok').
    exists p'. cbn [String.length scan]. rewrite E.
    replace (step i l (to_int_type a) p1) with (@Ok (outcome * sac_parser) (Continue l, p1)).
    + rewrite append_push_back in T'. auto.
    + unfold step. destruct Hl as [[Hl _]|[Hl _]]; rewrite Hl, Ha; reflexivity.
Qed.

Lemma heading_shape w t :
  heading_token (to_lower_copy w) = Some t ->
  exists a w', w = String a w' ++ "_" /\ is_letter a = true /\
    all_letters w' = true /\ String.length w = 5%nat.
Proof.
  unfold heading_token.
  destruct (String.eqb_spec (to_lower_copy w) "data_") as [E|_];
    [|destruct (String.eqb_spec (to_lower_copy w) "save_") as [E|_]; [|discriminate]];
    intros _;
    destruct w as [|c1 [|c2 [|c3 [|c4 [|c5 [|c6 w]]]]]]; try discriminate E;
    cbn [to_lower_copy] in E; injection E as E1 E2 E3 E4 E5;
    apply tolower_underscore in E5; subst c5;
    exists c1, (String c2 (String c3 (String c4 "")));
    (split; [reflexivity|]);
    unfold is_letter; cbn [all_letters]; unfold is_letter;
    rewrite E1, E2, E3, E4; repeat split; reflexivity.
Qed.

(** The scanner in [State::Start] before the blanks and the word. *)
Lemma start_word i blanks a w d p :
  parser_ok p = true ->
  to_read p = (blanks ++ bytes (String a w ++ "_") ++ d)%list ->
  forallb is_blank blanks = true ->
  is_letter a = true -> all_letters w = true ->
  exists p1,
    (forall n, get_next_token i (skipped blanks + (5 + String.length w + n)) p =
       match step i (mk_locals State_Value State_Value 0) 95 p1 with
       | Err e => Throws e
       | Ok (Done t, q) => Returns (t, q)
       | Ok (Continue l', q) => scan i n l' q
       end) /\
    reads p1 d /\ mTokenValue p1 = String a w ++ "_" /\
    mTokenType p1 = CIFValue_Unknown.
Proof.
  intros Hok Hread Hblank Ha Hw.
  destruct (letter_facts a Ha) as (Hnb & _).
  set (l0 := mk_locals State_Start State_Start 0).
  set (p0 := mk_parser (mData p) (mBuffer p) "" CIFValue_Unknown (m_line_nr p) false).
  assert (R0 : reads p0 (blanks ++ to_int_type a :: bytes (w ++ "_") ++ d)).
  { split.
    - apply parser_ok_parts in Hok as (? & ? & ?). apply parser_ok_parts. cbn. auto.
    - unfold to_read in *. cbn [p0 mData mBuffer]. exact Hread. }
  destruct (skip_blanks i blanks _ _ l0 p0 eq_refl R0 Hblank Hnb eq_refl eq_refl)
    as (p2 & Hscan0 & R2 & T2 & Ty2 & B2 & L2).
  destruct (scan_word i a w p2 d R2 T2 Ha Hw) as (p1 & Hscan1 & R1 & T1 & Ty1).
  exists p1. split; [|split; [exact R1|split; [exact T1|]]].
  - intro n. unfold get_next_token. fold p0. fold l0.
    rewrite Hscan0. apply Hscan1.
  - rewrite Ty1, Ty2. reflexivity.
Qed.

(** X8.  The word [data_] or [save_], in any case, with a name of
    non-blank characters right after it, after any blanks and whatever the
    scanner pushed back before, is the token DATA or SAVE, and the token
    text is the name alone, in the case it was written; the name may be
    empty. *)
Theorem heading_word_token (i : impl) (blanks : list Z) (w name : string)
    (t : CIFToken) (rest : list Z) (fuel : nat) (p : sac_parser)
    (Hok : parser_ok p = true)
    (Hread : to_read p = (blanks ++ bytes (w ++ name) ++ rest)%list)
    (Hblank : forallb is_blank blanks = true)
    (Hword : heading_token (to_lower_copy w) = Some t)
    (Hname : all_non_blank name = true)
    (Hterm : terminated rest)
    (Hfuel : (List.length blanks + String.length name + 10 <= fuel)%nat) :
  exists p',
    get_next_token i fuel p = Returns (t, p') /\
    mTokenValue p' = name /\ parser_ok p' = true.
Proof.
  destruct (heading_shape w t Hword) as (a & w' & -> & Ha & Hw' & Hlen).
  assert (Hl3 : String.length w' = 3%nat).
  { cbn [String.length append] in Hlen.
    assert (L : forall s, String.length (s ++ "_") = S (String.length s)).
    { clear. induction s; cbn; congruence. }
    rewrite L in Hlen. lia. }
  assert (Hread' : to_read p =
            (blanks ++ bytes (String a w' ++ "_") ++ bytes name ++ rest)%list).
  { rewrite Hread, bytes_app, <- app_assoc. reflexivity. }
  destruct (start_word i blanks a w' _ p Hok Hread' Hblank Ha Hw')
    as (p1 & Hscan & R1 & T1 & Ty1).
  set (l1 := if String.eqb (to_lower_copy (String a w' ++ "_")) "data_"
             then State_DATA else State_SAVE).
  assert (Hstep : step i (mk_locals State_Value State_Value 0) 95 p1 =
                  Ok (Continue (mk_locals l1 State_Value 0), p1)).
  { unfold step. cbn [state]. unfold heading_token in Hword. subst l1.
    destruct i; [unfold value_state_V2|unfold value_state_V1];
      rewrite T1; change (95 =? char_code "_") with true; cbv iota.
    - destruct (String.eqb_spec (to_lower_copy (String a w' ++ "_")) "data_") as [E|E].
      + rewrite E. reflexivity.
      + destruct (String.eqb_spec (to_lower_copy (String a w' ++ "_")) "save_") as [E'|E'];
          [|discriminate Hword]. rewrite E'. reflexivity.
    - destruct (String.eqb_spec (to_lower_copy (String a w' ++ "_")) "data_") as [E|E].
      + reflexivity.
      + destruct (String.eqb_spec (to_lower_copy (String a w' ++ "_")) "save_") as [E'|E'];
          [|discriminate Hword]. reflexivity. }
  assert (Hl : (state (mk_locals l1 State_Value 0) = State_DATA /\ t = CIFToken_DATA) \/
               (state (mk_locals l1 State_Value 0) = State_SAVE /\ t = CIFToken_SAVE)).
  { cbn [state]. subst l1. unfold heading_token in Hword.
    destruct (String.eqb (to_lower_copy (String a w' ++ "_")) "data_").
    - left. split; [reflexivity|]. now injection Hword.
    - destruct (String.eqb (to_lower_copy (String a w' ++ "_")) "save_");
        [|discriminate Hword]. right. split; [reflexivity|]. now injection Hword. }
  destruct (scan_heading i (mk_locals l1 State_Value 0) t rest name _ p1
              Hl R1 T1 Hname Hterm) as (p' & E & T & Ok').
  exists p'. split; [|split; [|exact Ok']].
  - set (k := (skipped blanks + (5 + String.length w' + S (String.length name)))%nat).
    assert (Hk : (k <= fuel)%nat).
    { subst k. unfold skipped. destruct blanks; cbn [List.length] in *; lia. }
    replace fuel with (k + (fuel - k))%nat by lia.
    apply scan_fuel_mono. subst k. unfold get_next_token in Hscan.
    unfold get_next_token. rewrite Hscan, Hstep. exact E.
  - rewrite T. clear - Hlen.
    destruct (String a w' ++ "_") as [|c1 [|c2 [|c3 [|c4 [|c5 [|c6 s]]]]]];
      try discriminate Hlen. reflexivity.
Qed.

Lemma heading_word_token_witness :
  exists p',
    get_next_token V2 20
      (mk_parser (bytes "DATA_1abc x") [10] "x" CIFValue_Unknown 1 false) =
      Returns (CIFToken_DATA, p') /\
    mTokenValue p' = "1abc" /\ parser_ok p' = true.
Proof.
  assert (Hfuel : (List.length [10] + String.length "1abc" + 10 <= 20)%nat) by (cbn; lia).
  exact (heading_word_token V2 [10] "DATA_" "1abc" CIFToken_DATA (bytes " x") 20
           (mk_parser (bytes "DATA_1abc x") [10] "x" CIFValue_Unknown 1 false)
           eq_refl eq_refl eq_refl eq_refl eq_refl eq_refl Hfuel).
Defined.

Lemma keyword_shape w t :
  keyword_token (to_lower_copy w) = Some t ->
  exists a w', w = String a w' ++ "_" /\ is_letter a = true /\
    all_letters w' = true /\ (String.length w' <= 5)%nat.
Proof.
  unfold keyword_token.
  destruct (String.eqb_spec (to_lower_copy w) "global_") as [E|_].
  - intros _.
    destruct w as [|c1 [|c2 [|c3 [|c4 [|c5 [|c6 [|c7 [|c8 w]]]]]]]]; try discriminate E.
    cbn [to_lower_copy] in E. injection E as E1 E2 E3 E4 E5 E6 E7.
    apply tolower_underscore in E7. subst c7.
    exists c1, (String c2 (String c3 (String c4 (String c5 (String c6 ""))))).
    split; [reflexivity|].
    unfold is_letter; cbn [all_letters]; unfold is_letter.
    rewrite E1, E2, E3, E4, E5, E6. repeat split; cbn; lia.
  - destruct (String.eqb_spec (to_lower_copy w) "stop_") as [E|_];
      [|destruct (String.eqb_spec (to_lower_copy w) "loop_") as [E|_]; [|discriminate]];
      intros _;
      destruct w as [|c1 [|c2 [|c3 [|c4 [|c5 [|c6 w]]]]]]; try discriminate E;
      cbn [to_lower_copy] in E; injection E as E1 E2 E3 E4 E5;
      apply tolower_underscore in E5; subst c5;
      exists c1, (String c2 (String c3 (String c4 "")));
      (split; [reflexivity|]);
      unfold is_letter; cbn [all_letters]; unfold is_letter;
      rewrite E1, E2, E3, E4; repeat split; cbn; lia.
Qed.

Lemma to_lower_iequals_eq a b : to_lower_copy a = to_lower_copy b -> iequals a b = true.
Proof.
  revert b. induction a as [|x a IH]; intros [|y b] H; cbn in *;
    try discriminate; [reflexivity|].
  injection H as H1 H2. rewrite H1, Ascii.eqb_refl. now apply IH.
Qed.

(** X9.  The words [loop_], [stop_] and [global_], in any case, after any
    blanks and whatever the scanner pushed back before, are the tokens
    LOOP, STOP and GLOBAL, and the token text is the word as written. The
    parser of include/cif++/v2/parser.hpp cuts the word off at its
    underscore, whatever follows, and leaves the rest of the input unread;
    the parser of src/parser.cpp needs the word to end there. *)
Theorem keyword_word_token (i : impl) (blanks : list Z) (w : string)
    (t : CIFToken) (rest : list Z) (fuel : nat) (p : sac_parser)
    (Hok : parser_ok p = true)
    (Hread : to_read p = (blanks ++ bytes w ++ rest)%list)
    (Hblank : forallb is_blank blanks = true)
    (Hword : keyword_token (to_lower_copy w) = Some t)
    (Hterm : i = V1 -> terminated rest)
    (Hfuel : (List.length blanks + 13 <= fuel)%nat) :
  exists p',
    get_next_token i fuel p = Returns (t, p') /\
    mTokenValue p' = w /\ parser_ok p' = true /\
    (i = V2 -> to_read p' = rest).
Proof.
  destruct (keyword_shape w t Hword) as (a & w' & -> & Ha & Hw' & Hlen).
  destruct (start_word i blanks a w' _ p Hok Hread Hblank Ha Hw')
    as (p1 & Hscan & R1 & T1 & Ty1).
  specialize (Hscan 1%nat).
  set (k := (skipped blanks + (5 + String.length w' + 1))%nat) in *.
  assert (Hk : (k <= fuel)%nat).
  { subst k. unfold skipped. destruct blanks; cbn [List.length] in *; lia. }
  assert (Hfu : fuel = (k + (fuel - k))%nat) by lia.
  unfold keyword_token in Hword.
  destruct i.
  - (* the word is cut off at the underscore *)
    assert (Hstep : step V2 (mk_locals State_Value State_Value 0) 95 p1 =
                    Ok (Done t, p1)).
    { unfold step. cbn [state]. unfold value_state_V2. rewrite T1.
      change (95 =? char_code "_") with true. cbv iota.
      destruct (String.eqb (to_lower_copy (String a w' ++ "_")) "global_");
        [now injection Hword as <-|].
      destruct (String.eqb (to_lower_copy (String a w' ++ "_")) "stop_");
        [now injection Hword as <-|].
      destruct (String.eqb (to_lower_copy (String a w' ++ "_")) "loop_");
        [now injection Hword as <-|discriminate Hword]. }
    rewrite Hstep in Hscan.
    exists p1. split; [rewrite Hfu; apply scan_fuel_mono; exact Hscan|].
    split; [exact T1|]. split; [apply R1|]. intros _. apply R1.
  - (* the word ends at a terminator *)
    specialize (Hterm eq_refl).
    assert (Hnot : String.eqb (to_lower_copy (String a w' ++ "_")) "data_" = false /\
                   String.eqb (to_lower_copy (String a w' ++ "_")) "save_" = false).
    { destruct (String.eqb_spec (to_lower_copy (String a w' ++ "_")) "global_") as [E|_];
        [rewrite E; now split|].
      destruct (String.eqb_spec (to_lower_copy (String a w' ++ "_")) "stop_") as [E|_];
        [rewrite E; now split|].
      destruct (String.eqb_spec (to_lower_copy (String a w' ++ "_")) "loop_") as [E|_];
        [rewrite E; now split|discriminate Hword]. }
    destruct Hnot as [N1 N2].
    assert (Hstep : step V1 (mk_locals State_Value State_Value 0) 95 p1 =
                    Ok (Continue (mk_locals State_Value State_Value 0), p1)).
    { unfold step. cbn [state]. unfold value_state_V1. rewrite T1.
      change (95 =? char_code "_") with true. cbv iota. rewrite N1, N2.
      reflexivity. }
    rewrite Hstep in Hscan. cbn [scan] in Hscan.
    destruct (read_next V1 p1 _ R1) as (p2 & E & R2 & T2 & Ty2 & B2 & _).
    pose proof (terminated_char _ Hterm) as Hch.
    destruct (retract_reads V1 p2 _ _ _ R2 T2) as (R3 & T3 & Ty3 & B3 & L3).
    rewrite E in Hscan.
    assert (Hus : (hd kEOF rest =? char_code "_") = false).
    { destruct (Z.eqb_spec (hd kEOF rest) (char_code "_")) as [Eu|]; [|reflexivity].
      rewrite Eu in Hch. discriminate Hch. }
    assert (Hdot : String.eqb (String a w' ++ "_") "." = false).
    { cbn [append String.eqb]. destruct (Ascii.eqb a "."); [|reflexivity].
      destruct w'; reflexivity. }
    assert (Ieq : forall r, to_lower_copy r = r ->
              iequals (String a w' ++ "_") r =
              String.eqb (to_lower_copy (String a w' ++ "_")) r).
    { intros r Hr. destruct (String.eqb_spec (to_lower_copy (String a w' ++ "_")) r) as [E1|E1].
      - apply to_lower_iequals_eq. now rewrite Hr.
      - destruct (iequals (String a w' ++ "_") r) eqn:E2; [|reflexivity].
        apply iequals_to_lower in E2. rewrite Hr in E2. contradiction. }
    assert (Hstep2 : step V1 (mk_locals State_Value State_Value 0) (hd kEOF rest) p2 =
                     Ok (Done t, retract V1 p2)).
    { unfold step. cbn [state]. unfold value_state_V1.
      rewrite Hus, Hch. cbn [negb]. rewrite T3, T1, Hdot.
      rewrite !Ieq by reflexivity.
      destruct (String.eqb (to_lower_copy (String a w' ++ "_")) "global_");
        [now injection Hword as <-|].
      destruct (String.eqb (to_lower_copy (String a w' ++ "_")) "stop_");
        [now injection Hword as <-|].
      destruct (String.eqb (to_lower_copy (String a w' ++ "_")) "loop_");
        [now injection Hword as <-|discriminate Hword]. }
    rewrite Hstep2 in Hscan.
    exists (retract V1 p2). split; [rewrite Hfu; apply scan_fuel_mono; exact Hscan|].
    split; [congruence|]. split; [apply R3|]. discriminate.
Qed.

Lemma keyword_word_token_witness :
  exists p',
    get_next_token V2 15
      (mk_parser (bytes "Loop_x") [32] "x" CIFValue_Unknown 1 false) =
      Returns (CIFToken_LOOP, p') /\
    mTokenValue p' = "Loop_" /\ to_read p' = bytes "x".
Proof.
  assert (Hterm : V2 = V1 -> terminated (bytes "x")) by discriminate.
  assert (Hfuel : (List.length [32] + 13 <= 15)%nat) by (cbn; lia).
  destruct (keyword_word_token V2 [32] "Loop_" CIFToken_LOOP (bytes "x") 15
              (mk_parser (bytes "Loop_x") [32] "x" CIFValue_Unknown 1 false)
              eq_refl eq_refl eq_refl eq_refl Hterm Hfuel)
    as (p' & E & T & _ & D).
  exists p'. split; [exact E|]. split; [exact T|]. exact (D eq_refl).
Defined.

(** Reading one character keeps two parsers together. *)
Lemma get_next_char_same i p q :
  same_text p q ->
  fst (get_next_char i p) = fst (get_next_char i q) /\
  same_text (snd (get_next_char i p)) (snd (get_next_char i q)).
Proof.
  intros (Ht & Hty & Hl & Hb & Hr & Hp & Hq).
  apply parser_ok_parts in Hp as (Pb & Pd & Pt).
  apply parser_ok_parts in Hq as (Qb & Qd & Qt).
  rewrite (get_next_char_read i p), (get_next_char_read i q). cbn [fst snd].
  destruct (read_char_next _ _ Pb Pd) as (P1 & P2 & P3 & P4 & P5 & P6).
  destruct (read_char_next _ _ Qb Qd) as (Q1 & Q2 & Q3 & Q4 & Q5 & Q6).
  unfold to_read in Hr.
  assert (E : fst (read_char (mBuffer p) (mData p)) =
              fst (read_char (mBuffer q) (mData q))).
  { rewrite P1, Q1. now rewrite Hr. }
  split; [exact E|].
  unfold same_text, to_read.
  cbn [mData mBuffer mTokenValue mTokenType m_line_nr m_bol].
  rewrite P2, Q2, Hr, Ht, Hty, Hl, Hb, E.
  repeat split.
  - apply parser_ok_parts. cbn [mData mBuffer mTokenValue].
    repeat split; try assumption.
    apply no_cr_push_back; [now rewrite <- Ht|].
    rewrite <- E. now apply token_char_no_cr.
  - apply parser_ok_parts. cbn [mData mBuffer mTokenValue].
    repeat split; try assumption.
    apply no_cr_push_back; [assumption|]. now apply token_char_no_cr.
Qed.

Lemma same_set_bol p q b : same_text p q -> same_text (set_bol p b) (set_bol q b).
Proof.
  intros (Ht & Hty & Hl & Hb & Hr & Hp & Hq). unfold same_text; repeat split; assumption.
Qed.

Lemma same_set_type p q t : same_text p q -> same_text (set_type p t) (set_type q t).
Proof.
  intros (Ht & Hty & Hl & Hb & Hr & Hp & Hq). unfold same_text; repeat split; assumption.
Qed.

Lemma same_set_token p q s :
  no_cr s = true -> same_text p q -> same_text (set_token p s) (set_token q s).
Proof.
  intros Hs (Ht & Hty & Hl & Hb & Hr & Hp & Hq).
  apply parser_ok_parts in Hp as (Pb & Pd & Pt).
  apply parser_ok_parts in Hq as (Qb & Qd & Qt).
  unfold same_text; repeat split; try assumption;
    apply parser_ok_parts; cbn; auto.
Qed.

Lemma same_token_ok p q : same_text p q -> no_cr (mTokenValue p) = true.
Proof. intros (_ & _ & _ & _ & _ & Hp & _). now apply parser_ok_parts in Hp. Qed.

Lemma same_retract i p q : same_text p q -> same_text (retract i p) (retract i q).
Proof.
  intros Hs. pose proof Hs as (Ht & Hty & Hl & Hb & Hr & Hp & Hq).
  apply parser_ok_parts in Hp as (Pb & Pd & Pt).
  apply parser_ok_parts in Hq as (Qb & Qd & Qt).
  unfold retract. rewrite <- Ht.
  destruct (back (mTokenValue p)) as [ch|] eqn:E; [|exact Hs].
  destruct (no_cr_back _ _ Pt E) as [Hch Hpop].
  set (pushed := match i with
                 | V2 => int_of_char ch
                 | V1 => if int_of_char ch =? 0 then kEOF else to_int_type ch
                 end).
  assert (Hpushed : is_pushed pushed = true /\ pushed <> CR).
  { pose proof (N_ascii_bounded ch) as B. unfold to_int_type in Hch.
    subst pushed. unfold is_pushed, int_of_char, to_int_type, kEOF, CR in *. cbv zeta.
    destruct i.
    - destruct (Z.ltb_spec (Z.of_N (N_of_ascii ch)) 128); split; lia.
    - destruct (Z.ltb_spec (Z.of_N (N_of_ascii ch)) 128);
        match goal with |- context [?a =? 0] => destruct (Z.eqb_spec a 0) end;
        split; lia. }
  destruct Hpushed as [Hpu Hcr].
  unfold same_text, to_read.
  cbn [mData mBuffer mTokenValue mTokenType m_line_nr m_bol app].
  rewrite !(translate_cons pushed _ Hcr), Hty, Hl, Hb.
  repeat split.
  - apply strip_eof_same. exact Hr.
  - apply parser_ok_parts. cbn [mData mBuffer mTokenValue].
    repeat split; auto using buffer_ok_push.
  - apply parser_ok_parts. cbn [mData mBuffer mTokenValue].
    repeat split; auto using buffer_ok_push.
Qed.

Lemma same_retract_n i n : forall p q,
  same_text p q -> same_text (retract_n i n p) (retract_n i n q).
Proof.
  induction n as [|n IH]; intros p q H; [exact H|].
  cbn [retract_n]. apply IH. now apply same_retract.
Qed.

Lemma same_retract_all i p q :
  same_text p q -> same_text (retract_all i p) (retract_all i q).
Proof.
  intro H. unfold retract_all.
  replace (mTokenValue q) with (mTokenValue p) by apply H.
  now apply same_retract_n.
Qed.

Lemma same_ok o p q : same_text p q -> same_step (Ok (o, p)) (Ok (o, q)).
Proof. intro H. split; [reflexivity|exact H]. Qed.

Lemma same_error p q msg :
  same_text p q -> same_step (error p msg) (error q msg).
Proof. intro H. unfold error. cbn. f_equal. apply H. Qed.

Lemma same_do_restart i l p q :
  same_text p q -> same_step (do_restart i l p) (do_restart i l q).
Proof.
  intro H. unfold do_restart, restart.
  pose proof (same_retract_all i p q H) as Hr.
  destruct (start l); cbn [bind fst snd];
    try (apply same_ok; now apply same_set_bol);
    now apply (same_error _ _ "Invalid state in SacParser").
Qed.

Lemma same_accept_number i t p q :
  same_text p q -> same_step (accept_number i t p) (accept_number i t q).
Proof.
  intro H. unfold accept_number. apply same_ok.
  apply same_set_type. now apply same_retract.
Qed.

Ltac token_ok :=
  match goal with
  | |- no_cr "" = true => reflexivity
  | |- no_cr (substr _ _ _) = true => apply no_cr_substr; token_ok
  | |- no_cr (erase_front _ _) = true => apply no_cr_erase_front; token_ok
  | |- no_cr (mTokenValue _) = true => eapply same_token_ok; eassumption
  end.

Ltac same_parsers :=
  repeat first
    [ eassumption
    | apply same_set_bol
    | apply same_set_type
    | apply same_set_token; [token_ok|]
    | apply same_retract ].

Ltac same_leaf :=
  first [ apply same_do_restart; assumption
        | apply same_accept_number; assumption
        | apply same_error; same_parsers
        | apply same_ok; same_parsers ].

Ltac split_ifs :=
  repeat match goal with
         | |- context [if ?c then _ else _] => destruct c
         end.

(** One turn of the loop of [get_next_token] keeps two parsers together. *)
Lemma step_same i l ch p q :
  same_text p q -> same_step (step i l ch p) (step i l ch q).
Proof.
  intro Hs.
  pose proof Hs as (Ht & _ & _ & Hb & _).
  unfold step.
  destruct (state l) eqn:El;
    (destruct i;
     [pose proof (same_retract V2 p q Hs) as Hs'
     |pose proof (same_retract V1 p q Hs) as Hs']);
    pose proof Hs' as (Ht' & _);
    try (unfold value_state_V2, value_state_V1);
    cbv zeta; cbn [set_type set_token set_bol mTokenValue];
    rewrite <- ?Hb, <- ?Ht, <- ?Ht';
    split_ifs; same_leaf.
Qed.

Lemma scan_same i fuel : forall l p q,
  same_text p q -> same_run (scan i fuel l p) (scan i fuel l q).
Proof.
  induction fuel as [|fuel IH]; intros l p q Hs; [exact I|].
  cbn [scan].
  destruct (get_next_char_same i p q Hs) as [Ech Hs1].
  destruct (get_next_char i p) as [ch p1], (get_next_char i q) as [ch' q1].
  cbn [fst snd] in Ech, Hs1. subst ch'.
  pose proof (step_same i l ch p1 q1 Hs1) as H.
  destruct (step i l ch p1) as [[[l1|t1] p2]|e1],
           (step i l ch q1) as [[[l2|t2] q2]|e2]; cbn in H;
    try contradiction.
  - destruct H as [E H]. injection E as <-. now apply IH.
  - destruct H as [E H]. discriminate E.
  - destruct H as [E H]. discriminate E.
  - destruct H as [E H]. injection E as <-. split; [reflexivity|exact H].
  - now subst.
Qed.

(** X10.  Line ends do not matter to the scanner: two parsers with the
    same token state whose unread input differs only in how the line ends
    are written (CR LF, CR or LF) get the same token with the same text,
    type and line number from [get_next_token], or the same error, and are
    such a pair again afterwards. *)
Theorem line_ends_same_token (i : impl) (fuel : nat) (p q : sac_parser)
    (Hsame : same_text p q) :
  same_run (get_next_token i fuel p) (get_next_token i fuel q).
Proof.
  unfold get_next_token. apply scan_same.
  destruct Hsame as (Ht & Hty & Hl & Hb & Hr & Hp & Hq).
  apply parser_ok_parts in Hp as (Pb & Pd & Pt).
  apply parser_ok_parts in Hq as (Qb & Qd & Qt).
  unfold same_text, to_read. cbn [mData mBuffer mTokenValue mTokenType m_line_nr m_bol].
  repeat split; try assumption; apply parser_ok_parts; cbn; auto.
Qed.

Lemma line_ends_same_token_witness :
  same_run
    (get_next_token V2 20 (parser_on [97; 98; 13; 10; 99]))
    (get_next_token V2 20 (parser_on [97; 98; 10; 99])).
Proof.
  assert (Hsame : same_text (parser_on [97; 98; 13; 10; 99]) (parser_on [97; 98; 10; 99])).
  { unfold same_text. split; [reflexivity|]. split; [reflexivity|].
    split; [reflexivity|]. split; [reflexivity|]. split; [reflexivity|].
    split; reflexivity. }
  exact (line_ends_same_token V2 20 _ _ Hsame).
Defined.

End TokenizerProofs.

(** ** Locating a datablock *)

Module LocateProofs.
Import Text Parser Locate.

Lemma locate_app dblk : forall pre v v' s,
  locate_over dblk v pre = Some v' ->
  locate dblk v (pre ++ s) = locate dblk v' s.
Proof.
  induction pre as [|ch pre IH]; intros v v' s H.
  - injection H as <-. reflexivity.
  - cbn [locate_over] in H. cbn [app locate].
    destruct (locate_body dblk v ch) as [[v1 []]|]; try discriminate H.
    now apply IH.
Qed.

Lemma get_app_right p : forall s k,
  k = String.length p -> String.get k (p ++ s) = String.get 0 s.
Proof.
  induction p as [|c p IH]; intros s k ->; [reflexivity|].
  cbn [String.length append String.get]. now apply IH.
Qed.

Lemma dblk_at_middle p c s :
  dblk_at (p ++ String c s) (String.length p) = Some (int_of_char c).
Proof. unfold dblk_at. now rewrite (get_app_right p (String c s) _ eq_refl). Qed.

Lemma length_append (a b : string) :
  String.length (a ++ b) = (String.length a + String.length b)%nat.
Proof. induction a as [|c a IH]; cbn; [reflexivity|]. now rewrite IH. Qed.

Lemma dblk_at_end dblk : dblk_at dblk (String.length dblk) = Some 0.
Proof.
  unfold dblk_at.
  assert (H : String.get (String.length dblk) dblk = None).
  { induction dblk as [|c d IH]; [reflexivity|]. exact IH. }
  now rewrite H, Nat.eqb_refl.
Qed.

(** In the state [data] the characters of the name are matched one by one. *)
Lemma locate_over_name : forall s p q b,
  ascii_name s = true ->
  exists b',
    locate_over (p ++ s) (mk_locate_vars st_data q b (String.length p)) (bytes s) =
      Some (mk_locate_vars st_data q b' (String.length (p ++ s))).
Proof.
  induction s as [|c s IH]; intros p q b Hs.
  - exists b. cbn [bytes locate_over]. rewrite length_append. cbn [String.length].
    now rewrite Nat.add_0_r.
  - unfold ascii_name in Hs. cbn [bytes forallb] in Hs.
    apply andb_prop in Hs as [Hc Hs]. apply Z.ltb_lt in Hc.
    assert (Hcc : int_of_char c = to_int_type c).
    { unfold int_of_char. fold (to_int_type c). cbv zeta.
      destruct (Z.ltb_spec (to_int_type c) 128); [reflexivity|lia]. }
    assert (Hp : (p ++ String c s) = ((p ++ String c "") ++ s)).
    { clear. induction p as [|x p IH]; [reflexivity|]. cbn. now rewrite IH. }
    destruct (IH (p ++ String c "") q (to_int_type c =? LF) Hs) as [b' E].
    exists b'. cbn [bytes locate_over]. unfold locate_body.
    cbn [l_state si quote]. rewrite dblk_at_middle, Hcc, Z.eqb_refl. cbn [negb].
    assert (Hsp : (isspace (to_int_type c) && (to_int_type c =? 0)) = false).
    { destruct (Z.eqb_spec (to_int_type c) 0) as [->|]; [reflexivity|apply andb_false_r]. }
    rewrite Hsp. rewrite Hp.
    replace (S (String.length p)) with (String.length (p ++ String c ""))
      by (rewrite length_append; cbn; lia).
    exact E.
Qed.

(** X11.  When the loop has run over what precedes without finding the
    datablock and is in the state [start], the text [data_] (or [Data_])
    with the name and a space character after it is found, also when it is
    the end of a longer word; the stream is then left one byte after that
    space character: the byte that follows the space is consumed as well. *)
Theorem locate_datablock_finds (datablock : string) (pre rest : list Z)
    (d ws : Z) (v : locate_vars)
    (Hpre : locate_over ("data_" ++ datablock) locate_init pre = Some v)
    (Hstart : l_state v = st_start)
    (Hd : d = 100 \/ d = 68)
    (Hname : ascii_name datablock = true)
    (Hws : isspace ws = true) :
  locate_datablock datablock
    (pre ++ d :: bytes ("ata_" ++ datablock) ++ ws :: rest) =
  Some (true, tl rest).
Proof.
  unfold locate_datablock. rewrite (locate_app _ pre _ v _ Hpre).
  cbn [locate].
  assert (Hfirst : locate_body ("data_" ++ datablock) v d =
            Some (mk_locate_vars st_data (quote v) (d =? LF) 1, false)).
  { unfold locate_body. rewrite Hstart. destruct Hd as [-> | ->]; reflexivity. }
  rewrite Hfirst.
  destruct (locate_over_name ("ata_" ++ datablock) "d" (quote v) (d =? LF)) as [b' E].
  { unfold ascii_name in *. cbn [append bytes forallb]. now rewrite Hname. }
  change ("d" ++ "ata_" ++ datablock) with ("data_" ++ datablock) in E.
  change (String.length "d") with 1%nat in E.
  rewrite (locate_app _ _ _ _ (ws :: rest) E).
  cbn [locate]. unfold locate_body. cbn [l_state si].
  rewrite dblk_at_end, Hws. reflexivity.
Qed.

Lemma locate_datablock_finds_witness :
  locate_datablock "1abc" (bytes "xdata_1abc" ++ 10 :: bytes "_entry.id 1abc")%list =
    Some (true, bytes "entry.id 1abc").
Proof.
  exact (locate_datablock_finds "1abc" (bytes "x") (bytes "_entry.id 1abc") 100 10
           (mk_locate_vars st_start 0 false 0) eq_refl eq_refl (or_introl eq_refl)
           eq_refl eq_refl).
Defined.

End LocateProofs.

(** ** The grammar *)

Module GrammarProofs.
Import Text Parser Grammar.

Lemma CIFToken_eqb_eq a b : CIFToken_eqb a b = true <-> a = b.
Proof. destruct a, b; cbn; split; intro H; try reflexivity; discriminate H. Qed.

Lemma CIFToken_eqb_refl a : CIFToken_eqb a a = true.
Proof. now apply CIFToken_eqb_eq. Qed.

Section Productions.

Variable i : impl.
Variable splitTagName : string -> result (string * string).
Variable token_fuel : nat.

(** One [match] that succeeds moves the lookahead to the next pending
    token. *)
Lemma match_pending g t s t1 s1 toks p_end :
  pending i token_fuel g ((t, s) :: (t1, s1) :: toks) p_end ->
  exists g',
    match_ i token_fuel t g = Returns g' /\ produced g' = produced g /\
    pending i token_fuel g' ((t1, s1) :: toks) p_end.
Proof.
  intros (Hl & _ & Hrun). cbn [token_run] in Hrun.
  unfold match_. rewrite Hl, CIFToken_eqb_refl. cbn [negb].
  destruct (get_next_token i token_fuel (lexer g)) as [[t' p']| |]; try discriminate Hrun.
  destruct (CIFToken_eqb t1 t' && String.eqb s1 (mTokenValue p')) eqn:E;
    [|discriminate Hrun].
  apply andb_prop in E as [E1 E2].
  apply CIFToken_eqb_eq in E1. apply String.eqb_eq in E2. subst.
  eexists. split; [reflexivity|]. cbn. auto.
Qed.

Lemma pending_produce e g toks p_end :
  pending i token_fuel g toks p_end -> pending i token_fuel (produce e g) toks p_end.
Proof. destruct toks as [|[t s] toks]; exact (fun H => H). Qed.

(** One row of a loop. *)
Lemma row_items_row cat : forall tags tag v row g t s toks p_end,
  List.length row = List.length tags ->
  pending i token_fuel g (values (v :: row) ++ (t, s) :: toks) p_end ->
  exists g',
    row_items i token_fuel cat (tag :: tags) g = Returns g' /\
    produced g' =
      (produced g ++
       map (fun tv => produceItem cat (fst tv) (snd tv))
           (combine (tag :: tags) (v :: row)))%list /\
    pending i token_fuel g' ((t, s) :: toks) p_end.
Proof.
  induction tags as [|tag2 tags IH]; intros tag v row g t s toks p_end Hlen Hp.
  - destruct row; [|discriminate Hlen]. cbn [values map app] in Hp.
    assert (Hv : mTokenValue (lexer g) = v) by apply Hp.
    destruct (match_pending (produce (produceItem cat tag v) g) _ _ _ _ _ _
                (pending_produce _ _ _ _ Hp)) as (g' & E & Hpr & Hp').
    exists g'. cbn [row_items]. rewrite Hv, E. cbn [run_bind].
    repeat split; [|apply Hp'..]. rewrite Hpr. reflexivity.
  - destruct row as [|v2 row]; [discriminate Hlen|]. cbn [values map app] in Hp.
    assert (Hv : mTokenValue (lexer g) = v) by apply Hp.
    destruct (match_pending (produce (produceItem cat tag v) g) _ _ _ _ _ _
                (pending_produce _ _ _ _ Hp)) as (g1 & E & Hpr & Hp1).
    destruct (IH tag2 v2 row g1 t s toks p_end) as (g' & E' & Hpr' & Hp').
    { cbn in Hlen. lia. }
    { exact Hp1. }
    exists g'. cbn [row_items]. rewrite Hv, E. cbn [run_bind].
    split; [exact E'|]. split; [|exact Hp'].
    rewrite Hpr', Hpr. cbn [produce produced combine map].
    now rewrite <- app_assoc.
Qed.

Lemma values_app a b : values (a ++ b) = (values a ++ values b)%list.
Proof. apply map_app. Qed.

(** X12.  The rows of a loop: when the lookahead and the tokens after it
    are the values of complete rows, one value for each tag, and then a
    token that is no value, the loop over the values ends at that token
    and has produced, row after row, a row and one item for each tag with
    the values in their order. *)
Theorem loop_rows_complete (cat : string) (tags : list string)
    (rows : list (list string)) (g : grammar) (t_end : CIFToken)
    (s_end : string) (p_end : sac_parser) (fuel : nat)
    (Htags : tags <> [])
    (Hrows : Forall (fun row => List.length row = List.length tags) rows)
    (Hend : t_end <> CIFToken_Value)
    (Htokens : pending i token_fuel g
                 (values (List.concat rows) ++ [(t_end, s_end)]) p_end)
    (Hfuel : (List.length rows < fuel)%nat) :
  exists g',
    loop_rows i token_fuel fuel cat tags g = Returns g' /\
    produced g' =
      (produced g ++ List.concat (map (row_events cat tags) rows))%list /\
    m_lookahead g' = t_end /\ lexer g' = p_end.
Proof.
  revert g fuel Hfuel Htokens.
  induction Hrows as [|row rows Hrow Hrows IH]; intros g fuel Hfuel Hp.
  - destruct fuel as [|fuel]; [cbn in Hfuel; lia|].
    cbn in Hp. destruct Hp as (Hl & _ & Hrun). injection Hrun as Hrun.
    cbn [loop_rows]. rewrite Hl.
    destruct (CIFToken_eqb t_end CIFToken_Value) eqn:E;
      [apply CIFToken_eqb_eq in E; contradiction|].
    exists g. cbn. now rewrite app_nil_r.
  - destruct fuel as [|fuel]; [cbn in Hfuel; lia|].
    destruct tags as [|tag tags]; [contradiction|].
    destruct row as [|v row]; [discriminate Hrow|].
    cbn [List.concat] in Hp. rewrite values_app, <- app_assoc in Hp.
    assert (Hnext : exists t s toks,
              (values (List.concat rows) ++ [(t_end, s_end)])%list = (t, s) :: toks).
    { destruct (values (List.concat rows)) as [|[t s] l]; cbn; eauto. }
    destruct Hnext as (t & s & toks & Hnext). rewrite Hnext in Hp.
    assert (Hl : m_lookahead g = CIFToken_Value) by apply Hp.
    destruct (row_items_row cat tags tag v row (produce produceRow g) t s toks p_end)
      as (g1 & E & Hpr & Hp1).
    { cbn in Hrow. lia. }
    { apply pending_produce. exact Hp. }
    rewrite <- Hnext in Hp1.
    destruct (IH g1 fuel) as (g' & E' & Hpr' & Hl' & Hx').
    { cbn in Hfuel. lia. }
    { exact Hp1. }
    exists g'. cbn [loop_rows]. rewrite Hl. cbn [CIFToken_eqb].
    rewrite E. cbn [run_bind]. split; [exact E'|]. split; [|now split].
    rewrite Hpr', Hpr. cbn [map List.concat produce produced row_events].
    rewrite <- !app_assoc. reflexivity.
Qed.

(** A loop without tags. *)
Lemma loop_rows_no_tags cat g :
  m_lookahead g = CIFToken_Value ->
  forall fuel, loop_rows i token_fuel fuel cat [] g = OutOfFuel.
Proof.
  intros Hl fuel. revert g Hl.
  induction fuel as [|fuel IH]; intros g Hl; [reflexivity|].
  cbn [loop_rows row_items run_bind]. rewrite Hl. cbn [CIFToken_eqb].
  apply IH. exact Hl.
Qed.

(** X13.  A [loop_] that is followed by a value and not by a tag never
    ends: the loop over the values produces a row, reads no token and
    starts again, so [parseDataBlock] neither returns nor throws, however
    many iterations it is given. *)
Theorem loop_without_tags_never_ends (cat : string) (g : grammar)
    (p : sac_parser)
    (Hloop : m_lookahead g = CIFToken_LOOP)
    (Hvalue : get_next_token i token_fuel (lexer g) = Returns (CIFToken_Value, p)) :
  forall fuel,
    parseDataBlock_from i splitTagName token_fuel fuel cat g = OutOfFuel.
Proof.
  intros [|fuel]; [reflexivity|].
  cbn [parseDataBlock_from]. rewrite Hloop.
  unfold match_ at 1. rewrite Hloop. cbn [CIFToken_eqb negb].
  rewrite Hvalue. cbn [run_bind fst snd].
  destruct fuel as [|fuel]; [reflexivity|].
  cbn [loop_tags m_lookahead CIFToken_eqb run_bind fst snd].
  now rewrite loop_rows_no_tags.
Qed.

Lemma pair_tokens_cons tag item v pairs :
  pair_tokens ((tag, item, v) :: pairs) =
  (CIFToken_Tag, tag) :: (CIFToken_Value, v) :: pair_tokens pairs.
Proof. reflexivity. Qed.

(** Tags with their values that go on in the current category. *)
Lemma pairs_continue cat (t_end : CIFToken) s_end p_end :
  forall (pairs : list (string * string * string)) g fuel,
  Forall (fun tiv => exists c, splitTagName (fst (fst tiv)) = Ok (c, snd (fst tiv)) /\
                               iequals cat c = true) pairs ->
  t_end <> CIFToken_LOOP -> t_end <> CIFToken_Tag -> t_end <> CIFToken_SAVE ->
  pending i token_fuel g (pair_tokens pairs ++ [(t_end, s_end)]) p_end ->
  (List.length pairs < fuel)%nat ->
  exists g',
    parseDataBlock_from i splitTagName token_fuel fuel cat g = Returns g' /\
    produced g' =
      (produced g ++ map (fun tiv => produceItem cat (snd (fst tiv)) (snd tiv)) pairs)%list /\
    m_lookahead g' = t_end /\ lexer g' = p_end.
Proof.
  induction pairs as [|[[tag item] v] pairs IH]; intros g fuel Hsplit H1 H2 H3 Hp Hfuel.
  - destruct fuel as [|fuel]; [cbn in Hfuel; lia|].
    cbn in Hp. destruct Hp as (Hl & _ & Hrun). injection Hrun as Hrun.
    exists g. cbn [parseDataBlock_from]. rewrite Hl.
    split; [destruct t_end; try reflexivity; contradiction|].
    cbn. now rewrite app_nil_r.
  - destruct fuel as [|fuel]; [cbn in Hfuel; lia|].
    inversion Hsplit as [|? ? (c & Hc & Hcat) Hrest]; subst.
    cbn [fst snd] in Hc.
    rewrite pair_tokens_cons in Hp. cbn [app] in Hp.
    pose proof Hp as (Hl & Htag & _).
    assert (Hnext : exists t s toks,
              (pair_tokens pairs ++ [(t_end, s_end)])%list = (t, s) :: toks).
    { destruct (pair_tokens pairs) as [|[t s] rest]; cbn; eauto. }
    destruct Hnext as (t & s & toks & Hnext).
    rewrite Hnext in Hp.
    destruct (match_pending g _ _ _ _ _ _ Hp) as (g1 & E1 & Hpr1 & Hp1).
    assert (Hv : mTokenValue (lexer g1) = v) by apply Hp1.
    destruct (match_pending (produce (produceItem cat item v) g1) _ _ _ _ _ _
                (pending_produce _ _ _ _ Hp1)) as (g2 & E2 & Hpr2 & Hp2).
    rewrite <- Hnext in Hp2.
    destruct (IH g2 fuel Hrest H1 H2 H3 Hp2) as (g' & E' & Hpr' & Hl' & Hx').
    { cbn in Hfuel. lia. }
    exists g'. cbn [parseDataBlock_from]. rewrite Hl, Htag, Hc, Hcat.
    cbn [negb fst snd]. rewrite E1. cbn [run_bind]. rewrite Hv, E2. cbn [run_bind].
    split; [exact E'|]. split; [|now split].
    rewrite Hpr', Hpr2. cbn [produce produced]. rewrite Hpr1.
    cbn [map fst snd]. now rewrite <- app_assoc.
Qed.

(** X14.  Tags with their values outside a loop: the first tag of a
    category other than the current one produces the category and one row,
    and every pair, this one and those after it whose tags name the same
    category without regard to case, produces an item of that row, under
    the category name as the first tag wrote it. *)
Theorem tag_value_pairs (cat c tag item v : string)
    (pairs : list (string * string * string)) (g : grammar)
    (t_end : CIFToken) (s_end : string) (p_end : sac_parser) (fuel : nat)
    (Hfirst : splitTagName tag = Ok (c, item))
    (Hnew : iequals cat c = false)
    (Hsame : Forall (fun tiv =>
               exists c', splitTagName (fst (fst tiv)) = Ok (c', snd (fst tiv)) /\
                          iequals c c' = true) pairs)
    (Hend : t_end <> CIFToken_LOOP /\ t_end <> CIFToken_Tag /\ t_end <> CIFToken_SAVE)
    (Htokens : pending i token_fuel g
                 (pair_tokens ((tag, item, v) :: pairs) ++ [(t_end, s_end)]) p_end)
    (Hfuel : (List.length pairs + 1 < fuel)%nat) :
  exists g',
    parseDataBlock_from i splitTagName token_fuel fuel cat g = Returns g' /\
    produced g' =
      (produced g ++
       produceCategory c :: produceRow ::
       map (fun tiv => produceItem c (snd (fst tiv)) (snd tiv))
           ((tag, item, v) :: pairs))%list /\
    m_lookahead g' = t_end /\ lexer g' = p_end.
Proof.
  destruct Hend as (H1 & H2 & H3).
  destruct fuel as [|fuel]; [lia|].
  rewrite pair_tokens_cons in Htokens. cbn [app] in Htokens.
  pose proof Htokens as (Hl & Htag & _).
  assert (Hnext : exists t s toks,
            (pair_tokens pairs ++ [(t_end, s_end)])%list = (t, s) :: toks).
  { destruct (pair_tokens pairs) as [|[t s] rest]; cbn; eauto. }
  destruct Hnext as (t & s & toks & Hnext). rewrite Hnext in Htokens.
  destruct (match_pending (produce produceRow (produce (produceCategory c) g))
              _ _ _ _ _ _
              (pending_produce _ _ _ _ (pending_produce _ _ _ _ Htokens)))
    as (g1 & E1 & Hpr1 & Hp1).
  assert (Hv : mTokenValue (lexer g1) = v) by apply Hp1.
  destruct (match_pending (produce (produceItem c item v) g1) _ _ _ _ _ _
              (pending_produce _ _ _ _ Hp1)) as (g2 & E2 & Hpr2 & Hp2).
  rewrite <- Hnext in Hp2.
  destruct (pairs_continue c t_end s_end p_end pairs g2 fuel Hsame H1 H2 H3 Hp2)
    as (g' & E' & Hpr' & Hl' & Hx'); [lia|].
  exists g'. cbn [parseDataBlock_from]. rewrite Hl, Htag, Hfirst, Hnew.
  cbn [negb fst snd]. rewrite E1. cbn [run_bind]. rewrite Hv, E2. cbn [run_bind].
  split; [exact E'|]. split; [|now split].
  rewrite Hpr', Hpr2. cbn [produce produced]. rewrite Hpr1.
  cbn [produce produced map fst snd]. rewrite <- !app_assoc. reflexivity.
Qed.

End Productions.

Lemma loop_rows_complete_witness :
  exists g',
    loop_rows V2 20 3 "c" ["a"; "b"]
      (mk_grammar (mk_parser (bytes " 2 3 4 _x.y") [] "1" CIFValue_Int 1 false)
                  CIFToken_Value []) = Returns g' /\
    produced g' =
      [produceRow; produceItem "c" "a" "1"; produceItem "c" "b" "2";
       produceRow; produceItem "c" "a" "3"; produceItem "c" "b" "4"] /\
    m_lookahead g' = CIFToken_Tag.
Proof.
  assert (Htags : ["a"; "b"] <> @nil string) by discriminate.
  assert (Hrows : Forall (fun row : list string => List.length row = List.length ["a"; "b"])
                    [["1"; "2"]; ["3"; "4"]]) by (repeat constructor).
  assert (Hend : CIFToken_Tag <> CIFToken_Value) by discriminate.
  assert (Hfuel : (List.length [["1"; "2"]; ["3"; "4"]] < 3)%nat) by (cbn; lia).
  assert (Htokens : pending V2 20
            (mk_grammar (mk_parser (bytes " 2 3 4 _x.y") [] "1" CIFValue_Int 1 false)
                        CIFToken_Value [])
            (values (List.concat [["1"; "2"]; ["3"; "4"]]) ++ [(CIFToken_Tag, "_x.y")])
            (mk_parser [] [-1] "_x.y" CIFValue_Unknown 1 false)).
  { split; [reflexivity|]. split; [reflexivity|]. vm_compute. reflexivity. }
  destruct (loop_rows_complete V2 20 "c" ["a"; "b"] [["1"; "2"]; ["3"; "4"]]
              (mk_grammar (mk_parser (bytes " 2 3 4 _x.y") [] "1" CIFValue_Int 1 false)
                          CIFToken_Value [])
              CIFToken_Tag "_x.y" (mk_parser [] [-1] "_x.y" CIFValue_Unknown 1 false)
              3 Htags Hrows Hend Htokens Hfuel)
    as (g' & E & Hpr & Hl & _).
  exists g'. split; [exact E|]. split; [exact Hpr|exact Hl].
Defined.

Lemma loop_without_tags_never_ends_witness :
  parseDataBlock V2 (fun s => Ok ("", s)) 20 1000
    (mk_grammar (mk_parser (bytes " 1") [] "loop_" CIFValue_Unknown 1 false)
                CIFToken_LOOP [produceDatablock "x"]) = OutOfFuel.
Proof.
  assert (Hvalue : get_next_token V2 20
            (lexer (mk_grammar (mk_parser (bytes " 1") [] "loop_" CIFValue_Unknown 1 false)
                               CIFToken_LOOP [produceDatablock "x"])) =
          Returns (CIFToken_Value, mk_parser [] [-1] "1" CIFValue_Int 1 false))
    by (vm_compute; reflexivity).
  exact (loop_without_tags_never_ends V2 (fun s => Ok ("", s)) 20 ""
           (mk_grammar (mk_parser (bytes " 1") [] "loop_" CIFValue_Unknown 1 false)
                       CIFToken_LOOP [produceDatablock "x"])
           (mk_parser [] [-1] "1" CIFValue_Int 1 false) eq_refl Hvalue 1000%nat).
Defined.

Lemma tag_value_pairs_witness :
  exists g',
    parseDataBlock V2 (fun s => Ok ("c", String.substring 3 10 s)) 20 4
      (mk_grammar (mk_parser (bytes " 1 _C.b 2") [] "_c.a" CIFValue_Unknown 1 false)
                  CIFToken_Tag []) = Returns g' /\
    produced g' =
      [produceCategory "c"; produceRow; produceItem "c" "a" "1"; produceItem "c" "b" "2"] /\
    m_lookahead g' = CIFToken_Eof.
Proof.
  assert (Hsame : Forall (fun tiv : string * string * string =>
            exists c', (fun s => Ok ("c", String.substring 3 10 s)) (fst (fst tiv)) =
                         Ok (c', snd (fst tiv)) /\ iequals "c" c' = true)
            [("_C.b", "b", "2")]).
  { constructor; [|constructor]. exists "c". split; reflexivity. }
  assert (Hend : CIFToken_Eof <> CIFToken_LOOP /\ CIFToken_Eof <> CIFToken_Tag /\
                 CIFToken_Eof <> CIFToken_SAVE) by (repeat split; discriminate).
  assert (Hfuel : (List.length [("_C.b", "b", "2")] + 1 < 4)%nat) by (cbn; lia).
  assert (Htokens : pending V2 20
            (mk_grammar (mk_parser (bytes " 1 _C.b 2") [] "_c.a" CIFValue_Unknown 1 false)
                        CIFToken_Tag [])
            (pair_tokens [("_c.a", "a", "1"); ("_C.b", "b", "2")] ++ [(CIFToken_Eof, String "255"%char "")])
            (mk_parser [] [] (String "255"%char "") CIFValue_Unknown 1 false)).
  { split; [reflexivity|]. split; [reflexivity|]. vm_compute. reflexivity. }
  destruct (tag_value_pairs V2 (fun s => Ok ("c", String.substring 3 10 s)) 20
              "" "c" "_c.a" "a" "1" [("_C.b", "b", "2")]
              (mk_grammar (mk_parser (bytes " 1 _C.b 2") [] "_c.a" CIFValue_Unknown 1 false)
                          CIFToken_Tag [])
              CIFToken_Eof (String "255"%char "") (mk_parser [] [] (String "255"%char "") CIFValue_Unknown 1 false) 4
              eq_refl eq_refl Hsame Hend Htokens Hfuel)
    as (g' & E & Hpr & Hl & _).
  exists g'. split; [exact E|]. split; [exact Hpr|exact Hl].
Defined.

End GrammarProofs.

(** ** Columns and cells of a category *)

Module ColumnProofs.
Import Text ItemValue Validate Store PropagatorSpec.
Import ParserProofs StoreProofs PropagatorProofs.

(** X15.  The index that [add_column] returns is the index [get_column_ix]
    finds afterwards, and [get_column_name] of it is a name equal to the
    given one without case. *)
Theorem add_column_then_lookup (c c1 : category) (n : string) (ix : Z)
    (Hlen : Z.of_nat (List.length (m_columns c)) < 65535)
    (Hadd : add_column c n = (c1, Ok ix)) :
  get_column_ix c1 n = ix /\
  exists n', get_column_name c1 ix = Ok n' /\ iequals n n' = true.
Proof.
  pose proof (add_column_length c n c1 _ Hadd) as Hl.
  assert (Hmax : Z.of_nat (List.length (m_columns c1)) <= 65535) by lia.
  destruct (add_column_cases c n c1 ix Hmax Hadd) as (Hix & Hpos & Hlt & _).
  pose proof (column_position_bounds n (m_columns c)) as Hb.
  split.
  - unfold get_column_ix, to_uint16. rewrite Hpos. apply Z.mod_small. lia.
  - rewrite <- Hpos in Hlt.
    destruct (column_position_found n (m_columns c1) Hlt) as (col & Hnth & Hn).
    exists (col_name col). split; [|exact Hn].
    unfold get_column_name. rewrite <- Hpos.
    destruct (Z.geb_spec (column_position n (m_columns c1))
                (Z.of_nat (List.length (m_columns c1)))); [lia|].
    now rewrite Hnth.
Qed.

Lemma add_column_then_lookup_witness :
  get_column_ix (fst (add_column (new_category "cat") "ID")) "id" = 0.
Proof.
  assert (Hlen : Z.of_nat (List.length (m_columns (new_category "cat"))) < 65535)
    by (cbn; lia).
  pose proof (add_column_then_lookup (new_category "cat")
                (fst (add_column (new_category "cat") "id")) "id" 0 Hlen eq_refl) as [H _].
  exact H.
Defined.

(** X16.  Adding a column a second time changes nothing and gives the same
    index. *)
Theorem add_column_twice (c c1 : category) (n : string) (ix : Z)
    (Hlen : Z.of_nat (List.length (m_columns c)) < 65535)
    (Hadd : add_column c n = (c1, Ok ix)) :
  add_column c1 n = (c1, Ok ix).
Proof.
  pose proof (add_column_length c n c1 _ Hadd) as Hl.
  assert (Hmax : Z.of_nat (List.length (m_columns c1)) <= 65535) by lia.
  destruct (add_column_cases c n c1 ix Hmax Hadd) as (Hix & Hpos & Hlt & _).
  pose proof (column_position_bounds n (m_columns c)) as Hb.
  unfold add_column, get_column_ix, to_uint16. rewrite Hpos.
  rewrite !Z.mod_small by lia.
  destruct (Z.eqb_spec ix (Z.of_nat (List.length (m_columns c1)))); [lia|reflexivity].
Qed.

Lemma add_column_twice_witness :
  add_column (fst (add_column (new_category "cat") "id")) "ID" =
    (fst (add_column (new_category "cat") "id"), Ok 0).
Proof.
  assert (Hlen : Z.of_nat (List.length (m_columns (new_category "cat"))) < 65535)
    by (cbn; lia).
  assert (Hlen1 : Z.of_nat (List.length
             (m_columns (fst (add_column (new_category "cat") "id")))) < 65535)
    by (cbn; lia).
  exact (add_column_twice (fst (add_column (new_category "cat") "id"))
           (fst (add_column (new_category "cat") "id")) "ID" 0 Hlen1 eq_refl).
Defined.

(** X17.  For a name that no column has, [get_column_ix] is the number of
    columns, and [get_column_name] throws there and at every larger index. *)
Theorem unknown_column (c : category) (n : string) (ix : Z)
    (Hlen : Z.of_nat (List.length (m_columns c)) < 65536)
    (Hnew : forall col, In col (m_columns c) -> iequals n (col_name col) = false)
    (Hix : get_column_ix c n <= ix) :
  get_column_ix c n = Z.of_nat (List.length (m_columns c)) /\
  get_column_name c ix = Err (runtime_error "column index is out of range").
Proof.
  apply column_position_missing in Hnew.
  assert (E : get_column_ix c n = Z.of_nat (List.length (m_columns c))).
  { unfold get_column_ix, to_uint16. rewrite Hnew. apply Z.mod_small. lia. }
  split; [exact E|].
  unfold get_column_name.
  destruct (Z.geb_spec ix (Z.of_nat (List.length (m_columns c)))); [reflexivity|lia].
Qed.

Lemma unknown_column_witness :
  get_column_ix (fst (add_column (new_category "cat") "id")) "name" = 1.
Proof.
  assert (Hlen : Z.of_nat (List.length
             (m_columns (fst (add_column (new_category "cat") "id")))) < 65536)
    by (cbn; lia).
  assert (Hnew : forall col,
             In col (m_columns (fst (add_column (new_category "cat") "id"))) ->
             iequals "name" (col_name col) = false).
  { intros col [<-|[]]. reflexivity. }
  assert (Hix : get_column_ix (fst (add_column (new_category "cat") "id")) "name" <= 1)
    by (vm_compute; discriminate).
  exact (proj1 (unknown_column (fst (add_column (new_category "cat") "id"))
                  "name" 1 Hlen Hnew Hix)).
Defined.

(** X18.  The loop of [emplace] makes one cell for each item, in the order
    of the items: the cell holds the item's value and is filed under the
    column that [get_column_ix] finds for the item's name in the table the
    loop leaves. *)
Theorem emplace_items_row (c c' : category) (items : list item) (r : row)
    (Hvalues : Forall (fun it => strlen (value it) < size_t_modulus - 1) items)
    (Hcolumns : Z.of_nat (List.length (m_columns c')) <= 65535)
    (Hrow : emplace_items c [] items = (c', Ok r)) :
  Forall2 (cell_of c') items r.
Proof.
  destruct (emplace_items_cells items c [] c' r Hvalues Hcolumns Hrow) as (new & -> & H).
  exact H.
Qed.

Lemma emplace_items_row_witness :
  exists c' r,
    emplace_items (new_category "cat") []
      [mk_item "id" "1"; mk_item "name" "aap"; mk_item "ID" "2"] = (c', Ok r) /\
    Forall2 (cell_of c')
      [mk_item "id" "1"; mk_item "name" "aap"; mk_item "ID" "2"] r.
Proof.
  eexists. eexists. split; [reflexivity|].
  apply (emplace_items_row (new_category "cat")).
  - repeat constructor.
  - cbn. lia.
  - reflexivity.
Defined.

(** X19.  The copy that [clone_row] makes of a row whose cells are shorter
    than 65535 bytes exists, and has the same column indices and the same
    texts in the same order. *)
Theorem clone_row_copy (r : row)
    (Hshort : Forall (fun iv => strlen (text iv) < 65535) r) :
  exists copy, clone_row r = Ok copy /\
    map m_column_ix copy = map m_column_ix r /\ map text copy = map text r.
Proof.
  destruct (clone_cells_ok r [] Hshort) as [copy E].
  exists copy. split; [exact E|].
  destruct (clone_cells_copy r [] copy E) as (new & -> & H); [|exact H].
  eapply Forall_impl; [|exact Hshort]. cbn. intros a Ha.
  unfold size_t_modulus. lia.
Qed.

Lemma clone_row_copy_witness :
  exists copy,
    clone_row [mk_item_value 0 3 (m_local_data "aap"); mk_item_value 1 0 (m_local_data "")]
      = Ok copy /\
    map text copy = ["aap"; ""].
Proof.
  assert (Hshort : Forall (fun iv => strlen (text iv) < 65535)
            [mk_item_value 0 3 (m_local_data "aap"); mk_item_value 1 0 (m_local_data "")])
    by (repeat constructor).
  destruct (clone_row_copy _ Hshort) as (copy & E & _ & T).
  exists copy. split; [exact E|exact T].
Defined.

End ColumnProofs.

(** ** The categories of a datablock *)

Module BlockProofs.
Import Text Validate Store Datablock Blocks.

Lemma find_none_all (name : string) (cats : list category) :
  find (fun c => iequals (m_name c) name) cats = None ->
  forall x, In x cats -> iequals name (m_name x) = false.
Proof.
  intros H x Hx. rewrite ParserProofs.iequals_sym.
  exact (find_none _ _ H x Hx).
Qed.

Lemma find_split (f : category -> bool) (cats : list category) c :
  find f cats = Some c ->
  exists pre post, cats = (pre ++ c :: post)%list /\ f c = true /\
    forall x, In x pre -> f x = false.
Proof.
  induction cats as [|a cats IH]; [discriminate|]. cbn [find].
  destruct (f a) eqn:E.
  - intro H. injection H as <-. exists [], cats. repeat split; [exact E|intros x []].
  - intro H. destruct (IH H) as (pre & post & -> & Hc & Hpre).
    exists (a :: pre), post. repeat split; [exact Hc|].
    intros x [<-|Hx]; [exact E|auto].
Qed.

Section EmplaceProofs.

Variable set_validator : option validator -> datablock -> category -> category.
Hypothesis set_validator_name :
  forall v db c, m_name (set_validator v db c) = m_name c.

(** The three results of [emplace], on every input. *)
Lemma emplace_cases db name :
  (exists pre c post,
     categories db = (pre ++ c :: post)%list /\
     (forall x, In x pre -> iequals name (m_name x) = false) /\
     iequals name (m_name c) = true /\
     emplace set_validator db name =
       (set_categories db (c :: pre ++ post)%list, Some c, false)) \/
  (exists c,
     (forall x, In x (categories db) -> iequals name (m_name x) = false) /\
     m_name c = name /\
     emplace set_validator db name =
       (set_categories db (c :: categories db), Some c, true)).
Proof.
  destruct (find (fun c => iequals (m_name c) name) (categories db)) as [c|] eqn:F.
  - left. destruct (find_split _ _ _ F) as (pre & post & Hc & Hn & Hpre).
    exists pre, c, post.
    assert (Hpre' : forall x, In x pre -> iequals name (m_name x) = false).
    { intros x Hx. rewrite ParserProofs.iequals_sym. now apply Hpre. }
    rewrite ParserProofs.iequals_sym in Hn.
    repeat split; try assumption.
    unfold emplace.
    rewrite Hc, (DatablockProofs.find_and_promote_found name c post pre [] Hpre' Hn).
    cbn [app]. destruct pre; reflexivity.
  - right. pose proof (find_none_all _ _ F) as Hall.
    eexists. split; [exact Hall|]. split; [|unfold emplace;
      rewrite (DatablockProofs.find_and_promote_missing name _ [] Hall); reflexivity].
    now rewrite set_validator_name.
Qed.

(** X20.  After [emplace] the category of the given name is the first of
    the block, it is the one returned and the one [get] finds; [is_new]
    tells whether [get] found none before, and only then the block has
    grown, by one. *)
Theorem emplace_front_and_get (db : datablock) (name : string) :
  exists c,
    snd (fst (emplace set_validator db name)) = Some c /\
    hd_error (categories (fst (fst (emplace set_validator db name)))) = Some c /\
    iequals name (m_name c) = true /\
    get (fst (fst (emplace set_validator db name))) name = Some c /\
    (snd (emplace set_validator db name) = true <-> get db name = None) /\
    List.length (categories (fst (fst (emplace set_validator db name)))) =
      (List.length (categories db) +
       (if snd (emplace set_validator db name) then 1 else 0))%nat.
Proof.
  destruct (emplace_cases db name) as
    [(pre & c & post & Hc & Hpre & Hn & ->)|(c & Hall & Hn & ->)];
    exists c; cbn [fst snd categories set_categories hd_error].
  - repeat split; try assumption.
    + unfold get. cbn [categories set_categories find].
      now rewrite ParserProofs.iequals_sym, Hn.
    + discriminate.
    + intro H. unfold get in H. rewrite Hc in H.
      pose proof (find_none _ _ H c (in_elt c pre post)) as E. cbn in E.
      rewrite ParserProofs.iequals_sym in E. congruence.
    + rewrite Hc, !length_app. cbn [List.length]. rewrite length_app. lia.
  - subst name. repeat split.
    + apply ParserProofs.iequals_refl.
    + unfold get. cbn [categories set_categories find].
      now rewrite ParserProofs.iequals_refl.
    + intros _. unfold get.
      destruct (find _ (categories db)) as [x|] eqn:F; [|reflexivity].
      apply find_some in F as [Hx E].
      rewrite ParserProofs.iequals_sym, (Hall x Hx) in E. discriminate.
    + cbn [List.length]. lia.
Qed.

(** X21.  A second [emplace] of the same name, in any case, changes
    nothing: it gives the block and the category of the first call, and
    [is_new] is false. The validator that is set on a new category is
    taken to keep its name. *)
Theorem emplace_twice (db : datablock) (name name' : string)
    (Hsame : iequals name name' = true) :
  emplace set_validator (fst (fst (emplace set_validator db name))) name' =
    (fst (fst (emplace set_validator db name)),
     snd (fst (emplace set_validator db name)), false).
Proof.
  assert (Hfront : forall db0 c rest,
            iequals name (m_name c) = true ->
            emplace set_validator (set_categories db0 (c :: rest)) name' =
              (set_categories db0 (c :: rest), Some c, false)).
  { intros db0 c rest Hn. unfold emplace. cbn [categories set_categories find_and_promote].
    rewrite ParserProofs.iequals_sym in Hsame.
    now rewrite (ParserProofs.iequals_trans _ _ _ Hsame Hn). }
  destruct (emplace_cases db name) as
    [(pre & c & post & Hc & Hpre & Hn & ->)|(c & Hall & Hn & ->)];
    cbn [fst snd].
  - now apply Hfront.
  - apply Hfront. subst name. apply ParserProofs.iequals_refl.
Qed.

Lemma unique_names_middle pre c post :
  unique_names (pre ++ c :: post) -> unique_names (c :: pre ++ post).
Proof.
  induction pre as [|a pre IH]; [auto|].
  cbn [app unique_names]. intros [Ha Hu]. destruct (IH Hu) as [Hc Hu']. split; [|split].
  - intros x [<-|Hx].
    + rewrite ParserProofs.iequals_sym. apply Ha. apply in_elt.
    + apply Hc. exact Hx.
  - intros x Hx. apply Ha. apply in_app_or in Hx as [Hx|Hx]; apply in_or_app;
      [now left|right; now right].
  - exact Hu'.
Qed.

(** X22.  [emplace] keeps the names of the block distinct up to case, when
    the validator that is set on a new category keeps its name. *)
Theorem emplace_unique_names (db : datablock) (name : string)
    (Huniq : unique_names (categories db)) :
  unique_names (categories (fst (fst (emplace set_validator db name)))).
Proof.
  destruct (emplace_cases db name) as
    [(pre & c & post & Hc & Hpre & Hn & ->)|(c & Hall & Hn & ->)];
    cbn [fst snd categories set_categories].
  - apply unique_names_middle. now rewrite <- Hc.
  - cbn [unique_names]. split; [|exact Huniq]. now rewrite Hn.
Qed.

End EmplaceProofs.

Lemma emplace_front_and_get_witness :
  exists c,
    snd (fst (emplace (fun _ _ c => c) Examples.two_categories "B")) = Some c /\
    get (fst (fst (emplace (fun _ _ c => c) Examples.two_categories "B"))) "B" = Some c.
Proof.
  destruct (emplace_front_and_get (fun _ _ c => c) (fun _ _ _ => eq_refl)
              Examples.two_categories "B") as (c & H1 & _ & _ & H2 & _).
  exists c. split; [exact H1|exact H2].
Defined.

Lemma emplace_twice_witness :
  emplace (fun _ _ c => c)
    (fst (fst (emplace (fun _ _ c => c) Examples.two_categories "atom_site")))
    "ATOM_SITE" =
  (fst (fst (emplace (fun _ _ c => c) Examples.two_categories "atom_site")),
   snd (fst (emplace (fun _ _ c => c) Examples.two_categories "atom_site")), false).
Proof.
  exact (emplace_twice (fun _ _ c => c) (fun _ _ _ => eq_refl)
           Examples.two_categories "atom_site" "ATOM_SITE" eq_refl).
Defined.

Lemma emplace_unique_names_witness :
  unique_names
    (categories (fst (fst (emplace (fun _ _ c => c) Examples.two_categories "c")))).
Proof.
  apply (emplace_unique_names (fun _ _ c => c) (fun _ _ _ => eq_refl)).
  cbn. split; [|split; [|exact I]].
  - intros x [<-|[]]. reflexivity.
  - intros x [].
Defined.

Section IndexProofs.

Variable set_validator : option validator -> datablock -> category -> category.
Hypothesis set_validator_name :
  forall v db c, m_name (set_validator v db c) = m_name c.

Lemma find_snoc_missing (f : category -> bool) cats c :
  find f cats = None -> find f (cats ++ [c]) = if f c then Some c else None.
Proof.
  induction cats as [|a cats IH]; [reflexivity|]. cbn [app find].
  destruct (f a); [discriminate|exact IH].
Qed.

Lemma unique_names_snoc cats c :
  unique_names cats ->
  (forall x, In x cats -> iequals (m_name c) (m_name x) = false) ->
  unique_names (cats ++ [c]).
Proof.
  induction cats as [|a cats IH]; cbn [app unique_names].
  - intros _ _. split; [intros x []|exact I].
  - intros [Ha Hu] Hc. split.
    + intros x Hx. apply in_app_or in Hx as [Hx|[<-|[]]]; [now apply Ha|].
      rewrite ParserProofs.iequals_sym. apply Hc. now left.
    + apply IH; [exact Hu|]. intros x Hx. apply Hc. now right.
Qed.

(** X23.  [operator[]] never moves a category: a block that has the name
    is left as it is and the category [get] finds is returned; otherwise
    one category of that name is added at the back and returned.
    Afterwards [get] finds the returned category, and names that were
    distinct up to case are still. The validator that is set on a new
    category is taken to keep its name. *)
Theorem index_appends (db : datablock) (name : string) :
  get (fst (index set_validator db name)) name =
    Some (snd (index set_validator db name)) /\
  ((get db name = Some (snd (index set_validator db name)) /\
    fst (index set_validator db name) = db) \/
   (get db name = None /\
    m_name (snd (index set_validator db name)) = name /\
    categories (fst (index set_validator db name)) =
      (categories db ++ [snd (index set_validator db name)])%list)) /\
  (unique_names (categories db) ->
   unique_names (categories (fst (index set_validator db name)))).
Proof.
  unfold index, get.
  destruct (find (fun c => iequals (m_name c) name) (categories db)) as [c|] eqn:F;
    cbn [fst snd].
  - split; [exact F|]. split; [left; now split|auto].
  - set (cat' := match db_validator db with Some v => _ | None => _ end).
    assert (Hn : m_name cat' = name).
    { subst cat'. destruct (db_validator db); [apply set_validator_name|reflexivity]. }
    cbn [categories set_categories]. split; [|split].
    + rewrite (find_snoc_missing _ _ _ F). now rewrite Hn, ParserProofs.iequals_refl.
    + right. now repeat split.
    + intro Hu. apply unique_names_snoc; [exact Hu|].
      rewrite Hn. now apply find_none_all.
Qed.

End IndexProofs.

Lemma index_appends_witness :
  get (fst (index (fun _ _ c => c) Examples.two_categories "c")) "C" =
    Some (snd (index (fun _ _ c => c) Examples.two_categories "c")).
Proof.
  exact (proj1 (index_appends (fun _ _ c => c) (fun _ _ _ => eq_refl)
                  Examples.two_categories "c")).
Defined.

Section TagOrderProofs.

Variable cto : category -> list string.

Lemma tag_loop cats : forall init,
  fold_left
    (fun result cat =>
       if is_entry cat || is_audit_conform cat then result
       else (result ++ cto cat)%list) cats init =
  (init ++ List.concat (map cto (filter is_other cats)))%list.
Proof.
  induction cats as [|a cats IH]; intro init; cbn [fold_left filter].
  - cbn. now rewrite app_nil_r.
  - unfold is_other at 1. destruct (is_entry a || is_audit_conform a); cbn [negb].
    + apply IH.
    + rewrite IH. cbn [map List.concat]. now rewrite <- app_assoc.
Qed.

Lemma get_tag_order_parts db :
  get_tag_order cto db =
    (tags_of cto (find is_entry (categories db)) ++
     tags_of cto (find is_audit_conform (categories db)) ++
     List.concat (map cto (filter is_other (categories db))))%list.
Proof.
  unfold get_tag_order. rewrite tag_loop.
  destruct (find is_entry (categories db)), (find is_audit_conform (categories db));
    cbn [tags_of app]; rewrite <- ?app_assoc; reflexivity.
Qed.

Lemma tags_of_find f cats :
  (List.length (filter f cats) <= 1)%nat ->
  tags_of cto (find f cats) = List.concat (map cto (filter f cats)).
Proof.
  induction cats as [|a cats IH]; [reflexivity|]. cbn [find filter].
  destruct (f a) eqn:E.
  - cbn [List.length tags_of map List.concat]. intro H.
    destruct (filter f cats); [cbn; now rewrite app_nil_r|cbn in H; lia].
  - exact IH.
Qed.

Lemma tags_partition cats :
  Permutation (List.concat (map cto cats))
    (List.concat (map cto (filter is_entry cats)) ++
     List.concat (map cto (filter is_audit_conform cats)) ++
     List.concat (map cto (filter is_other cats)))%list.
Proof.
  induction cats as [|a cats IH]; [constructor|].
  cbn [map List.concat filter]. unfold is_other at 1.
  destruct (is_entry a) eqn:E.
  - assert (A : is_audit_conform a = false).
    { unfold is_entry, is_audit_conform in *. apply String.eqb_eq in E. now rewrite E. }
    rewrite A. cbn [orb negb map List.concat]. rewrite <- app_assoc.
    now apply Permutation_app_head.
  - destruct (is_audit_conform a); cbn [orb negb map List.concat].
    + rewrite <- app_assoc.
      etransitivity; [apply Permutation_app_head; exact IH|].
      apply Permutation_app_swap_app.
    + etransitivity; [apply Permutation_app_head; exact IH|].
      etransitivity; [apply Permutation_app_swap_app|].
      apply Permutation_app_head. apply Permutation_app_swap_app.
Qed.

(** X24.  The tags of the first category named [entry] come first, those
    of the first named [audit_conform] next, then those of the other
    categories in the order of the block; when at most one category bears
    each of the two names, every tag of every category is listed, as often
    as the categories give it. *)
Theorem get_tag_order_complete (db : datablock)
    (Hentry : (List.length (filter is_entry (categories db)) <= 1)%nat)
    (Haudit : (List.length (filter is_audit_conform (categories db)) <= 1)%nat) :
  get_tag_order cto db =
    (tags_of cto (find is_entry (categories db)) ++
     tags_of cto (find is_audit_conform (categories db)) ++
     List.concat (map cto (filter is_other (categories db))))%list /\
  Permutation (get_tag_order cto db) (List.concat (map cto (categories db))).
Proof.
  split; [apply get_tag_order_parts|].
  rewrite get_tag_order_parts, (tags_of_find _ _ Hentry), (tags_of_find _ _ Haudit).
  symmetry. apply tags_partition.
Qed.

End TagOrderProofs.

Lemma get_tag_order_complete_witness :
  Permutation
    (get_tag_order (fun c => [m_name c])
       (mk_datablock "x" None
          [new_category "a"; new_category "audit_conform"; new_category "entry"]))
    ["a"; "audit_conform"; "entry"].
Proof.
  assert (H1 : (List.length (filter is_entry (categories (mk_datablock "x" None
            [new_category "a"; new_category "audit_conform"; new_category "entry"]))) <= 1)%nat)
    by (cbn; lia).
  assert (H2 : (List.length (filter is_audit_conform (categories (mk_datablock "x" None
            [new_category "a"; new_category "audit_conform"; new_category "entry"]))) <= 1)%nat)
    by (cbn; lia).
  exact (proj2 (get_tag_order_complete (fun c => [m_name c]) _ H1 H2)).
Defined.

End BlockProofs.

(** ** Comparing values of a type *)

Module CompareProofs.
Import Text Validate Collapse.

Lemma int_of_char_inj x y : int_of_char x = int_of_char y -> x = y.
Proof.
  unfold int_of_char. cbv zeta.
  pose proof (N_ascii_bounded x) as Bx. pose proof (N_ascii_bounded y) as By.
  intro Hxy.
  assert (E : N_of_ascii x = N_of_ascii y).
  { destruct (Z.ltb_spec (Z.of_N (N_of_ascii x)) 128),
             (Z.ltb_spec (Z.of_N (N_of_ascii y)) 128); lia. }
  rewrite <- (ascii_N_embedding x), <- (ascii_N_embedding y). now rewrite E.
Qed.

Lemma collapse_space s : collapse (String " " s) = String " " (collapse (skip_spaces s)).
Proof.
  induction s as [|d s IH]; [reflexivity|].
  cbn [skip_spaces]. destruct (Ascii.eqb_spec d " ") as [->|Hd].
  - rewrite <- IH. reflexivity.
  - change (collapse (String " " (String d s)))
      with (if Ascii.eqb " " " " && Ascii.eqb d " " then collapse (String d s)
            else String " " (collapse (String d s))).
    apply Ascii.eqb_neq in Hd. now rewrite Hd.
Qed.

Lemma collapse_other c s :
  c <> " "%char -> collapse (String c s) = String c (collapse s).
Proof.
  intro Hc. apply Ascii.eqb_neq in Hc. destruct s as [|d s]; [reflexivity|].
  change (collapse (String c (String d s)))
    with (if Ascii.eqb c " " && Ascii.eqb d " " then collapse (String d s)
          else String c (collapse (String d s))).
  now rewrite Hc.
Qed.

Lemma collapse_head c s : exists t, collapse (String c s) = String c t.
Proof.
  destruct (Ascii.eqb_spec c " ") as [->|Hc].
  - rewrite collapse_space. eauto.
  - rewrite collapse_other by assumption. eauto.
Qed.

Lemma tolower_char_of_space : tolower_char " " = " "%char.
Proof. reflexivity. Qed.

Lemma folded_cons u x s :
  folded u (String x s) = String (if u then tolower_char x else x) (folded u s).
Proof. destruct u; reflexivity. Qed.

Lemma folded_skip_spaces u s : folded u (skip_spaces s) = skip_spaces (folded u s).
Proof.
  destruct u; [|reflexivity]. cbn [folded].
  induction s as [|c s IH]; [reflexivity|]. cbn [skip_spaces to_lower_copy].
  destruct (Ascii.eqb_spec c " ") as [->|Hc].
  - rewrite tolower_char_of_space. cbn. exact IH.
  - destruct (Ascii.eqb_spec (tolower_char c) " ") as [E|_]; [|reflexivity].
    exfalso. apply Hc. now apply StoreProofs.tolower_char_space.
Qed.

Lemma min_skip_spaces a b :
  (Nat.min (String.length (skip_spaces a)) (String.length (skip_spaces b)) <=
   Nat.min (String.length a) (String.length b))%nat.
Proof.
  pose proof (StoreProofs.length_skip_spaces a).
  pose proof (StoreProofs.length_skip_spaces b). lia.
Qed.

(** The loop of [compare] ends with 0 exactly on texts that are equal once
    folded and collapsed. *)
Lemma compare_text_zero u fuel : forall a b,
  (Nat.min (String.length a) (String.length b) < fuel)%nat ->
  compare_text fuel u a b = 0 <->
  collapse (folded u a) = collapse (folded u b).
Proof.
  induction fuel as [|fuel IH]; intros a b Hf; [lia|].
  destruct a as [|x a], b as [|y b]; cbn [compare_text].
  - destruct u; split; reflexivity.
  - rewrite folded_cons. destruct (collapse_head (if u then tolower_char y else y) (folded u b)) as [t ->].
    destruct u; cbn; split; discriminate.
  - rewrite folded_cons. destruct (collapse_head (if u then tolower_char x else x) (folded u a)) as [t ->].
    destruct u; cbn; split; discriminate.
  - rewrite !folded_cons.
    set (ca := if u then tolower_char x else x).
    set (cb := if u then tolower_char y else y).
    cbn [String.length] in Hf.
    destruct (Z.eqb_spec (int_of_char ca - int_of_char cb) 0) as [E|E]; cbn [negb].
    + assert (ca = cb) as <- by (apply int_of_char_inj; lia).
      destruct (Ascii.eqb_spec ca " ") as [Hs|Hs].
      * rewrite Hs, !collapse_space, <- !folded_skip_spaces.
        rewrite IH by (pose proof (min_skip_spaces a b); lia).
        split; [now intros ->|]. intro H. now injection H.
      * rewrite !collapse_other by assumption.
        rewrite IH by lia.
        split; [now intros ->|]. intro H. now injection H.
    + split; [intro H; contradiction|].
      destruct (collapse_head ca (folded u a)) as [t1 ->].
      destruct (collapse_head cb (folded u b)) as [t2 ->].
      intro H. injection H as H _. rewrite H. lia.
Qed.

Lemma compare_text_antisym u fuel : forall a b,
  compare_text fuel u b a = - compare_text fuel u a b.
Proof.
  induction fuel as [|fuel IH]; intros a b; [reflexivity|].
  destruct a as [|x a], b as [|y b]; cbn [compare_text]; try reflexivity.
  set (ca := if u then tolower_char x else x).
  set (cb := if u then tolower_char y else y).
  destruct (Z.eqb_spec (int_of_char ca - int_of_char cb) 0) as [E|E],
           (Z.eqb_spec (int_of_char cb - int_of_char ca) 0) as [E'|E'];
    cbn [negb]; try lia.
  assert (ca = cb) as <- by (apply int_of_char_inj; lia).
  destruct (Ascii.eqb ca " "); apply IH.
Qed.

Lemma compare_text_fuel u f1 : forall f2 a b,
  (Nat.min (String.length a) (String.length b) < f1)%nat ->
  (Nat.min (String.length a) (String.length b) < f2)%nat ->
  compare_text f1 u a b = compare_text f2 u a b.
Proof.
  induction f1 as [|f1 IH]; intros f2 a b H1 H2; [lia|].
  destruct f2 as [|f2]; [lia|].
  destruct a as [|x a], b as [|y b]; cbn [compare_text]; try reflexivity.
  cbn [String.length] in H1, H2.
  destruct (negb _); [reflexivity|].
  destruct (Ascii.eqb _ " ").
  - pose proof (min_skip_spaces a b). apply IH; lia.
  - apply IH; lia.
Qed.

Lemma compare_is_compare_text cn t a b :
  m_primitive_type t <> Numb ->
  compare cn t a b =
    compare_text (S (Nat.min (String.length a) (String.length b))) (folds_case t) a b.
Proof.
  intro Ht. unfold compare, folds_case.
  destruct a as [|x a]; [destruct b; reflexivity|].
  destruct b as [|y b]; [reflexivity|].
  cbn [String.eqb].
  destruct (m_primitive_type t); [| |contradiction];
    apply compare_text_fuel; cbn [String.length]; lia.
Qed.

(** X25.  For the types Char and UChar, two texts compare equal exactly
    when they are the same once every run of spaces is collapsed to one
    space and, for UChar, the case is folded. *)
Theorem compare_equal_texts (cn : string -> string -> Z) (t : type_validator)
    (a b : string) (Ht : m_primitive_type t <> Numb) :
  compare cn t a b = 0 <->
  collapse (folded (folds_case t) a) = collapse (folded (folds_case t) b).
Proof.
  rewrite (compare_is_compare_text cn t a b Ht).
  apply compare_text_zero. lia.
Qed.

Lemma compare_equal_texts_witness :
  compare (fun _ _ => 0) (mk_type_validator "ucode" UChar ".+") "A  b" "a B" = 0.
Proof.
  assert (Ht : m_primitive_type (mk_type_validator "ucode" UChar ".+") <> Numb)
    by discriminate.
  apply (proj2 (compare_equal_texts (fun _ _ => 0) _ "A  b" "a B" Ht)).
  reflexivity.
Defined.

(** X26.  For the types Char and UChar, swapping the texts negates the
    result. *)
Theorem compare_swap (cn : string -> string -> Z) (t : type_validator)
    (a b : string) (Ht : m_primitive_type t <> Numb) :
  compare cn t b a = - compare cn t a b.
Proof.
  rewrite !compare_is_compare_text by assumption.
  rewrite Nat.min_comm. apply compare_text_antisym.
Qed.

Lemma compare_swap_witness :
  compare (fun _ _ => 0) (mk_type_validator "code" Char ".+") "b" "a" =
  - compare (fun _ _ => 0) (mk_type_validator "code" Char ".+") "a" "b".
Proof.
  assert (Ht : m_primitive_type (mk_type_validator "code" Char ".+") <> Numb)
    by discriminate.
  exact (compare_swap (fun _ _ => 0) _ "a" "b" Ht).
Defined.

End CompareProofs.

(** ** Link validators *)

Module LinkProofs.
Import Text Validate Links.

Lemma assign_item_type_known ivs k t tag :
  is_some (find (fun iv => iequals (m_tag iv) tag) (assign_item_type ivs k t)) =
  is_some (find (fun iv => iequals (m_tag iv) tag) ivs).
Proof.
  induction ivs as [|iv ivs IH]; [reflexivity|]. cbn [assign_item_type].
  destruct (iequals (m_tag iv) k).
  - cbn [find with_type m_tag]. destruct (iequals (m_tag iv) tag); reflexivity.
  - cbn [find]. destruct (iequals (m_tag iv) tag); [reflexivity|exact IH].
Qed.

Lemma assign_type_category v c k t category :
  is_some (get_validator_for_category (assign_type v c k t) category) =
  is_some (get_validator_for_category v category).
Proof.
  unfold get_validator_for_category, assign_type. cbn [m_category_validators set_category_validators].
  induction (m_category_validators v) as [|cv cvs IH]; [reflexivity|].
  cbn [assign_type_in]. destruct (iequals (cv_name cv) c).
  - cbn [find set_item_validators cv_name].
    destruct (iequals (cv_name cv) category); reflexivity.
  - cbn [find]. destruct (iequals (cv_name cv) category); [reflexivity|exact IH].
Qed.

Lemma assign_type_known v c k t category tag :
  known_item (assign_type v c k t) category tag = known_item v category tag.
Proof.
  unfold known_item, get_validator_for_category, assign_type.
  cbn [m_category_validators set_category_validators].
  induction (m_category_validators v) as [|cv cvs IH]; [reflexivity|].
  cbn [assign_type_in]. destruct (iequals (cv_name cv) c).
  - cbn [find set_item_validators cv_name].
    destruct (iequals (cv_name cv) category); [|reflexivity].
    unfold get_validator_for_item. cbn [m_item_validators].
    apply assign_item_type_known.
  - cbn [find]. destruct (iequals (cv_name cv) category); [reflexivity|exact IH].
Qed.

Lemma forallb_same {A : Type} (f g : A -> bool) (l : list A) :
  (forall x, f x = g x) -> forallb f l = forallb g l.
Proof.
  intro H. induction l as [|x l IH]; [reflexivity|]. cbn. now rewrite H, IH.
Qed.

Lemma assign_type_resolved v c k t l :
  resolved_link (assign_type v c k t) l = resolved_link v l.
Proof.
  unfold resolved_link. rewrite !assign_type_category.
  f_equal; [f_equal|]; apply forallb_same; intro x; apply assign_type_known.
Qed.

Lemma known_item_lookup v category tag :
  known_item v category tag = true <->
  exists iv,
    option_map (fun cv => get_validator_for_item cv tag)
               (get_validator_for_category v category) = Some (Some iv).
Proof.
  unfold known_item. destruct (get_validator_for_category v category) as [cv|]; cbn.
  - destruct (get_validator_for_item cv tag) as [iv|]; cbn; split; eauto.
    + discriminate.
    + intros [iv H]. discriminate H.
  - split; [discriminate|]. intros [iv H]. discriminate H.
Qed.

(** The loop over the keys: it ends well exactly when every key has a
    validator, it changes no answer of the lookups and adds no link. *)
Lemma link_keys_spec pc cc : forall pks cks v v' r,
  List.length pks = List.length cks ->
  link_keys v pc cc pks cks = (v', r) ->
  is_ok r = forallb (known_item v pc) pks && forallb (known_item v cc) cks /\
  m_link_validators v' = m_link_validators v /\
  (forall l, resolved_link v' l = resolved_link v l).
Proof.
  induction pks as [|pk pks IH]; intros [|ck cks] v v' r Hlen H; try discriminate Hlen.
  - injection H as <- <-. auto.
  - cbn [link_keys] in H. cbn [forallb].
    destruct (known_item v pc pk) eqn:Kp.
    + destruct (proj1 (known_item_lookup v pc pk) Kp) as [piv Ep]. rewrite Ep in H.
      destruct (known_item v cc ck) eqn:Kc.
      * destruct (proj1 (known_item_lookup v cc ck) Kc) as [civ Ec]. rewrite Ec in H.
        injection Hlen as Hlen.
        destruct (IH cks _ v' r Hlen H) as (R1 & R2 & R3).
        destruct (negb (is_some (m_type civ)) && is_some (m_type piv)).
        -- split; [|split].
           ++ rewrite R1. cbn [andb].
              f_equal; apply forallb_same; intro x; apply assign_type_known.
           ++ rewrite R2. reflexivity.
           ++ intro l. rewrite R3. apply assign_type_resolved.
        -- auto.
      * assert (Ec : forall iv,
                  option_map (fun ccv => get_validator_for_item ccv ck)
                             (get_validator_for_category v cc) <> Some (Some iv)).
        { intros iv E. assert (known_item v cc ck = true)
            by (apply known_item_lookup; eauto). congruence. }
        destruct (option_map _ (get_validator_for_category v cc)) as [[civ|]|];
          [exfalso; now apply (Ec civ)| |];
          injection H as <- <-; cbn; rewrite andb_false_r; auto.
    + assert (Ep : forall iv,
                option_map (fun pcv => get_validator_for_item pcv pk)
                           (get_validator_for_category v pc) <> Some (Some iv)).
      { intros iv E. assert (known_item v pc pk = true)
          by (apply known_item_lookup; eauto). congruence. }
      destruct (option_map _ (get_validator_for_category v pc)) as [[piv|]|];
        [exfalso; now apply (Ep piv)| |];
        injection H as <- <-; cbn; auto.
Qed.

Lemma known_item_category v category tags :
  tags <> [] -> forallb (known_item v category) tags = true ->
  is_some (get_validator_for_category v category) = true.
Proof.
  destruct tags as [|t tags]; [contradiction|]. intros _ H. cbn in H.
  apply andb_prop in H as [H _]. unfold known_item in H.
  now destruct (get_validator_for_category v category).
Qed.

(** X27.  A link is added exactly when the validator resolves it: as many
    child keys as parent keys, both categories known and a validator for
    every key. Then it is appended to the links; otherwise the links stay
    as they were. Whatever the outcome, the links that were resolved
    before are resolved afterwards, so a validator whose links are all
    resolved keeps this property. *)
Theorem add_link_validator_resolved (v v' : validator) (l : link_validator)
    (r : result unit)
    (Hadd : add_link_validator v l = (v', r)) :
  is_ok r = resolved_link v l /\
  m_link_validators v' =
    (if is_ok r then m_link_validators v ++ [l] else m_link_validators v)%list /\
  (forallb (resolved_link v) (m_link_validators v) = true ->
   forallb (resolved_link v') (m_link_validators v') = true).
Proof.
  unfold add_link_validator in Hadd. unfold resolved_link at 1.
  destruct (Nat.eqb_spec (List.length (m_parent_keys l)) (List.length (m_child_keys l)))
    as [Hlen|Hlen]; cbn [negb] in Hadd.
  2: { injection Hadd as <- <-. cbn. auto. }
  destruct (get_validator_for_category v (m_parent_category l)) as [pcv|] eqn:Ep.
  2: { injection Hadd as <- <-. cbn. auto. }
  destruct (get_validator_for_category v (m_child_category l)) as [ccv|] eqn:Ec.
  2: { injection Hadd as <- <-. cbn. auto. }
  destruct (link_keys v (m_parent_category l) (m_child_category l)
              (m_parent_keys l) (m_child_keys l)) as [v1 r1] eqn:E.
  destruct (link_keys_spec _ _ _ _ _ _ _ Hlen E) as (R1 & R2 & R3).
  cbn [is_some andb]. rewrite <- R1.
  destruct r1 as [[]|e]; injection Hadd as <- <-; cbn [is_ok].
  - split; [reflexivity|]. cbn [m_link_validators]. rewrite R2.
    split; [reflexivity|]. intro Hall.
    assert (Hsame : forall l0,
              resolved_link
                (mk_validator (v_name v1) (m_strict v1) (m_type_validators v1)
                   (m_category_validators v1) (m_link_validators v ++ [l])) l0 =
              resolved_link v l0).
    { intro l0. rewrite <- R3. reflexivity. }
    rewrite forallb_app. cbn [forallb]. rewrite andb_true_r.
    rewrite (forallb_same _ _ _ Hsame), Hall, Hsame. cbn [andb].
    unfold resolved_link. rewrite Ep, Ec. cbn [is_some andb] in *.
    apply Nat.eqb_eq in Hlen. rewrite Hlen. cbn [andb]. symmetry. exact R1.
  - split; [reflexivity|]. split; [exact R2|]. intro Hall.
    rewrite R2. rewrite (forallb_same _ _ _ R3). exact Hall.
Qed.

Lemma add_link_validator_resolved_witness :
  m_link_validators
    (fst (add_link_validator Examples.test_dict
            (mk_link_validator 1 "CAT_1" ["id"] "cat_1" ["ID"]))) =
  [mk_link_validator 1 "CAT_1" ["id"] "cat_1" ["ID"]].
Proof.
  exact (proj1 (proj2 (add_link_validator_resolved Examples.test_dict _
                         (mk_link_validator 1 "CAT_1" ["id"] "cat_1" ["ID"])
                         (Ok tt) eq_refl))).
Defined.

End LinkProofs.

(** ** Packed symmetry operations *)

Module SymmetryProofs.
Import Symmetry.

(** The bits of one field of a packed word: [w] bits of [d], [k] places up. *)
Lemma field_bits d w k n :
  0 <= w -> 0 <= k -> w + k <= 64 -> 0 <= n ->
  Z.testbit (shl (Z.land (to_uint64 d) (Z.ones w)) k) n =
    (k <=? n) && (n <? k + w) && Z.testbit d (n - k).
Proof.
  intros Hw Hk Hwk Hn. unfold shl, to_uint64.
  destruct (Z.ltb_spec n 64) as [H64|H64].
  - rewrite Z.mod_pow2_bits_low by lia.
    rewrite Z.shiftl_spec by lia.
    destruct (Z.leb_spec k n) as [Hkn|Hkn].
    + rewrite Z.land_spec, Z.testbit_ones by lia.
      rewrite Z.mod_pow2_bits_low by lia.
      destruct (Z.leb_spec 0 (n - k)); [|lia].
      destruct (Z.ltb_spec (n - k) w), (Z.ltb_spec n (k + w)); try lia;
        cbn; now rewrite ?andb_false_r, ?andb_true_r.
    + now rewrite Z.testbit_neg_r by lia.
  - rewrite Z.mod_pow2_bits_high by lia.
    destruct (Z.ltb_spec n (k + w)); [lia|]. now rewrite andb_false_r.
Qed.

Lemma land_to_int z w :
  0 <= w <= 32 -> Z.land (to_int z) (Z.ones w) = Z.land z (Z.ones w).
Proof.
  intro Hw. rewrite !Z.land_ones by lia.
  assert (P : 0 < 2 ^ w) by (apply Z.pow_pos_nonneg; lia).
  assert (E : to_int z = z + (- ((z + 2 ^ 31) / 2 ^ 32) * 2 ^ (32 - w)) * 2 ^ w).
  { unfold to_int. rewrite Z.mod_eq by lia.
    rewrite <- Z.mul_assoc, <- Z.pow_add_r by lia.
    replace (32 - w + w) with 32 by lia. lia. }
  rewrite E. apply Z.mod_add. lia.
Qed.

Ltac decide_comparisons :=
  repeat match goal with
  | |- context [?a <=? ?b] =>
      first [ replace (a <=? b) with true by (symmetry; apply Z.leb_le; lia)
            | replace (a <=? b) with false by (symmetry; apply Z.leb_gt; lia) ]
  | |- context [?a <? ?b] =>
      first [ replace (a <? b) with true by (symmetry; apply Z.ltb_lt; lia)
            | replace (a <? b) with false by (symmetry; apply Z.ltb_ge; lia) ]
  end.

(** The bits of [m_packed] as the constructor leaves it. *)
Lemma packed_bits d n :
  0 <= n ->
  Z.testbit (m_packed (new_symop_data d)) n =
    (  (34 <=? n) && (n <? 36) && Z.testbit (at_ d 0) (n - 34)
    || (32 <=? n) && (n <? 34) && Z.testbit (at_ d 1) (n - 32)
    || (30 <=? n) && (n <? 32) && Z.testbit (at_ d 2) (n - 30)
    || (28 <=? n) && (n <? 30) && Z.testbit (at_ d 3) (n - 28)
    || (26 <=? n) && (n <? 28) && Z.testbit (at_ d 4) (n - 26)
    || (24 <=? n) && (n <? 26) && Z.testbit (at_ d 5) (n - 24)
    || (22 <=? n) && (n <? 24) && Z.testbit (at_ d 6) (n - 22)
    || (20 <=? n) && (n <? 22) && Z.testbit (at_ d 7) (n - 20)
    || (18 <=? n) && (n <? 20) && Z.testbit (at_ d 8) (n - 18)
    || (15 <=? n) && (n <? 18) && Z.testbit (at_ d 9) (n - 15)
    || (12 <=? n) && (n <? 15) && Z.testbit (at_ d 10) (n - 12)
    || (9 <=? n) && (n <? 12) && Z.testbit (at_ d 11) (n - 9)
    || (6 <=? n) && (n <? 9) && Z.testbit (at_ d 12) (n - 6)
    || (3 <=? n) && (n <? 6) && Z.testbit (at_ d 13) (n - 3)
    || (0 <=? n) && (n <? 3) && Z.testbit (at_ d 14) (n - 0))%bool.
Proof.
  intro Hn. unfold new_symop_data. cbn [m_packed].
  change 3 with (Z.ones 2) at 1 2 3 4 5 6 7 8 9.
  change 7 with (Z.ones 3).
  rewrite !Z.lor_spec. rewrite !field_bits by lia. reflexivity.
Qed.

Lemma entry_value P k w v :
  0 <= k -> 0 <= w <= 32 ->
  (forall n, 0 <= n < w -> Z.testbit P (n + k) = Z.testbit v n) ->
  Z.land (to_int (Z.shiftr P k)) (Z.ones w) = v mod 2 ^ w.
Proof.
  intros Hk Hw H. rewrite land_to_int by lia.
  apply Z.bits_inj'. intros n Hn.
  rewrite Z.land_spec, Z.shiftr_spec, Z.testbit_ones by lia.
  destruct (Z.leb_spec 0 n); [|lia]. cbn [andb].
  destruct (Z.ltb_spec n w).
  - rewrite Z.mod_pow2_bits_low by lia. rewrite H by lia. apply andb_true_r.
  - rewrite Z.mod_pow2_bits_high by lia. apply andb_false_r.
Qed.

Ltac read_field :=
  intros n Hn; rewrite packed_bits by lia; decide_comparisons;
  cbn [andb orb]; rewrite ?orb_false_r; f_equal; lia.

(** The entries of [data()] after the constructor. *)
Lemma unpacked_entries (d : list Z) :
  data (new_symop_data d) =
    [ at_ d 0 mod 4; at_ d 1 mod 4; at_ d 2 mod 4;
      at_ d 3 mod 4; at_ d 4 mod 4; at_ d 5 mod 4;
      at_ d 6 mod 4; at_ d 7 mod 4; at_ d 8 mod 4;
      at_ d 9 mod 8; at_ d 10 mod 8; at_ d 11 mod 8;
      at_ d 12 mod 8; at_ d 13 mod 8; at_ d 14 mod 8 ].
Proof.
  unfold data.
  rewrite (entry_value _ 34 2 (at_ d 0)) by (try lia; read_field).
  rewrite (entry_value _ 32 2 (at_ d 1)) by (try lia; read_field).
  rewrite (entry_value _ 30 2 (at_ d 2)) by (try lia; read_field).
  rewrite (entry_value _ 28 2 (at_ d 3)) by (try lia; read_field).
  rewrite (entry_value _ 26 2 (at_ d 4)) by (try lia; read_field).
  rewrite (entry_value _ 24 2 (at_ d 5)) by (try lia; read_field).
  rewrite (entry_value _ 22 2 (at_ d 6)) by (try lia; read_field).
  rewrite (entry_value _ 20 2 (at_ d 7)) by (try lia; read_field).
  rewrite (entry_value _ 18 2 (at_ d 8)) by (try lia; read_field).
  rewrite (entry_value _ 15 3 (at_ d 9)) by (try lia; read_field).
  rewrite (entry_value _ 12 3 (at_ d 10)) by (try lia; read_field).
  rewrite (entry_value _ 9 3 (at_ d 11)) by (try lia; read_field).
  rewrite (entry_value _ 6 3 (at_ d 12)) by (try lia; read_field).
  rewrite (entry_value _ 3 3 (at_ d 13)) by (try lia; read_field).
  rewrite (entry_value _ 0 3 (at_ d 14)) by (try lia; read_field).
  reflexivity.
Qed.

(** X28.  [data()] of a packed symmetry operation gives the fifteen
    numbers it was built from, the first nine reduced modulo 4 and the
    last six modulo 8: so -1 is read back as 3, and numbers already in
    range are read back unchanged. *)
Theorem symop_data_round_trip (d : list Z) :
  data (new_symop_data d) =
    [ at_ d 0 mod 4; at_ d 1 mod 4; at_ d 2 mod 4;
      at_ d 3 mod 4; at_ d 4 mod 4; at_ d 5 mod 4;
      at_ d 6 mod 4; at_ d 7 mod 4; at_ d 8 mod 4;
      at_ d 9 mod 8; at_ d 10 mod 8; at_ d 11 mod 8;
      at_ d 12 mod 8; at_ d 13 mod 8; at_ d 14 mod 8 ].
Proof. exact (unpacked_entries d). Qed.

Lemma packed_high d n : 36 <= n -> Z.testbit (m_packed (new_symop_data d)) n = false.
Proof. intro Hn. rewrite packed_bits by lia. decide_comparisons. reflexivity. Qed.

Lemma datablock_bits sg rot d n :
  0 <= n ->
  Z.testbit (m_v (new_symop_datablock sg rot d)) n =
    (  (48 <=? n) && (n <? 64) && Z.testbit sg (n - 48)
    || (40 <=? n) && (n <? 48) && Z.testbit rot (n - 40)
    || Z.testbit (m_packed (new_symop_data d)) n)%bool.
Proof.
  intro Hn. unfold new_symop_datablock. cbn [m_v].
  change 65535 with (Z.ones 16). change 255 with (Z.ones 8).
  rewrite !Z.lor_spec, !field_bits by lia. reflexivity.
Qed.

(** X29.  The three parts of a packed table entry do not overlap:
    [spacegroup()] is the space group number modulo 2^16,
    [rotational_number()] the rotational number modulo 2^8, and [symop()]
    the packed operation the entry was built from. *)
Theorem symop_datablock_fields (sg rot : Z) (d : list Z) :
  spacegroup (new_symop_datablock sg rot d) = sg mod 2 ^ 16 /\
  rotational_number (new_symop_datablock sg rot d) = rot mod 2 ^ 8 /\
  symop (new_symop_datablock sg rot d) = new_symop_data d.
Proof.
  split; [|split].
  - unfold spacegroup, to_uint16. apply Z.bits_inj'. intros n Hn.
    destruct (Z.ltb_spec n 16).
    + rewrite !Z.mod_pow2_bits_low by lia.
      rewrite Z.shiftr_spec, datablock_bits, packed_high by lia.
      decide_comparisons. cbn [andb orb]. rewrite ?orb_false_r. f_equal. lia.
    + now rewrite !Z.mod_pow2_bits_high by lia.
  - unfold rotational_number, to_uint8. change 255 with (Z.ones 8).
    rewrite Z.land_ones, Z.mod_mod by lia.
    apply Z.bits_inj'. intros n Hn.
    destruct (Z.ltb_spec n 8).
    + rewrite !Z.mod_pow2_bits_low by lia.
      rewrite Z.shiftr_spec, datablock_bits, packed_high by lia.
      decide_comparisons. cbn [andb orb]. rewrite ?orb_false_r. f_equal. lia.
    + now rewrite !Z.mod_pow2_bits_high by lia.
  - unfold symop, symop_data_of_uint64.
    destruct (new_symop_data d) as [P] eqn:E. f_equal.
    change kPackMask with (Z.ones 36).
    apply Z.bits_inj'. intros n Hn.
    rewrite Z.land_spec, Z.testbit_ones, datablock_bits by lia.
    rewrite E. cbn [m_packed].
    destruct (Z.ltb_spec n 36).
    + decide_comparisons. cbn [andb orb]. apply andb_true_r.
    + replace P with (m_packed (new_symop_data d)) by now rewrite E.
      rewrite packed_high by lia. decide_comparisons.
      now rewrite !andb_false_r.
Qed.

(** X30.  Two packed operations are equal exactly when [data()] gives the
    same fifteen numbers for both. *)
Theorem symop_data_eq_data (a b : list Z) :
  symop_data_eq (new_symop_data a) (new_symop_data b) = true <->
  data (new_symop_data a) = data (new_symop_data b).
Proof.
  unfold symop_data_eq. rewrite Z.eqb_eq. split.
  - intro H. unfold data. now rewrite H.
  - rewrite !unpacked_entries. intro H.
    injection H as H0 H1 H2 H3 H4 H5 H6 H7 H8 H9 H10 H11 H12 H13 H14.
    assert (B : forall x y w i, 0 <= i < w -> x mod 2 ^ w = y mod 2 ^ w ->
                  Z.testbit x i = Z.testbit y i).
    { intros x y w i Hi Hxy.
      rewrite <- (Z.mod_pow2_bits_low x w i), <- (Z.mod_pow2_bits_low y w i) by lia.
      now rewrite Hxy. }
    apply Z.bits_inj'. intros n Hn. rewrite !packed_bits by lia.
    destruct (Z.ltb_spec n 3); [decide_comparisons; cbn [andb orb]; apply (B _ _ 3); [lia|assumption]|].
    destruct (Z.ltb_spec n 6); [decide_comparisons; cbn [andb orb]; rewrite ?orb_false_r; apply (B _ _ 3); [lia|assumption]|].
    destruct (Z.ltb_spec n 9); [decide_comparisons; cbn [andb orb]; rewrite ?orb_false_r; apply (B _ _ 3); [lia|assumption]|].
    destruct (Z.ltb_spec n 12); [decide_comparisons; cbn [andb orb]; rewrite ?orb_false_r; apply (B _ _ 3); [lia|assumption]|].
    destruct (Z.ltb_spec n 15); [decide_comparisons; cbn [andb orb]; rewrite ?orb_false_r; apply (B _ _ 3); [lia|assumption]|].
    destruct (Z.ltb_spec n 18); [decide_comparisons; cbn [andb orb]; rewrite ?orb_false_r; apply (B _ _ 3); [lia|assumption]|].
    destruct (Z.ltb_spec n 20); [decide_comparisons; cbn [andb orb]; rewrite ?orb_false_r; apply (B _ _ 2); [lia|assumption]|].
    destruct (Z.ltb_spec n 22); [decide_comparisons; cbn [andb orb]; rewrite ?orb_false_r; apply (B _ _ 2); [lia|assumption]|].
    destruct (Z.ltb_spec n 24); [decide_comparisons; cbn [andb orb]; rewrite ?orb_false_r; apply (B _ _ 2); [lia|assumption]|].
    destruct (Z.ltb_spec n 26); [decide_comparisons; cbn [andb orb]; rewrite ?orb_false_r; apply (B _ _ 2); [lia|assumption]|].
    destruct (Z.ltb_spec n 28); [decide_comparisons; cbn [andb orb]; rewrite ?orb_false_r; apply (B _ _ 2); [lia|assumption]|].
    destruct (Z.ltb_spec n 30); [decide_comparisons; cbn [andb orb]; rewrite ?orb_false_r; apply (B _ _ 2); [lia|assumption]|].
    destruct (Z.ltb_spec n 32); [decide_comparisons; cbn [andb orb]; rewrite ?orb_false_r; apply (B _ _ 2); [lia|assumption]|].
    destruct (Z.ltb_spec n 34); [decide_comparisons; cbn [andb orb]; rewrite ?orb_false_r; apply (B _ _ 2); [lia|assumption]|].
    destruct (Z.ltb_spec n 36); [decide_comparisons; cbn [andb orb]; rewrite ?orb_false_r; apply (B _ _ 2); [lia|assumption]|].
    decide_comparisons. reflexivity.
Qed.

End SymmetryProofs.
